(** * rdgDB: a shallow embedding of the storage engine, the write-ahead log,
      the durability facade and the query front end.

    Go packages become modules of the same name ([graph] types, [Graph],
    [WAL], [PersistentGraph], [Lexer], [Parser], the executor helpers).
    Conventions of the embedding:
    - [uint64] values (IDs, counters, WAL indexes) are [Z] with the
      wrap-around modulo 2^64 written out ([wrap64]);
    - Go maps are [gmap]s; a nil map and an empty map are both [∅] where the
      code only ranges over them and reads their length; the properties
      that a caller hands to the facade go into a WAL record as well, and
      there a nil [graph.Properties] is told apart ([None],
      [VNilProperties]);
    - [*graph.Node] and [*graph.Edge] pointers stored in the graph maps are
      represented by the map entry itself: a method called through such a
      pointer is an [alter] of the entry under the node's (edge's) key;
    - mutexes and timestamps are left out: every operation is modelled as
      one atomic step of a single thread;
    - operations that may fail return a [res]; disk faults are supplied by an
      explicit fault argument of the operation that touches the disk. *)

From Stdlib Require Import ZArith List String Ascii Bool Lia.
From Stdlib Require Import Floats.SpecFloat.
From stdpp Require Import gmap strings list fin_maps.

#[local] Set Warnings "-register-all".
#[local] Open Scope Z_scope.

(** ** Machine integers and doubles *)

Definition wrap64 (z : Z) : Z := z mod 2 ^ 64.

(** [float64] is IEEE-754 binary64, in the Standard Library's specification
    of floating-point numbers. *)
Definition float64 : Type := spec_float.

(** Go's conversion [float64(i)] of an integer: round to nearest, ties to
    even.  It is also the value [encoding/json] decodes for the decimal
    text of the integer [i]. *)
Definition float64_of_Z (z : Z) : float64 := binary_normalize 53 1024 z 0 false.

(** Go's conversion [uint64(f)]: truncation toward zero.  For a value that
    [uint64] cannot represent (negative, infinite, NaN) Go leaves the result
    implementation-dependent; 0 is chosen here, and a value above 2^64
    wraps. *)
Definition uint64_of_float64 (f : float64) : Z :=
  match f with
  | S754_finite false m e => wrap64 (Z.shiftl (Z.pos m) e)
  | _ => 0
  end.

Definition float64_lt (a b : float64) : bool := SFltb a b.
Definition float64_le (a b : float64) : bool := SFleb a b.
Definition float64_zero : float64 := S754_zero false.

Definition float64_is_finite (f : float64) : bool :=
  match f with
  | S754_zero _ | S754_finite _ _ _ => true
  | S754_infinity _ | S754_nan => false
  end.

(** ** Errors *)

Inductive error : Type :=
| ErrNodeNotFound (id : Z)            (* "node %d not found" *)
| ErrEdgeNotFound (id : Z)            (* "edge %d not found" *)
| ErrIO (what : string)               (* an error of the os / json layer *)
| ErrMsg (msg : string)               (* fmt.Errorf with a fixed message *)
| ErrPanic (msg : string)             (* a run-time panic (failed type assertion) *)
| ErrOutOfFuel                        (* the model's loop bound was reached *)
| ErrWrap (ctx : string) (e : error). (* fmt.Errorf("ctx: %w", err) *)

Inductive res (A : Type) : Type :=
| Ok (a : A)
| Err (e : error).
Arguments Ok {A} a.
Arguments Err {A} e.

Definition is_ok {A} (r : res A) : bool :=
  match r with Ok _ => true | Err _ => false end.

(** ** internal/graph: values, nodes and edges *)

(** [PropertyValue] is [interface{}].  The dynamic types modelled are the
    scalars of the data model, the typed IDs and property maps that the WAL
    puts into a record, and the generic object that [encoding/json] decodes
    a JSON object to. *)
Inductive Value : Type :=
| VNil
| VBool (b : bool)
| VInt (i : Z)                          (* int *)
| VInt64 (i : Z)                        (* int64 *)
| VUint64 (n : Z)                       (* graph.NodeID, graph.EdgeID *)
| VFloat64 (f : float64)
| VString (s : string)
| VProperties (m : gmap string Value)   (* graph.Properties, a map *)
| VNilProperties                        (* graph.Properties(nil) *)
| VMap (m : gmap string Value).         (* map[string]interface{} *)

Definition PropertyValue : Type := Value.
Abbreviation Properties := (gmap string Value).

Record Node : Type := {
  nID : Z;
  nLabel : string;
  nProperties : Properties;
  OutEdges : list Z;
  InEdges : list Z
}.

Record Edge : Type := {
  eID : Z;
  Source : Z;
  Target : Z;
  eLabel : string;
  eProperties : Properties
}.

Module Node.
Definition GetProperty (n : Node) (key : string) : option Value :=
  nProperties n !! key.

Definition SetProperty (key : string) (value : Value) (n : Node) : Node :=
  {| nID := nID n; nLabel := nLabel n;
     nProperties := <[key := value]> (nProperties n);
     OutEdges := OutEdges n; InEdges := InEdges n |}.

Definition AddOutEdge (edgeID : Z) (n : Node) : Node :=
  {| nID := nID n; nLabel := nLabel n; nProperties := nProperties n;
     OutEdges := OutEdges n ++ [edgeID]; InEdges := InEdges n |}.

Definition AddInEdge (edgeID : Z) (n : Node) : Node :=
  {| nID := nID n; nLabel := nLabel n; nProperties := nProperties n;
     OutEdges := OutEdges n; InEdges := InEdges n ++ [edgeID] |}.
End Node.

Module Edge.
Definition GetProperty (e : Edge) (key : string) : option Value :=
  eProperties e !! key.

Definition SetProperty (key : string) (value : Value) (e : Edge) : Edge :=
  {| eID := eID e; Source := Source e; Target := Target e; eLabel := eLabel e;
     eProperties := <[key := value]> (eProperties e) |}.
End Edge.

Definition NewNode (id : Z) (label : string) : Node :=
  {| nID := id; nLabel := label; nProperties := ∅; OutEdges := []; InEdges := [] |}.

Definition NewEdge (id source target : Z) (label : string) : Edge :=
  {| eID := id; Source := source; Target := target; eLabel := label;
     eProperties := ∅ |}.

(** [for k, v := range properties { x.SetProperty(k, v) }] *)
Definition set_all_node (properties : Properties) (n : Node) : Node :=
  map_fold Node.SetProperty n properties.

Definition set_all_edge (properties : Properties) (e : Edge) : Edge :=
  map_fold Edge.SetProperty e properties.

(** ** pkg/storage: the in-memory graph *)

Record Graph : Type := {
  nodes : gmap Z Node;
  edges : gmap Z Edge;
  nextNodeID : Z;
  nextEdgeID : Z
}.

(** [for i, eid := range l { if eid == edgeID { l = append(l[:i], l[i+1:]...); break } }] *)
Fixpoint remove_first (edgeID : Z) (l : list Z) : list Z :=
  match l with
  | [] => []
  | eid :: rest => if Z.eqb eid edgeID then rest else eid :: remove_first edgeID rest
  end.

Module Graph.
Definition NewGraph : Graph :=
  {| nodes := ∅; edges := ∅; nextNodeID := 1; nextEdgeID := 1 |}.

Definition set_nodes (ns : gmap Z Node) (g : Graph) : Graph :=
  {| nodes := ns; edges := edges g;
     nextNodeID := nextNodeID g; nextEdgeID := nextEdgeID g |}.

Definition set_edges (es : gmap Z Edge) (g : Graph) : Graph :=
  {| nodes := nodes g; edges := es;
     nextNodeID := nextNodeID g; nextEdgeID := nextEdgeID g |}.

Definition AddNode (label : string) (properties : Properties) (g : Graph)
  : res Node * Graph :=
  (* nodeID := graph.NodeID(g.nextNodeID.Add(1) - 1) *)
  let next := wrap64 (nextNodeID g + 1) in
  let nodeID := wrap64 (next - 1) in
  let node := set_all_node properties (NewNode nodeID label) in
  (Ok node,
   {| nodes := <[nodeID := node]> (nodes g); edges := edges g;
      nextNodeID := next; nextEdgeID := nextEdgeID g |}).

Definition GetNode (id : Z) (g : Graph) : res Node :=
  match nodes g !! id with
  | Some node => Ok node
  | None => Err (ErrNodeNotFound id)
  end.

Definition GetEdge (id : Z) (g : Graph) : res Edge :=
  match edges g !! id with
  | Some edge => Ok edge
  | None => Err (ErrEdgeNotFound id)
  end.

Definition AddEdge (source target : Z) (label : string) (properties : Properties)
    (g : Graph) : res Edge * Graph :=
  match GetNode source g with
  | Err err => (Err (ErrWrap "source node" err), g)
  | Ok _ =>
    match GetNode target g with
    | Err err => (Err (ErrWrap "target node" err), g)
    | Ok _ =>
      let next := wrap64 (nextEdgeID g + 1) in
      let edgeID := wrap64 (next - 1) in
      let edge := set_all_edge properties (NewEdge edgeID source target label) in
      let es := <[edgeID := edge]> (edges g) in
      (* srcNode.AddOutEdge(edgeID); tgtNode.AddInEdge(edgeID) *)
      let ns := alter (Node.AddOutEdge edgeID) source (nodes g) in
      let ns := alter (Node.AddInEdge edgeID) target ns in
      (Ok edge,
       {| nodes := ns; edges := es;
          nextNodeID := nextNodeID g; nextEdgeID := next |})
    end
  end.

Definition NodeCount (g : Graph) : nat := size (nodes g).
Definition EdgeCount (g : Graph) : nat := size (edges g).

Definition removeOutEdge (edgeID : Z) (n : Node) : Node :=
  {| nID := nID n; nLabel := nLabel n; nProperties := nProperties n;
     OutEdges := remove_first edgeID (OutEdges n); InEdges := InEdges n |}.

Definition removeInEdge (edgeID : Z) (n : Node) : Node :=
  {| nID := nID n; nLabel := nLabel n; nProperties := nProperties n;
     OutEdges := OutEdges n; InEdges := remove_first edgeID (InEdges n) |}.

Definition DeleteEdge (id : Z) (g : Graph) : option error * Graph :=
  match GetEdge id g with
  | Err err => (Some err, g)
  | Ok edge =>
    (* a missing endpoint is skipped: alter leaves an absent key alone *)
    let ns := alter (removeOutEdge id) (Source edge) (nodes g) in
    let ns := alter (removeInEdge id) (Target edge) ns in
    (None,
     {| nodes := ns; edges := delete id (edges g);
        nextNodeID := nextNodeID g; nextEdgeID := nextEdgeID g |})
  end.

(** [for _, edgeID := range ids { g.DeleteEdge(edgeID) }], errors dropped *)
Definition delete_edges (ids : list Z) (g : Graph) : Graph :=
  fold_left (fun g edgeID => snd (DeleteEdge edgeID g)) ids g.

Definition DeleteNode (id : Z) (g : Graph) : option error * Graph :=
  match GetNode id g with
  | Err err => (Some err, g)
  | Ok node =>
    let outEdges := OutEdges node in
    let inEdges := InEdges node in
    let g := delete_edges outEdges g in
    let g := delete_edges inEdges g in
    (None, set_nodes (delete id (nodes g)) g)
  end.

Definition neighbor_of (pick : Edge -> Z) (g : Graph) (edgeID : Z) : option Node :=
  match GetEdge edgeID g with
  | Err _ => None
  | Ok edge =>
    match GetNode (pick edge) g with
    | Err _ => None
    | Ok neighbor => Some neighbor
    end
  end.

Definition GetNeighbors (nodeID : Z) (g : Graph) : res (list Node) :=
  match GetNode nodeID g with
  | Err err => Err err
  | Ok node => Ok (omap (neighbor_of Target g) (OutEdges node))
  end.

Definition GetIncomingNeighbors (nodeID : Z) (g : Graph) : res (list Node) :=
  match GetNode nodeID g with
  | Err err => Err err
  | Ok node => Ok (omap (neighbor_of Source g) (InEdges node))
  end.
End Graph.

(** ** encoding/json, as far as the WAL and the snapshots use it *)

(** [Encode] fails on a float that is NaN or infinite ("unsupported value");
    every other modelled value has a JSON text. *)
Fixpoint json_encodable (v : Value) : bool :=
  match v with
  | VFloat64 f => float64_is_finite f
  | VProperties m | VMap m => map_fold (fun _ x acc => json_encodable x && acc) true m
  | _ => true
  end.

(** *** Strings

    [Encode] writes a string as JSON text byte by byte: where
    [utf8.DecodeRuneInString] finds no well-formed encoding it writes the
    escape of U+FFFD and moves on by one byte.  Every other byte is read
    back as it was (the escapes of control characters, of the quote, of
    [<], [>], [&] and of U+2028 and U+2029 are undone by the decoder). *)

Definition byte_between (lo hi : nat) (c : ascii) : bool :=
  (lo <=? nat_of_ascii c)%nat && (nat_of_ascii c <=? hi)%nat.

(** [utf8.DecodeRuneInString]: the size of the encoding at the head of [s],
    [None] where the function returns [(RuneError, 1)] or the string is
    empty.  The size and the range of the second byte are those of the
    tables [first] and [acceptRanges]. *)
Definition rune_size (s : string) : option nat :=
  match s with
  | EmptyString => None
  | String s0 rest =>
    let b := nat_of_ascii s0 in
    if (b <? 128)%nat then Some 1%nat
    else
      let shape : option (nat * nat * nat) :=
        if (b <? 194)%nat then None                            (* 0x80-0xC1 *)
        else if (b <? 224)%nat then Some (2, 128, 191)%nat     (* 0xC2-0xDF *)
        else if (b =? 224)%nat then Some (3, 160, 191)%nat     (* 0xE0 *)
        else if (b =? 237)%nat then Some (3, 128, 159)%nat     (* 0xED *)
        else if (b <? 240)%nat then Some (3, 128, 191)%nat     (* 0xE1-0xEF *)
        else if (b =? 240)%nat then Some (4, 144, 191)%nat     (* 0xF0 *)
        else if (b <? 244)%nat then Some (4, 128, 191)%nat     (* 0xF1-0xF3 *)
        else if (b =? 244)%nat then Some (4, 128, 143)%nat     (* 0xF4 *)
        else None in                                           (* 0xF5-0xFF *)
      match shape, rest with
      | Some (2%nat, lo, hi), String s1 _ =>
        if byte_between lo hi s1 then Some 2%nat else None
      | Some (3%nat, lo, hi), String s1 (String s2 _) =>
        if byte_between lo hi s1 && byte_between 128 191 s2 then Some 3%nat else None
      | Some (4%nat, lo, hi), String s1 (String s2 (String s3 _)) =>
        if byte_between lo hi s1 && byte_between 128 191 s2 && byte_between 128 191 s3
        then Some 4%nat else None
      | _, _ => None
      end
  end.

(** The encoding of U+FFFD. *)
Definition replacement_char (rest : string) : string :=
  String "239" (String "191" (String "189" rest)).

(** [skip] counts the bytes that remain of the encoding being copied. *)
Fixpoint sanitize (skip : nat) (s : string) : string :=
  match s with
  | EmptyString => EmptyString
  | String c rest =>
    match skip with
    | S k => String c (sanitize k rest)
    | O =>
      match rune_size s with
      | Some size => String c (sanitize (size - 1) rest)
      | None => replacement_char (sanitize 0 rest)
      end
    end
  end.

(** The string that is read back for the string [s]. *)
Definition json_string (s : string) : string := sanitize 0 s.

Fixpoint valid_from (skip : nat) (s : string) : bool :=
  match s with
  | EmptyString => true
  | String c rest =>
    match skip with
    | S k => valid_from k rest
    | O =>
      match rune_size s with
      | Some size => valid_from (size - 1) rest
      | None => false
      end
    end
  end.

(** [utf8.ValidString] *)
Definition ValidString (s : string) : bool := valid_from 0 s.

(** *** Objects

    [Encode] writes the keys of a map as strings, in the order of the keys
    as they are in the map ([strings.Compare]).  The decoder stores the
    members one after the other, so of the keys that are written as the
    same text the last one written, the greatest, is the one read back. *)
Definition json_object (m : gmap string Value) : gmap string Value :=
  snd <$>
    map_fold
      (fun k v (acc : gmap string (string * Value)) =>
         match acc !! json_string k with
         | Some (k0, _) =>
           if String.ltb k0 k then <[json_string k := (k, v)]> acc else acc
         | None => <[json_string k := (k, v)]> acc
         end) ∅ m.

(** The value that decoding into an [interface{}] yields for the text that
    [Encode] wrote for [v]: every JSON number is decoded as a [float64],
    every JSON object as a [map[string]interface{}], and a nil map, which
    is written as [null], as nil.  A finite double is printed with the
    shortest digits that read back as the same double. *)
Fixpoint json_decoded (v : Value) : Value :=
  match v with
  | VNil | VNilProperties => VNil
  | VBool b => VBool b
  | VInt i | VInt64 i | VUint64 i => VFloat64 (float64_of_Z i)
  | VFloat64 f => VFloat64 f
  | VString s => VString (json_string s)
  | VProperties m | VMap m => VMap (json_object (json_decoded <$> m))
  end.

(** The map that is read back for the map [m], into a
    [map[string]interface{}] or a [graph.Properties]. *)
Definition json_props (m : gmap string Value) : gmap string Value :=
  json_object (json_decoded <$> m).

Definition props_encodable (m : gmap string Value) : bool :=
  map_fold (fun _ x acc => json_encodable x && acc) true m.

(** [x.(float64)], [x.(string)]: a failed assertion panics. *)
Definition as_float64 (v : Value) : res float64 :=
  match v with
  | VFloat64 f => Ok f
  | _ => Err (ErrPanic "interface conversion: not float64")
  end.

Definition as_string (v : Value) : res string :=
  match v with
  | VString s => Ok s
  | _ => Err (ErrPanic "interface conversion: not string")
  end.

(** [m[key]] on a [map[string]interface{}]: a missing key reads as nil. *)
Definition index_data (m : gmap string Value) (key : string) : Value :=
  default VNil (m !! key).

(** ** pkg/wal: the write-ahead log *)

Definition OpAddNode : string := "ADD_NODE".
Definition OpAddEdge : string := "ADD_EDGE".
Definition OpDeleteNode : string := "DELETE_NODE".
Definition OpDeleteEdge : string := "DELETE_EDGE".
Definition OpSetNodeProp : string := "SET_NODE_PROP".
Definition OpSetEdgeProp : string := "SET_EDGE_PROP".

Record LogEntry : Type := {
  Index : Z;
  OpType : string;
  Data : gmap string Value
}.

(** The state of a [WAL] together with its file: [log] is the sequence of
    entries that decoding [wal.log] yields, [closed] tells whether the
    handle [w.file] has been closed. *)
Record WAL : Type := {
  log : list LogEntry;
  nextIndex : Z;
  closed : bool
}.

Inductive AppendFault : Type :=
| AppendNoFault
| AppendWriteFails    (* the encoder's write to the file fails *)
| AppendSyncFails.    (* the record is written, file.Sync fails *)

Inductive TruncateFault : Type :=
| TruncNoFault
| TruncOpenReadFails          (* os.Open *)
| TruncCloseFails             (* w.file.Close *)
| TruncOpenWriteFails         (* os.OpenFile with O_TRUNC *)
| TruncEncodeFails (k : nat)  (* the write of retained entry number k *)
| TruncSyncFails.             (* w.file.Sync *)

(** A [graph.Properties] argument: [None] is the nil map, which callers
    pass for "no properties". *)
Definition props_value (properties : option Properties) : Value :=
  match properties with
  | Some m => VProperties m
  | None => VNilProperties
  end.

Module WAL.
(** [loadLastIndex]'s scan *)
Definition lastIndex (entries : list LogEntry) : Z :=
  fold_left (fun lastIndex entry =>
               if Z.ltb lastIndex (Index entry) then Index entry else lastIndex)
            entries 0.

(** [NewWAL] on a directory whose [wal.log] decodes to [entries]
    (an absent or empty file is [[]]). *)
Definition NewWAL (entries : list LogEntry) : WAL :=
  {| log := entries; nextIndex := wrap64 (lastIndex entries + 1); closed := false |}.

Definition Append (fault : AppendFault) (opType : string) (data : gmap string Value)
    (w : WAL) : res Z * WAL :=
  let entry := {| Index := nextIndex w; OpType := opType; Data := data |} in
  if negb (props_encodable data) then
    (Err (ErrWrap "failed to encode entry" (ErrIO "json: unsupported value")), w)
  else if closed w then
    (Err (ErrWrap "failed to encode entry" (ErrIO "file already closed")), w)
  else
    match fault with
    | AppendWriteFails =>
      (Err (ErrWrap "failed to encode entry" (ErrIO "write")), w)
    | _ =>
      let written :=
        {| Index := Index entry; OpType := json_string (OpType entry);
           Data := json_props (Data entry) |} in
      let w1 := {| log := log w ++ [written]; nextIndex := nextIndex w;
                   closed := closed w |} in
      match fault with
      | AppendSyncFails => (Err (ErrWrap "failed to sync WAL" (ErrIO "fsync")), w1)
      | _ =>
        let index := nextIndex w in
        (Ok index,
         {| log := log w1; nextIndex := wrap64 (nextIndex w + 1); closed := closed w1 |})
      end
    end.

Definition drop_index {A} (r : res A * WAL) : option error * WAL :=
  match r with
  | (Ok _, w) => (None, w)
  | (Err err, w) => (Some err, w)
  end.

Definition LogAddNode (fault : AppendFault) (nodeID : Z) (label : string)
    (properties : option Properties) (w : WAL) : option error * WAL :=
  let data : gmap string Value :=
    <["node_id" := VUint64 nodeID]>
      (<["label" := VString label]>
         (<["properties" := props_value properties]> ∅)) in
  drop_index (Append fault OpAddNode data w).

Definition LogAddEdge (fault : AppendFault) (edgeID source target : Z)
    (label : string) (properties : option Properties) (w : WAL) : option error * WAL :=
  let data : gmap string Value :=
    <["edge_id" := VUint64 edgeID]>
      (<["source" := VUint64 source]>
         (<["target" := VUint64 target]>
            (<["label" := VString label]>
               (<["properties" := props_value properties]> ∅)))) in
  drop_index (Append fault OpAddEdge data w).

Definition LogDeleteNode (fault : AppendFault) (nodeID : Z) (w : WAL)
  : option error * WAL :=
  let data : gmap string Value := <["node_id" := VUint64 nodeID]> ∅ in
  drop_index (Append fault OpDeleteNode data w).

Definition LogDeleteEdge (fault : AppendFault) (edgeID : Z) (w : WAL)
  : option error * WAL :=
  let data : gmap string Value := <["edge_id" := VUint64 edgeID]> ∅ in
  drop_index (Append fault OpDeleteEdge data w).

(** [Replay]: the handler is a closure over the state [St] it updates. *)
Fixpoint replay_loop {St} (handler : LogEntry -> St -> option error * St)
    (entries : list LogEntry) (s : St) : option error * St :=
  match entries with
  | [] => (None, s)
  | entry :: rest =>
    match handler entry s with
    | (Some err, s') => (Some (ErrWrap "handler failed for entry" err), s')
    | (None, s') => replay_loop handler rest s'
    end
  end.

Definition Replay {St} (handler : LogEntry -> St -> option error * St)
    (w : WAL) (s : St) : option error * St :=
  replay_loop handler (log w) s.

Definition Close (w : WAL) : option error * WAL :=
  if closed w then (Some (ErrIO "file already closed"), w)
  else (None, {| log := log w; nextIndex := nextIndex w; closed := true |}).

(** The entries are re-encoded from what the decoder returned for them;
    a decoded entry is written back as the same record. *)
Definition Truncate (fault : TruncateFault) (beforeIndex : Z) (w : WAL)
  : option error * WAL :=
  match fault with
  | TruncOpenReadFails => (Some (ErrIO "open"), w)
  | _ =>
    let entriesToKeep :=
      List.filter (fun entry => Z.leb beforeIndex (Index entry)) (log w) in
    if closed w then (Some (ErrIO "file already closed"), w)
    else
      match fault with
      | TruncCloseFails => (Some (ErrIO "close"), w)
      | TruncOpenWriteFails =>
        (Some (ErrIO "open"),
         {| log := log w; nextIndex := nextIndex w; closed := true |})
      | TruncEncodeFails k =>
        if Nat.ltb k (length entriesToKeep) then
          (Some (ErrIO "write"),
           {| log := firstn k entriesToKeep; nextIndex := nextIndex w;
              closed := false |})
        else
          (None, {| log := entriesToKeep; nextIndex := nextIndex w; closed := false |})
      | TruncSyncFails =>
        (Some (ErrIO "fsync"),
         {| log := entriesToKeep; nextIndex := nextIndex w; closed := false |})
      | _ =>
        (None, {| log := entriesToKeep; nextIndex := nextIndex w; closed := false |})
      end
  end.

Definition GetCurrentIndex (w : WAL) : Z := wrap64 (nextIndex w - 1).
End WAL.

(** ** pkg/wal: snapshots *)

Record SnapshotMetadata : Type := {
  mIndex : Z;          (* WAL index at snapshot time *)
  mNodeCount : nat;
  mEdgeCount : nat
}.

Record Snapshot : Type := {
  Metadata : SnapshotMetadata;
  Nodes : list Node;
  Edges : list Edge
}.

(** Of the snapshot directory only [snapshot-latest.json] is modelled: it is
    the one file the engine reads back. *)
Record SnapshotManager : Type := {
  latest : option Snapshot
}.

Inductive SnapshotFault : Type :=
| SnapNoFault
| SnapCreateFails   (* os.Create *)
| SnapWriteFails    (* the encoder's write *)
| SnapSyncFails     (* file.Sync *)
| SnapCopyFails.    (* copyFile, after the old latest was removed *)

(** A node (edge) as it is read back from its JSON object: the IDs and the
    adjacency lists are exact, the label is read back as a string and the
    properties as a map. *)
Definition json_node (n : Node) : Node :=
  {| nID := nID n; nLabel := json_string (nLabel n);
     nProperties := json_props (nProperties n);
     OutEdges := OutEdges n; InEdges := InEdges n |}.

Definition json_edge (e : Edge) : Edge :=
  {| eID := eID e; Source := Source e; Target := Target e;
     eLabel := json_string (eLabel e);
     eProperties := json_props (eProperties e) |}.

Module SnapshotManager.
Definition NewSnapshotManager (existing : option Snapshot) : SnapshotManager :=
  {| latest := existing |}.

Definition CreateSnapshot (fault : SnapshotFault) (walIndex : Z)
    (nodes : gmap Z Node) (edges : gmap Z Edge) (sm : SnapshotManager)
  : option error * SnapshotManager :=
  let nodeSlice := (map_to_list nodes).*2 in
  let edgeSlice := (map_to_list edges).*2 in
  let snapshot :=
    {| Metadata := {| mIndex := walIndex; mNodeCount := length nodeSlice;
                      mEdgeCount := length edgeSlice |};
       Nodes := json_node <$> nodeSlice;
       Edges := json_edge <$> edgeSlice |} in
  match fault with
  | SnapCreateFails =>
    (Some (ErrWrap "failed to create snapshot file" (ErrIO "create")), sm)
  | _ =>
    if negb (forallb (fun n => props_encodable (nProperties n)) nodeSlice
             && forallb (fun e => props_encodable (eProperties e)) edgeSlice) then
      (Some (ErrWrap "failed to encode snapshot" (ErrIO "json: unsupported value")), sm)
    else
      match fault with
      | SnapWriteFails =>
        (Some (ErrWrap "failed to encode snapshot" (ErrIO "write")), sm)
      | SnapSyncFails =>
        (Some (ErrWrap "failed to sync snapshot file" (ErrIO "fsync")), sm)
      | SnapCopyFails =>
        (Some (ErrWrap "failed to update latest snapshot" (ErrIO "copy")),
         {| latest := None |})
      | _ => (None, {| latest := Some snapshot |})
      end
  end.

Definition LoadLatestSnapshot (sm : SnapshotManager) : res (option Snapshot) :=
  Ok (latest sm).
End SnapshotManager.

(** ** pkg/storage: the durability facade *)

Record PersistentGraph : Type := {
  G : Graph;                         (* the embedded *Graph *)
  wal : WAL;
  snapshotManager : SnapshotManager;
  walEnabled : bool
}.

(** [convertProperties]: a nil or non-object value gives empty properties. *)
Definition convertProperties (data : Value) : Properties :=
  match data with
  | VMap m => map_fold (fun k v (props : Properties) => <[k := v]> props) ∅ m
  | _ => ∅
  end.

Module PersistentGraph.
Definition set_G (g : Graph) (pg : PersistentGraph) : PersistentGraph :=
  {| G := g; wal := wal pg; snapshotManager := snapshotManager pg;
     walEnabled := walEnabled pg |}.

Definition set_wal (w : WAL) (pg : PersistentGraph) : PersistentGraph :=
  {| G := G pg; wal := w; snapshotManager := snapshotManager pg;
     walEnabled := walEnabled pg |}.

Definition set_snapshotManager (sm : SnapshotManager) (pg : PersistentGraph)
  : PersistentGraph :=
  {| G := G pg; wal := wal pg; snapshotManager := sm; walEnabled := walEnabled pg |}.

Definition set_walEnabled (b : bool) (pg : PersistentGraph) : PersistentGraph :=
  {| G := G pg; wal := wal pg; snapshotManager := snapshotManager pg;
     walEnabled := b |}.

(** A nil [properties] is passed on as it is: [Graph.AddNode] and
    [Graph.AddEdge] range over it as over the empty map, the WAL writes it
    as [null]. *)
Definition AddNode (fault : AppendFault) (label : string)
    (properties : option Properties) (pg : PersistentGraph)
  : res Node * PersistentGraph :=
  match Graph.AddNode label (default ∅ properties) (G pg) with
  | (Err err, g) => (Err err, set_G g pg)
  | (Ok node, g) =>
    let pg := set_G g pg in
    if walEnabled pg then
      match WAL.LogAddNode fault (nID node) label properties (wal pg) with
      | (Some err, w) =>
        (* Rollback in-memory change *)
        let pg := set_wal w pg in
        let pg := set_G (snd (Graph.DeleteNode (nID node) (G pg))) pg in
        (Err (ErrWrap "failed to log node addition" err), pg)
      | (None, w) => (Ok node, set_wal w pg)
      end
    else (Ok node, pg)
  end.

Definition AddEdge (fault : AppendFault) (source target : Z) (label : string)
    (properties : option Properties) (pg : PersistentGraph)
  : res Edge * PersistentGraph :=
  match Graph.AddEdge source target label (default ∅ properties) (G pg) with
  | (Err err, g) => (Err err, set_G g pg)
  | (Ok edge, g) =>
    let pg := set_G g pg in
    if walEnabled pg then
      match WAL.LogAddEdge fault (eID edge) source target label properties (wal pg) with
      | (Some err, w) =>
        (* Rollback *)
        let pg := set_wal w pg in
        let pg := set_G (snd (Graph.DeleteEdge (eID edge) (G pg))) pg in
        (Err (ErrWrap "failed to log edge addition" err), pg)
      | (None, w) => (Ok edge, set_wal w pg)
      end
    else (Ok edge, pg)
  end.

Definition DeleteNode (fault : AppendFault) (id : Z) (pg : PersistentGraph)
  : option error * PersistentGraph :=
  match Graph.DeleteNode id (G pg) with
  | (Some err, g) => (Some err, set_G g pg)
  | (None, g) =>
    let pg := set_G g pg in
    if walEnabled pg then
      match WAL.LogDeleteNode fault id (wal pg) with
      | (Some err, w) => (Some (ErrWrap "failed to log node deletion" err), set_wal w pg)
      | (None, w) => (None, set_wal w pg)
      end
    else (None, pg)
  end.

Definition DeleteEdge (fault : AppendFault) (id : Z) (pg : PersistentGraph)
  : option error * PersistentGraph :=
  match Graph.DeleteEdge id (G pg) with
  | (Some err, g) => (Some err, set_G g pg)
  | (None, g) =>
    let pg := set_G g pg in
    if walEnabled pg then
      match WAL.LogDeleteEdge fault id (wal pg) with
      | (Some err, w) => (Some (ErrWrap "failed to log edge deletion" err), set_wal w pg)
      | (None, w) => (None, set_wal w pg)
      end
    else (None, pg)
  end.

(** [if uint64(id) >= counter.Load() { counter.Store(uint64(id) + 1) }] *)
Definition bump (id counter : Z) : Z :=
  if Z.leb counter id then wrap64 (id + 1) else counter.

Definition restore_node (g : Graph) (node : Node) : Graph :=
  {| nodes := <[nID node := node]> (nodes g); edges := edges g;
     nextNodeID := bump (nID node) (nextNodeID g); nextEdgeID := nextEdgeID g |}.

Definition restore_edge (g : Graph) (edge : Edge) : Graph :=
  {| nodes := nodes g; edges := <[eID edge := edge]> (edges g);
     nextNodeID := nextNodeID g; nextEdgeID := bump (eID edge) (nextEdgeID g) |}.

Definition data_uint64 (entry : LogEntry) (key : string) : res Z :=
  match as_float64 (index_data (Data entry) key) with
  | Ok f => Ok (uint64_of_float64 f)
  | Err e => Err e
  end.

Definition applyWALEntry (entry : LogEntry) (pg : PersistentGraph)
  : option error * PersistentGraph :=
  let g := G pg in
  if String.eqb (OpType entry) OpAddNode then
    match data_uint64 entry "node_id" with
    | Err e => (Some e, pg)
    | Ok nodeID =>
      match as_string (index_data (Data entry) "label") with
      | Err e => (Some e, pg)
      | Ok label =>
        let props := convertProperties (index_data (Data entry) "properties") in
        let node := set_all_node props (NewNode nodeID label) in
        (None,
         set_G {| nodes := <[nodeID := node]> (nodes g); edges := edges g;
                  nextNodeID := bump nodeID (nextNodeID g);
                  nextEdgeID := nextEdgeID g |} pg)
      end
    end
  else if String.eqb (OpType entry) OpAddEdge then
    match data_uint64 entry "edge_id" with
    | Err e => (Some e, pg)
    | Ok edgeID =>
      match data_uint64 entry "source" with
      | Err e => (Some e, pg)
      | Ok source =>
        match data_uint64 entry "target" with
        | Err e => (Some e, pg)
        | Ok target =>
          match as_string (index_data (Data entry) "label") with
          | Err e => (Some e, pg)
          | Ok label =>
            let props := convertProperties (index_data (Data entry) "properties") in
            let edge := set_all_edge props (NewEdge edgeID source target label) in
            (* Update adjacency lists *)
            let ns := alter (Node.AddOutEdge edgeID) source (nodes g) in
            let ns := alter (Node.AddInEdge edgeID) target ns in
            (None,
             set_G {| nodes := ns; edges := <[edgeID := edge]> (edges g);
                      nextNodeID := nextNodeID g;
                      nextEdgeID := bump edgeID (nextEdgeID g) |} pg)
          end
        end
      end
    end
  else if String.eqb (OpType entry) OpDeleteNode then
    match data_uint64 entry "node_id" with
    | Err e => (Some e, pg)
    | Ok nodeID => (None, set_G (snd (Graph.DeleteNode nodeID g)) pg)
    end
  else if String.eqb (OpType entry) OpDeleteEdge then
    match data_uint64 entry "edge_id" with
    | Err e => (Some e, pg)
    | Ok edgeID => (None, set_G (snd (Graph.DeleteEdge edgeID g)) pg)
    end
  else (None, pg).

Definition Recover (pg : PersistentGraph) : option error * PersistentGraph :=
  (* Disable WAL during recovery to avoid double-logging *)
  let pg := set_walEnabled false pg in
  match SnapshotManager.LoadLatestSnapshot (snapshotManager pg) with
  | Err err => (Some (ErrWrap "failed to load snapshot" err), set_walEnabled true pg)
  | Ok snapshot =>
    let pg :=
      match snapshot with
      | Some snapshot =>
        let g := fold_left restore_node (Nodes snapshot) (G pg) in
        let g := fold_left restore_edge (Edges snapshot) g in
        set_G g pg
      | None => pg
      end in
    match WAL.Replay applyWALEntry (wal pg) pg with
    | (Some err, pg) => (Some (ErrWrap "failed to replay WAL" err), set_walEnabled true pg)
    | (None, pg) => (None, set_walEnabled true pg)
    end
  end.

(** [NewPersistentGraph] on directories whose [wal.log] decodes to
    [entries] and whose latest snapshot is [snap]. *)
Definition NewPersistentGraph (entries : list LogEntry) (snap : option Snapshot)
  : res PersistentGraph :=
  let pg := {| G := Graph.NewGraph; wal := WAL.NewWAL entries;
               snapshotManager := SnapshotManager.NewSnapshotManager snap;
               walEnabled := true |} in
  match Recover pg with
  | (Some err, _) => Err (ErrWrap "failed to recover" err)
  | (None, pg) => Ok pg
  end.

Definition Close (pg : PersistentGraph) : option error * PersistentGraph :=
  let '(err, w) := WAL.Close (wal pg) in (err, set_wal w pg).

Definition Snapshot (sfault : SnapshotFault) (tfault : TruncateFault)
    (pg : PersistentGraph) : option error * PersistentGraph :=
  let walIndex := WAL.GetCurrentIndex (wal pg) in
  match SnapshotManager.CreateSnapshot sfault walIndex (nodes (G pg)) (edges (G pg))
          (snapshotManager pg) with
  | (Some err, sm) =>
    (Some (ErrWrap "failed to create snapshot" err), set_snapshotManager sm pg)
  | (None, sm) =>
    let pg := set_snapshotManager sm pg in
    match WAL.Truncate tfault walIndex (wal pg) with
    | (Some err, w) => (Some (ErrWrap "failed to truncate WAL" err), set_wal w pg)
    | (None, w) => (None, set_wal w pg)
    end
  end.
End PersistentGraph.

(** ** pkg/query: the lexer *)

#[local] Open Scope nat_scope.

Inductive TokenType : Type :=
(* Special tokens *)
| TokenEOF
| TokenIllegal
(* Keywords *)
| TokenMatch
| TokenWhere
| TokenReturn
| TokenLimit
| TokenOrderBy
| TokenAnd
| TokenOr
(* Identifiers and literals *)
| TokenIdentifier
| TokenString
| TokenNumber
| TokenTrue
| TokenFalse
(* Operators *)
| TokenEqual
| TokenNotEqual
| TokenLess
| TokenLessEqual
| TokenGreater
| TokenGreaterEqual
(* Delimiters *)
| TokenLeftParen
| TokenRightParen
| TokenLeftBracket
| TokenRightBracket
| TokenLeftBrace
| TokenRightBrace
| TokenComma
| TokenDot
| TokenColon
| TokenArrow
| TokenLeftArrow
| TokenDash
| TokenStar
| TokenDotDot.

#[global] Instance TokenType_eq_dec : EqDecision TokenType.
Proof. solve_decision. Defined.

Record Token : Type := {
  TokType : TokenType;
  Literal : string;
  Line : nat;
  Column : nat
}.

(** Positions are Go [int]s; they stay far below 2^63, so [nat] is used. *)
Record Lexer : Type := {
  input : string;
  position : nat;       (* current position in input *)
  readPosition : nat;   (* next position to read *)
  ch : ascii;           (* current char *)
  line : nat;
  column : nat
}.

(** [s[i]] for [i < len(s)] *)
Definition byte_at (s : string) (i : nat) : ascii :=
  default Ascii.zero (String.get i s).

(** [s[a:b]] for [a <= b <= len(s)] *)
Definition slice (s : string) (a b : nat) : string := substring a (b - a) s.

(** [string(c)] for a byte [c]: the UTF-8 encoding of the code point [c],
    one byte below 0x80 and two bytes from 0x80 on. *)
Definition str1 (c : ascii) : string :=
  let n := nat_of_ascii c in
  if Nat.ltb n 128 then String c EmptyString
  else String (ascii_of_nat (192 + n / 64))
         (String (ascii_of_nat (128 + n mod 64)) EmptyString).

(** [string(c1)+string(c2)] *)
Definition str2 (c1 c2 : ascii) : string := (str1 c1 ++ str1 c2)%string.

Definition isLetter (ch : ascii) : bool :=
  let n := nat_of_ascii ch in
  (Nat.leb 97 n && Nat.leb n 122) || (Nat.leb 65 n && Nat.leb n 90).

Definition isDigit (ch : ascii) : bool :=
  let n := nat_of_ascii ch in
  Nat.leb 48 n && Nat.leb n 57.

(** [strings.ToUpper] on the bytes an identifier is made of (ASCII letters,
    digits and the underscore): lower-case letters are shifted, every other
    byte is kept. *)
Definition upper_byte (c : ascii) : ascii :=
  let n := nat_of_ascii c in
  if Nat.leb 97 n && Nat.leb n 122 then ascii_of_nat (n - 32) else c.

Fixpoint ToUpper (s : string) : string :=
  match s with
  | EmptyString => EmptyString
  | String c rest => String (upper_byte c) (ToUpper rest)
  end.

Definition keywords : gmap string TokenType :=
  list_to_map
    [ ("MATCH"%string, TokenMatch);
      ("WHERE"%string, TokenWhere);
      ("RETURN"%string, TokenReturn);
      ("LIMIT"%string, TokenLimit);
      ("ORDER"%string, TokenOrderBy);
      ("BY"%string, TokenOrderBy);
      ("AND"%string, TokenAnd);
      ("OR"%string, TokenOr);
      ("true"%string, TokenTrue);
      ("false"%string, TokenFalse) ].

Definition lookupKeyword (ident : string) : TokenType :=
  match keywords !! ToUpper ident with
  | Some tok => tok
  | None => TokenIdentifier
  end.

Definition is_space (c : ascii) : bool :=
  Ascii.eqb c " " || Ascii.eqb c "009" || Ascii.eqb c "010" || Ascii.eqb c "013".

Module Lexer.
Definition readChar (l : Lexer) : Lexer :=
  let c := if Nat.leb (String.length (input l)) (readPosition l)
           then Ascii.zero (* EOF *)
           else byte_at (input l) (readPosition l) in
  {| input := input l;
     position := readPosition l;
     readPosition := readPosition l + 1;
     ch := c;
     line := if Ascii.eqb c "010" then line l + 1 else line l;
     column := if Ascii.eqb c "010" then 0 else column l + 1 |}.

Definition NewLexer (input : string) : Lexer :=
  readChar {| input := input; position := 0; readPosition := 0;
              ch := Ascii.zero; line := 1; column := 0 |}.

Definition peekChar (l : Lexer) : ascii :=
  if Nat.leb (String.length (input l)) (readPosition l) then Ascii.zero
  else byte_at (input l) (readPosition l).

(** [for cond(l.ch) { l.readChar() }].  Every pass but the first reads a
    byte of the input, and every condition used is false at the end of
    input, so [fuel l] passes are never used up
    (lemma [read_while_exit]). *)
Fixpoint read_while (cond : ascii -> bool) (n : nat) (l : Lexer) : Lexer :=
  match n with
  | O => l
  | S n' => if cond (ch l) then read_while cond n' (readChar l) else l
  end.

Definition fuel (l : Lexer) : nat := String.length (input l) + 2.

Definition newToken (tokenType : TokenType) (literal : string) (l : Lexer) : Token :=
  {| TokType := tokenType; Literal := literal; Line := line l; Column := column l |}.

Definition skipWhitespace (l : Lexer) : Lexer :=
  read_while is_space (fuel l) l.

Definition readIdentifier (l : Lexer) : string * Lexer :=
  let position0 := position l in
  let l := read_while (fun c => isLetter c || isDigit c || Ascii.eqb c "_") (fuel l) l in
  (slice (input l) position0 (position l), l).

Definition readNumber (l : Lexer) : string * Lexer :=
  let position0 := position l in
  let l := read_while isDigit (fuel l) l in
  (* Handle decimal numbers *)
  let l := if Ascii.eqb (ch l) "." && isDigit (peekChar l)
           then read_while isDigit (fuel l) (readChar l)
           else l in
  (slice (input l) position0 (position l), l).

(** [for { l.readChar(); if l.ch == quote || l.ch == 0 { break }; ... }].
    Every pass reads a byte, so [fuel l] passes reach the closing quote or
    the end of the input (lemma [readString_loop_spec]). *)
Fixpoint readString_loop (quote : ascii) (n : nat) (l : Lexer) : Lexer :=
  match n with
  | O => l
  | S n' =>
    let l := readChar l in
    if Ascii.eqb (ch l) quote || Ascii.eqb (ch l) Ascii.zero then l
    else
      (* Handle escaped quotes *)
      let l := if Ascii.eqb (ch l) "\" && Ascii.eqb (peekChar l) quote
               then readChar l else l in
      readString_loop quote n' l
  end.

Definition readString (quote : ascii) (l : Lexer) : string * Lexer :=
  let position0 := position l + 1 in
  let l := readString_loop quote (fuel l) l in
  (slice (input l) position0 (position l), l).

(** The two-byte operators: [ch := l.ch; l.readChar();
    tok = l.newToken(t, string(ch)+string(l.ch))]. *)
Definition two_char (t : TokenType) (l : Lexer) : Token * Lexer :=
  let c := ch l in
  let l := readChar l in
  (newToken t (str2 c (ch l)) l, l).

Definition one_char (t : TokenType) (l : Lexer) : Token * Lexer :=
  (newToken t (str1 (ch l)) l, l).

Definition NextToken (l : Lexer) : Token * Lexer :=
  let l := skipWhitespace l in
  let tok := {| TokType := TokenEOF; Literal := EmptyString; Line := line l; Column := column l |} in
  let c := ch l in
  let finish (r : Token * Lexer) : Token * Lexer := (fst r, readChar (snd r)) in
  if Ascii.eqb c "(" then finish (one_char TokenLeftParen l)
  else if Ascii.eqb c ")" then finish (one_char TokenRightParen l)
  else if Ascii.eqb c "[" then finish (one_char TokenLeftBracket l)
  else if Ascii.eqb c "]" then finish (one_char TokenRightBracket l)
  else if Ascii.eqb c "{" then finish (one_char TokenLeftBrace l)
  else if Ascii.eqb c "}" then finish (one_char TokenRightBrace l)
  else if Ascii.eqb c "," then finish (one_char TokenComma l)
  else if Ascii.eqb c "." then
    if Ascii.eqb (peekChar l) "." then finish (two_char TokenDotDot l)
    else finish (one_char TokenDot l)
  else if Ascii.eqb c ":" then finish (one_char TokenColon l)
  else if Ascii.eqb c "*" then finish (one_char TokenStar l)
  else if Ascii.eqb c "-" then
    if Ascii.eqb (peekChar l) ">" then finish (two_char TokenArrow l)
    else finish (one_char TokenDash l)
  else if Ascii.eqb c "<" then
    if Ascii.eqb (peekChar l) "-" then finish (two_char TokenLeftArrow l)
    else if Ascii.eqb (peekChar l) "=" then finish (two_char TokenLessEqual l)
    else finish (one_char TokenLess l)
  else if Ascii.eqb c ">" then
    if Ascii.eqb (peekChar l) "=" then finish (two_char TokenGreaterEqual l)
    else finish (one_char TokenGreater l)
  else if Ascii.eqb c "=" then finish (one_char TokenEqual l)
  else if Ascii.eqb c "!" then
    if Ascii.eqb (peekChar l) "=" then finish (two_char TokenNotEqual l)
    else finish (one_char TokenIllegal l)
  else if Ascii.eqb c "034" || Ascii.eqb c "'" then
    let '(lit, l') := readString c l in
    finish ({| TokType := TokenString; Literal := lit;
               Line := Line tok; Column := Column tok |}, l')
  else if Ascii.eqb c Ascii.zero then
    finish ({| TokType := TokenEOF; Literal := EmptyString;
               Line := Line tok; Column := Column tok |}, l)
  else if isLetter c then
    let '(lit, l') := readIdentifier l in
    ({| TokType := lookupKeyword lit; Literal := lit;
        Line := Line tok; Column := Column tok |}, l')
  else if isDigit c then
    let '(lit, l') := readNumber l in
    ({| TokType := TokenNumber; Literal := lit;
        Line := Line tok; Column := Column tok |}, l')
  else finish (one_char TokenIllegal l).

(** The token stream of an input: the tokens [NextToken] returns up to,
    and without, the first [TokenEOF].  A token that is not [TokenEOF]
    consumes at least one byte, so [String.length input + 1] calls reach
    the end (lemma [tokens_fuel]). *)
Fixpoint tokens_loop (n : nat) (l : Lexer) : list Token :=
  match n with
  | O => []
  | S n' =>
    let '(tok, l') := NextToken l in
    match TokType tok with
    | TokenEOF => []
    | _ => tok :: tokens_loop n' l'
    end
  end.

Definition tokens (input : string) : list Token :=
  tokens_loop (String.length input + 1) (NewLexer input).
End Lexer.

(** ** strconv, on the number literals of the lexer *)

Definition digit_value (c : ascii) : option Z :=
  if isDigit c then Some (Z.of_nat (nat_of_ascii c - 48)) else None.

(** The value of a non-empty run of decimal digits. *)
Fixpoint digits_value (acc : Z) (s : string) : option Z :=
  match s with
  | EmptyString => Some acc
  | String c rest =>
    match digit_value c with
    | Some d => digits_value (10 * acc + d)%Z rest
    | None => None
    end
  end.

Definition unsigned_value (s : string) : option Z :=
  match s with
  | EmptyString => None
  | _ => digits_value 0 s
  end.

(** [strconv.Atoi]: an optional sign and decimal digits, within [int]
    (64 bits). *)
Definition Atoi (s : string) : res Z :=
  let signed : option Z :=
    match s with
    | String "-" rest => Z.opp <$> unsigned_value rest
    | String "+" rest => unsigned_value rest
    | _ => unsigned_value s
    end in
  match signed with
  | None => Err (ErrMsg "strconv.Atoi: invalid syntax")
  | Some v =>
    if (Z.leb (- 2 ^ 63) v && Z.leb v (2 ^ 63 - 1))%Z then Ok v
    else Err (ErrMsg "strconv.Atoi: value out of range")
  end.

(** Splits [s] at its first ['.']. *)
Fixpoint split_dot (s : string) : string * option string :=
  match s with
  | EmptyString => (EmptyString, None)
  | String c rest =>
    if Ascii.eqb c "." then (EmptyString, Some rest)
    else let '(a, b) := split_dot rest in (String c a, b)
  end.

(** The double nearest to [n / 10^k] (ties to even), for [n > 0]. *)
Definition float64_of_decimal (n : Z) (k : nat) : float64 :=
  let '(q, e, l) := SFdiv_core_binary 53 1024 n 0 (10 ^ Z.of_nat k)%Z 0 in
  binary_round_aux 53 1024 false q e l.

(** [strconv.ParseFloat(s, 64)] for [s] of the shape the lexer's
    [readNumber] returns, digits with an optional fraction.  The other
    shapes that the Go function accepts (signs, exponents, hexadecimal,
    "inf", "nan") do not occur in a number token; they are rejected here. *)
Definition ParseFloat (s : string) : res float64 :=
  let '(ipart, fpart) := split_dot s in
  let fdigits := default EmptyString fpart in
  match unsigned_value ipart, digits_value 0 fdigits with
  | Some i, Some f =>
    let k := String.length fdigits in
    let n := (i * 10 ^ Z.of_nat k + f)%Z in
    if Z.eqb n 0 then Ok (S754_zero false)
    else
      match float64_of_decimal n k with
      | S754_infinity _ => Err (ErrMsg "strconv.ParseFloat: value out of range")
      | v => Ok v
      end
  | _, _ => Err (ErrMsg "strconv.ParseFloat: invalid syntax")
  end.

(** ** pkg/query: the AST *)

Record NodePattern : Type := {
  npVariable : string;
  npLabel : string;
  npProperties : gmap string Value   (* inline properties {name: "Alice"} *)
}.

Inductive Direction : Type :=
| DirectionOut    (* -> ; the zero value *)
| DirectionIn     (* <- *)
| DirectionBoth.  (* - (undirected) *)

#[global] Instance Direction_eq_dec : EqDecision Direction.
Proof. solve_decision. Defined.

Record EdgePattern : Type := {
  epVariable : string;
  epType : string;
  epDirection : Direction;
  MinHops : option Z;
  MaxHops : option Z
}.

Record Pattern : Type := {
  pNodes : list NodePattern;
  pEdges : list EdgePattern
}.

Record MatchClause : Type := {
  Patterns : list Pattern
}.

Inductive Expression : Type :=
| BinaryExpr (left : Expression) (operator : string) (right : Expression)
| PropertyAccess (variable property : string)
| LiteralExpr (value : Value)
| Identifier (name : string).

Record WhereClause : Type := {
  wExpr : Expression
}.

Record ReturnItem : Type := {
  riExpr : Expression;
  Alias : string
}.

Record ReturnClause : Type := {
  Items : list ReturnItem;
  Distinct : bool
}.

Record Query : Type := {
  Match : option MatchClause;
  Where : option WhereClause;
  Return : option ReturnClause;
  Limit : option Z
}.

Definition NewQuery : Query :=
  {| Match := None; Where := None; Return := None; Limit := None |}.

(** ** pkg/query: the parser *)

Record Parser : Type := {
  lexer : Lexer;
  current : Token;
  peek : Token;
  errors : list string
}.

Module Parser.
Definition nextToken (p : Parser) : Parser :=
  let '(tok, l) := Lexer.NextToken (lexer p) in
  {| lexer := l; current := peek p; peek := tok; errors := errors p |}.

Definition NewParser (input : string) : Parser :=
  let zero := {| TokType := TokenEOF; Literal := EmptyString; Line := 0; Column := 0 |} in
  let p := {| lexer := Lexer.NewLexer input; current := zero; peek := zero;
              errors := [] |} in
  (* Read two tokens to initialize current and peek *)
  nextToken (nextToken p).

Definition currentTokenIs (t : TokenType) (p : Parser) : bool :=
  bool_decide (TokType (current p) = t).

Definition peekTokenIs (t : TokenType) (p : Parser) : bool :=
  bool_decide (TokType (peek p) = t).

Definition peekError (t : TokenType) (p : Parser) : Parser :=
  {| lexer := lexer p; current := current p; peek := peek p;
     errors := errors p ++ ["expected next token"%string] |}.

Definition expectPeek (t : TokenType) (p : Parser) : bool * Parser :=
  if peekTokenIs t p then (true, nextToken p) else (false, peekError t p).

Definition fuel (p : Parser) : nat := Lexer.fuel (lexer p).

Definition parseLiteral (p : Parser) : res Value * Parser :=
  if currentTokenIs TokenString p then
    (Ok (VString (Literal (current p))), nextToken p)
  else if currentTokenIs TokenNumber p then
    (* Try int first, then float *)
    match Atoi (Literal (current p)) with
    | Ok val => (Ok (VInt val), nextToken p)
    | Err _ =>
      match ParseFloat (Literal (current p)) with
      | Ok val => (Ok (VFloat64 val), nextToken p)
      | Err _ => (Err (ErrMsg "invalid number"), p)
      end
    end
  else if currentTokenIs TokenTrue p then (Ok (VBool true), nextToken p)
  else if currentTokenIs TokenFalse p then (Ok (VBool false), nextToken p)
  else (Err (ErrMsg "unexpected token"), p).

(** [for !p.currentTokenIs(TokenRightBrace) { ... }] *)
Fixpoint parseProperties_loop (n : nat) (props : gmap string Value) (p : Parser)
  : res (gmap string Value) * Parser :=
  match n with
  | O => (Err ErrOutOfFuel, p)
  | S n' =>
    if currentTokenIs TokenRightBrace p then (Ok props, p)
    else if negb (currentTokenIs TokenIdentifier p) then
      (Err (ErrMsg "expected property name"), p)
    else
      let key := Literal (current p) in
      let p := nextToken p in
      if negb (currentTokenIs TokenColon p) then
        (Err (ErrMsg "expected : after property name"), p)
      else
        let p := nextToken p in
        match parseLiteral p with
        | (Err err, p) => (Err err, p)
        | (Ok value, p) =>
          (* parseLiteral only returns *Literal: props[key] = lit.Value *)
          let props := <[key := value]> props in
          if currentTokenIs TokenComma p then
            parseProperties_loop n' props (nextToken p)
          else if negb (currentTokenIs TokenRightBrace p) then
            (Err (ErrMsg "expected , or } in properties"), p)
          else parseProperties_loop n' props p
        end
  end.

Definition parseProperties (p : Parser) : res (gmap string Value) * Parser :=
  if negb (currentTokenIs TokenLeftBrace p) then (Err (ErrMsg "expected {"), p)
  else
    let p := nextToken p in
    match parseProperties_loop (fuel p) ∅ p with
    | (Err err, p) => (Err err, p)
    | (Ok props, p) =>
      if negb (currentTokenIs TokenRightBrace p) then (Err (ErrMsg "expected }"), p)
      else (Ok props, nextToken p)
    end.

Definition parseNodePattern (p : Parser) : res NodePattern * Parser :=
  if negb (currentTokenIs TokenLeftParen p) then
    (Err (ErrMsg "expected ( for node pattern"), p)
  else
    let p := nextToken p in
    (* Parse variable name (optional) *)
    let '(variable, p) :=
      if currentTokenIs TokenIdentifier p
      then (Literal (current p), nextToken p) else (EmptyString, p) in
    (* Parse label (optional) *)
    let after_label (label : string) (p : Parser) : res NodePattern * Parser :=
      (* Parse inline properties (optional) *)
      let r := if currentTokenIs TokenLeftBrace p then parseProperties p
               else (Ok ∅, p) in
      match r with
      | (Err err, p) => (Err err, p)
      | (Ok props, p) =>
        if negb (currentTokenIs TokenRightParen p) then
          (Err (ErrMsg "expected ) to close node pattern"), p)
        else
          (Ok {| npVariable := variable; npLabel := label; npProperties := props |},
           nextToken p)
      end in
    if currentTokenIs TokenColon p then
      let p := nextToken p in
      if negb (currentTokenIs TokenIdentifier p) then
        (Err (ErrMsg "expected label after :"), p)
      else after_label (Literal (current p)) (nextToken p)
    else after_label EmptyString p.

Definition parseEdgePattern (p : Parser) : res EdgePattern * Parser :=
  (* Determine direction by looking at the start *)
  let start : option (Direction * Parser) :=
    if currentTokenIs TokenLeftArrow p then Some (DirectionIn, nextToken p)
    else if currentTokenIs TokenDash p then Some (DirectionOut, nextToken p)
    else None in
  match start with
  | None => (Err (ErrMsg "expected - or <- to start edge pattern"), p)
  | Some (direction, p) =>
    (* Parse [...] *)
    if negb (currentTokenIs TokenLeftBracket p) then
      (Err (ErrMsg "expected [ in edge pattern"), p)
    else
      let p := nextToken p in
      (* Parse edge variable and type (optional) *)
      let '(variable, p) :=
        if currentTokenIs TokenIdentifier p
        then (Literal (current p), nextToken p) else (EmptyString, p) in
      let after_type (type : string) (p : Parser) : res EdgePattern * Parser :=
        if negb (currentTokenIs TokenRightBracket p) then
          (Err (ErrMsg "expected ] to close edge pattern"), p)
        else
          let p := nextToken p in
          let '(direction, p) :=
            (* Check for outgoing arrow *)
            if currentTokenIs TokenArrow p then
              ((if bool_decide (direction = DirectionIn)
                then DirectionBoth else DirectionOut), nextToken p)
            else if currentTokenIs TokenDash p then
              ((if bool_decide (direction = DirectionOut)
                then DirectionBoth else direction), nextToken p)
            else if bool_decide (direction = DirectionOut) then
              (DirectionBoth, p)
            else (direction, p) in
          (Ok {| epVariable := variable; epType := type; epDirection := direction;
                 MinHops := None; MaxHops := None |}, p) in
      if currentTokenIs TokenColon p then
        let p := nextToken p in
        if negb (currentTokenIs TokenIdentifier p) then
          (Err (ErrMsg "expected edge type after :"), p)
        else after_type (Literal (current p)) (nextToken p)
      else after_type EmptyString p
  end.

(** [for p.currentTokenIs(TokenDash) || p.currentTokenIs(TokenLeftArrow) { ... }] *)
Fixpoint parsePattern_loop (n : nat) (pattern : Pattern) (p : Parser)
  : res Pattern * Parser :=
  match n with
  | O => (Err ErrOutOfFuel, p)
  | S n' =>
    if currentTokenIs TokenDash p || currentTokenIs TokenLeftArrow p then
      match parseEdgePattern p with
      | (Err err, p) => (Err err, p)
      | (Ok edge, p) =>
        (* Parse target node *)
        match parseNodePattern p with
        | (Err err, p) => (Err err, p)
        | (Ok node, p) =>
          parsePattern_loop n'
            {| pNodes := pNodes pattern ++ [node]; pEdges := pEdges pattern ++ [edge] |} p
        end
      end
    else (Ok pattern, p)
  end.

Definition parsePattern (p : Parser) : res Pattern * Parser :=
  (* Parse first node *)
  match parseNodePattern p with
  | (Err err, p) => (Err err, p)
  | (Ok node, p) =>
    (* Parse edges and subsequent nodes *)
    parsePattern_loop (fuel p) {| pNodes := [node]; pEdges := [] |} p
  end.

Definition parseMatchClause (p : Parser) : res MatchClause * Parser :=
  if negb (currentTokenIs TokenMatch p) then (Err (ErrMsg "expected MATCH"), p)
  else
    let p := nextToken p in
    (* Parse patterns (for now, just one pattern) *)
    match parsePattern p with
    | (Err err, p) => (Err err, p)
    | (Ok pattern, p) => (Ok {| Patterns := [pattern] |}, p)
    end.

Definition parsePrimaryExpression (p : Parser) : res Expression * Parser :=
  (* Property access: p.name *)
  if currentTokenIs TokenIdentifier p && peekTokenIs TokenDot p then
    let variable := Literal (current p) in
    let p := nextToken p in (* consume identifier *)
    let p := nextToken p in (* consume dot *)
    if negb (currentTokenIs TokenIdentifier p) then
      (Err (ErrMsg "expected property name after ."), p)
    else
      (Ok (PropertyAccess variable (Literal (current p))), nextToken p)
  else if currentTokenIs TokenIdentifier p then
    (Ok (Identifier (Literal (current p))), nextToken p)
  else
    match parseLiteral p with
    | (Ok v, p) => (Ok (LiteralExpr v), p)
    | (Err err, p) => (Err err, p)
    end.

Definition is_comparison (p : Parser) : bool :=
  currentTokenIs TokenEqual p || currentTokenIs TokenNotEqual p ||
  currentTokenIs TokenLess p || currentTokenIs TokenLessEqual p ||
  currentTokenIs TokenGreater p || currentTokenIs TokenGreaterEqual p.

Definition parseComparisonExpression (p : Parser) : res Expression * Parser :=
  match parsePrimaryExpression p with
  | (Err err, p) => (Err err, p)
  | (Ok lhs, p) =>
    if is_comparison p then
      let op := Literal (current p) in
      let p := nextToken p in
      match parsePrimaryExpression p with
      | (Err err, p) => (Err err, p)
      | (Ok rhs, p) => (Ok (BinaryExpr lhs op rhs), p)
      end
    else (Ok lhs, p)
  end.

(** [for p.currentTokenIs(t) { op; nextToken; right := operand(); left = BinaryExpr }] *)
Fixpoint binary_loop (operand : Parser -> res Expression * Parser) (t : TokenType)
    (n : nat) (lhs : Expression) (p : Parser) : res Expression * Parser :=
  match n with
  | O => (Err ErrOutOfFuel, p)
  | S n' =>
    if currentTokenIs t p then
      let op := Literal (current p) in
      let p := nextToken p in
      match operand p with
      | (Err err, p) => (Err err, p)
      | (Ok rhs, p) => binary_loop operand t n' (BinaryExpr lhs op rhs) p
      end
    else (Ok lhs, p)
  end.

Definition parseAndExpression (p : Parser) : res Expression * Parser :=
  match parseComparisonExpression p with
  | (Err err, p) => (Err err, p)
  | (Ok lhs, p) => binary_loop parseComparisonExpression TokenAnd (fuel p) lhs p
  end.

Definition parseOrExpression (p : Parser) : res Expression * Parser :=
  match parseAndExpression p with
  | (Err err, p) => (Err err, p)
  | (Ok lhs, p) => binary_loop parseAndExpression TokenOr (fuel p) lhs p
  end.

Definition parseExpression (p : Parser) : res Expression * Parser :=
  parseOrExpression p.

Definition parseWhereClause (p : Parser) : res WhereClause * Parser :=
  if negb (currentTokenIs TokenWhere p) then (Err (ErrMsg "expected WHERE"), p)
  else
    match parseExpression (nextToken p) with
    | (Err err, p) => (Err err, p)
    | (Ok expr, p) => (Ok {| wExpr := expr |}, p)
    end.

Definition parseReturnExpression (p : Parser) : res Expression * Parser :=
  parsePrimaryExpression p.

(** [for { expr; append; if !p.currentTokenIs(TokenComma) { break }; nextToken }] *)
Fixpoint parseReturn_loop (n : nat) (items : list ReturnItem) (p : Parser)
  : res (list ReturnItem) * Parser :=
  match n with
  | O => (Err ErrOutOfFuel, p)
  | S n' =>
    match parseReturnExpression p with
    | (Err err, p) => (Err err, p)
    | (Ok expr, p) =>
      let items := items ++ [{| riExpr := expr; Alias := EmptyString |}] in
      if negb (currentTokenIs TokenComma p) then (Ok items, p)
      else parseReturn_loop n' items (nextToken p) (* consume comma *)
    end
  end.

Definition parseReturnClause (p : Parser) : res ReturnClause * Parser :=
  if negb (currentTokenIs TokenReturn p) then (Err (ErrMsg "expected RETURN"), p)
  else
    let p := nextToken p in
    match parseReturn_loop (fuel p) [] p with
    | (Err err, p) => (Err err, p)
    | (Ok items, p) => (Ok {| Items := items; Distinct := false |}, p)
    end.

Definition parseLimitClause (p : Parser) : res Z * Parser :=
  if negb (currentTokenIs TokenLimit p) then (Err (ErrMsg "expected LIMIT"), p)
  else
    let p := nextToken p in
    if negb (currentTokenIs TokenNumber p) then
      (Err (ErrMsg "expected number after LIMIT"), p)
    else
      match Atoi (Literal (current p)) with
      | Err _ => (Err (ErrMsg "invalid LIMIT value"), p)
      | Ok limit => (Ok limit, nextToken p)
      end.

(** [Parse] returns the query or the first error. *)
Definition Parse (p : Parser) : res Query * Parser :=
  let query := NewQuery in
  (* Parse MATCH clause *)
  let r1 : res Query * Parser :=
    if currentTokenIs TokenMatch p then
      match parseMatchClause p with
      | (Err err, p) => (Err err, p)
      | (Ok m, p) =>
        (Ok {| Match := Some m; Where := Where query; Return := Return query;
               Limit := Limit query |}, p)
      end
    else (Ok query, p) in
  match r1 with
  | (Err err, p) => (Err err, p)
  | (Ok query, p) =>
    (* Parse WHERE clause *)
    let r2 : res Query * Parser :=
      if currentTokenIs TokenWhere p then
        match parseWhereClause p with
        | (Err err, p) => (Err err, p)
        | (Ok w, p) =>
          (Ok {| Match := Match query; Where := Some w; Return := Return query;
                 Limit := Limit query |}, p)
        end
      else (Ok query, p) in
    match r2 with
    | (Err err, p) => (Err err, p)
    | (Ok query, p) =>
      (* Parse RETURN clause *)
      let r3 : res Query * Parser :=
        if currentTokenIs TokenReturn p then
          match parseReturnClause p with
          | (Err err, p) => (Err err, p)
          | (Ok ret, p) =>
            (Ok {| Match := Match query; Where := Where query; Return := Some ret;
                   Limit := Limit query |}, p)
          end
        else (Ok query, p) in
      match r3 with
      | (Err err, p) => (Err err, p)
      | (Ok query, p) =>
        (* Parse LIMIT clause *)
        let r4 : res Query * Parser :=
          if currentTokenIs TokenLimit p then
            match parseLimitClause p with
            | (Err err, p) => (Err err, p)
            | (Ok limit, p) =>
              (Ok {| Match := Match query; Where := Where query;
                     Return := Return query; Limit := Some limit |}, p)
            end
          else (Ok query, p) in
        match r4 with
        | (Err err, p) => (Err err, p)
        | (Ok query, p) =>
          if negb (bool_decide (errors p = [])) then
            (Err (ErrMsg "parse errors"), p)
          else (Ok query, p)
        end
      end
    end
  end.
End Parser.

(** ** pkg/query: expression evaluation *)

(** What an expression evaluates to and what a binding table holds: a
    [*graph.Node], a [*graph.Edge] (the entity as it is when the expression
    is evaluated), a [float32], or one of the other modelled values. *)
Inductive Operand : Type :=
| ONode (n : Node)
| OEdge (e : Edge)
| OFloat32 (f : spec_float)
| OValue (v : Value).

Abbreviation BindingTable := (gmap string Operand).

(** [float64(f)] for a [float32]: exact. *)
Definition float64_of_float32 (f : spec_float) : float64 :=
  match f with
  | S754_finite s m e => binary_normalize 53 1024 (cond_Zopp s (Z.pos m)) e s
  | _ => f
  end.

Module Executor.
Definition toFloat (v : Operand) : float64 :=
  match v with
  | OValue (VInt i) => float64_of_Z i
  | OValue (VInt64 i) => float64_of_Z i
  | OValue (VFloat64 f) => f
  | OFloat32 f => float64_of_float32 f
  | _ => float64_zero
  end.

Definition compareNumbers (a b : Operand) : Z :=
  (* Convert to float64 for comparison *)
  let v1 := toFloat a in
  let v2 := toFloat b in
  if float64_lt v1 v2 then (-1)%Z
  else if float64_lt v2 v1 then 1%Z
  else 0%Z.

Definition as_bool (v : Operand) : option bool :=
  match v with
  | OValue (VBool b) => Some b
  | _ => None
  end.

Section WithDeepEqual.
(** [reflect.DeepEqual], which is not part of the repository. *)
Variable DeepEqual : Operand -> Operand -> bool.

Definition compareValues (lhs : Operand) (op : string) (rhs : Operand) : res bool :=
  if String.eqb op "=" then Ok (DeepEqual lhs rhs)
  else if String.eqb op "!=" then Ok (negb (DeepEqual lhs rhs))
  else if String.eqb op "AND" then
    match as_bool lhs, as_bool rhs with
    | Some l, Some r => Ok (l && r)
    | _, _ => Err (ErrMsg "AND requires boolean operands")
    end
  else if String.eqb op "OR" then
    match as_bool lhs, as_bool rhs with
    | Some l, Some r => Ok (l || r)
    | _, _ => Err (ErrMsg "OR requires boolean operands")
    end
  else if String.eqb op ">" then Ok (Z.ltb 0 (compareNumbers lhs rhs))
  else if String.eqb op "<" then Ok (Z.ltb (compareNumbers lhs rhs) 0)
  else if String.eqb op ">=" then Ok (Z.leb 0 (compareNumbers lhs rhs))
  else if String.eqb op "<=" then Ok (Z.leb (compareNumbers lhs rhs) 0)
  else Err (ErrMsg "unknown operator").

Fixpoint evaluateExpression (expr : Expression) (bindings : BindingTable)
  : res Operand :=
  match expr with
  | LiteralExpr value => Ok (OValue value)
  | Identifier name =>
    match bindings !! name with
    | Some val => Ok val
    | None => Err (ErrMsg "variable not found")
    end
  | PropertyAccess variable property =>
    match bindings !! variable with
    | None => Err (ErrMsg "variable not found")
    | Some (ONode node) =>
      (* Property not found is null *)
      Ok (OValue (default VNil (Node.GetProperty node property)))
    | Some (OEdge edge) =>
      Ok (OValue (default VNil (Edge.GetProperty edge property)))
    | Some _ => Err (ErrMsg "variable is not a node or edge")
    end
  | BinaryExpr lhs op rhs =>
    match evaluateExpression lhs bindings with
    | Err err => Err err
    | Ok l =>
      match evaluateExpression rhs bindings with
      | Err err => Err err
      | Ok r =>
        match compareValues l op r with
        | Ok b => Ok (OValue (VBool b))
        | Err err => Err err
        end
      end
    end
  end.
End WithDeepEqual.
End Executor.

(** * Notions used to state the properties *)

#[local] Open Scope Z_scope.

(** ** Structural invariants of the in-memory graph *)

(** Every stored edge is listed by its endpoints that exist. *)
Definition adj_complete (g : Graph) : Prop :=
  ∀ e ed, edges g !! e = Some ed →
    (∀ nd, nodes g !! Source ed = Some nd → e ∈ OutEdges nd) ∧
    (∀ nd, nodes g !! Target ed = Some nd → e ∈ InEdges nd).

(** An adjacency entry that resolves to a stored edge is an edge of that
    node. *)
Definition adj_sound (g : Graph) : Prop :=
  ∀ n nd e ed, nodes g !! n = Some nd → edges g !! e = Some ed →
    (e ∈ OutEdges nd → Source ed = n) ∧ (e ∈ InEdges nd → Target ed = n).

Definition wf_graph (g : Graph) : Prop := adj_complete g ∧ adj_sound g.

(** Two nodes with the same ID, label and properties (the adjacency lists
    may differ). *)
Definition same_content (a b : Node) : Prop :=
  nID a = nID b ∧ nLabel a = nLabel b ∧ nProperties a = nProperties b.

(** The invariant of the graph that the four operations maintain: the
    adjacency lists agree with the edges, and every ID in use is below its
    counter. *)
Definition ids_bounded (g : Graph) : Prop :=
  (∀ n nd, nodes g !! n = Some nd →
     0 ≤ n < nextNodeID g ∧
     ∀ e, e ∈ OutEdges nd ∨ e ∈ InEdges nd → 0 ≤ e < nextEdgeID g) ∧
  (∀ e ed, edges g !! e = Some ed →
     0 ≤ e < nextEdgeID g ∧
     0 ≤ Source ed < nextNodeID g ∧ 0 ≤ Target ed < nextNodeID g) ∧
  0 ≤ nextNodeID g < 2 ^ 64 ∧ 0 ≤ nextEdgeID g < 2 ^ 64.

Definition graph_inv (g : Graph) : Prop := wf_graph g ∧ ids_bounded g.

(** A graph with two nodes and one edge, [1 -KNOWS-> 2]. *)
Definition sample_graph : Graph :=
  snd (Graph.AddEdge 1 2 "KNOWS" ∅
         (snd (Graph.AddNode "Person" ∅
                 (snd (Graph.AddNode "Person" ∅ Graph.NewGraph))))).

(** ** The write-ahead log *)

(** The indexes of a log are contiguous: each entry's index is its
    predecessor's plus one. *)
Definition contiguous (l : list LogEntry) : Prop :=
  ∀ i e1 e2, l !! i = Some e1 → l !! S i = Some e2 → Index e2 = Index e1 + 1.

Definition sample_entry (i : Z) : LogEntry :=
  {| Index := i; OpType := OpDeleteNode; Data := ∅ |}.

Definition sample_wal : WAL :=
  {| log := [sample_entry 1; sample_entry 2; sample_entry 3]; nextIndex := 4;
     closed := false |}.

(** Every property value in the graph has a JSON text (no double is NaN or
    infinite): what [CreateSnapshot] needs to encode the graph. *)
Definition graph_encodable (g : Graph) : bool :=
  forallb (fun n => props_encodable (nProperties n)) (map_to_list (nodes g)).*2 &&
  forallb (fun e => props_encodable (eProperties e)) (map_to_list (edges g)).*2.

(** ** The engine and its mutations *)

(** The engine that [NewPersistentGraph] builds on empty directories. *)
Definition fresh_engine : PersistentGraph :=
  {| G := Graph.NewGraph; wal := WAL.NewWAL [];
     snapshotManager := SnapshotManager.NewSnapshotManager None;
     walEnabled := true |}.

(** A call of one of the four mutating operations of the facade. *)
Inductive Mutation : Type :=
| MAddNode (label : string) (properties : option Properties)
| MAddEdge (source target : Z) (label : string) (properties : option Properties)
| MDeleteNode (id : Z)
| MDeleteEdge (id : Z).

Definition error_of {A} (r : res A) : option error :=
  match r with Ok _ => None | Err err => Some err end.

(** The call, under the disk fault [fault]: the error it returns, if any,
    and the engine after it. *)
Definition mutate (fault : AppendFault) (m : Mutation) (pg : PersistentGraph)
  : option error * PersistentGraph :=
  match m with
  | MAddNode label properties =>
    let '(r, pg) := PersistentGraph.AddNode fault label properties pg in (error_of r, pg)
  | MAddEdge source target label properties =>
    let '(r, pg) := PersistentGraph.AddEdge fault source target label properties pg in
    (error_of r, pg)
  | MDeleteNode id => PersistentGraph.DeleteNode fault id pg
  | MDeleteEdge id => PersistentGraph.DeleteEdge fault id pg
  end.

(** A sequence of successful mutations: [Some] of the final engine when
    every call returns without error, [None] as soon as one fails. *)
Fixpoint mutate_all (ops : list (AppendFault * Mutation)) (pg : PersistentGraph)
  : option PersistentGraph :=
  match ops with
  | [] => Some pg
  | (fault, m) :: rest =>
    match mutate fault m pg with
    | (None, pg') => mutate_all rest pg'
    | (Some _, _) => None
    end
  end.

(** The graph whose property values have gone through JSON. *)
Definition json_graph (g : Graph) : Graph :=
  {| nodes := json_node <$> nodes g; edges := json_edge <$> edges g;
     nextNodeID := nextNodeID g; nextEdgeID := nextEdgeID g |}.

(** The values that JSON gives back as they were: null, booleans, doubles
    and the strings that are well-formed UTF-8. *)
Definition json_exact (v : Value) : bool :=
  match v with
  | VNil | VBool _ | VFloat64 _ => true
  | VString s => ValidString s
  | _ => false
  end.

(** Replaying the log [l] on a new engine rebuilds the graph [g], with its
    property values as JSON gives them back. *)
Definition replays (l : list LogEntry) (g : Graph) : Prop :=
  ∀ pg0, G pg0 = Graph.NewGraph →
    WAL.replay_loop PersistentGraph.applyWALEntry l pg0 =
    (None, PersistentGraph.set_G (json_graph g) pg0).

(** What holds of a running engine that was opened on empty directories
    and has taken no snapshot. *)
Definition engine_inv (pg : PersistentGraph) : Prop :=
  walEnabled pg = true ∧ closed (wal pg) = false ∧
  latest (snapshotManager pg) = None ∧
  graph_inv (G pg) ∧ replays (log (wal pg)) (G pg).

(** [Close], then [NewPersistentGraph] on the directories as the closed
    engine leaves them. *)
Definition reopen (pg : PersistentGraph) : res PersistentGraph :=
  match PersistentGraph.Close pg with
  | (Some err, _) => Err err
  | (None, pgc) =>
    PersistentGraph.NewPersistentGraph (log (wal pgc)) (latest (snapshotManager pgc))
  end.

(** Scenario S1: Alice, Bob, and Alice -KNOWS-> Bob since 2020. *)
Definition sample_session : list (AppendFault * Mutation) :=
  [ (AppendNoFault, MAddNode "Person" (Some {[ "name"%string := VString "Alice" ]}));
    (AppendNoFault, MAddNode "Person" (Some {[ "name"%string := VString "Bob" ]}));
    (AppendNoFault, MAddEdge 1 2 "KNOWS" (Some {[ "since"%string := VInt 2020 ]})) ].

Definition sample_engine : PersistentGraph :=
  default fresh_engine (mutate_all sample_session fresh_engine).

(** ** Ordered comparison of doubles *)

Definition float64_is_nan (f : float64) : bool :=
  match f with S754_nan => true | _ => false end.

(** The IEEE-754 comparison that the operator [op] denotes on doubles (Go's
    [<], [<=], [>], [>=] on [float64]): false whenever an operand is NaN. *)
Definition float64_compare_op (op : string) (a b : float64) : bool :=
  if String.eqb op "<" then float64_lt a b
  else if String.eqb op "<=" then float64_le a b
  else if String.eqb op ">" then float64_lt b a
  else if String.eqb op ">=" then float64_le b a
  else false.

Definition ordered_op (op : string) : bool :=
  String.eqb op "<" || String.eqb op "<=" || String.eqb op ">" || String.eqb op ">=".

(** An operand that is neither an integer nor a float. *)
Definition not_numeric (v : Operand) : bool :=
  match v with
  | OValue (VInt _) | OValue (VInt64 _) | OValue (VFloat64 _) | OFloat32 _ => false
  | _ => true
  end.

(** ** Token streams *)

(** A token without its position. *)
Definition type_and_literal (t : Token) : TokenType * string := (TokType t, Literal t).

(** The keywords of the table that are spelled in upper case. *)
Definition upper_case_keywords : list (string * TokenType) :=
  [ ("MATCH"%string, TokenMatch); ("WHERE"%string, TokenWhere);
    ("RETURN"%string, TokenReturn); ("LIMIT"%string, TokenLimit);
    ("ORDER"%string, TokenOrderBy); ("BY"%string, TokenOrderBy);
    ("AND"%string, TokenAnd); ("OR"%string, TokenOr) ].

(** The types of the next [n] tokens that the parser will see as its current
    token, and the parser after it has moved over them. *)
Fixpoint upcoming (n : nat) (p : Parser) : list TokenType :=
  match n with
  | O => []
  | S n' => TokType (current p) :: upcoming n' (Parser.nextToken p)
  end.

Fixpoint advance (n : nat) (p : Parser) : Parser :=
  match n with
  | O => p
  | S n' => advance n' (Parser.nextToken p)
  end.

(** The tokens of an edge pattern that starts with [<-], up to the closing
    bracket: [<-] [[] variable? (: type)? []]. *)
Definition left_arrow_edge (hasVariable hasType : bool) : list TokenType :=
  [TokenLeftArrow; TokenLeftBracket] ++
  (if hasVariable then [TokenIdentifier] else []) ++
  (if hasType then [TokenColon; TokenIdentifier] else []) ++
  [TokenRightBracket].

(** ** The lexer on the rest of its input *)

(** [s[n:]], empty when [n] is past the end. *)
Fixpoint sdrop (n : nat) (s : string) : string :=
  match n, s with
  | O, _ => s
  | S n', String _ r => sdrop n' r
  | S _, EmptyString => EmptyString
  end.

(** The first byte of a string, 0 when it is empty, and what follows it. *)
Definition head0 (s : string) : ascii :=
  match s with String c _ => c | EmptyString => Ascii.zero end.

Definition tail0 (s : string) : string :=
  match s with String _ r => r | EmptyString => EmptyString end.

(** The input from the lexer's position on. *)
Definition rest (l : Lexer) : string := sdrop (position l) (input l).

(** The state of a lexer between two calls: [ch] is the byte at [position]
    (0 past the end) and [readPosition] is the next position. *)
Definition coherent (l : Lexer) : Prop :=
  readPosition l = (position l + 1)%nat ∧ ch l = head0 (rest l).

(** The longest prefix of bytes that satisfy [f], and what follows it. *)
Fixpoint span (f : ascii → bool) (s : string) : string * string :=
  match s with
  | EmptyString => (EmptyString, EmptyString)
  | String c r =>
    if f c then let '(a, b) := span f r in (String c a, b) else (EmptyString, s)
  end.

Definition ident_char (c : ascii) : bool := isLetter c || isDigit c || Ascii.eqb c "_".

(** A number at the start of [s]: digits, then a dot and digits if a digit
    follows the dot. *)
Definition scan_number (s : string) : string * string :=
  let '(a, r1) := span isDigit s in
  if Ascii.eqb (head0 r1) "." && isDigit (head0 (tail0 r1)) then
    let '(b, r2) := span isDigit (tail0 r1) in ((a ++ String "." b)%string, r2)
  else (a, r1).

(** The token at the start of [s], which does not start with white space:
    its type, its literal and the input after it.  A string literal is left
    unspecified ([None]). *)
Definition scan_at (s : string) : option (TokenType * string * string) :=
  let c := head0 s in
  let r := tail0 s in
  let one (t : TokenType) := Some (t, str1 c, r) in
  let two (t : TokenType) := Some (t, str2 c (head0 r), tail0 r) in
  if Ascii.eqb c "(" then one TokenLeftParen
  else if Ascii.eqb c ")" then one TokenRightParen
  else if Ascii.eqb c "[" then one TokenLeftBracket
  else if Ascii.eqb c "]" then one TokenRightBracket
  else if Ascii.eqb c "{" then one TokenLeftBrace
  else if Ascii.eqb c "}" then one TokenRightBrace
  else if Ascii.eqb c "," then one TokenComma
  else if Ascii.eqb c "." then
    if Ascii.eqb (head0 r) "." then two TokenDotDot else one TokenDot
  else if Ascii.eqb c ":" then one TokenColon
  else if Ascii.eqb c "*" then one TokenStar
  else if Ascii.eqb c "-" then
    if Ascii.eqb (head0 r) ">" then two TokenArrow else one TokenDash
  else if Ascii.eqb c "<" then
    if Ascii.eqb (head0 r) "-" then two TokenLeftArrow
    else if Ascii.eqb (head0 r) "=" then two TokenLessEqual
    else one TokenLess
  else if Ascii.eqb c ">" then
    if Ascii.eqb (head0 r) "=" then two TokenGreaterEqual else one TokenGreater
  else if Ascii.eqb c "=" then one TokenEqual
  else if Ascii.eqb c "!" then
    if Ascii.eqb (head0 r) "=" then two TokenNotEqual else one TokenIllegal
  else if Ascii.eqb c "034" || Ascii.eqb c "'" then None
  else if Ascii.eqb c Ascii.zero then Some (TokenEOF, EmptyString, r)
  else if isLetter c then
    let '(lit, r') := span ident_char s in Some (lookupKeyword lit, lit, r')
  else if isDigit c then
    let '(lit, r') := scan_number s in Some (TokenNumber, lit, r')
  else one TokenIllegal.

Definition scan (s : string) : option (TokenType * string * string) :=
  scan_at (snd (span is_space s)).

(** The tokens of [s] up to the first [TokenEOF], in at most [n] steps;
    [None] if a string literal is met. *)
Fixpoint scan_all (n : nat) (s : string) : option (list (TokenType * string)) :=
  match n with
  | O => Some []
  | S n' =>
    match scan s with
    | None => None
    | Some (TokenEOF, _, _) => Some []
    | Some (t, lit, r) => cons (t, lit) <$> scan_all n' r
    end
  end.

(** Every byte of [s] satisfies [f]. *)
Fixpoint all_bytes (f : ascii → bool) (s : string) : bool :=
  match s with
  | EmptyString => true
  | String c r => f c && all_bytes f r
  end.

(** The literals of a token stream, separated by one space. *)
Definition join_literals (ts : list Token) : string :=
  String.concat " " (Literal <$> ts).

(** A token that is read back from its literal when the end of the input
    or a space follows the literal. *)
Definition reads_back (x : TokenType * string) : Prop :=
  x.1 ≠ TokenEOF ∧
  ∀ r', head0 r' = Ascii.zero ∨ head0 r' = " "%char →
    scan (x.2 ++ r') = Some (x.1, x.2, r').

(** ** Sequences of operations on the in-memory graph *)

(** A call of one of the four mutating operations of [Graph]. *)
Inductive GraphOp : Type :=
| GAddNode (label : string) (properties : Properties)
| GAddEdge (source target : Z) (label : string) (properties : Properties)
| GDeleteNode (id : Z)
| GDeleteEdge (id : Z).

(** The call: the error it returns, if any, and the graph after it. *)
Definition apply_op (op : GraphOp) (g : Graph) : option error * Graph :=
  match op with
  | GAddNode label properties =>
    let '(r, g') := Graph.AddNode label properties g in (error_of r, g')
  | GAddEdge source target label properties =>
    let '(r, g') := Graph.AddEdge source target label properties g in (error_of r, g')
  | GDeleteNode id => Graph.DeleteNode id g
  | GDeleteEdge id => Graph.DeleteEdge id g
  end.

(** The calls one after the other, whether they fail or not. *)
Definition run_ops (ops : list GraphOp) (g : Graph) : Graph :=
  fold_left (fun g op => snd (apply_op op g)) ops g.

Definition is_add_node (op : GraphOp) : bool :=
  match op with GAddNode _ _ => true | _ => false end.

(** Nodes and edges are stored under their own IDs. *)
Definition keyed (g : Graph) : Prop :=
  (∀ n nd, nodes g !! n = Some nd → nID nd = n) ∧
  (∀ e ed, edges g !! e = Some ed → eID ed = e).

(** Both endpoints of every stored edge are stored nodes. *)
Definition no_dangling (g : Graph) : Prop :=
  ∀ e ed, edges g !! e = Some ed →
    is_Some (nodes g !! Source ed) ∧ is_Some (nodes g !! Target ed).

(** An adjacency list names stored edges only, each one once. *)
Definition adj_exact (g : Graph) : Prop :=
  ∀ n nd, nodes g !! n = Some nd →
    NoDup (OutEdges nd) ∧ NoDup (InEdges nd) ∧
    ∀ e, e ∈ OutEdges nd ∨ e ∈ InEdges nd → is_Some (edges g !! e).

(** What the four operations maintain, from [NewGraph] on. *)
Definition store_inv (g : Graph) : Prop :=
  graph_inv g ∧ keyed g ∧ no_dangling g ∧ adj_exact g.

(** ** Sequences of appends to the log *)

(** [Append] for each record in turn, without disk faults; [None] as soon
    as one fails. *)
Fixpoint append_all (records : list (string * gmap string Value)) (w : WAL)
  : option WAL :=
  match records with
  | [] => Some w
  | (opType, data) :: rest =>
    match WAL.Append AppendNoFault opType data w with
    | (Ok _, w') => append_all rest w'
    | (Err _, _) => None
    end
  end.

(** The record that [Append] writes for [r] under the index [i], as it is
    read back. *)
Definition written (i : Z) (r : string * gmap string Value) : LogEntry :=
  {| Index := i; OpType := json_string r.1; Data := json_props r.2 |}.

(** Every index in the log is below the next index: what [NewWAL]
    establishes and [Append] keeps. *)
Definition indexes_below (w : WAL) : Prop :=
  (∀ x, x ∈ log w → 0 ≤ Index x < nextIndex w) ∧ 0 ≤ nextIndex w < 2 ^ 64 - 1.

(** ** String literals on the rest of the input *)

(** What [readString] reads after the opening quote [q]: the literal and
    the input after the closing quote.  The literal ends at the first
    quote that is not preceded by a backslash, at a 0 byte or at the end of
    the input; a backslash and the quote after it are both kept. *)
Fixpoint string_body (q : ascii) (u : string) : string * string :=
  match u with
  | EmptyString => (EmptyString, EmptyString)
  | String c r =>
    if Ascii.eqb c q || Ascii.eqb c Ascii.zero then (EmptyString, r)
    else
      match r with
      | String c2 r2 =>
        if Ascii.eqb c "\" && Ascii.eqb c2 q then
          let '(a, b) := string_body q r2 in (String c (String c2 a), b)
        else let '(a, b) := string_body q r in (String c a, b)
      | EmptyString => (String c EmptyString, EmptyString)
      end
  end.

(** A byte that a string literal takes as it is. *)
Definition plain_char (q c : ascii) : bool :=
  negb (Ascii.eqb c q) && negb (Ascii.eqb c Ascii.zero) && negb (Ascii.eqb c "\").

Definition is_quote (q : ascii) : bool := Ascii.eqb q "034" || Ascii.eqb q "'".

(** ** Edge patterns *)

(** The tokens of an edge pattern up to its closing bracket: the start
    token, [[], an optional variable, an optional [:] and type, and []]. *)
Definition edge_tokens (start : TokenType) (hasVariable hasType : bool)
  : list TokenType :=
  [start; TokenLeftBracket] ++
  (if hasVariable then [TokenIdentifier] else []) ++
  (if hasType then [TokenColon; TokenIdentifier] else []) ++
  [TokenRightBracket].

(** The direction of an edge pattern that starts with [start] and whose
    closing bracket is followed by [closing]. *)
Definition edge_direction (start closing : TokenType) : Direction :=
  if bool_decide (closing = TokenArrow) then
    if bool_decide (start = TokenLeftArrow) then DirectionBoth else DirectionOut
  else
    if bool_decide (start = TokenLeftArrow) then DirectionIn else DirectionBoth.

(** The tokens that [parseEdgePattern] consumes after the closing
    bracket. *)
Definition closes_edge (closing : TokenType) : bool :=
  bool_decide (closing = TokenArrow) || bool_decide (closing = TokenDash).

(** A parsing function that leaves the parser's error list as it is. *)
Definition keeps_errors {A} (f : Parser → A * Parser) : Prop :=
  ∀ p r p', f p = (r, p') → errors p' = errors p.

(** ** pkg/algorithms: traversals *)

(** Go's [int]: 64 bits, two's complement. *)
Definition wrap_int (z : Z) : Z := (z + 2 ^ 63) mod 2 ^ 64 - 2 ^ 63.

(** [Path] is [[]] for the nil slice. *)
Record TraversalResult : Type := {
  VisitedOrder : list Z;
  Path : list Z;
  Found : bool;
  Distance : Z
}.

(** The state of the loop of [BFS]. *)
Record bfs_state : Type := {
  queue : list Z;
  visited : gmap Z bool;
  parentMap : gmap Z Z;
  distanceMap : gmap Z Z
}.

(** The state that [dfsRecursive] updates: the two maps and
    [result.VisitedOrder]. *)
Record dfs_state : Type := {
  dfs_visited : gmap Z bool;
  dfs_parentMap : gmap Z Z;
  dfs_order : list Z
}.

Module Traversal.
(** [for curr != start { parent, ok := parentMap[curr]; if !ok { return nil };
    path = append([]graph.NodeID{parent}, path...); curr = parent }].
    [None] when the loop bound is reached. *)
Fixpoint reconstructPath_loop (n : nat) (parentMap : gmap Z Z) (start : Z)
    (path : list Z) (curr : Z) : option (list Z) :=
  match n with
  | O => None
  | S n' =>
    if bool_decide (curr = start) then Some path
    else
      match parentMap !! curr with
      | None => Some [] (* Should not happen if path exists *)
      | Some parent => reconstructPath_loop n' parentMap start (parent :: path) parent
      end
  end.

(** A walk along parents that is longer than the map has keys meets a key
    twice, and then never ends. *)
Definition reconstructPath (parentMap : gmap Z Z) (start end_ : Z) : option (list Z) :=
  reconstructPath_loop (S (size parentMap)) parentMap start [end_] end_.

(** [if !visited[neighbor.ID] { ... }], the body of the loop over the
    neighbours of [current]. *)
Definition bfs_visit (current dist : Z) (st : bfs_state) (neighbor : Node) : bfs_state :=
  if default false (visited st !! nID neighbor) then st
  else
    {| queue := queue st ++ [nID neighbor];
       visited := <[nID neighbor := true]> (visited st);
       parentMap := <[nID neighbor := current]> (parentMap st);
       distanceMap := <[nID neighbor := wrap_int (dist + 1)]> (distanceMap st) |}.

(** [for len(queue) > 0 { ... }] *)
Fixpoint bfs_loop (n : nat) (g : Graph) (startNode : Z) (targetNode : option Z)
    (maxDepth : Z) (st : bfs_state) (order : list Z) : res TraversalResult :=
  match n with
  | O => Err ErrOutOfFuel
  | S n' =>
    match queue st with
    | [] => Ok {| VisitedOrder := order; Path := []; Found := false; Distance := 0 |}
    | current :: rest =>
      let st := {| queue := rest; visited := visited st; parentMap := parentMap st;
                   distanceMap := distanceMap st |} in
      let order := order ++ [current] in
      let dist := default 0 (distanceMap st !! current) in
      if (0 <? maxDepth) && (maxDepth <=? dist) then
        bfs_loop n' g startNode targetNode maxDepth st order
      else if bool_decide (targetNode = Some current) then
        (* Check if target found *)
        match reconstructPath (parentMap st) startNode current with
        | None => Err ErrOutOfFuel
        | Some path =>
          Ok {| VisitedOrder := order; Path := path; Found := true; Distance := dist |}
        end
      else
        match Graph.GetNeighbors current g with
        | Err _ => bfs_loop n' g startNode targetNode maxDepth st order
        | Ok neighbors =>
          bfs_loop n' g startNode targetNode maxDepth
            (fold_left (bfs_visit current dist) neighbors st) order
        end
    end
  end.

(** Every ID enters the queue once, and the IDs that enter it after the
    start are IDs of stored nodes: the loop ends within [NodeCount + 1]
    rounds. *)
Definition BFS (g : Graph) (startNode : Z) (targetNode : option Z) (maxDepth : Z)
  : res TraversalResult :=
  (* Check if start node exists *)
  match Graph.GetNode startNode g with
  | Err err => Err err
  | Ok _ =>
    bfs_loop (Graph.NodeCount g + 2) g startNode targetNode maxDepth
      {| queue := [startNode]; visited := {[ startNode := true ]};
         parentMap := ∅; distanceMap := {[ startNode := 0 ]} |} []
  end.

Definition dfs_enter (current : Z) (st : dfs_state) : dfs_state :=
  {| dfs_visited := <[current := true]> (dfs_visited st);
     dfs_parentMap := dfs_parentMap st;
     dfs_order := dfs_order st ++ [current] |}.

Definition dfs_set_parent (child current : Z) (st : dfs_state) : dfs_state :=
  {| dfs_visited := dfs_visited st;
     dfs_parentMap := <[child := current]> (dfs_parentMap st);
     dfs_order := dfs_order st |}.

(** [for _, neighbor := range neighbors { if !visited[neighbor.ID] {
    parentMap[neighbor.ID] = current; if dfsRecursive(...) { return true } } };
    return false], where [recurse] is the recursive call. *)
Fixpoint dfs_neighbors (recurse : Z → dfs_state → option (bool * dfs_state))
    (current : Z) (neighbors : list Node) (st : dfs_state)
  : option (bool * dfs_state) :=
  match neighbors with
  | [] => Some (false, st)
  | neighbor :: rest =>
    if default false (dfs_visited st !! nID neighbor) then
      dfs_neighbors recurse current rest st
    else
      match recurse (nID neighbor) (dfs_set_parent (nID neighbor) current st) with
      | None => None
      | Some (true, st) => Some (true, st)
      | Some (false, st) => dfs_neighbors recurse current rest st
      end
  end.

(** [dfsRecursive]: whether the target was found, and the maps and the
    visiting order after the call.  [None] when the bound [n] on the depth
    of the recursion is reached. *)
Fixpoint dfsRecursive (n : nat) (g : Graph) (current : Z) (target : option Z)
    (maxDepth currentDepth : Z) (st : dfs_state) : option (bool * dfs_state) :=
  match n with
  | O => None
  | S n' =>
    let st := dfs_enter current st in
    if bool_decide (target = Some current) then Some (true, st)
    else if (0 <? maxDepth) && (maxDepth <=? currentDepth) then Some (false, st)
    else
      match Graph.GetNeighbors current g with
      | Err _ => Some (false, st)
      | Ok neighbors =>
        dfs_neighbors
          (fun id st =>
             dfsRecursive n' g id target maxDepth (wrap_int (currentDepth + 1)) st)
          current neighbors st
      end
  end.

(** A call of [dfsRecursive] is on the start or on the ID of a stored node
    that was not visited before, so the recursion is at most
    [NodeCount + 1] deep. *)
Definition DFS (g : Graph) (startNode : Z) (targetNode : option Z) (maxDepth : Z)
  : res TraversalResult :=
  match Graph.GetNode startNode g with
  | Err err => Err err
  | Ok _ =>
    match dfsRecursive (Graph.NodeCount g + 2) g startNode targetNode maxDepth 0
            {| dfs_visited := ∅; dfs_parentMap := ∅; dfs_order := [] |} with
    | None => Err ErrOutOfFuel
    | Some (found, st) =>
      match targetNode with
      | Some target =>
        if found then
          match reconstructPath (dfs_parentMap st) startNode target with
          | None => Err ErrOutOfFuel
          | Some path =>
            (* Calculate distance (path length - 1) *)
            Ok {| VisitedOrder := dfs_order st; Path := path; Found := true;
                  Distance := wrap_int (Z.of_nat (length path) - 1) |}
          end
        else
          Ok {| VisitedOrder := dfs_order st; Path := []; Found := false; Distance := 0 |}
      | None =>
        Ok {| VisitedOrder := dfs_order st; Path := []; Found := false; Distance := 0 |}
      end
    end
  end.
End Traversal.

(** ** Notions for the traversals *)

(** The IDs of the nodes that [GetNeighbors] returns for [u]; none when it
    fails. *)
Definition neighbor_ids (g : Graph) (u : Z) : list Z :=
  match Graph.GetNeighbors u g with
  | Ok l => nID <$> l
  | Err _ => []
  end.

(** There is a stored edge from [u] to [v]. *)
Definition has_edge (g : Graph) (u v : Z) : Prop :=
  ∃ e ed, edges g !! e = Some ed ∧ Source ed = u ∧ Target ed = v.

(** [v] can be reached from [u] along stored edges, in their direction. *)
Definition reachable (g : Graph) (u v : Z) : Prop := rtc (has_edge g) u v.

(** [path] leads from [u] to [v] along stored edges. *)
Fixpoint is_path (g : Graph) (u : Z) (path : list Z) (v : Z) : Prop :=
  match path with
  | [] => False
  | [x] => x = u ∧ x = v
  | x :: (y :: _) as rest => x = u ∧ has_edge g x y ∧ is_path g y rest v
  end.

(** The IDs of the stored nodes. *)
Definition node_ids (g : Graph) : gset Z :=
  list_to_set (nID <$> (map_to_list (nodes g)).*2).

(** [path] is what the walk along the parents from [v] back to [start]
    gives, and each of its steps is from a node to one of its
    neighbours. *)
Inductive parent_chain (g : Graph) (pm : gmap Z Z) (start : Z) : Z → list Z → Prop :=
| chain_start : parent_chain g pm start start [start]
| chain_step v u path :
    v ≠ start → pm !! v = Some u → v ∈ neighbor_ids g u →
    parent_chain g pm start u path →
    parent_chain g pm start v (path ++ [v]).

(** [maxDepth > 0 && dist >= maxDepth] *)
Definition depth_limited (maxDepth : Z) (dm : gmap Z Z) (u : Z) : bool :=
  (0 <? maxDepth) && (maxDepth <=? default 0 (dm !! u)).

(** What the loop of [BFS] keeps: no ID is in the queue or in the order
    twice, the visited IDs are those of the order and of the queue, they
    are the start and IDs of stored nodes, and the parents lead from each
    of them back to the start, in as many steps as the distance map says
    (when the stored nodes are few enough for an [int] to count them). *)
Definition bfs_inv (g : Graph) (start : Z) (st : bfs_state) (order : list Z) : Prop :=
  NoDup (order ++ queue st) ∧
  (∀ v, default false (visited st !! v) = true ↔ v ∈ order ++ queue st) ∧
  start ∈ order ++ queue st ∧
  (∀ v, v ∈ order ++ queue st → v = start ∨ v ∈ node_ids g) ∧
  (∀ v, is_Some (parentMap st !! v) → v ∈ order ++ queue st ∧ v ≠ start) ∧
  (size (parentMap st) < length (order ++ queue st))%nat ∧
  (∀ v, v ∈ order ++ queue st →
     ∃ path, parent_chain g (parentMap st) start v path ∧
             (length path ≤ S (size (parentMap st)))%nat ∧
             (Z.of_nat (Graph.NodeCount g) < 2 ^ 63 →
              distanceMap st !! v = Some (Z.of_nat (length path) - 1))).

(** An ID that was taken from the queue was cut off by the depth limit, or
    it is not the target and its neighbours have been visited. *)
Definition bfs_closed (g : Graph) (target : option Z) (maxDepth : Z)
    (st : bfs_state) (order : list Z) : Prop :=
  ∀ u, u ∈ order →
    depth_limited maxDepth (distanceMap st) u = true ∨
    (target ≠ Some u ∧ ∀ v, v ∈ neighbor_ids g u → v ∈ order ++ queue st).

(** What [BFS] returns, in terms of the last state [st] of its loop. *)
Definition bfs_post (g : Graph) (start : Z) (target : option Z) (maxDepth : Z)
    (st : bfs_state) (r : TraversalResult) : Prop :=
  bfs_inv g start st (VisitedOrder r) ∧
  if Found r then
    ∃ t, target = Some t ∧ last (VisitedOrder r) = Some t ∧
      parent_chain g (parentMap st) start t (Path r) ∧
      Distance r = default 0 (distanceMap st !! t) ∧
      depth_limited maxDepth (distanceMap st) t = false
  else
    Path r = [] ∧ Distance r = 0 ∧ queue st = [] ∧
    bfs_closed g target maxDepth st (VisitedOrder r).

(** [distanceMap[v]] *)
Definition bfs_dist (st : bfs_state) (v : Z) : Z := default 0 (distanceMap st !! v).

Fixpoint ascending (l : list Z) : Prop :=
  match l with
  | [] => True
  | x :: rest => Forall (Z.le x) rest ∧ ascending rest
  end.

(** The queue of [BFS] holds at most two levels, in ascending order, and
    the neighbours of an ID that has been expanded are at most one level
    further than it. *)
Definition bfs_levels (g : Graph) (target : option Z) (maxDepth : Z)
    (st : bfs_state) (order expanded : list Z) : Prop :=
  ascending (bfs_dist st <$> queue st) ∧
  (∀ u v, u ∈ queue st → v ∈ order ++ queue st → bfs_dist st v ≤ bfs_dist st u + 1) ∧
  (∀ u, u ∈ expanded →
     depth_limited maxDepth (distanceMap st) u = true ∨
     (target ≠ Some u ∧
      ∀ v, v ∈ neighbor_ids g u →
        v ∈ order ++ queue st ∧ bfs_dist st v ≤ bfs_dist st u + 1)).

(** While the neighbours of an ID at distance [dc] are visited. *)
Definition bfs_levels_mid (g : Graph) (target : option Z) (maxDepth : Z)
    (st : bfs_state) (order expanded : list Z) (dc : Z) : Prop :=
  bfs_levels g target maxDepth st order expanded ∧
  (∀ v, v ∈ order ++ queue st → bfs_dist st v ≤ dc + 1) ∧
  (∀ u, u ∈ queue st → dc ≤ bfs_dist st u).

(** What [dfsRecursive] keeps between its calls: the visited IDs are those
    of the order, each once; they are the start and IDs of stored nodes;
    and the parents lead from each of them back to the start. *)
Definition dfs_inv (g : Graph) (start : Z) (st : dfs_state) : Prop :=
  NoDup (dfs_order st) ∧
  (∀ v, default false (dfs_visited st !! v) = true ↔ v ∈ dfs_order st) ∧
  start ∈ dfs_order st ∧
  (∀ v, v ∈ dfs_order st → v = start ∨ v ∈ node_ids g) ∧
  (∀ v, is_Some (dfs_parentMap st !! v) → v ∈ dfs_order st ∧ v ≠ start) ∧
  (size (dfs_parentMap st) < length (dfs_order st))%nat ∧
  (∀ v, v ∈ dfs_order st →
     ∃ path, parent_chain g (dfs_parentMap st) start v path ∧
             (length path ≤ S (size (dfs_parentMap st)))%nat).

(** A call of [dfsRecursive] at depth [depth] that returns [found] and
    leaves [st'], when [st] was the state on entry. *)
Definition dfs_post (g : Graph) (start : Z) (target : option Z) (maxDepth : Z)
    (current depth : Z) (st st' : dfs_state) (found : bool) : Prop :=
  dfs_inv g start st' ∧
  dfs_order st `prefix_of` dfs_order st' ∧
  (∀ v path, parent_chain g (dfs_parentMap st) start v path →
             parent_chain g (dfs_parentMap st') start v path) ∧
  if found then
    ∃ t path, target = Some t ∧ last (dfs_order st') = Some t ∧
      parent_chain g (dfs_parentMap st') start t path ∧
      (Z.of_nat (Graph.NodeCount g) < 2 ^ 63 → 0 < maxDepth →
       Z.of_nat (length path) - 1 ≤ Z.max depth maxDepth)
  else
    (∀ t, target = Some t → t ∉ dfs_order st') ∧
    ((0 <? maxDepth) && (maxDepth <=? depth) = false →
     ∀ v, v ∈ neighbor_ids g current → v ∈ dfs_order st').

(** * Properties *)

(** ** Integers through doubles *)

Section FloatFacts.
Lemma digits2_pos_bounds m :
  2 ^ (Z.pos (digits2_pos m) - 1) ≤ Z.pos m < 2 ^ Z.pos (digits2_pos m).
Proof.
  induction m as [m IH|m IH|]; cbn [digits2_pos].
  - rewrite Pos2Z.inj_succ.
    replace (Z.succ (Z.pos (digits2_pos m)) - 1)
      with (Z.succ (Z.pos (digits2_pos m) - 1)) by lia.
    rewrite !Z.pow_succ_r by lia. lia.
  - rewrite Pos2Z.inj_succ.
    replace (Z.succ (Z.pos (digits2_pos m)) - 1)
      with (Z.succ (Z.pos (digits2_pos m) - 1)) by lia.
    rewrite !Z.pow_succ_r by lia. lia.
  - cbn. lia.
Qed.

Lemma iter_xO_digits m p :
  digits2_pos (Pos.iter xO m p) = (digits2_pos m + p)%positive.
Proof.
  induction p as [|p IH] using Pos.peano_ind.
  - cbn. lia.
  - rewrite Pos.iter_succ. cbn [digits2_pos]. rewrite IH. lia.
Qed.

Lemma iter_xO_value m p : Z.pos (Pos.iter xO m p) = Z.pos m * 2 ^ Z.pos p.
Proof.
  induction p as [|p IH] using Pos.peano_ind.
  - cbn. lia.
  - rewrite Pos.iter_succ, Pos2Z.inj_xO, IH, Pos2Z.inj_succ, Z.pow_succ_r by lia. lia.
Qed.

Lemma digits2_pos_le_53 m : Z.pos m < 2 ^ 53 → Z.pos (digits2_pos m) ≤ 53.
Proof.
  intros H. pose proof (digits2_pos_bounds m) as [Hl _].
  destruct (Z_le_gt_dec (Z.pos (digits2_pos m)) 53) as [|Hgt]; [assumption|].
  exfalso.
  assert (2 ^ 53 ≤ 2 ^ (Z.pos (digits2_pos m) - 1)) by (apply Z.pow_le_mono_r; lia).
  lia.
Qed.

(** An integer below 2^53 is a double: its mantissa is the integer
    shifted left to 53 bits. *)
Lemma float64_of_pos m :
  Z.pos m < 2 ^ 53 →
  ∃ mz ez, float64_of_Z (Z.pos m) = S754_finite false mz ez ∧
    ez ≤ 0 ∧ Z.pos mz = Z.pos m * 2 ^ (- ez).
Proof.
  intros Hm. pose proof (digits2_pos_le_53 m Hm) as Hd.
  unfold float64_of_Z, binary_normalize, binary_round.
  set (d := digits2_pos m) in *.
  assert (Hfexp : fexp 53 1024 (Z.pos d + 0) = Z.pos d - 53).
  { unfold fexp, emin. lia. }
  rewrite Hfexp.
  assert (Hsh : ∃ mz, shl_align m 0 (Z.pos d - 53) = (mz, Z.pos d - 53) ∧
                  Z.pos (digits2_pos mz) = 53 ∧
                  Z.pos mz = Z.pos m * 2 ^ (53 - Z.pos d)).
  { unfold shl_align. rewrite Z.sub_0_r.
    destruct (Z.pos d - 53) as [|p|p] eqn:E; [|lia|].
    - exists m. fold d. replace (53 - Z.pos d) with 0 by lia. rewrite Z.mul_1_r.
      split; [reflexivity|]. split; lia.
    - exists (Pos.iter xO m p). rewrite iter_xO_digits, iter_xO_value. fold d.
      split; [reflexivity|]. split; [lia|]. f_equal. f_equal. lia. }
  destruct Hsh as (mz & -> & Hdz & Hvz).
  exists mz, (Z.pos d - 53).
  split; [|split; [lia|rewrite Hvz; f_equal; f_equal; lia]].
  unfold binary_round_aux, shr_fexp. cbn [Zdigits2 shr_record_of_loc].
  rewrite Hdz.
  assert (Hf2 : fexp 53 1024 (53 + (Z.pos d - 53)) - (Z.pos d - 53) = 0).
  { unfold fexp, emin. lia. }
  rewrite Hf2.
  cbn [shr shr_m loc_of_shr_record round_nearest_even Zdigits2 shr_record_of_loc].
  rewrite Hdz, Hf2. cbn [shr shr_m].
  destruct (Z.leb_spec (Z.pos d - 53) (1024 - 53)); [reflexivity|lia].
Qed.

(** An ID below 2^53 survives the WAL: [uint64(float64(id)) = id]. *)
Lemma uint64_float64_roundtrip z :
  0 ≤ z < 2 ^ 53 → uint64_of_float64 (float64_of_Z z) = z.
Proof.
  intros [H0 H1]. destruct z as [|m|m]; [reflexivity| |lia].
  destruct (float64_of_pos m H1) as (mz & ez & -> & Hez & Hv).
  unfold uint64_of_float64, wrap64.
  replace ez with (- (- ez)) by lia.
  rewrite Z.shiftl_opp_r, Z.shiftr_div_pow2 by lia.
  rewrite Hv, Z.div_mul by (apply Z.pow_nonzero; lia).
  apply Z.mod_small. lia.
Qed.
End FloatFacts.

(** ** The in-memory graph *)

Section GraphFacts.
Implicit Types (g : Graph) (n e : Z).

Lemma set_all_node_fields props nd :
  let nd' := set_all_node props nd in
  nID nd' = nID nd ∧ nLabel nd' = nLabel nd ∧
  OutEdges nd' = OutEdges nd ∧ InEdges nd' = InEdges nd ∧
  nProperties nd' = props ∪ nProperties nd.
Proof.
  unfold set_all_node.
  apply (map_fold_weak_ind (fun r m =>
    nID r = nID nd ∧ nLabel r = nLabel nd ∧ OutEdges r = OutEdges nd ∧
    InEdges r = InEdges nd ∧ nProperties r = m ∪ nProperties nd)).
  - by rewrite (left_id_L ∅ (∪)).
  - intros i x m r Hi (? & ? & ? & ? & Hp); cbn.
    repeat split; try done.
    by rewrite Hp, insert_union_l.
Qed.

Lemma set_all_edge_fields props ed :
  let ed' := set_all_edge props ed in
  eID ed' = eID ed ∧ Source ed' = Source ed ∧ Target ed' = Target ed ∧
  eLabel ed' = eLabel ed ∧ eProperties ed' = props ∪ eProperties ed.
Proof.
  unfold set_all_edge.
  apply (map_fold_weak_ind (fun r m =>
    eID r = eID ed ∧ Source r = Source ed ∧ Target r = Target ed ∧
    eLabel r = eLabel ed ∧ eProperties r = m ∪ eProperties ed)).
  - by rewrite (left_id_L ∅ (∪)).
  - intros i x m r Hi (? & ? & ? & ? & Hp); cbn.
    repeat split; try done.
    by rewrite Hp, insert_union_l.
Qed.

Lemma set_all_node_new props id label :
  set_all_node props (NewNode id label) =
  {| nID := id; nLabel := label; nProperties := props; OutEdges := []; InEdges := [] |}.
Proof.
  pose proof (set_all_node_fields props (NewNode id label)) as (H1 & H2 & H3 & H4 & H5).
  destruct (set_all_node props (NewNode id label)); cbn in *; subst.
  by rewrite (right_id_L ∅ (∪)).
Qed.

Lemma set_all_edge_new props id s t label :
  set_all_edge props (NewEdge id s t label) =
  {| eID := id; Source := s; Target := t; eLabel := label; eProperties := props |}.
Proof.
  pose proof (set_all_edge_fields props (NewEdge id s t label)) as (H1 & H2 & H3 & H4 & H5).
  destruct (set_all_edge props (NewEdge id s t label)); cbn in *; subst.
  by rewrite (right_id_L ∅ (∪)).
Qed.

Lemma wrap64_small z : 0 ≤ z < 2 ^ 64 → wrap64 z = z.
Proof. intros. unfold wrap64. by apply Z.mod_small. Qed.

(** The ID an allocation hands out is the counter's old value. *)
Lemma alloc_id next : 0 ≤ next < 2 ^ 64 → wrap64 (wrap64 (next + 1) - 1) = next.
Proof.
  intros H. unfold wrap64.
  destruct (decide (next + 1 = 2 ^ 64)) as [E|E].
  - rewrite E, Z.mod_same by lia. cbn -[Z.pow]. 
    replace (0 - 1) with (-1) by lia.
    replace next with (2 ^ 64 - 1) by lia. reflexivity.
  - rewrite (Z.mod_small (next + 1)) by lia.
    replace (next + 1 - 1) with next by lia. apply Z.mod_small; lia.
Qed.





Lemma DeleteEdge_edges e g :
  edges (snd (Graph.DeleteEdge e g)) = delete e (edges g).
Proof.
  unfold Graph.DeleteEdge, Graph.GetEdge.
  destruct (edges g !! e) eqn:E; cbn; [done|].
  by rewrite delete_id.
Qed.


Lemma delete_edges_edges ids g e :
  edges (Graph.delete_edges ids g) !! e =
  if decide (e ∈ ids) then None else edges g !! e.
Proof.
  unfold Graph.delete_edges. revert g.
  induction ids as [|i ids IH]; intros g; cbn.
  - rewrite decide_False; [done|apply not_elem_of_nil].
  - rewrite IH, DeleteEdge_edges.
    destruct (decide (i = e)) as [->|Hne].
    + rewrite lookup_delete_eq, (decide_True (P := e ∈ e :: ids)) by apply list_elem_of_here.
      by case_decide.
    + rewrite lookup_delete_ne by done.
      destruct (decide (e ∈ ids)) as [Hin|Hin].
      * rewrite decide_True; [done|by apply list_elem_of_further].
      * rewrite decide_False; [done|].
        intros [?|?]%elem_of_cons; congruence.
Qed.


Lemma delete_edges_counters ids g :
  nextNodeID (Graph.delete_edges ids g) = nextNodeID g ∧
  nextEdgeID (Graph.delete_edges ids g) = nextEdgeID g.
Proof.
  unfold Graph.delete_edges. revert g.
  induction ids as [|i ids IH]; intros g; cbn; [done|].
  destruct (IH (snd (Graph.DeleteEdge i g))) as [-> ->].
  unfold Graph.DeleteEdge. by destruct (Graph.GetEdge i g).
Qed.
End GraphFacts.

(** *** The invariant is established by [NewGraph] and kept by the operations *)

Section GraphInvariant.
Implicit Types (g : Graph) (n e : Z).

Lemma elem_of_remove_first x e (l : list Z) : x ∈ remove_first e l → x ∈ l.
Proof.
  induction l as [|y l IH]; cbn; [done|].
  destruct (Z.eqb_spec y e); intros H.
  - by apply list_elem_of_further.
  - apply elem_of_cons in H as [->|H]; [apply list_elem_of_here|].
    apply list_elem_of_further; auto.
Qed.

Lemma elem_of_remove_first_ne x e (l : list Z) :
  x ≠ e → x ∈ l → x ∈ remove_first e l.
Proof.
  intros Hne. induction l as [|y l IH]; cbn; [done|].
  intros [<-|H]%elem_of_cons.
  - destruct (Z.eqb_spec x e); [done|apply list_elem_of_here].
  - destruct (Z.eqb_spec y e); [done|]. apply list_elem_of_further; auto.
Qed.

Lemma graph_inv_NewGraph : graph_inv Graph.NewGraph.
Proof.
  repeat split; cbn; try done; try lia; intros *; rewrite ?lookup_empty; done.
Qed.

Lemma graph_inv_fresh_node g : graph_inv g → nodes g !! nextNodeID g = None.
Proof.
  intros (_ & Hn & _). destruct (nodes g !! nextNodeID g) eqn:E; [|done].
  apply Hn in E. lia.
Qed.

Lemma graph_inv_fresh_edge g : graph_inv g → edges g !! nextEdgeID g = None.
Proof.
  intros (_ & _ & He & _). destruct (edges g !! nextEdgeID g) eqn:E; [|done].
  apply He in E. lia.
Qed.

Lemma graph_inv_AddNode g label props :
  graph_inv g → nextNodeID g + 1 < 2 ^ 64 →
  graph_inv (snd (Graph.AddNode label props g)).
Proof.
  intros ([Hc Hs] & Hn & He & Hnn & Hne) Hb.
  unfold Graph.AddNode; cbn.
  rewrite alloc_id, set_all_node_new by lia.
  rewrite (wrap64_small (nextNodeID g + 1)) by lia.
  unfold graph_inv, wf_graph, adj_complete, adj_sound, ids_bounded; cbn.
  split; [split|split; [|split]].
  - intros e ed Hed. destruct (Hc e ed Hed) as [Ho Hi].
    destruct (He e ed Hed) as (_ & ? & ?).
    split; intros nd; rewrite lookup_insert_ne by lia; auto.
  - intros n nd e ed Hnd Hed.
    destruct (decide (nextNodeID g = n)) as [<-|Hne'].
    + rewrite lookup_insert_eq in Hnd. injection Hnd as <-. cbn.
      split; intros H; by apply not_elem_of_nil in H.
    + rewrite lookup_insert_ne in Hnd by done. eauto.
  - intros n nd Hnd.
    destruct (decide (nextNodeID g = n)) as [<-|Hne'].
    + rewrite lookup_insert_eq in Hnd. injection Hnd as <-. cbn.
      split; [lia|]. intros e [H|H]; by apply not_elem_of_nil in H.
    + rewrite lookup_insert_ne in Hnd by done.
      destruct (Hn n nd Hnd). split; [lia|done].
  - intros e ed Hed. destruct (He e ed Hed) as (? & ? & ?). lia.
  - lia.
Qed.

Lemma lookup_alter_inv (f : Node → Node) (ns : gmap Z Node) k m nd' :
  alter f k ns !! m = Some nd' →
  ∃ nd, ns !! m = Some nd ∧ ((k ≠ m ∧ nd' = nd) ∨ (k = m ∧ nd' = f nd)).
Proof.
  rewrite lookup_alter. case_decide as Hk.
  - subst k. destruct (ns !! m) as [nd|]; cbn; [|done].
    intros [= <-]. eauto.
  - intros ->. eauto.
Qed.

(** The adjacency lists after [AddEdge]. *)
Lemma AddEdge_nodes_lookup (ns : gmap Z Node) s t eid m nd' :
  alter (Node.AddInEdge eid) t (alter (Node.AddOutEdge eid) s ns) !! m = Some nd' →
  ∃ nd, ns !! m = Some nd ∧ same_content nd' nd ∧
    (∀ x, x ∈ OutEdges nd' ↔ x ∈ OutEdges nd ∨ (x = eid ∧ m = s)) ∧
    (∀ x, x ∈ InEdges nd' ↔ x ∈ InEdges nd ∨ (x = eid ∧ m = t)).
Proof.
  intros (n1 & (nd & -> & H0)%lookup_alter_inv & H1)%lookup_alter_inv.
  exists nd. split; [done|].
  destruct H0 as [[? ->]|[? ->]], H1 as [[? ->]|[? ->]]; cbn;
    (split; [done|]); split; intros x;
    rewrite ?elem_of_app, ?list_elem_of_singleton; naive_solver.
Qed.

Lemma graph_inv_AddEdge g s t label props :
  graph_inv g → nextEdgeID g + 1 < 2 ^ 64 →
  graph_inv (snd (Graph.AddEdge s t label props g)).
Proof.
  intros Hinv Hb. pose proof Hinv as ([Hc Hs] & Hn & He & Hnn & Hne).
  unfold Graph.AddEdge, Graph.GetNode.
  destruct (nodes g !! s) as [ns|] eqn:Es; [|done].
  destruct (nodes g !! t) as [nt|] eqn:Et; [|done].
  cbn. rewrite alloc_id, set_all_edge_new by lia.
  rewrite (wrap64_small (nextEdgeID g + 1)) by lia.
  set (eid := nextEdgeID g) in *.
  unfold graph_inv, wf_graph, adj_complete, adj_sound, ids_bounded; cbn.
  split; [split|split; [|split]].
  - intros e ed Hed.
    destruct (decide (eid = e)) as [<-|Hne'].
    + rewrite lookup_insert_eq in Hed. injection Hed as <-. cbn.
      split; intros nd' (nd & ? & ? & Ho & Hi)%AddEdge_nodes_lookup;
        [apply Ho|apply Hi]; auto.
    + rewrite lookup_insert_ne in Hed by done.
      destruct (Hc e ed Hed) as [Ho Hi].
      split; intros nd' (nd & ? & ? & Ho' & Hi')%AddEdge_nodes_lookup;
        [apply Ho'|apply Hi']; left; auto.
  - intros n nd' e ed (nd & Hnd & ? & Ho & Hi)%AddEdge_nodes_lookup Hed.
    destruct (Hn n nd Hnd) as [_ Hadj].
    destruct (decide (eid = e)) as [<-|Hne'].
    + rewrite lookup_insert_eq in Hed. injection Hed as <-. cbn.
      split; intros Hin.
      * apply Ho in Hin as [Hin|[_ ->]]; [|done].
        specialize (Hadj eid (or_introl Hin)). lia.
      * apply Hi in Hin as [Hin|[_ ->]]; [|done].
        specialize (Hadj eid (or_intror Hin)). lia.
    + rewrite lookup_insert_ne in Hed by done.
      destruct (Hs n nd e ed Hnd Hed) as [Ho' Hi'].
      split; intros Hin.
      * apply Ho in Hin as [Hin|[-> _]]; [auto|done].
      * apply Hi in Hin as [Hin|[-> _]]; [auto|done].
  - intros n nd' (nd & Hnd & ? & Ho & Hi)%AddEdge_nodes_lookup.
    destruct (Hn n nd Hnd) as [? Hadj]. split; [done|].
    intros e [Hin|Hin].
    + apply Ho in Hin as [Hin|[-> _]]; [|lia].
      specialize (Hadj e (or_introl Hin)). lia.
    + apply Hi in Hin as [Hin|[-> _]]; [|lia].
      specialize (Hadj e (or_intror Hin)). lia.
  - intros e ed Hed.
    destruct (decide (eid = e)) as [<-|Hne'].
    + rewrite lookup_insert_eq in Hed. injection Hed as <-. cbn.
      destruct (Hn s ns Es), (Hn t nt Et). lia.
    + rewrite lookup_insert_ne in Hed by done.
      destruct (He e ed Hed) as (? & ? & ?). lia.
  - lia.
Qed.

(** The adjacency lists after [DeleteEdge]. *)
Lemma DeleteEdge_nodes_lookup g e m nd' :
  nodes (snd (Graph.DeleteEdge e g)) !! m = Some nd' →
  ∃ nd, nodes g !! m = Some nd ∧
    (∀ x, x ∈ OutEdges nd' → x ∈ OutEdges nd) ∧
    (∀ x, x ∈ InEdges nd' → x ∈ InEdges nd) ∧
    (∀ x, x ≠ e → x ∈ OutEdges nd → x ∈ OutEdges nd') ∧
    (∀ x, x ≠ e → x ∈ InEdges nd → x ∈ InEdges nd').
Proof.
  unfold Graph.DeleteEdge, Graph.GetEdge.
  destruct (edges g !! e) as [ed|]; cbn; [|by eauto 10].
  intros (n1 & (nd & -> & H0)%lookup_alter_inv & H1)%lookup_alter_inv.
  exists nd. split; [done|].
  destruct H0 as [[? ->]|[? ->]], H1 as [[? ->]|[? ->]]; cbn;
    repeat split; eauto using elem_of_remove_first, elem_of_remove_first_ne.
Qed.

Lemma DeleteEdge_counters e g :
  nextNodeID (snd (Graph.DeleteEdge e g)) = nextNodeID g ∧
  nextEdgeID (snd (Graph.DeleteEdge e g)) = nextEdgeID g.
Proof. unfold Graph.DeleteEdge. by destruct (Graph.GetEdge e g). Qed.

Lemma graph_inv_DeleteEdge g e :
  graph_inv g → graph_inv (snd (Graph.DeleteEdge e g)).
Proof.
  intros ([Hc Hs] & Hn & He & Hnn & Hne).
  destruct (DeleteEdge_counters e g) as [En Ee].
  unfold graph_inv, wf_graph, adj_complete, adj_sound, ids_bounded.
  split; [split|split; [|split]]; rewrite ?En, ?Ee; try done.
  - intros x ed. rewrite DeleteEdge_edges.
    intros [Hx Hed]%lookup_delete_Some.
    destruct (Hc x ed Hed) as [Ho Hi].
    split; intros nd' (nd & ? & _ & _ & Ho' & Hi')%DeleteEdge_nodes_lookup; auto.
  - intros n nd' x ed (nd & Hnd & Ho' & Hi' & _)%DeleteEdge_nodes_lookup.
    rewrite DeleteEdge_edges. intros [Hx Hed]%lookup_delete_Some.
    destruct (Hs n nd x ed Hnd Hed). split; auto.
  - intros n nd' (nd & Hnd & Ho' & Hi' & _)%DeleteEdge_nodes_lookup.
    destruct (Hn n nd Hnd) as [? Hadj]. split; [done|].
    intros x [Hin|Hin]; apply Hadj; auto.
  - intros x ed. rewrite DeleteEdge_edges.
    intros [Hx Hed]%lookup_delete_Some. eauto.
Qed.

Lemma graph_inv_delete_edges ids g :
  graph_inv g → graph_inv (Graph.delete_edges ids g).
Proof.
  unfold Graph.delete_edges. revert g.
  induction ids as [|i ids IH]; intros g H; cbn; [done|].
  apply IH, graph_inv_DeleteEdge, H.
Qed.

Lemma graph_inv_DeleteNode g n :
  graph_inv g → graph_inv (snd (Graph.DeleteNode n g)).
Proof.
  intros Hinv. unfold Graph.DeleteNode.
  destruct (Graph.GetNode n g) as [nd|]; [|done]. cbn.
  pose proof (graph_inv_delete_edges (InEdges nd) _
                (graph_inv_delete_edges (OutEdges nd) _ Hinv)) as Hinv'.
  set (g' := Graph.delete_edges (InEdges nd) (Graph.delete_edges (OutEdges nd) g)) in *.
  destruct Hinv' as ([Hc Hs] & Hn & He & Hnn & Hne).
  unfold graph_inv, wf_graph, adj_complete, adj_sound, ids_bounded; cbn.
  split; [split|split; [|split]]; try done.
  - intros e ed Hed. destruct (Hc e ed Hed).
    split; intros nd' [_ ?]%lookup_delete_Some; auto.
  - intros m nd' e ed [_ ?]%lookup_delete_Some Hed. eauto.
  - intros m nd' [_ ?]%lookup_delete_Some. eauto.
Qed.
End GraphInvariant.

(** C10. Self-loops are supported: for an existing node [n],
    [AddEdge(n, n, label, props)] succeeds, the new edge has source and
    target [n] and is stored under its ID, and that ID is afterwards in both
    [n.OutEdges] and [n.InEdges]. *)
Theorem AddEdge_self_loop (g : Graph) (n : Z) (nd : Node) (label : string)
    (props : Properties) :
  nodes g !! n = Some nd →
  ∃ ed g' nd',
    Graph.AddEdge n n label props g = (Ok ed, g') ∧
    Source ed = n ∧ Target ed = n ∧
    Graph.GetEdge (eID ed) g' = Ok ed ∧
    Graph.GetNode n g' = Ok nd' ∧
    eID ed ∈ OutEdges nd' ∧ eID ed ∈ InEdges nd'.
Proof.
  intros Hn. unfold Graph.AddEdge, Graph.GetNode. rewrite Hn.
  do 3 eexists. split; [reflexivity|].
  rewrite set_all_edge_new. cbn.
  unfold Graph.GetEdge, Graph.GetNode; cbn.
  rewrite lookup_insert_eq, !lookup_alter_eq, Hn. cbn.
  repeat split; set_solver.
Qed.

Lemma AddEdge_self_loop_witness :
  ∃ ed g' nd',
    Graph.AddEdge 1 1 "LOOP" ∅ (snd (Graph.AddNode "A" ∅ Graph.NewGraph)) = (Ok ed, g') ∧
    Source ed = 1 ∧ Target ed = 1 ∧
    Graph.GetEdge (eID ed) g' = Ok ed ∧
    Graph.GetNode 1 g' = Ok nd' ∧
    eID ed ∈ OutEdges nd' ∧ eID ed ∈ InEdges nd'.
Proof.
  apply (AddEdge_self_loop _ 1 (NewNode 1 "A")). reflexivity.
Defined.


Lemma sample_graph_inv : graph_inv sample_graph.
Proof.
  unfold sample_graph.
  apply graph_inv_AddEdge; [|by vm_compute].
  apply graph_inv_AddNode; [|by vm_compute].
  apply graph_inv_AddNode; [|by vm_compute].
  apply graph_inv_NewGraph.
Qed.


(** ** The write-ahead log *)

Section WALFacts.
Implicit Types (w : WAL) (l : list LogEntry).

Lemma contiguous_tail e l : contiguous (e :: l) → contiguous l.
Proof. intros H i e1 e2 H1 H2. exact (H (S i) e1 e2 H1 H2). Qed.

Lemma contiguous_ge e l x : contiguous (e :: l) → x ∈ l → Index e < Index x.
Proof.
  revert e. induction l as [|y l IH]; intros e Hc Hx; [by apply elem_of_nil in Hx|].
  pose proof (Hc 0%nat e y eq_refl eq_refl) as Hy.
  apply elem_of_cons in Hx as [->|Hx]; [lia|].
  specialize (IH y (contiguous_tail _ _ Hc) Hx). lia.
Qed.

Lemma filter_all {A} (f : A → bool) (l : list A) :
  (∀ x, x ∈ l → f x = true) → List.filter f l = l.
Proof.
  induction l as [|y l IH]; intros H; cbn; [done|].
  rewrite (H y) by apply list_elem_of_here.
  f_equal. apply IH. intros x Hx. apply H. by apply list_elem_of_further.
Qed.

(** On a contiguous log the retained entries are a suffix. *)
Lemma filter_from_index_suffix I l :
  contiguous l →
  ∃ k, List.filter (fun entry => Z.leb I (Index entry)) l = drop k l.
Proof.
  induction l as [|e l IH]; intros Hc; [by exists 0%nat|].
  destruct (Z.leb_spec I (Index e)) as [Hle|Hlt].
  - exists 0%nat. apply filter_all. intros x [->|Hx]%elem_of_cons.
    + by apply Z.leb_le.
    + apply Z.leb_le. pose proof (contiguous_ge e l x Hc Hx). lia.
  - destruct (IH (contiguous_tail _ _ Hc)) as [k Hk].
    exists (S k). cbn. destruct (Z.leb_spec I (Index e)); [lia|]. exact Hk.
Qed.

Lemma Truncate_success fault I w w' :
  WAL.Truncate fault I w = (None, w') →
  log w' = List.filter (fun entry => Z.leb I (Index entry)) (log w) ∧
  nextIndex w' = nextIndex w.
Proof.
  unfold WAL.Truncate. intros H.
  destruct fault; destruct (closed w); try discriminate;
    try (injection H as <-; done).
  destruct (Nat.ltb k _); [discriminate|]. injection H as <-. done.
Qed.

Lemma Truncate_nextIndex fault I w :
  nextIndex (snd (WAL.Truncate fault I w)) = nextIndex w.
Proof.
  unfold WAL.Truncate.
  destruct fault; destruct (closed w); try done.
  by destruct (Nat.ltb k _).
Qed.

Lemma elem_of_filter_index I l (e : LogEntry) :
  e ∈ List.filter (fun entry => Z.leb I (Index entry)) l ↔ e ∈ l ∧ I ≤ Index e.
Proof.
  rewrite !list_elem_of_In, filter_In, Z.leb_le. done.
Qed.
End WALFacts.

(** C2. On a log with contiguous indexes a successful [Truncate(I)] leaves
    exactly the entries whose index is at least [I], in their original
    order (they are a suffix of the log), so the first retained entry has an
    index of at least [I]; and after a successful [Snapshot], which
    truncates at the index [I] it read from the log, the first entry of the
    retained log has an index of at least [I].  Both calls do succeed: on a
    log that is open and without a disk fault [Truncate(I)] succeeds for
    every [I], and so does [Snapshot] when the graph is encodable. *)
Theorem Truncate_retains_from_index (w : WAL) :
  contiguous (log w) →
  (∀ fault I w',
     WAL.Truncate fault I w = (None, w') →
     log w' = List.filter (fun entry => Z.leb I (Index entry)) (log w) ∧
     (∀ e, e ∈ log w' ↔ e ∈ log w ∧ I ≤ Index e) ∧
     (∃ k, log w' = drop k (log w)) ∧
     (∀ e, head (log w') = Some e → I ≤ Index e)) ∧
  (∀ sfault tfault pg pg',
     wal pg = w →
     PersistentGraph.Snapshot sfault tfault pg = (None, pg') →
     ∀ e, head (log (wal pg')) = Some e → WAL.GetCurrentIndex w ≤ Index e) ∧
  (closed w = false →
     (∀ I, ∃ w', WAL.Truncate TruncNoFault I w = (None, w')) ∧
     (∀ pg, wal pg = w → graph_encodable (G pg) = true →
        ∃ pg', PersistentGraph.Snapshot SnapNoFault TruncNoFault pg = (None, pg'))).
Proof.
  intros Hc.
  assert (Hhead : ∀ I w' e,
            log w' = List.filter (fun entry => Z.leb I (Index entry)) (log w) →
            head (log w') = Some e → I ≤ Index e).
  { intros I w' e Hlog He.
    assert (e ∈ log w') as Hin by (destruct (log w'); [done|]; injection He as ->; apply list_elem_of_here).
    rewrite Hlog in Hin. by apply elem_of_filter_index in Hin as [_ ?]. }
  split_and!.
  - intros fault I w' [Hlog _]%Truncate_success.
    split; [done|]. split; [|split].
    + intros e. rewrite Hlog. apply elem_of_filter_index.
    + rewrite Hlog. by apply filter_from_index_suffix.
    + intros e. by apply Hhead.
  - intros sfault tfault pg pg' <-. unfold PersistentGraph.Snapshot.
    destruct (SnapshotManager.CreateSnapshot _ _ _ _ _) as [[err|] sm]; [done|].
    cbn. destruct (WAL.Truncate _ _ _) as [[err|] w'] eqn:Ht; [done|].
    intros [= <-]; cbn. apply Truncate_success in Ht as [Hlog _].
    intros e. by apply Hhead.
  - intros Hopen. split.
    + intros I. unfold WAL.Truncate. rewrite Hopen. eauto.
    + intros pg <- Henc. unfold PersistentGraph.Snapshot, SnapshotManager.CreateSnapshot.
      unfold graph_encodable in Henc. rewrite Henc.
      cbn [negb PersistentGraph.set_snapshotManager wal].
      unfold WAL.Truncate. rewrite Hopen. eauto.
Qed.

Lemma Truncate_retains_from_index_witness :
  (∀ fault I w',
     WAL.Truncate fault I sample_wal = (None, w') →
     log w' = List.filter (fun entry => Z.leb I (Index entry)) (log sample_wal) ∧
     (∀ e, e ∈ log w' ↔ e ∈ log sample_wal ∧ I ≤ Index e) ∧
     (∃ k, log w' = drop k (log sample_wal)) ∧
     (∀ e, head (log w') = Some e → I ≤ Index e)) ∧
  (∀ sfault tfault pg pg',
     wal pg = sample_wal →
     PersistentGraph.Snapshot sfault tfault pg = (None, pg') →
     ∀ e, head (log (wal pg')) = Some e → WAL.GetCurrentIndex sample_wal ≤ Index e) ∧
  (∀ I, ∃ w', WAL.Truncate TruncNoFault I sample_wal = (None, w')) ∧
  (∀ pg, wal pg = sample_wal → graph_encodable (G pg) = true →
     ∃ pg', PersistentGraph.Snapshot SnapNoFault TruncNoFault pg = (None, pg')) ∧
  (∃ w', WAL.Truncate TruncNoFault 2 sample_wal = (None, w') ∧
         log w' = [sample_entry 2; sample_entry 3]).
Proof.
  assert (Hc : contiguous (log sample_wal)).
  { intros [|[|[|i]]] e1 e2; cbn; intros [= <-] [= <-]; reflexivity. }
  destruct (Truncate_retains_from_index sample_wal Hc) as (H1 & H2 & H3).
  destruct (H3 eq_refl) as [H4 H5].
  split_and!; [exact H1|exact H2|exact H4|exact H5|].
  destruct (H4 2) as [w' Hw']. exists w'. split; [exact Hw'|].
  destruct (H1 TruncNoFault 2 w' Hw') as [Hlog _]. by rewrite Hlog.
Defined.

(** C9. [Truncate] never changes the current index: whatever the index to
    keep from, and whether or not it succeeds, [GetCurrentIndex] returns the
    same value after the call as before, and the next successful [Append]
    is given the index that it would have been given without the
    truncation. *)
Theorem Truncate_keeps_current_index (fault : TruncateFault) (keepFrom : Z) (w : WAL) :
  WAL.GetCurrentIndex (snd (WAL.Truncate fault keepFrom w)) = WAL.GetCurrentIndex w ∧
  ∀ afault op data index w',
    WAL.Append afault op data (snd (WAL.Truncate fault keepFrom w)) = (Ok index, w') →
    index = nextIndex w ∧ nextIndex w' = wrap64 (nextIndex w + 1).
Proof.
  pose proof (Truncate_nextIndex fault keepFrom w) as Hn.
  split.
  - unfold WAL.GetCurrentIndex. by rewrite Hn.
  - intros afault op data index w'. unfold WAL.Append. rewrite Hn.
    destruct (negb _); [done|]. destruct (closed _); [done|].
    destruct afault; try done; intros [= <- <-]; done.
Qed.

(** ** The durability facade *)

Section FacadeFacts.
Implicit Types (pg : PersistentGraph) (g : Graph).

(** Deleting the node that [AddNode] has just added undoes the insertion,
    provided the ID was free. *)
Lemma AddNode_rollback g label props :
  0 ≤ nextNodeID g < 2 ^ 64 →
  nodes g !! nextNodeID g = None →
  let '(r, g1) := Graph.AddNode label props g in
  ∃ node, r = Ok node ∧ nID node = nextNodeID g ∧
    nodes g1 !! nID node = Some node ∧
    nodes (snd (Graph.DeleteNode (nID node) g1)) = nodes g ∧
    edges (snd (Graph.DeleteNode (nID node) g1)) = edges g.
Proof.
  intros Hb Hfresh. unfold Graph.AddNode.
  rewrite alloc_id, set_all_node_new by done.
  eexists. split; [reflexivity|]. cbn.
  rewrite lookup_insert_eq. do 2 (split; [done|]).
  unfold Graph.DeleteNode, Graph.GetNode; cbn.
  rewrite lookup_insert_eq. cbn.
  by rewrite delete_insert_eq, delete_id.
Qed.
End FacadeFacts.

(** C3. Atomicity of the facade's [AddNode] when logging fails: in an engine
    state whose node counter is free, with logging enabled, if the WAL
    append fails the call returns an error and the node map and [NodeCount]
    are what they were before the call; if the append succeeds the call
    returns the node without error and the node is in the graph. *)
Theorem AddNode_atomic_on_log_failure (pg : PersistentGraph) (fault : AppendFault)
    (label : string) (props : option Properties) :
  walEnabled pg = true →
  0 ≤ nextNodeID (G pg) < 2 ^ 64 →
  nodes (G pg) !! nextNodeID (G pg) = None →
  match fst (WAL.LogAddNode fault (nextNodeID (G pg)) label props (wal pg)) with
  | Some _ =>
    ∃ err pg',
      PersistentGraph.AddNode fault label props pg = (Err err, pg') ∧
      nodes (G pg') = nodes (G pg) ∧
      Graph.NodeCount (G pg') = Graph.NodeCount (G pg)
  | None =>
    ∃ node pg',
      PersistentGraph.AddNode fault label props pg = (Ok node, pg') ∧
      Graph.GetNode (nID node) (G pg') = Ok node
  end.
Proof.
  intros Hw Hb Hfresh.
  pose proof (AddNode_rollback (G pg) label (default ∅ props) Hb Hfresh) as Hr.
  unfold PersistentGraph.AddNode.
  destruct (Graph.AddNode label (default ∅ props) (G pg)) as [r g1].
  destruct Hr as (node & -> & Hid & Hlk & Hdel & _).
  cbn. rewrite Hw, Hid.
  destruct (WAL.LogAddNode fault (nextNodeID (G pg)) label props (wal pg))
    as [[err|] w]; cbn.
  - do 2 eexists. split; [reflexivity|]. cbn.
    rewrite <-Hid, Hdel. unfold Graph.NodeCount. by rewrite Hdel.
  - do 2 eexists. split; [reflexivity|]. cbn.
    unfold Graph.GetNode. by rewrite Hlk.
Qed.

(** ** Recovery *)

#[local] Arguments float64_of_Z : simpl never.
#[local] Arguments uint64_of_float64 : simpl never.
#[local] Arguments wrap64 : simpl never.
#[local] Arguments json_string : simpl never.
#[local] Arguments json_props : simpl never.

Section JsonFacts.
Lemma sanitize_valid s : ∀ skip, valid_from skip s = true → sanitize skip s = s.
Proof.
  induction s as [|c s IH]; intros skip H; [done|].
  cbn [sanitize valid_from] in *. destruct skip as [|k]; [|by rewrite IH].
  destruct (rune_size (String c s)) as [size|]; [|done]. by rewrite IH.
Qed.

(** Well-formed UTF-8 is read back as it was written. *)
Lemma json_string_valid s : ValidString s = true → json_string s = s.
Proof. apply sanitize_valid. Qed.

Lemma json_object_valid (m : gmap string Value) :
  map_Forall (λ k _, ValidString k = true) m → json_object m = m.
Proof.
  intros Hm. unfold json_object.
  assert (map_fold
            (λ k v (acc : gmap string (string * Value)),
               match acc !! json_string k with
               | Some (k0, _) =>
                 if String.ltb k0 k then <[json_string k := (k, v)]> acc else acc
               | None => <[json_string k := (k, v)]> acc
               end) ∅ m = map_imap (λ k v, Some (k, v)) m) as ->.
  { revert Hm.
    apply (map_fold_weak_ind (λ r m,
      map_Forall (λ k _, ValidString k = true) m → r = map_imap (λ k v, Some (k, v)) m)).
    { intros _. by rewrite map_imap_empty. }
    intros k v m' r Hk IH Hall.
    apply map_Forall_insert in Hall as [Hv Hall]; [|done].
    rewrite (IH Hall), (json_string_valid k Hv), map_lookup_imap, Hk. cbn.
    by rewrite map_imap_insert. }
  apply map_eq. intros k. rewrite lookup_fmap, map_lookup_imap.
  by destruct (m !! k).
Qed.

Lemma json_props_valid (m : gmap string Value) :
  map_Forall (λ k _, ValidString k = true) m → json_props m = json_decoded <$> m.
Proof.
  intros Hm. unfold json_props. apply json_object_valid.
  intros k v. rewrite lookup_fmap. destruct (m !! k) as [x|] eqn:E; [|done].
  intros _. by apply (Hm k x).
Qed.

Lemma json_props_empty : json_props ∅ = ∅.
Proof. apply json_props_valid, map_Forall_empty. Qed.

(** What is read back for the record of a call with nil properties, and
    for two keys that are written as the same text. *)
Lemma json_props_examples :
  json_props (<["properties" := props_value None]> ∅) = <["properties" := VNil]> ∅ ∧
  json_props (<[String "255" EmptyString := VBool true]>
                (<[String "254" EmptyString := VBool false]> ∅)) =
    <[replacement_char EmptyString := VBool true]> ∅.
Proof. split; by vm_compute. Qed.
End JsonFacts.

Section RecoveryFacts.
Implicit Types (pg : PersistentGraph) (g : Graph) (w : WAL).

Lemma convertProperties_map (m : gmap string Value) : convertProperties (VMap m) = m.
Proof.
  cbn. apply (map_fold_weak_ind (fun r m => r = m)); [done|].
  by intros i x m' r _ ->.
Qed.

Lemma alter_json_node (f : Node → Node) k (ns : gmap Z Node) :
  (∀ nd, json_node (f nd) = f (json_node nd)) →
  alter f k (json_node <$> ns) = json_node <$> alter f k ns.
Proof. intros Hf. symmetry. apply fmap_alter. auto. Qed.

Lemma DeleteEdge_json e g :
  snd (Graph.DeleteEdge e (json_graph g)) = json_graph (snd (Graph.DeleteEdge e g)).
Proof.
  unfold Graph.DeleteEdge, Graph.GetEdge. cbn. rewrite lookup_fmap.
  destruct (edges g !! e) as [ed|]; cbn; [|done].
  unfold json_graph; cbn.
  rewrite !alter_json_node, fmap_delete by done. done.
Qed.

Lemma DeleteEdge_json_error e g :
  fst (Graph.DeleteEdge e (json_graph g)) = fst (Graph.DeleteEdge e g).
Proof.
  unfold Graph.DeleteEdge, Graph.GetEdge. cbn. rewrite lookup_fmap.
  by destruct (edges g !! e).
Qed.

Lemma delete_edges_json ids g :
  Graph.delete_edges ids (json_graph g) = json_graph (Graph.delete_edges ids g).
Proof.
  unfold Graph.delete_edges. revert g.
  induction ids as [|i ids IH]; intros g; cbn; [done|].
  by rewrite DeleteEdge_json, IH.
Qed.

Lemma DeleteNode_json n g :
  snd (Graph.DeleteNode n (json_graph g)) = json_graph (snd (Graph.DeleteNode n g)).
Proof.
  unfold Graph.DeleteNode, Graph.GetNode. cbn. rewrite lookup_fmap.
  destruct (nodes g !! n) as [nd|]; cbn; [|done].
  rewrite !delete_edges_json. unfold Graph.set_nodes, json_graph; cbn.
  by rewrite fmap_delete.
Qed.

Lemma replay_loop_snoc {St} (h : LogEntry → St → option error * St) l e s s' s'' :
  WAL.replay_loop h l s = (None, s') →
  h e s' = (None, s'') →
  WAL.replay_loop h (l ++ [e]) s = (None, s'').
Proof.
  revert s. induction l as [|x l IH]; intros s; cbn.
  - intros [= ->] ->. done.
  - destruct (h x s) as [[err|] s1]; [done|]. apply IH.
Qed.

Lemma Append_success fault op data w index w' :
  WAL.Append fault op data w = (Ok index, w') →
  log w' = log w ++ [{| Index := nextIndex w; OpType := json_string op;
                        Data := json_props data |}] ∧
  closed w' = closed w ∧ closed w = false.
Proof.
  unfold WAL.Append.
  destruct (negb _); [done|]. destruct (closed w) eqn:E; [done|].
  destruct fault; try done; intros [= <- <-]; cbn; done.
Qed.

Lemma drop_index_None {A} (r : res A * WAL) w' :
  WAL.drop_index r = (None, w') → ∃ index, r = (Ok index, w').
Proof. destruct r as [[i|err] w]; cbn; intros [= <-]; eauto. Qed.

Lemma bump_same id : 0 ≤ id < 2 ^ 53 → PersistentGraph.bump id id = id + 1.
Proof.
  intros H. unfold PersistentGraph.bump. rewrite Z.leb_refl.
  apply wrap64_small. lia.
Qed.

Lemma bump_below id next :
  0 ≤ id < next → PersistentGraph.bump id next = next.
Proof.
  intros H. unfold PersistentGraph.bump.
  destruct (Z.leb_spec next id); [lia|done].
Qed.

(** The keys of the records are well-formed. *)
Lemma json_props_record (m : gmap string Value) :
  map_Forall (λ k _, ValidString k = true) m →
  ∀ k, json_props m !! k = json_decoded <$> m !! k.
Proof. intros Hm k. by rewrite (json_props_valid m Hm), lookup_fmap. Qed.

(** The properties that [convertProperties] makes of what is read back for
    a [properties] argument. *)
Lemma convertProperties_decoded (props : option Properties) :
  convertProperties (json_decoded (props_value props)) = json_props (default ∅ props).
Proof.
  destruct props as [m|]; cbn [props_value json_decoded default].
  - apply (map_fold_weak_ind (fun r m => r = m)); [done|]. by intros i x m' r _ ->.
  - by rewrite json_props_empty.
Qed.

(** Replaying the record of an [AddNode]. *)
Lemma apply_AddNode_entry index id label props pgr :
  0 ≤ id < 2 ^ 53 →
  PersistentGraph.applyWALEntry
    {| Index := index; OpType := OpAddNode;
       Data := json_props
         (<["node_id" := VUint64 id]>
            (<["label" := VString label]>
               (<["properties" := props_value props]> ∅))) |} pgr =
  (None,
   PersistentGraph.set_G
     {| nodes := <[id := json_node (set_all_node (default ∅ props) (NewNode id label))]>
                   (nodes (G pgr));
        edges := edges (G pgr);
        nextNodeID := PersistentGraph.bump id (nextNodeID (G pgr));
        nextEdgeID := nextEdgeID (G pgr) |} pgr).
Proof.
  intros Hid.
  unfold PersistentGraph.applyWALEntry, PersistentGraph.data_uint64, index_data.
  cbn [OpType Data].
  change (String.eqb OpAddNode OpAddNode) with true. cbn match.
  rewrite !json_props_record
    by (repeat (apply map_Forall_insert_2; [done|]); apply map_Forall_empty).
  rewrite lookup_insert_eq.
  rewrite (lookup_insert_ne _ "node_id" "label") by done.
  rewrite lookup_insert_eq.
  rewrite (lookup_insert_ne _ "node_id" "properties") by done.
  rewrite (lookup_insert_ne _ "label" "properties") by done.
  rewrite lookup_insert_eq.
  cbn.
  rewrite uint64_float64_roundtrip by done.
  rewrite convertProperties_decoded, !set_all_node_new. reflexivity.
Qed.

(** Replaying the record of an [AddEdge]. *)
Lemma apply_AddEdge_entry index eid src tgt label props pgr :
  0 ≤ eid < 2 ^ 53 → 0 ≤ src < 2 ^ 53 → 0 ≤ tgt < 2 ^ 53 →
  PersistentGraph.applyWALEntry
    {| Index := index; OpType := OpAddEdge;
       Data := json_props
         (<["edge_id" := VUint64 eid]>
            (<["source" := VUint64 src]>
               (<["target" := VUint64 tgt]>
                  (<["label" := VString label]>
                     (<["properties" := props_value props]> ∅))))) |} pgr =
  (None,
   PersistentGraph.set_G
     {| nodes := alter (Node.AddInEdge eid) tgt
                   (alter (Node.AddOutEdge eid) src (nodes (G pgr)));
        edges := <[eid := json_edge (set_all_edge (default ∅ props)
                                       (NewEdge eid src tgt label))]>
                   (edges (G pgr));
        nextNodeID := nextNodeID (G pgr);
        nextEdgeID := PersistentGraph.bump eid (nextEdgeID (G pgr)) |} pgr).
Proof.
  intros He Hs Ht.
  unfold PersistentGraph.applyWALEntry, PersistentGraph.data_uint64, index_data.
  cbn [OpType Data].
  change (String.eqb OpAddEdge OpAddNode) with false.
  change (String.eqb OpAddEdge OpAddEdge) with true. cbn match.
  rewrite !json_props_record
    by (repeat (apply map_Forall_insert_2; [done|]); apply map_Forall_empty).
  rewrite lookup_insert_eq.
  rewrite (lookup_insert_ne _ "edge_id" "source") by done.
  rewrite lookup_insert_eq.
  rewrite (lookup_insert_ne _ "edge_id" "target") by done.
  rewrite (lookup_insert_ne _ "source" "target") by done.
  rewrite lookup_insert_eq.
  rewrite (lookup_insert_ne _ "edge_id" "label") by done.
  rewrite (lookup_insert_ne _ "source" "label") by done.
  rewrite (lookup_insert_ne _ "target" "label") by done.
  rewrite lookup_insert_eq.
  rewrite (lookup_insert_ne _ "edge_id" "properties") by done.
  rewrite (lookup_insert_ne _ "source" "properties") by done.
  rewrite (lookup_insert_ne _ "target" "properties") by done.
  rewrite (lookup_insert_ne _ "label" "properties") by done.
  rewrite lookup_insert_eq.
  cbn.
  rewrite !uint64_float64_roundtrip by done.
  rewrite convertProperties_decoded, !set_all_edge_new. reflexivity.
Qed.

(** Replaying the record of a [DeleteNode] and of a [DeleteEdge]. *)
Lemma apply_DeleteNode_entry index id pgr :
  0 ≤ id < 2 ^ 53 →
  PersistentGraph.applyWALEntry
    {| Index := index; OpType := OpDeleteNode;
       Data := json_props (<["node_id" := VUint64 id]> ∅) |} pgr =
  (None, PersistentGraph.set_G (snd (Graph.DeleteNode id (G pgr))) pgr).
Proof.
  intros Hid.
  unfold PersistentGraph.applyWALEntry, PersistentGraph.data_uint64, index_data.
  cbn [OpType Data].
  change (String.eqb OpDeleteNode OpAddNode) with false.
  change (String.eqb OpDeleteNode OpAddEdge) with false.
  change (String.eqb OpDeleteNode OpDeleteNode) with true. cbn match.
  rewrite !json_props_record
    by (repeat (apply map_Forall_insert_2; [done|]); apply map_Forall_empty).
  rewrite lookup_insert_eq.
  cbn. by rewrite uint64_float64_roundtrip.
Qed.

Lemma apply_DeleteEdge_entry index id pgr :
  0 ≤ id < 2 ^ 53 →
  PersistentGraph.applyWALEntry
    {| Index := index; OpType := OpDeleteEdge;
       Data := json_props (<["edge_id" := VUint64 id]> ∅) |} pgr =
  (None, PersistentGraph.set_G (snd (Graph.DeleteEdge id (G pgr))) pgr).
Proof.
  intros Hid.
  unfold PersistentGraph.applyWALEntry, PersistentGraph.data_uint64, index_data.
  cbn [OpType Data].
  change (String.eqb OpDeleteEdge OpAddNode) with false.
  change (String.eqb OpDeleteEdge OpAddEdge) with false.
  change (String.eqb OpDeleteEdge OpDeleteNode) with false.
  change (String.eqb OpDeleteEdge OpDeleteEdge) with true. cbn match.
  rewrite !json_props_record
    by (repeat (apply map_Forall_insert_2; [done|]); apply map_Forall_empty).
  rewrite lookup_insert_eq.
  cbn. by rewrite uint64_float64_roundtrip.
Qed.

(** One more record in the log, one more step of the replay. *)
Lemma replays_snoc l e g g' :
  replays l g →
  (∀ pg0, PersistentGraph.applyWALEntry e (PersistentGraph.set_G (json_graph g) pg0) =
          (None, PersistentGraph.set_G (json_graph g')
                   (PersistentGraph.set_G (json_graph g) pg0))) →
  replays (l ++ [e]) g'.
Proof.
  intros Hl He pg0 H0.
  eapply replay_loop_snoc; [by apply Hl|]. by rewrite He.
Qed.

Lemma json_graph_NewGraph : json_graph Graph.NewGraph = Graph.NewGraph.
Proof. unfold json_graph, Graph.NewGraph; cbn. by rewrite !fmap_empty. Qed.

Lemma engine_inv_fresh : engine_inv fresh_engine.
Proof.
  unfold engine_inv. do 3 (split; [done|]).
  split; [apply graph_inv_NewGraph|].
  intros pg0 H0. cbn. rewrite json_graph_NewGraph, <-H0. by destruct pg0.
Qed.

(** A successful mutation keeps the invariant and adds at most one to
    each counter. *)
Lemma mutate_step fault m pg pg1 :
  engine_inv pg →
  nextNodeID (G pg) < 2 ^ 53 → nextEdgeID (G pg) < 2 ^ 53 →
  mutate fault m pg = (None, pg1) →
  engine_inv pg1 ∧
  nextNodeID (G pg1) ≤ nextNodeID (G pg) + 1 ∧
  nextEdgeID (G pg1) ≤ nextEdgeID (G pg) + 1.
Proof.
  intros (Hw & Hcl & Hlat & Hinv & Hrep) Hbn Hbe.
  pose proof Hinv as (_ & Hnb & Heb & Hnn & Hne).
  destruct m as [label props|src tgt label props|id|id]; cbn [mutate].
  - (* AddNode *)
    unfold PersistentGraph.AddNode.
    pose proof (graph_inv_AddNode (G pg) label (default ∅ props) Hinv ltac:(lia)) as Hinv1.
    unfold Graph.AddNode in *. cbn [snd] in Hinv1.
    rewrite alloc_id, set_all_node_new in * by lia.
    rewrite (wrap64_small (nextNodeID (G pg) + 1)) in * by lia.
    cbn. rewrite Hw.
    destruct (WAL.LogAddNode _ _ _ _ _) as [[err|] w'] eqn:Hlog; [done|].
    intros [= <-]. cbn.
    unfold WAL.LogAddNode in Hlog.
    apply drop_index_None in Hlog as [index Happ].
    apply Append_success in Happ as (Hlog & Hcl' & _).
    split; [|lia].
    unfold engine_inv; cbn.
    split; [done|]. split; [congruence|]. split; [done|]. split; [done|].
    rewrite Hlog. eapply replays_snoc; [exact Hrep|].
    intros pg0. rewrite apply_AddNode_entry by lia. cbn.
    rewrite set_all_node_new, bump_same by lia.
    unfold PersistentGraph.set_G, json_graph; cbn.
    by rewrite fmap_insert.
  - (* AddEdge *)
    unfold PersistentGraph.AddEdge.
    pose proof (graph_inv_AddEdge (G pg) src tgt label (default ∅ props) Hinv ltac:(lia))
      as Hinv1.
    unfold Graph.AddEdge, Graph.GetNode in *.
    destruct (nodes (G pg) !! src) as [ns|] eqn:Es; [|done].
    destruct (nodes (G pg) !! tgt) as [nt|] eqn:Et; [|done].
    cbn [snd] in Hinv1.
    rewrite alloc_id, set_all_edge_new in * by lia.
    rewrite (wrap64_small (nextEdgeID (G pg) + 1)) in * by lia.
    cbn. rewrite Hw.
    destruct (WAL.LogAddEdge _ _ _ _ _ _ _) as [[err|] w'] eqn:Hlog; [done|].
    intros [= <-]. cbn.
    unfold WAL.LogAddEdge in Hlog.
    apply drop_index_None in Hlog as [index Happ].
    apply Append_success in Happ as (Hlog & Hcl' & _).
    split; [|lia].
    unfold engine_inv; cbn.
    split; [done|]. split; [congruence|]. split; [done|]. split; [done|].
    rewrite Hlog. eapply replays_snoc; [exact Hrep|].
    destruct (Hnb _ _ Es) as [? _], (Hnb _ _ Et) as [? _].
    intros pg0. rewrite apply_AddEdge_entry by lia. cbn.
    rewrite set_all_edge_new, bump_same by lia.
    unfold PersistentGraph.set_G, json_graph; cbn.
    by rewrite fmap_insert, !alter_json_node.
  - (* DeleteNode *)
    unfold PersistentGraph.DeleteNode.
    pose proof (graph_inv_DeleteNode (G pg) id Hinv) as Hinv1.
    destruct (Graph.DeleteNode id (G pg)) as [[err|] g1] eqn:Hdel; [done|].
    assert (Hcnt : nextNodeID g1 = nextNodeID (G pg) ∧ nextEdgeID g1 = nextEdgeID (G pg)
                   ∧ 0 ≤ id < nextNodeID (G pg)).
    { unfold Graph.DeleteNode, Graph.GetNode in Hdel.
      destruct (nodes (G pg) !! id) as [nd|] eqn:En; [|done].
      injection Hdel as <-. cbn.
      destruct (delete_edges_counters (InEdges nd)
                  (Graph.delete_edges (OutEdges nd) (G pg))) as [-> ->].
      destruct (delete_edges_counters (OutEdges nd) (G pg)) as [-> ->].
      destruct (Hnb _ _ En). done. }
    destruct Hcnt as (Hc1 & Hc2 & Hid).
    cbn. rewrite Hw.
    destruct (WAL.LogDeleteNode _ _ _) as [[err|] w'] eqn:Hlog; [done|].
    intros [= <-]. cbn.
    unfold WAL.LogDeleteNode in Hlog.
    apply drop_index_None in Hlog as [index Happ].
    apply Append_success in Happ as (Hlog & Hcl' & _).
    split; [|lia].
    unfold engine_inv; cbn.
    split; [done|]. split; [congruence|]. split; [done|]. split; [done|].
    rewrite Hlog. eapply replays_snoc; [exact Hrep|].
    intros pg0. rewrite apply_DeleteNode_entry by lia. cbn.
    rewrite DeleteNode_json, Hdel. done.
  - (* DeleteEdge *)
    unfold PersistentGraph.DeleteEdge.
    pose proof (graph_inv_DeleteEdge (G pg) id Hinv) as Hinv1.
    destruct (Graph.DeleteEdge id (G pg)) as [[err|] g1] eqn:Hdel; [done|].
    assert (Hcnt : nextNodeID g1 = nextNodeID (G pg) ∧ nextEdgeID g1 = nextEdgeID (G pg)
                   ∧ 0 ≤ id < nextEdgeID (G pg)).
    { pose proof (DeleteEdge_counters id (G pg)) as [H1 H2].
      rewrite Hdel in H1, H2. do 2 (split; [done|]).
      unfold Graph.DeleteEdge, Graph.GetEdge in Hdel.
      destruct (edges (G pg) !! id) as [ed|] eqn:Ee; [|done].
      destruct (Heb _ _ Ee) as [? _]. done. }
    destruct Hcnt as (Hc1 & Hc2 & Hid).
    cbn. rewrite Hw.
    destruct (WAL.LogDeleteEdge _ _ _) as [[err|] w'] eqn:Hlog; [done|].
    intros [= <-]. cbn.
    unfold WAL.LogDeleteEdge in Hlog.
    apply drop_index_None in Hlog as [index Happ].
    apply Append_success in Happ as (Hlog & Hcl' & _).
    split; [|lia].
    unfold engine_inv; cbn.
    split; [done|]. split; [congruence|]. split; [done|]. split; [done|].
    rewrite Hlog. eapply replays_snoc; [exact Hrep|].
    intros pg0. rewrite apply_DeleteEdge_entry by lia. cbn.
    rewrite DeleteEdge_json, Hdel. done.
Qed.
End RecoveryFacts.

Section ReopenFacts.
Lemma mutate_all_inv ops :
  ∀ pg pg',
    engine_inv pg →
    nextNodeID (G pg) + Z.of_nat (length ops) ≤ 2 ^ 53 →
    nextEdgeID (G pg) + Z.of_nat (length ops) ≤ 2 ^ 53 →
    mutate_all ops pg = Some pg' →
    engine_inv pg'.
Proof.
  induction ops as [|[fault m] ops IH]; intros pg pg' Hinv Hn He; cbn.
  - by intros [= <-].
  - destruct (mutate fault m pg) as [[err|] pg1] eqn:Hm; [done|].
    cbn [length] in Hn, He.
    destruct (mutate_step fault m pg pg1 Hinv ltac:(lia) ltac:(lia) Hm)
      as (Hinv1 & Hn1 & He1).
    apply IH; [done|lia|lia].
Qed.

Lemma reopen_engine_inv pg :
  engine_inv pg →
  ∃ pg', reopen pg = Ok pg' ∧ G pg' = json_graph (G pg).
Proof.
  intros (Hw & Hcl & Hlat & Hinv & Hrep).
  unfold reopen, PersistentGraph.Close, WAL.Close. rewrite Hcl. cbn.
  rewrite Hlat.
  unfold PersistentGraph.NewPersistentGraph, PersistentGraph.Recover,
    WAL.Replay. cbn.
  rewrite Hrep by done. cbn. eauto.
Qed.

Lemma json_exact_decoded v : json_exact v = true → json_decoded v = v.
Proof.
  destruct v; try done. cbn. intros H. by rewrite json_string_valid.
Qed.
End ReopenFacts.

(** C1, as the code has it.  Persistence round-trip through JSON: start
    from empty directories and run fewer than 2^53 facade mutations that all
    succeed; closing the engine and reopening it on the same directories
    succeeds and yields a graph with the same [NodeCount] and [EdgeCount],
    in which every node and edge is stored under the same ID, every edge has
    the same source and target, and labels and properties are what JSON
    reads back for them.  A label that is well-formed UTF-8 is identical;
    properties whose keys are well-formed UTF-8 have the same keys; a
    property value that is null, a boolean, a double or a well-formed UTF-8
    string is identical, and an integer value comes back as the double
    nearest to it. *)
Theorem reopen_preserves_graph_through_json
    (ops : list (AppendFault * Mutation)) (pg0 pg : PersistentGraph) :
  PersistentGraph.NewPersistentGraph [] None = Ok pg0 →
  mutate_all ops pg0 = Some pg →
  Z.of_nat (length ops) < 2 ^ 53 →
  ∃ pg',
    reopen pg = Ok pg' ∧
    Graph.NodeCount (G pg') = Graph.NodeCount (G pg) ∧
    Graph.EdgeCount (G pg') = Graph.EdgeCount (G pg) ∧
    (∀ id nd, Graph.GetNode id (G pg) = Ok nd →
       ∃ nd', Graph.GetNode id (G pg') = Ok nd' ∧
         nLabel nd' = json_string (nLabel nd) ∧
         nProperties nd' = json_props (nProperties nd)) ∧
    (∀ id ed, Graph.GetEdge id (G pg) = Ok ed →
       ∃ ed', Graph.GetEdge id (G pg') = Ok ed' ∧
         Source ed' = Source ed ∧ Target ed' = Target ed ∧
         eLabel ed' = json_string (eLabel ed) ∧
         eProperties ed' = json_props (eProperties ed)) ∧
    (∀ s, ValidString s = true → json_string s = s) ∧
    (∀ m, map_Forall (λ k _, ValidString k = true) m →
          ∀ k, json_props m !! k = json_decoded <$> m !! k) ∧
    (∀ v, json_exact v = true → json_decoded v = v) ∧
    (∀ i, json_decoded (VInt i) = VFloat64 (float64_of_Z i) ∧
          json_decoded (VInt64 i) = VFloat64 (float64_of_Z i)).
Proof.
  intros [= <-] Hops Hlen.
  assert (engine_inv pg) as Hinv.
  { eapply (mutate_all_inv ops); [apply engine_inv_fresh| | |exact Hops]; cbn; lia. }
  destruct (reopen_engine_inv pg Hinv) as (pg' & Hre & HG).
  exists pg'. split; [done|]. rewrite HG.
  unfold Graph.NodeCount, Graph.EdgeCount, Graph.GetNode, Graph.GetEdge; cbn.
  rewrite !map_size_fmap. do 2 (split; [done|]).
  split_and!.
  - intros id nd. rewrite lookup_fmap.
    destruct (nodes (G pg) !! id); [|done]. intros [= <-]. cbn. eauto.
  - intros id ed. rewrite lookup_fmap.
    destruct (edges (G pg) !! id); [|done]. intros [= <-]. cbn. eauto 10.
  - apply json_string_valid.
  - apply json_props_record.
  - apply json_exact_decoded.
  - done.
Qed.

Lemma reopen_preserves_graph_through_json_witness :
  ∃ pg',
    reopen sample_engine = Ok pg' ∧
    Graph.NodeCount (G pg') = Graph.NodeCount (G sample_engine) ∧
    Graph.EdgeCount (G pg') = Graph.EdgeCount (G sample_engine) ∧
    (∀ id nd, Graph.GetNode id (G sample_engine) = Ok nd →
       ∃ nd', Graph.GetNode id (G pg') = Ok nd' ∧
         nLabel nd' = json_string (nLabel nd) ∧
         nProperties nd' = json_props (nProperties nd)) ∧
    (∀ id ed, Graph.GetEdge id (G sample_engine) = Ok ed →
       ∃ ed', Graph.GetEdge id (G pg') = Ok ed' ∧
         Source ed' = Source ed ∧ Target ed' = Target ed ∧
         eLabel ed' = json_string (eLabel ed) ∧
         eProperties ed' = json_props (eProperties ed)) ∧
    (∀ s, ValidString s = true → json_string s = s) ∧
    (∀ m, map_Forall (λ k _, ValidString k = true) m →
          ∀ k, json_props m !! k = json_decoded <$> m !! k) ∧
    (∀ v, json_exact v = true → json_decoded v = v) ∧
    (∀ i, json_decoded (VInt i) = VFloat64 (float64_of_Z i) ∧
          json_decoded (VInt64 i) = VFloat64 (float64_of_Z i)).
Proof.
  apply (reopen_preserves_graph_through_json sample_session fresh_engine sample_engine).
  - reflexivity.
  - vm_compute. reflexivity.
  - vm_compute. reflexivity.
Defined.

(** C1 as stated fails on an integer property: in scenario S1 the edge's
    property [since] is the integer 2020 before the engine is closed and the
    double 2020.0 after it is reopened. *)
Lemma reopen_changes_integer_property :
  mutate_all sample_session fresh_engine = Some sample_engine ∧
  Z.of_nat (length sample_session) < 2 ^ 53 ∧
  ∃ pg' ed ed',
    reopen sample_engine = Ok pg' ∧
    Graph.GetEdge 1 (G sample_engine) = Ok ed ∧
    Graph.GetEdge 1 (G pg') = Ok ed' ∧
    eProperties ed !! "since" = Some (VInt 2020) ∧
    eProperties ed' !! "since" = Some (VFloat64 (float64_of_Z 2020)) ∧
    eProperties ed' ≠ eProperties ed.
Proof.
  split; [vm_compute; reflexivity|]. split; [vm_compute; reflexivity|].
  do 3 eexists.
  split; [vm_compute; reflexivity|].
  split; [vm_compute; reflexivity|].
  split; [vm_compute; reflexivity|].
  assert (∀ (a b : Properties) x y,
            a !! "since" = Some x → b !! "since" = Some y → x ≠ y → b ≠ a) as Hne.
  { intros a b x y Ha Hb Hxy ->. congruence. }
  assert (Properties_lookup_since :
            ({[ "since"%string := VInt 2020 ]} : Properties) !! "since" = Some (VInt 2020))
    by apply lookup_singleton_eq.
  split; [vm_compute; reflexivity|].
  split; [vm_compute; reflexivity|].
  eapply Hne; [vm_compute; reflexivity|vm_compute; reflexivity|discriminate].
Qed.

(** Nor does C1 hold of text that is not well-formed UTF-8: the Latin-1
    label [caf\xe9], added with nil properties, comes back with U+FFFD in
    the place of its last byte. *)
Lemma reopen_replaces_invalid_utf8 :
  let label := String "c" (String "a" (String "f" (String "233" EmptyString))) in
  ∃ pg pg' nd nd',
    mutate_all [(AppendNoFault, MAddNode label None)] fresh_engine = Some pg ∧
    reopen pg = Ok pg' ∧
    Graph.GetNode 1 (G pg) = Ok nd ∧ Graph.GetNode 1 (G pg') = Ok nd' ∧
    nLabel nd = label ∧
    nLabel nd' = String "c" (String "a" (String "f" (replacement_char EmptyString))) ∧
    nProperties nd' = ∅.
Proof.
  intros label. do 4 eexists.
  split; [vm_compute; reflexivity|].
  split; [vm_compute; reflexivity|].
  split; [vm_compute; reflexivity|].
  split; [vm_compute; reflexivity|].
  split; [vm_compute; reflexivity|].
  split; vm_compute; reflexivity.
Qed.

Lemma AddNode_atomic_on_log_failure_witness :
  ∃ err pg',
    PersistentGraph.AddNode AppendSyncFails "Person" None fresh_engine = (Err err, pg') ∧
    nodes (G pg') = nodes (G fresh_engine) ∧
    Graph.NodeCount (G pg') = Graph.NodeCount (G fresh_engine).
Proof.
  assert (Hb : 0 ≤ nextNodeID (G fresh_engine) < 2 ^ 64)
    by (vm_compute; split; [discriminate|reflexivity]).
  pose proof (AddNode_atomic_on_log_failure fresh_engine AppendSyncFails "Person" None
                eq_refl Hb eq_refl) as H.
  vm_compute in H. vm_compute. exact H.
Defined.

(** ** Expression evaluation *)

Section ExecutorFacts.
Variable DeepEqual : Operand → Operand → bool.

Lemma SFcompare_antisym a b :
  SFcompare b a = CompOpp <$> SFcompare a b.
Proof.
  destruct a as [sa|sa| |sa ma ea], b as [sb|sb| |sb mb eb]; cbn;
    try done; try (by destruct sa); try (by destruct sb);
    try (by destruct sa, sb).
  destruct sa, sb; cbn; try done;
    rewrite (Z.compare_antisym ea eb); destruct (ea ?= eb)%Z; cbn; try done;
    rewrite (Pos.compare_cont_antisym ma mb Eq); cbn;
    by rewrite ?CompOpp_involutive.
Qed.

Lemma float64_lt_asym a b : float64_lt a b = true → float64_lt b a = false.
Proof.
  unfold float64_lt, SFltb. rewrite (SFcompare_antisym a b).
  by destruct (SFcompare a b) as [[]|].
Qed.

Lemma float64_le_not_gt a b :
  float64_is_nan a = false → float64_is_nan b = false →
  negb (float64_lt b a) = float64_le a b.
Proof.
  intros Ha Hb. unfold float64_lt, float64_le, SFltb, SFleb.
  rewrite (SFcompare_antisym a b).
  destruct a as [sa|sa| |sa ma ea], b as [sb|sb| |sb mb eb]; try done; cbn;
    try (by destruct sa); try (by destruct sb); try (by destruct sa, sb).
  destruct sa, sb; cbn; try done;
    destruct (ea ?= eb)%Z; cbn; try done;
    by destruct (Pos.compare_cont Eq ma mb).
Qed.

Lemma float64_lt_nan a b :
  float64_is_nan a || float64_is_nan b = true → float64_lt a b = false.
Proof.
  unfold float64_lt, SFltb.
  destruct a, b; cbn; try done; intros _; by destruct s.
Qed.

Lemma compareNumbers_cases a b :
  let v1 := Executor.toFloat a in
  let v2 := Executor.toFloat b in
  (Executor.compareNumbers a b <? 0)%Z = float64_lt v1 v2 ∧
  (0 <? Executor.compareNumbers a b)%Z = float64_lt v2 v1 ∧
  (Executor.compareNumbers a b <=? 0)%Z = negb (float64_lt v2 v1) ∧
  (0 <=? Executor.compareNumbers a b)%Z = negb (float64_lt v1 v2).
Proof.
  cbn. unfold Executor.compareNumbers.
  destruct (float64_lt (Executor.toFloat a) (Executor.toFloat b)) eqn:E1.
  - rewrite (float64_lt_asym _ _ E1). done.
  - by destruct (float64_lt (Executor.toFloat b) (Executor.toFloat a)).
Qed.
End ExecutorFacts.

(** C7, as the code has it.  Ordered comparisons coerce both operands to
    double: an [int], [int64] or [float32] converts to its double value, a
    [float64] is taken as it is, a value of any other type becomes 0.  [<]
    and [>] return the result of the double comparison; [<=] and [>=] return
    the negation of the opposite strict comparison, which is the double
    comparison when neither operand is NaN and is true when one is.  [AND]
    and [OR] with an operand that is not a boolean return an error. *)
Theorem compareValues_ordered (DeepEqual : Operand → Operand → bool) (l r : Operand) :
  let cmp := Executor.compareValues DeepEqual in
  let a := Executor.toFloat l in
  let b := Executor.toFloat r in
  (* coercion *)
  ((∀ i, Executor.toFloat (OValue (VInt i)) = float64_of_Z i) ∧
   (∀ i, Executor.toFloat (OValue (VInt64 i)) = float64_of_Z i) ∧
   (∀ f, Executor.toFloat (OValue (VFloat64 f)) = f) ∧
   (∀ f, Executor.toFloat (OFloat32 f) = float64_of_float32 f) ∧
   (∀ v, not_numeric v = true → Executor.toFloat v = float64_zero)) ∧
  (* strict comparisons *)
  cmp l "<" r = Ok (float64_lt a b) ∧
  cmp l ">" r = Ok (float64_lt b a) ∧
  (* non-strict comparisons *)
  cmp l "<=" r = Ok (negb (float64_lt b a)) ∧
  cmp l ">=" r = Ok (negb (float64_lt a b)) ∧
  (float64_is_nan a = false → float64_is_nan b = false →
   cmp l "<=" r = Ok (float64_le a b) ∧ cmp l ">=" r = Ok (float64_le b a)) ∧
  (float64_is_nan a || float64_is_nan b = true →
   cmp l "<=" r = Ok true ∧ cmp l ">=" r = Ok true) ∧
  (* AND, OR *)
  (Executor.as_bool l = None ∨ Executor.as_bool r = None →
   (∃ err, cmp l "AND" r = Err err) ∧ (∃ err, cmp l "OR" r = Err err)).
Proof.
  cbn zeta.
  pose proof (compareNumbers_cases l r) as (H1 & H2 & H3 & H4). cbn zeta in *.
  assert (Hle : Executor.compareValues DeepEqual l "<=" r =
                Ok (negb (float64_lt (Executor.toFloat r) (Executor.toFloat l))))
    by (unfold Executor.compareValues; cbn; by rewrite H3).
  assert (Hge : Executor.compareValues DeepEqual l ">=" r =
                Ok (negb (float64_lt (Executor.toFloat l) (Executor.toFloat r))))
    by (unfold Executor.compareValues; cbn; by rewrite H4).
  split; [|split; [|split; [|split; [|split; [|split; [|split]]]]]]; try done.
  - repeat split; try done. intros v Hv. by destruct v as [| | |[]].
  - unfold Executor.compareValues; cbn. by rewrite H1.
  - unfold Executor.compareValues; cbn. by rewrite H2.
  - intros Ha Hb. rewrite Hle, Hge.
    by rewrite (float64_le_not_gt _ _ Ha Hb), (float64_le_not_gt _ _ Hb Ha).
  - intros Hnan. rewrite Hle, Hge.
    rewrite (float64_lt_nan _ _ Hnan).
    rewrite orb_comm in Hnan. by rewrite (float64_lt_nan _ _ Hnan).
  - intros Hb. unfold Executor.compareValues; cbn.
    destruct Hb as [-> | Hb]; [by eauto|].
    rewrite Hb. destruct (Executor.as_bool l); eauto.
Qed.

(** C7 as stated fails when an operand is NaN: [NaN <= 0] evaluates to true,
    while the comparison of the two doubles is false. *)
Lemma compareValues_le_nan :
  let l := OValue (VFloat64 S754_nan) in
  let r := OValue (VInt 0) in
  Executor.compareValues (fun _ _ => false) l "<=" r = Ok true ∧
  float64_compare_op "<=" (Executor.toFloat l) (Executor.toFloat r) = false ∧
  ordered_op "<=" = true.
Proof. repeat split. Qed.

(** ** The lexer's keywords *)

Section KeywordFacts.
Lemma upper_byte_not_lower c :
  let n := nat_of_ascii (upper_byte c) in
  (Nat.leb 97 n && Nat.leb n 122) = false.
Proof. destruct c as [[] [] [] [] [] [] [] []]; reflexivity. Qed.

Lemma ToUpper_not_true ident : ToUpper ident ≠ "true"%string.
Proof.
  destruct ident as [|c rest]; cbn; [done|].
  intros [= Hc _]. pose proof (upper_byte_not_lower c) as H.
  cbn zeta in H. by rewrite Hc in H.
Qed.

Lemma ToUpper_not_false ident : ToUpper ident ≠ "false"%string.
Proof.
  destruct ident as [|c rest]; cbn; [done|].
  intros [= Hc _]. pose proof (upper_byte_not_lower c) as H.
  cbn zeta in H. by rewrite Hc in H.
Qed.

Lemma keywords_lookup k tok :
  keywords !! k = Some tok →
  (k, tok) ∈ upper_case_keywords ∨
  (k, tok) = ("true"%string, TokenTrue) ∨ (k, tok) = ("false"%string, TokenFalse).
Proof.
  intros H%elem_of_list_to_map_2.
  unfold upper_case_keywords.
  repeat (apply elem_of_cons in H as [H|H];
          [rewrite H; rewrite ?elem_of_cons; tauto|]).
  by apply elem_of_nil in H.
Qed.

(** The eight upper-case keywords are matched whatever the case of the
    word. *)
Lemma lookupKeyword_case_insensitive ident kw tok :
  (kw, tok) ∈ upper_case_keywords → ToUpper ident = kw →
  lookupKeyword ident = tok.
Proof.
  intros Hin Hup. unfold lookupKeyword, upper_case_keywords in *. rewrite Hup.
  repeat (apply elem_of_cons in Hin as [[= -> ->]|Hin]; [by vm_compute|]).
  by apply elem_of_nil in Hin.
Qed.
End KeywordFacts.

(** C5 on the code.  The lexer never emits [TokenTrue] or [TokenFalse]: the
    word is upper-cased before the table is searched, and the table spells
    these two keys in lower case.  The inputs [true] and [FALSE] are lexed
    as identifiers. *)
Theorem lexer_true_false_are_identifiers :
  type_and_literal <$> Lexer.tokens "true" = [(TokenIdentifier, "true"%string)] ∧
  type_and_literal <$> Lexer.tokens "FALSE" = [(TokenIdentifier, "FALSE"%string)] ∧
  ∀ ident, lookupKeyword ident ≠ TokenTrue ∧ lookupKeyword ident ≠ TokenFalse.
Proof.
  split; [by vm_compute|]. split; [by vm_compute|].
  intros ident. unfold lookupKeyword.
  destruct (keywords !! ToUpper ident) as [tok|] eqn:E; [|done].
  apply keywords_lookup in E as [E|[E|E]].
  - unfold upper_case_keywords in E.
    repeat (apply elem_of_cons in E as [[= _ ->]|E]; [done|]).
    by apply elem_of_nil in E.
  - injection E as E _. by apply ToUpper_not_true in E.
  - injection E as E _. by apply ToUpper_not_false in E.
Qed.

(** ** The parser's edge patterns *)

Section EdgePatternFacts.
Lemma nextToken_errors p : errors (Parser.nextToken p) = errors p.
Proof. unfold Parser.nextToken. by destruct (Lexer.NextToken (lexer p)). Qed.

Lemma advance_errors n p : errors (advance n p) = errors p.
Proof.
  revert p. induction n as [|n IH]; intros p; cbn; [done|].
  by rewrite IH, nextToken_errors.
Qed.

Lemma currentTokenIs_eq t p : TokType (current p) = t → Parser.currentTokenIs t p = true.
Proof. intros <-. unfold Parser.currentTokenIs. by apply bool_decide_eq_true. Qed.

Lemma currentTokenIs_ne t p : TokType (current p) ≠ t → Parser.currentTokenIs t p = false.
Proof. intros H. unfold Parser.currentTokenIs. by apply bool_decide_eq_false. Qed.
End EdgePatternFacts.

#[local] Opaque Parser.nextToken.

(** C6, as the code has it.  An edge pattern that begins with [<-] and has
    no closing [-] (and no [->]) after its bracketed part is accepted: when
    the parser's upcoming tokens are [<-], [[], an optional variable, an
    optional [:] and type, and []], and the token after the bracket is
    neither [->] nor [-], then [parseEdgePattern] returns an edge pattern of
    direction In, stops right after the bracket and records no error. *)
Theorem parseEdgePattern_left_arrow_without_closing_dash
    (p : Parser) (hasVariable hasType : bool) :
  let k := length (left_arrow_edge hasVariable hasType) in
  upcoming k p = left_arrow_edge hasVariable hasType →
  TokType (current (advance k p)) ≠ TokenArrow →
  TokType (current (advance k p)) ≠ TokenDash →
  ∃ edge,
    Parser.parseEdgePattern p = (Ok edge, advance k p) ∧
    epDirection edge = DirectionIn ∧
    errors (advance k p) = errors p.
Proof.
  intros k Hup Harrow Hdash.
  pose proof (advance_errors k p) as Herr.
  destruct hasVariable, hasType; cbn in Hup, Harrow, Hdash, k; subst k; cbn [advance] in *;
    [injection Hup as H0 H1 H2 H3 H4 H5
    |injection Hup as H0 H1 H2 H3
    |injection Hup as H0 H1 H2 H3 H4
    |injection Hup as H0 H1 H2];
    unfold Parser.parseEdgePattern;
    rewrite (currentTokenIs_eq _ _ H0); cbn match; cbn beta iota;
    rewrite (currentTokenIs_eq _ _ H1); cbn [negb].
  - (* <- [ var : type ] *)
    rewrite (currentTokenIs_eq _ _ H2). cbn beta iota.
    rewrite (currentTokenIs_eq _ _ H3). cbn beta iota.
    rewrite (currentTokenIs_eq _ _ H4). cbn [negb].
    rewrite (currentTokenIs_eq _ _ H5). cbn [negb].
    rewrite (currentTokenIs_ne _ _ Harrow), (currentTokenIs_ne _ _ Hdash).
    cbn. eauto.
  - (* <- [ var ] *)
    rewrite (currentTokenIs_eq _ _ H2). cbn beta iota.
    rewrite (currentTokenIs_ne TokenColon) by (rewrite H3; done).
    rewrite (currentTokenIs_eq _ _ H3). cbn [negb].
    rewrite (currentTokenIs_ne _ _ Harrow), (currentTokenIs_ne _ _ Hdash).
    cbn. eauto.
  - (* <- [ : type ] *)
    rewrite (currentTokenIs_ne TokenIdentifier) by (rewrite H2; done). cbn beta iota.
    rewrite (currentTokenIs_eq _ _ H2). cbn beta iota.
    rewrite (currentTokenIs_eq _ _ H3). cbn [negb].
    rewrite (currentTokenIs_eq _ _ H4). cbn [negb].
    rewrite (currentTokenIs_ne _ _ Harrow), (currentTokenIs_ne _ _ Hdash).
    cbn. eauto.
  - (* <- [ ] *)
    rewrite (currentTokenIs_ne TokenIdentifier) by (rewrite H2; done). cbn beta iota.
    rewrite (currentTokenIs_ne TokenColon) by (rewrite H2; done).
    rewrite (currentTokenIs_eq _ _ H2). cbn [negb].
    rewrite (currentTokenIs_ne _ _ Harrow), (currentTokenIs_ne _ _ Hdash).
    cbn. eauto.
Qed.

#[local] Transparent Parser.nextToken.

Lemma parseEdgePattern_left_arrow_without_closing_dash_witness :
  let p := Parser.NewParser "<-[r](b)" in
  ∃ edge,
    Parser.parseEdgePattern p = (Ok edge, advance 4 p) ∧
    epDirection edge = DirectionIn ∧
    errors (advance 4 p) = errors p.
Proof.
  intros p.
  assert (H1 : upcoming 4 p = left_arrow_edge true false) by (vm_compute; reflexivity).
  assert (H2 : TokType (current (advance 4 p)) ≠ TokenArrow) by (vm_compute; discriminate).
  assert (H3 : TokType (current (advance 4 p)) ≠ TokenDash) by (vm_compute; discriminate).
  exact (parseEdgePattern_left_arrow_without_closing_dash p true false H1 H2 H3).
Defined.

(** C6 as stated fails: the query [MATCH (a)<-[r](b)], whose edge pattern
    starts with [<-] and has no closing [-], is parsed without error into a
    pattern with one edge of direction In. *)
Lemma parse_accepts_left_arrow_without_closing_dash :
  let r := Parser.Parse (Parser.NewParser "MATCH (a)<-[r](b)") in
  fst r =
    Ok {| Match :=
            Some {| Patterns :=
                      [ {| pNodes :=
                             [ {| npVariable := "a"; npLabel := EmptyString;
                                  npProperties := ∅ |};
                               {| npVariable := "b"; npLabel := EmptyString;
                                  npProperties := ∅ |} ];
                           pEdges :=
                             [ {| epVariable := "r"; epType := EmptyString;
                                  epDirection := DirectionIn;
                                  MinHops := None; MaxHops := None |} ] |} ] |};
          Where := None; Return := None; Limit := None |} ∧
  errors (snd r) = [].
Proof. split; vm_compute; reflexivity. Qed.

(** ** The lexer on the rest of its input *)

Section StringFacts.
Implicit Types (s r : string) (c : ascii) (f : ascii → bool).

Lemma sdrop_empty n : sdrop n EmptyString = EmptyString.
Proof. by destruct n. Qed.

Lemma sdrop_S n s : sdrop (S n) s = tail0 (sdrop n s).
Proof.
  revert s. induction n as [|n IH]; intros [|c s]; try done.
  change (sdrop (S (S n)) (String c s)) with (sdrop (S n) s).
  change (sdrop (S n) (String c s)) with (sdrop n s). apply IH.
Qed.

Lemma sdrop_length n s : String.length (sdrop n s) = (String.length s - n)%nat.
Proof.
  revert s. induction n as [|n IH]; intros [|c s]; cbn; try done; try lia.
Qed.

Lemma head0_sdrop n s :
  head0 (sdrop n s) =
  if Nat.leb (String.length s) n then Ascii.zero else byte_at s n.
Proof.
  unfold byte_at. revert s. induction n as [|n IH]; intros [|c s]; cbn; try done.
Qed.

Lemma tail0_length s : String.length (tail0 s) = (String.length s - 1)%nat.
Proof. destruct s; cbn; lia. Qed.

Lemma append_nil s : (EmptyString ++ s)%string = s.
Proof. reflexivity. Qed.

Lemma append_cons c s1 s2 : (String c s1 ++ s2)%string = String c (s1 ++ s2).
Proof. reflexivity. Qed.

Lemma append_assoc s1 s2 s3 : ((s1 ++ s2) ++ s3 = s1 ++ (s2 ++ s3))%string.
Proof.
  induction s1 as [|c s1 IH]; [done|]. rewrite !append_cons. by f_equal.
Qed.

Lemma append_empty_r s : (s ++ EmptyString)%string = s.
Proof. induction s as [|c s IH]; [done|]. rewrite append_cons. by f_equal. Qed.

Lemma append_length s1 s2 :
  String.length (s1 ++ s2) = (String.length s1 + String.length s2)%nat.
Proof.
  induction s1 as [|c s1 IH]; [done|]. rewrite append_cons. cbn. by f_equal.
Qed.

(** [s[a:a+k]] is the prefix of length [k] of [s[a:]]. *)
Lemma substring_sdrop a k s : substring a k s = substring 0 k (sdrop a s).
Proof.
  revert s. induction a as [|a IH]; intros [|c s]; cbn [sdrop]; try done.
  - by destruct k.
  - cbn. apply IH.
Qed.

Lemma substring_prefix s1 s2 : substring 0 (String.length s1) (s1 ++ s2) = s1.
Proof.
  induction s1 as [|c s1 IH]; [by destruct s2|]. rewrite append_cons. cbn. by f_equal.
Qed.

Lemma slice_prefix input0 p s1 s2 :
  sdrop p input0 = (s1 ++ s2)%string →
  slice input0 p (p + String.length s1) = s1.
Proof.
  intros H. unfold slice.
  replace (p + String.length s1 - p)%nat with (String.length s1) by lia.
  by rewrite substring_sdrop, H, substring_prefix.
Qed.

Lemma span_append f s : (fst (span f s) ++ snd (span f s))%string = s.
Proof.
  induction s as [|c s IH]; cbn; [done|].
  destruct (f c); cbn; [|done].
  destruct (span f s) as [a b]; cbn in *. rewrite append_cons. by f_equal.
Qed.

Lemma span_length f s : (String.length (snd (span f s)) ≤ String.length s)%nat.
Proof.
  induction s as [|c s IH]; cbn; [done|].
  destruct (f c); cbn; [|done].
  destruct (span f s) as [a b]; cbn in *. lia.
Qed.

(** What follows the span does not start with a byte that satisfies [f]. *)
Lemma span_stop f s : f Ascii.zero = false → f (head0 (snd (span f s))) = false.
Proof.
  intros H0. induction s as [|c s IH]; cbn; [done|].
  destruct (f c) eqn:E; cbn; [|done].
  by destruct (span f s) as [a b].
Qed.

Lemma span_idem f s :
  f Ascii.zero = false → span f (snd (span f s)) = (EmptyString, snd (span f s)).
Proof.
  intros H0. pose proof (span_stop f s H0) as H.
  destruct (snd (span f s)) as [|c r]; cbn in *; [done|]. by rewrite H.
Qed.

Lemma span_all f s : all_bytes f (fst (span f s)) = true.
Proof.
  induction s as [|c s IH]; cbn; [done|].
  destruct (f c) eqn:E; cbn; [|done].
  destruct (span f s) as [a b]; cbn in *. by rewrite E.
Qed.

(** A run of bytes that satisfy [f], followed by a string that does not
    start with one, is split where the string starts. *)
Lemma span_exact f s r :
  all_bytes f s = true → f (head0 r) = false → f Ascii.zero = false →
  span f (s ++ r) = (s, r).
Proof.
  intros Hs Hr H0. induction s as [|c s IH]; cbn in Hs.
  - rewrite append_nil. destruct r as [|c r]; cbn in *; [done|]. by rewrite Hr.
  - apply andb_true_iff in Hs as [Hc Hs]. rewrite append_cons. cbn.
    by rewrite Hc, IH.
Qed.

Lemma span_none f s : f (head0 s) = false → span f s = (EmptyString, s).
Proof. destruct s as [|c s]; cbn; [done|]. by intros ->. Qed.

(** A span that starts with a byte that satisfies [f], followed by a
    string that does not: it is found again, and it is not empty. *)
Lemma span_stable f s a b r :
  f Ascii.zero = false → f (head0 s) = true → span f s = (a, b) →
  f (head0 r) = false →
  span f (a ++ r) = (a, r) ∧ head0 (a ++ r) = head0 s.
Proof.
  intros H0 Hs E Hr. split.
  - apply span_exact; [|done..]. pose proof (span_all f s) as Ha. by rewrite E in Ha.
  - destruct s as [|c s]; cbn in *; [congruence|].
    rewrite Hs in E. destruct (span f s). by injection E as <- <-.
Qed.
End StringFacts.

Section LexerFacts.
Implicit Types (l : Lexer) (s r : string) (c : ascii).

Lemma readChar_coherent l : coherent (Lexer.readChar l).
Proof.
  unfold coherent, rest, Lexer.readChar; cbn. split; [lia|].
  by rewrite head0_sdrop.
Qed.

Lemma readChar_rest l : coherent l → rest (Lexer.readChar l) = tail0 (rest l).
Proof.
  intros [Hp _]. unfold rest, Lexer.readChar; cbn.
  rewrite Hp, Nat.add_1_r. apply sdrop_S.
Qed.

Lemma readChar_position l : coherent l → position (Lexer.readChar l) = S (position l).
Proof. intros [Hp _]. cbn. lia. Qed.

Lemma peekChar_rest l : coherent l → Lexer.peekChar l = head0 (tail0 (rest l)).
Proof.
  intros [Hp _]. unfold Lexer.peekChar, rest.
  by rewrite Hp, Nat.add_1_r, <-sdrop_S, head0_sdrop.
Qed.

Lemma NewLexer_spec input0 :
  coherent (Lexer.NewLexer input0) ∧ rest (Lexer.NewLexer input0) = input0.
Proof. split; [apply readChar_coherent|done]. Qed.

Lemma rest_length l : (String.length (rest l) < Lexer.fuel l)%nat.
Proof. unfold rest, Lexer.fuel. rewrite sdrop_length. lia. Qed.

(** A loop [for cond(l.ch) { l.readChar() }] reads the longest run of bytes
    that satisfy [cond]; it never runs out of passes. *)
Lemma read_while_spec cond n l :
  cond Ascii.zero = false → coherent l → (String.length (rest l) < n)%nat →
  let l' := Lexer.read_while cond n l in
  coherent l' ∧ input l' = input l ∧
  rest l' = snd (span cond (rest l)) ∧
  position l' = (position l + String.length (fst (span cond (rest l))))%nat.
Proof.
  intros H0. revert l. induction n as [|n IH]; intros l Hl Hn; [lia|].
  cbn [Lexer.read_while]. pose proof Hl as [Hp Hc]. rewrite Hc.
  destruct (rest l) as [|c r] eqn:E; cbn [head0 span].
  - rewrite H0. cbn. rewrite E. split_and!; [done..|lia].
  - destruct (cond c) eqn:Ec.
    + specialize (IH (Lexer.readChar l) (readChar_coherent l)).
      rewrite readChar_rest, E in IH by done. cbn [tail0] in IH.
      destruct IH as (IH1 & IH2 & IH3 & IH4); [cbn in Hn; lia|].
      rewrite readChar_position in IH4 by done.
      destruct (span cond r) as [a b]; cbn in *. split_and!; [done..|lia].
    + cbn. rewrite E. split_and!; [done..|lia].
Qed.

Lemma read_while_exit cond l :
  cond Ascii.zero = false → coherent l →
  cond (ch (Lexer.read_while cond (Lexer.fuel l) l)) = false.
Proof.
  intros H0 Hl.
  destruct (read_while_spec cond (Lexer.fuel l) l H0 Hl (rest_length l))
    as ([_ Hc] & _ & Hr & _).
  rewrite Hc, Hr. by apply span_stop.
Qed.

Lemma one_char_spec t l :
  coherent l →
  let r := Lexer.one_char t l in
  coherent (Lexer.readChar r.2) ∧ input (Lexer.readChar r.2) = input l ∧
  type_and_literal r.1 = (t, str1 (head0 (rest l))) ∧
  rest (Lexer.readChar r.2) = tail0 (rest l).
Proof.
  intros Hl. cbn. split_and!; [apply readChar_coherent|done| |by apply readChar_rest].
  unfold type_and_literal; cbn. by rewrite (proj2 Hl).
Qed.

Lemma two_char_spec t l :
  coherent l →
  let r := Lexer.two_char t l in
  coherent (Lexer.readChar r.2) ∧ input (Lexer.readChar r.2) = input l ∧
  type_and_literal r.1 = (t, str2 (head0 (rest l)) (head0 (tail0 (rest l)))) ∧
  rest (Lexer.readChar r.2) = tail0 (tail0 (rest l)).
Proof.
  intros Hl. pose proof (readChar_coherent l) as Hl'.
  cbn [Lexer.two_char fst snd].
  split_and!; [apply readChar_coherent|done| |].
  - unfold type_and_literal; cbn [Lexer.newToken TokType Literal].
    by rewrite (proj2 Hl'), readChar_rest, (proj2 Hl).
  - by rewrite !readChar_rest.
Qed.

Lemma readIdentifier_spec l :
  coherent l →
  let r := Lexer.readIdentifier l in
  coherent r.2 ∧ input r.2 = input l ∧
  (r.1, rest r.2) = span ident_char (rest l).
Proof.
  intros Hl. unfold Lexer.readIdentifier.
  destruct (read_while_spec ident_char (Lexer.fuel l) l eq_refl Hl (rest_length l))
    as (H1 & H2 & H3 & H4).
  fold ident_char. cbn [fst snd]. split_and!; [done..|].
  rewrite H2, H4, H3.
  rewrite (slice_prefix _ _ _ (span ident_char (rest l)).2)
    by (by rewrite span_append).
  by destruct (span ident_char (rest l)).
Qed.

Lemma readNumber_spec l :
  coherent l →
  let r := Lexer.readNumber l in
  coherent r.2 ∧ input r.2 = input l ∧
  (r.1, rest r.2) = scan_number (rest l).
Proof.
  intros Hl. unfold Lexer.readNumber, scan_number.
  destruct (read_while_spec isDigit (Lexer.fuel l) l eq_refl Hl (rest_length l))
    as (H1 & H2 & H3 & H4).
  set (l2 := Lexer.read_while isDigit (Lexer.fuel l) l) in *.
  pose proof (span_append isDigit (rest l)) as Hs.
  rewrite (proj2 H1), peekChar_rest, H3 by done.
  destruct (span isDigit (rest l)) as [a r1]. cbn [fst snd] in *.
  destruct (Ascii.eqb (head0 r1) "." && isDigit (head0 (tail0 r1))) eqn:Ed.
  - apply andb_true_iff in Ed as [Ed _]. apply Ascii.eqb_eq in Ed.
    destruct r1 as [|c r1]; [done|]. cbn in Ed. subst c. cbn [tail0] in *.
    destruct (read_while_spec isDigit (Lexer.fuel l2) (Lexer.readChar l2) eq_refl
                (readChar_coherent l2) (rest_length (Lexer.readChar l2)))
      as (G1 & G2 & G3 & G4).
    set (l3 := Lexer.read_while isDigit (Lexer.fuel l2) (Lexer.readChar l2)) in *.
    rewrite readChar_rest, H3 in G3, G4 by done. cbn [tail0] in G3, G4.
    rewrite readChar_position, H4 in G4 by done.
    pose proof (span_append isDigit r1) as Hs2.
    destruct (span isDigit r1) as [b r2]. cbn [fst snd] in *.
    change (input (Lexer.readChar l2)) with (input l2) in G2.
    split_and!; [done|by rewrite G2| ]. f_equal; [|done].
    rewrite G2, H2, G4.
    replace (S (position l + String.length a) + String.length b)%nat
      with (position l + String.length (a ++ String "." b))%nat
      by (rewrite append_length; cbn; lia).
    apply (slice_prefix _ _ _ r2). fold (rest l).
    by rewrite <-Hs, <-Hs2, append_assoc, append_cons.
  - split_and!; [done..|]. f_equal; [|done].
    rewrite H2, H4. apply (slice_prefix _ _ _ r1). by fold (rest l).
Qed.

Lemma readString_loop_input quote n l :
  input (Lexer.readString_loop quote n l) = input l.
Proof.
  revert l. induction n as [|n IH]; intros l; cbn [Lexer.readString_loop]; [done|].
  repeat case_match; rewrite ?IH; done.
Qed.

(** The loop of [readString] ends at the closing quote or at the end of the
    input, never for lack of passes, and it reads at least one byte. *)
Lemma readString_loop_spec quote n l :
  coherent l → (String.length (rest l) < n)%nat →
  let l' := Lexer.readString_loop quote n l in
  coherent l' ∧
  Ascii.eqb (ch l') quote || Ascii.eqb (ch l') Ascii.zero = true ∧
  (String.length (rest l') ≤ String.length (rest l) - 1)%nat.
Proof.
  revert l. induction n as [|n IH]; intros l Hl Hn; [lia|].
  cbn [Lexer.readString_loop].
  pose proof (readChar_coherent l) as Hl1.
  pose proof (readChar_rest l Hl) as Hr1.
  set (l1 := Lexer.readChar l) in *.
  assert (Hlen : String.length (rest l1) = (String.length (rest l) - 1)%nat)
    by (by rewrite Hr1, tail0_length).
  destruct (Ascii.eqb (ch l1) quote || Ascii.eqb (ch l1) Ascii.zero) eqn:E.
  - split_and!; [done..|lia].
  - apply orb_false_iff in E as [_ E]. rewrite (proj2 Hl1) in E.
    assert (Hne : (0 < String.length (rest l1))%nat)
      by (destruct (rest l1); [done|cbn; lia]).
    set (l2 := if Ascii.eqb (ch l1) "\" && Ascii.eqb (Lexer.peekChar l1) quote
               then Lexer.readChar l1 else l1).
    assert (H2 : coherent l2 ∧ (String.length (rest l2) ≤ String.length (rest l1))%nat).
    { unfold l2. case_match; [|done].
      split; [apply readChar_coherent|]. rewrite readChar_rest, tail0_length by done. lia. }
    destruct H2 as [Hl2 Hlen2].
    destruct (IH l2 Hl2) as (G1 & G2 & G3); [lia|].
    split_and!; [done..|lia].
Qed.

(** [NextToken], on the rest of the input: it returns the token [scan]
    describes and moves to what follows it; where [scan] leaves the token
    unspecified it returns a string token. *)
Lemma NextToken_spec l :
  coherent l →
  let r := Lexer.NextToken l in
  coherent r.2 ∧ input r.2 = input l ∧
  match scan (rest l) with
  | Some (t, lit, s) => type_and_literal r.1 = (t, lit) ∧ rest r.2 = s
  | None =>
    TokType r.1 = TokenString ∧
    (String.length (rest r.2) < String.length (span is_space (rest l)).2)%nat
  end.
Proof.
  intros Hl.
  destruct (read_while_spec is_space (Lexer.fuel l) l eq_refl Hl (rest_length l))
    as (Hl1 & Hi1 & Hr1 & _).
  unfold Lexer.NextToken, scan, Lexer.skipWhitespace. rewrite <-Hr1, <-Hi1.
  clear Hr1 Hi1. generalize dependent (Lexer.read_while is_space (Lexer.fuel l) l).
  clear l Hl. intros l Hl.
  unfold scan_at. cbv beta zeta.
  rewrite (peekChar_rest l Hl), (proj2 Hl).
  repeat match goal with
  | |- context [if ?b then _ else _] => destruct b eqn:?
  end.
  all: cbn beta iota zeta; cbn [fst snd].
  all: try (by apply one_char_spec); try (by apply two_char_spec).
  - (* a string literal *)
    unfold Lexer.readString. cbn [fst snd TokType].
    split_and!; [apply readChar_coherent|apply readString_loop_input|done|].
    destruct (readString_loop_spec (head0 (rest l)) (Lexer.fuel l) l Hl (rest_length l))
      as (G1 & _ & G3).
    rewrite readChar_rest, tail0_length by done.
    destruct (rest l); [done|]. cbn in *. lia.
  - (* the end of the input *)
    cbn. split_and!; [apply readChar_coherent|done..|by apply readChar_rest].
  - (* an identifier or a keyword *)
    pose proof (readIdentifier_spec l Hl) as (H1 & H2 & H3).
    destruct (Lexer.readIdentifier l) as [lit l'].
    destruct (span ident_char (rest l)) as [lit' r']. cbn in *.
    by injection H3 as -> ->.
  - (* a number *)
    pose proof (readNumber_spec l Hl) as (H1 & H2 & H3).
    destruct (Lexer.readNumber l) as [lit l'].
    destruct (scan_number (rest l)) as [lit' r']. cbn in *.
    by injection H3 as -> ->.
Qed.

Lemma tokens_loop_S n l :
  Lexer.tokens_loop (S n) l =
  if decide (TokType (Lexer.NextToken l).1 = TokenEOF) then []
  else (Lexer.NextToken l).1 :: Lexer.tokens_loop n (Lexer.NextToken l).2.
Proof.
  cbn [Lexer.tokens_loop]. destruct (Lexer.NextToken l) as [tok l']. cbn [fst snd].
  by destruct (TokType tok).
Qed.

Lemma scan_all_S n s :
  scan_all (S n) s =
  match scan s with
  | None => None
  | Some (t, lit, r) =>
    if decide (t = TokenEOF) then Some [] else cons (t, lit) <$> scan_all n r
  end.
Proof. cbn [scan_all]. by destruct (scan s) as [[[[] lit] r]|]. Qed.

(** The token stream of the lexer is the one [scan_all] describes; where
    [scan_all] leaves it unspecified, it has a string token. *)
Lemma tokens_loop_spec n l :
  coherent l →
  match scan_all n (rest l) with
  | Some ts => type_and_literal <$> Lexer.tokens_loop n l = ts
  | None => Exists (λ tok, TokType tok = TokenString) (Lexer.tokens_loop n l)
  end.
Proof.
  revert l. induction n as [|n IH]; intros l Hl; [done|].
  rewrite tokens_loop_S, scan_all_S.
  pose proof (NextToken_spec l Hl) as (H1 & H2 & H3).
  destruct (Lexer.NextToken l) as [tok l']. cbn [fst snd] in *.
  destruct (scan (rest l)) as [[[t lit] s]|].
  - destruct H3 as [Htok Hs]. pose proof Htok as [= Ht Hlit].
    rewrite Ht. destruct (decide (t = TokenEOF)); [done|].
    specialize (IH l' H1). rewrite Hs in IH.
    destruct (scan_all n s) as [ts|]; cbn.
    + by rewrite Htok, IH.
    + by apply Exists_cons_tl.
  - destruct H3 as [H3 _]. rewrite H3.
    destruct (decide (TokenString = TokenEOF)); [done|].
    by apply Exists_cons_hd.
Qed.
End LexerFacts.

(** *** Reading a token back from its literal *)

Section ScanFacts.
Implicit Types (s r lit : string) (c : ascii) (t : TokenType).

Lemma scan_no_space s : is_space (head0 s) = false → scan s = scan_at s.
Proof. intros H. unfold scan. by rewrite span_none. Qed.

Lemma scan_space s : scan (String " " s) = scan s.
Proof. unfold scan. cbn. by destruct (span is_space s). Qed.

Lemma scan_number_stable s lit r r' :
  isDigit (head0 s) = true → scan_number s = (lit, r) →
  head0 r' = Ascii.zero ∨ head0 r' = " "%char →
  scan_number (lit ++ r') = (lit, r') ∧ head0 (lit ++ r') = head0 s.
Proof.
  intros Hs E Hr. unfold scan_number in E.
  assert (Hd : isDigit (head0 r') = false) by (by destruct Hr as [-> | ->]).
  assert (Hdot : Ascii.eqb (head0 r') "." = false) by (by destruct Hr as [-> | ->]).
  destruct (span isDigit s) as [a r1] eqn:E1.
  destruct (Ascii.eqb (head0 r1) "." && isDigit (head0 (tail0 r1))) eqn:Ec.
  - apply andb_true_iff in Ec as [_ Ec].
    destruct (span isDigit (tail0 r1)) as [b r2] eqn:E2. injection E as <- <-.
    destruct (span_stable isDigit s a r1 (String "." (b ++ r')) eq_refl Hs E1 eq_refl)
      as [Ha Hh].
    destruct (span_stable isDigit (tail0 r1) b r2 r' eq_refl Ec E2 Hd) as [Hb Hhb].
    rewrite append_assoc, append_cons. split; [|done].
    unfold scan_number. rewrite Ha. cbn [head0 tail0]. rewrite Hhb, Ec. cbn.
    by rewrite Hb.
  - injection E as <- <-.
    destruct (span_stable isDigit s a r1 r' eq_refl Hs E1 Hd) as [Ha Hh].
    split; [|done]. unfold scan_number. by rewrite Ha, Hdot.
Qed.

Lemma scan_at_stable s t lit r r' :
  scan_at s = Some (t, lit, r) → t ≠ TokenEOF → t ≠ TokenIllegal →
  head0 r' = Ascii.zero ∨ head0 r' = " "%char →
  scan_at (lit ++ r') = Some (t, lit, r') ∧ head0 (lit ++ r') = head0 s.
Proof.
  intros H Heof Hill Hr. unfold scan_at in H. cbv beta zeta in H.
  repeat match type of H with
  | context [if ?b then _ else _] => destruct b eqn:?
  end.
  all: try discriminate.
  all: try (injection H as <- <- <-;
            repeat match goal with
            | E : Ascii.eqb _ _ = true |- _ =>
              apply Ascii.eqb_eq in E; rewrite E; clear E
            end;
            first
              [ done
              | destruct r' as [|c' r'']; cbn in Hr; [|destruct Hr as [-> | ->]];
                by vm_compute ]).
  all: assert (Hi : ident_char (head0 r') = false) by (by destruct Hr as [-> | ->]).
  all: repeat match goal with
       | E : isLetter _ = _ |- _ => revert E
       | E : isDigit _ = _ |- _ => revert E
       end.
  - (* an identifier or a keyword *)
    intros Hletter.
    destruct (span ident_char s) as [a b] eqn:E. injection H as <- <- <-.
    destruct (span_stable ident_char s a b r' eq_refl) as [Ha Hh]; [|done..|].
    { unfold ident_char. by rewrite Hletter. }
    split; [|done]. unfold scan_at. cbv beta zeta. rewrite Hh.
    repeat match goal with
    | E : ?b = false |- context [if ?b then _ else _] => rewrite E
    end.
    by rewrite Hletter, Ha.
  - (* a number *)
    intros Hdigit Hletter.
    destruct (scan_number s) as [a b] eqn:E. injection H as <- <- <-.
    destruct (scan_number_stable s a b r' Hdigit E Hr) as [Ha Hh].
    split; [|done]. unfold scan_at. cbv beta zeta. rewrite Hh.
    repeat match goal with
    | E : ?b = false |- context [if ?b then _ else _] => rewrite E
    end.
    by rewrite Hdigit, Ha.
Qed.

(** A token other than the end of the input and an illegal byte is read
    back from its literal. *)
Lemma scan_stable s t lit r :
  scan s = Some (t, lit, r) → t ≠ TokenEOF → t ≠ TokenIllegal →
  reads_back (t, lit).
Proof.
  intros H Heof Hill. split; [done|]. intros r' Hr. cbn [fst snd].
  unfold scan in H. pose proof (span_stop is_space s eq_refl) as Hsp.
  destruct (scan_at_stable _ _ _ _ r' H Heof Hill Hr) as [H1 H2].
  rewrite scan_no_space; [done|]. by rewrite H2.
Qed.

Lemma scan_all_reads_back n s ts :
  scan_all n s = Some ts → Forall (λ x, x.1 ≠ TokenIllegal) ts →
  Forall reads_back ts.
Proof.
  revert s ts. induction n as [|n IH]; intros s ts H Hill.
  - injection H as <-. constructor.
  - rewrite scan_all_S in H.
    destruct (scan s) as [[[t lit] r]|] eqn:E; [|done].
    destruct (decide (t = TokenEOF)) as [|Heof]; [injection H as <-; constructor|].
    destruct (scan_all n r) as [ts'|] eqn:E'; [|done]. injection H as <-.
    apply Forall_cons in Hill as [Ht Hill]. constructor; [|by eapply IH].
    by eapply scan_stable.
Qed.

Lemma scan_all_empty n : scan_all n EmptyString = Some [].
Proof. by destruct n. Qed.

Lemma scan_all_space n s : scan_all n (String " " s) = scan_all n s.
Proof. destruct n; [done|]. by rewrite !scan_all_S, scan_space. Qed.

Lemma reads_back_nonempty t lit : reads_back (t, lit) → lit ≠ EmptyString.
Proof.
  intros [Heof H] ->. specialize (H EmptyString (or_introl eq_refl)).
  cbn in H. by injection H as <-.
Qed.

Lemma concat_cons (sep x y : string) (xs : list string) :
  String.concat sep (x :: y :: xs) = (x ++ sep ++ String.concat sep (y :: xs))%string.
Proof. reflexivity. Qed.

Lemma reads_back_length ts :
  Forall reads_back ts → (length ts ≤ String.length (String.concat " " ts.*2))%nat.
Proof.
  induction 1 as [|[t lit] ts Hx Hts IH]; [done|].
  apply reads_back_nonempty in Hx.
  destruct ts as [|y ts]; cbn [fmap list_fmap snd length] in *.
  - destruct lit; cbn; [done|lia].
  - rewrite concat_cons, !append_length. destruct lit; cbn in *; [done|lia].
Qed.

(** The literals of tokens that are read back, joined by a space, are
    scanned into these tokens. *)
Lemma scan_all_join ts n :
  Forall reads_back ts → (length ts < n)%nat →
  scan_all n (String.concat " " ts.*2) = Some ts.
Proof.
  intros Hts. revert n. induction Hts as [|[t lit] ts [Heof Hx] Hts IH]; intros n Hn.
  - destruct n; [lia|]. done.
  - destruct n as [|n]; [cbn in Hn; lia|]. cbn [length] in Hn.
    rewrite scan_all_S. cbn [fst snd] in *.
    destruct ts as [|y ts]; cbn [fmap list_fmap snd].
    + cbn [String.concat]. rewrite <-(append_empty_r lit) at 1.
      rewrite Hx by (by left). destruct (decide (t = TokenEOF)); [done|].
      by rewrite scan_all_empty.
    + rewrite concat_cons, Hx by (by right).
      destruct (decide (t = TokenEOF)); [done|].
      change (" " ++ ?x)%string with (String " " x).
      rewrite scan_all_space. cbn [fmap list_fmap snd] in IH. rewrite IH; [done|lia].
Qed.
End ScanFacts.

(** *** Every token but the last one consumes input *)

Section ProgressFacts.
Implicit Types (s r lit : string) (c : ascii) (t : TokenType) (l : Lexer).

Lemma tail0_shorter s :
  Ascii.eqb (head0 s) Ascii.zero = false →
  (String.length (tail0 s) < String.length s)%nat.
Proof. destruct s; [done|]. cbn. lia. Qed.

Lemma span_shorter f s :
  f (head0 s) = true → f Ascii.zero = false →
  (String.length (span f s).2 < String.length s)%nat.
Proof.
  intros Hs H0. destruct s as [|c s]; cbn in *; [congruence|].
  rewrite Hs. pose proof (span_length f s). destruct (span f s). cbn in *. lia.
Qed.

Lemma scan_number_shorter s :
  isDigit (head0 s) = true →
  (String.length (scan_number s).2 < String.length s)%nat.
Proof.
  intros Hs. unfold scan_number.
  pose proof (span_shorter isDigit s Hs eq_refl) as H1.
  destruct (span isDigit s) as [a r1]. cbn [snd] in H1.
  case_match; [|done].
  pose proof (span_length isDigit (tail0 r1)) as H2.
  destruct (span isDigit (tail0 r1)) as [b r2]. cbn [snd] in *.
  rewrite tail0_length in H2. lia.
Qed.

Lemma scan_at_progress s t lit r :
  scan_at s = Some (t, lit, r) → t ≠ TokenEOF →
  (String.length r < String.length s)%nat.
Proof.
  intros H Heof. unfold scan_at in H. cbv beta zeta in H.
  repeat match type of H with
  | context [if ?b then _ else _] => destruct b eqn:?
  end.
  all: try discriminate.
  all: try (injection H as <- <- <-; try done;
            repeat match goal with
            | E : Ascii.eqb _ _ = true |- _ => apply Ascii.eqb_eq in E
            end;
            destruct s as [|c [|c' s]]; cbn in *; first [done | lia]).
  - pose proof (span_shorter ident_char s) as Hlt.
    destruct (span ident_char s) as [a b]. injection H as <- <- <-.
    apply Hlt; [|done]. unfold ident_char.
    by match goal with E : isLetter _ = true |- _ => rewrite E end.
  - pose proof (scan_number_shorter s) as Hlt.
    destruct (scan_number s) as [a b]. injection H as <- <- <-. by apply Hlt.
Qed.

Lemma scan_progress s t lit r :
  scan s = Some (t, lit, r) → t ≠ TokenEOF →
  (String.length r < String.length s)%nat.
Proof.
  intros H Heof. apply scan_at_progress in H; [|done].
  pose proof (span_length is_space s). lia.
Qed.

Lemma NextToken_progress l :
  coherent l → TokType (Lexer.NextToken l).1 ≠ TokenEOF →
  (String.length (rest (Lexer.NextToken l).2) < String.length (rest l))%nat.
Proof.
  intros Hl Heof. pose proof (NextToken_spec l Hl) as (_ & _ & H).
  destruct (scan (rest l)) as [[[t lit] s]|] eqn:E.
  - destruct H as [[= Ht _] ->]. apply (scan_progress _ _ _ _ E). by rewrite <-Ht.
  - destruct H as [_ H]. pose proof (span_length is_space (rest l)). lia.
Qed.

(** The token stream does not depend on the number of passes allowed, once
    it is more than the length of the input: the loop of [tokens] ends at
    the end-of-input token. *)
Lemma tokens_loop_fuel n m l :
  coherent l → (String.length (rest l) < n)%nat → (String.length (rest l) < m)%nat →
  Lexer.tokens_loop n l = Lexer.tokens_loop m l.
Proof.
  revert m l. induction n as [|n IH]; intros [|m] l Hl Hn Hm; try lia.
  rewrite !tokens_loop_S. case_decide as Heof; [done|]. f_equal.
  pose proof (NextToken_progress l Hl Heof).
  apply IH; [by apply NextToken_spec|lia..].
Qed.

Lemma tokens_fuel input0 n :
  (String.length input0 < n)%nat →
  Lexer.tokens_loop n (Lexer.NewLexer input0) = Lexer.tokens input0.
Proof.
  intros Hn. destruct (NewLexer_spec input0) as [Hl Hr].
  apply tokens_loop_fuel; [done|rewrite Hr; lia..].
Qed.
End ProgressFacts.

(** C8, as the code has it.  Lexing is idempotent on the inputs that lex
    without an illegal token and without a string token: the literals of the
    tokens, joined by single spaces, lex to the same sequence of token types
    and literals (up to the end-of-input token). *)
Theorem lexing_idempotent_without_strings (input0 : string) :
  Forall (λ tok, TokType tok ≠ TokenIllegal ∧ TokType tok ≠ TokenString)
         (Lexer.tokens input0) →
  type_and_literal <$> Lexer.tokens (join_literals (Lexer.tokens input0)) =
  type_and_literal <$> Lexer.tokens input0.
Proof.
  intros Hok. unfold Lexer.tokens at 1.
  set (joined := join_literals (Lexer.tokens input0)).
  destruct (NewLexer_spec input0) as [Hl Hr].
  pose proof (tokens_loop_spec (String.length input0 + 1) _ Hl) as H.
  rewrite Hr in H. fold (Lexer.tokens input0) in H.
  destruct (scan_all (String.length input0 + 1) input0) as [ts|] eqn:E.
  - assert (Hts : Forall reads_back ts).
    { apply (scan_all_reads_back _ _ _ E). rewrite <-H.
      apply Forall_fmap. eapply Forall_impl; [exact Hok|]. by intros tok [? _]. }
    assert (Hj : joined = String.concat " " ts.*2).
    { unfold joined, join_literals. by rewrite <-H, <-list_fmap_compose. }
    destruct (NewLexer_spec joined) as [Hl' Hr'].
    pose proof (tokens_loop_spec (String.length joined + 1) _ Hl') as H'.
    rewrite Hr' in H'.
    assert (Hs : scan_all (String.length joined + 1) joined = Some ts).
    { pose proof (reads_back_length ts Hts) as Hlen. rewrite <-Hj in Hlen.
      transitivity (scan_all (String.length joined + 1) (String.concat " " ts.*2));
        [by rewrite <-Hj|].
      apply scan_all_join; [done|lia]. }
    rewrite Hs in H'. by rewrite H.
  - apply Exists_exists in H as (tok & Hin & Htok).
    rewrite Forall_forall in Hok. by destruct (Hok tok Hin).
Qed.

Lemma lexing_idempotent_without_strings_witness :
  let input0 := "MATCH (a:Person)-[r]->(b) WHERE a.age>=30 AND b.x<1.5 RETURN b LIMIT 10"%string in
  type_and_literal <$> Lexer.tokens (join_literals (Lexer.tokens input0)) =
  type_and_literal <$> Lexer.tokens input0.
Proof.
  intros input0. apply (lexing_idempotent_without_strings input0).
  vm_compute. repeat (constructor; [split; discriminate|]). constructor.
Defined.

(** C8 as stated fails on string literals: the literal of a string token is
    the text between the quotes, so ['a'] lexes to the string token [a], and
    [a] lexes to the identifier [a]. *)
Lemma relexing_string_literal_changes_tokens :
  let single := "'a'"%string in
  let double := String "034" (String "a" (String "034" EmptyString)) in
  (∀ input0, input0 = single ∨ input0 = double →
     type_and_literal <$> Lexer.tokens input0 = [(TokenString, "a"%string)] ∧
     join_literals (Lexer.tokens input0) = "a"%string ∧
     type_and_literal <$> Lexer.tokens (join_literals (Lexer.tokens input0)) =
       [(TokenIdentifier, "a"%string)]) ∧
  type_and_literal <$> Lexer.tokens (join_literals (Lexer.tokens single)) ≠
  type_and_literal <$> Lexer.tokens single.
Proof.
  split; [|by vm_compute].
  intros input0 [-> | ->]; by vm_compute.
Qed.

(** * Further properties of the code *)

(** ** The in-memory graph: what every sequence of operations maintains *)

Section StoreFacts.
Implicit Types (g : Graph) (n e : Z) (l : list Z).

Lemma remove_first_notin e l : e ∉ l → remove_first e l = l.
Proof.
  induction l as [|y l IH]; cbn; [done|].
  intros [Hy Hl]%not_elem_of_cons. destruct (Z.eqb_spec y e); [done|]. by rewrite IH.
Qed.


Lemma NoDup_remove_first e l : NoDup l → NoDup (remove_first e l) ∧ e ∉ remove_first e l.
Proof.
  induction 1 as [|y l Hy Hl IH]; cbn.
  - split; [constructor|apply not_elem_of_nil].
  - destruct (Z.eqb_spec y e) as [->|Hne]; [done|].
    destruct IH as [IH1 IH2]. split.
    + constructor; [|done]. intros Hin. by apply elem_of_remove_first in Hin.
    + by apply not_elem_of_cons.
Qed.

(** [AddNode], when the counter does not wrap. *)
Lemma AddNode_eq g label props :
  0 ≤ nextNodeID g → nextNodeID g + 1 < 2 ^ 64 →
  let node := {| nID := nextNodeID g; nLabel := label; nProperties := props;
                 OutEdges := []; InEdges := [] |} in
  Graph.AddNode label props g =
  (Ok node,
   {| nodes := <[nextNodeID g := node]> (nodes g); edges := edges g;
      nextNodeID := nextNodeID g + 1; nextEdgeID := nextEdgeID g |}).
Proof.
  intros H0 Hb. unfold Graph.AddNode.
  by rewrite alloc_id, set_all_node_new, (wrap64_small (nextNodeID g + 1)) by lia.
Qed.

(** [AddEdge] between two stored nodes, when the counter does not wrap. *)
Lemma AddEdge_eq g s t label props :
  is_Some (nodes g !! s) → is_Some (nodes g !! t) →
  0 ≤ nextEdgeID g → nextEdgeID g + 1 < 2 ^ 64 →
  let eid := nextEdgeID g in
  let edge := {| eID := eid; Source := s; Target := t; eLabel := label;
                 eProperties := props |} in
  Graph.AddEdge s t label props g =
  (Ok edge,
   {| nodes := alter (Node.AddInEdge eid) t (alter (Node.AddOutEdge eid) s (nodes g));
      edges := <[eid := edge]> (edges g);
      nextNodeID := nextNodeID g; nextEdgeID := eid + 1 |}).
Proof.
  intros [ns Hs] [nt Ht] H0 Hb. unfold Graph.AddEdge, Graph.GetNode. rewrite Hs, Ht.
  by rewrite alloc_id, set_all_edge_new, (wrap64_small (nextEdgeID g + 1)) by lia.
Qed.

Lemma AddEdge_adjacency (ns : gmap Z Node) s t eid m nd' :
  alter (Node.AddInEdge eid) t (alter (Node.AddOutEdge eid) s ns) !! m = Some nd' →
  ∃ nd, ns !! m = Some nd ∧ nID nd' = nID nd ∧
    OutEdges nd' = OutEdges nd ++ (if decide (s = m) then [eid] else []) ∧
    InEdges nd' = InEdges nd ++ (if decide (t = m) then [eid] else []).
Proof.
  intros (n1 & (nd & -> & H0)%lookup_alter_inv & H1)%lookup_alter_inv.
  exists nd. split; [done|].
  destruct H0 as [[? ->]|[? ->]], H1 as [[? ->]|[? ->]]; cbn;
    repeat case_decide; try done; by rewrite ?app_nil_r.
Qed.

Lemma DeleteEdge_adjacency g e ed m nd' :
  edges g !! e = Some ed →
  nodes (snd (Graph.DeleteEdge e g)) !! m = Some nd' →
  ∃ nd, nodes g !! m = Some nd ∧ nID nd' = nID nd ∧
    OutEdges nd' = (if decide (Source ed = m) then remove_first e (OutEdges nd)
                    else OutEdges nd) ∧
    InEdges nd' = (if decide (Target ed = m) then remove_first e (InEdges nd)
                   else InEdges nd).
Proof.
  intros He. unfold Graph.DeleteEdge, Graph.GetEdge. rewrite He. cbn.
  intros (n1 & (nd & -> & H0)%lookup_alter_inv & H1)%lookup_alter_inv.
  exists nd. split; [done|].
  destruct H0 as [[? ->]|[? ->]], H1 as [[? ->]|[? ->]]; cbn;
    repeat case_decide; done.
Qed.

Lemma store_inv_NewGraph : store_inv Graph.NewGraph.
Proof.
  split; [apply graph_inv_NewGraph|].
  repeat split; intros *; cbn; rewrite ?lookup_empty; done.
Qed.

Lemma store_inv_AddNode g label props :
  store_inv g → nextNodeID g + 1 < 2 ^ 64 →
  store_inv (snd (Graph.AddNode label props g)).
Proof.
  intros (Hinv & [Hkn Hke] & Hd & Ha) Hb.
  split; [by apply graph_inv_AddNode|].
  pose proof (graph_inv_fresh_node g Hinv) as Hfresh.
  destruct Hinv as (_ & _ & _ & Hnn & _).
  rewrite AddNode_eq by lia. unfold keyed, no_dangling, adj_exact. cbn.
  split; [split|split].
  - intros n nd [[<- <-]|[? ?]]%lookup_insert_Some; [done|auto].
  - done.
  - intros e ed Hed. destruct (Hd e ed Hed) as [[a Ha1] [b Hb1]].
    split; (rewrite lookup_insert_ne; [eauto|]); congruence.
  - intros n nd [[<- <-]|[? Hnd]]%lookup_insert_Some; cbn.
    + split_and!; [constructor..|]. intros e [H|H]; by apply not_elem_of_nil in H.
    + by apply Ha in Hnd.
Qed.

Lemma store_inv_AddEdge g s t label props :
  store_inv g → nextEdgeID g + 1 < 2 ^ 64 →
  store_inv (snd (Graph.AddEdge s t label props g)).
Proof.
  intros (Hinv & [Hkn Hke] & Hd & Ha) Hb.
  split; [by apply graph_inv_AddEdge|].
  pose proof (graph_inv_fresh_edge g Hinv) as Hfresh.
  destruct Hinv as (_ & Hn & _ & _ & Hne).
  destruct (nodes g !! s) as [ns|] eqn:Es;
    [|unfold Graph.AddEdge, Graph.GetNode; by rewrite Es].
  destruct (nodes g !! t) as [nt|] eqn:Et;
    [|unfold Graph.AddEdge, Graph.GetNode; by rewrite Es, Et].
  rewrite AddEdge_eq by (rewrite ?Es, ?Et; eauto; lia). cbn.
  set (eid := nextEdgeID g) in *. unfold keyed, no_dangling, adj_exact. cbn.
  split; [split|split].
  - intros n nd' (nd & Hnd & -> & _)%AddEdge_adjacency. auto.
  - intros e ed [[<- <-]|[? ?]]%lookup_insert_Some; [done|auto].
  - assert (Hdom : ∀ m, is_Some (nodes g !! m) →
               is_Some (alter (Node.AddInEdge eid) t
                          (alter (Node.AddOutEdge eid) s (nodes g)) !! m)).
    { intros m [nd Hm]. rewrite !lookup_alter. repeat case_decide; subst;
        rewrite ?Hm; cbn; rewrite ?Hm; cbn; eauto. }
    intros e ed [[<- <-]|[? Hed]]%lookup_insert_Some; cbn.
    + split; apply Hdom; eauto.
    + destruct (Hd e ed Hed). split; by apply Hdom.
  - intros n nd' (nd & Hnd & _ & -> & ->)%AddEdge_adjacency.
    destruct (Ha n nd Hnd) as (Ho & Hi & Hlive).
    destruct (Hn n nd Hnd) as [_ Hlt].
    assert (eid ∉ OutEdges nd) by (intros Hin; specialize (Hlt eid (or_introl Hin)); lia).
    assert (eid ∉ InEdges nd) by (intros Hin; specialize (Hlt eid (or_intror Hin)); lia).
    split_and!.
    + case_decide; rewrite ?app_nil_r; [|done].
      apply NoDup_app. split_and!; [done| |apply NoDup_singleton].
      intros x Hx ->%list_elem_of_singleton. done.
    + case_decide; rewrite ?app_nil_r; [|done].
      apply NoDup_app. split_and!; [done| |apply NoDup_singleton].
      intros x Hx ->%list_elem_of_singleton. done.
    + intros e. rewrite !elem_of_app. intros Hin.
      destruct (decide (e = eid)) as [->|Hne'].
      * rewrite lookup_insert_eq. eauto.
      * rewrite lookup_insert_ne by done. apply Hlive.
        destruct Hin as [[?|Hin]|[?|Hin]]; auto;
          case_decide; (apply list_elem_of_singleton in Hin || apply elem_of_nil in Hin); done.
Qed.

Lemma is_Some_alter (f : Node → Node) (ns : gmap Z Node) k m :
  is_Some (alter f k ns !! m) ↔ is_Some (ns !! m).
Proof.
  rewrite lookup_alter. case_decide; [subst|done].
  destruct (ns !! m); cbn; split; intros [? ?]; eauto; done.
Qed.

Lemma DeleteEdge_missing g e : edges g !! e = None → Graph.DeleteEdge e g = (Some (ErrEdgeNotFound e), g).
Proof. intros H. unfold Graph.DeleteEdge, Graph.GetEdge. by rewrite H. Qed.

Lemma DeleteEdge_domain g e m :
  is_Some (nodes (snd (Graph.DeleteEdge e g)) !! m) ↔ is_Some (nodes g !! m).
Proof.
  unfold Graph.DeleteEdge, Graph.GetEdge. destruct (edges g !! e); cbn; [|done].
  by rewrite !is_Some_alter.
Qed.

Lemma store_inv_DeleteEdge g e : store_inv g → store_inv (snd (Graph.DeleteEdge e g)).
Proof.
  intros (Hinv & [Hkn Hke] & Hd & Ha).
  destruct (edges g !! e) as [ed|] eqn:He; [|by rewrite DeleteEdge_missing].
  split; [by apply graph_inv_DeleteEdge|].
  destruct Hinv as ([_ Hs] & _).
  unfold keyed, no_dangling, adj_exact. rewrite DeleteEdge_edges.
  split; [split|split].
  - intros n nd' (nd & Hnd & -> & _)%(DeleteEdge_adjacency _ _ ed); auto.
  - intros x ed' [_ ?]%lookup_delete_Some. auto.
  - intros x ed' [_ Hx]%lookup_delete_Some. rewrite !DeleteEdge_domain. by apply (Hd x).
  - intros n nd' (nd & Hnd & _ & -> & ->)%(DeleteEdge_adjacency _ _ ed); [|done].
    destruct (Ha n nd Hnd) as (Ho & Hi & Hlive).
    destruct (NoDup_remove_first e _ Ho) as [Ho1 Ho2].
    destruct (NoDup_remove_first e _ Hi) as [Hi1 Hi2].
    destruct (Hs n nd e ed Hnd He) as [Hso Hsi].
    split_and!; [by case_decide..|].
    intros x Hin.
    assert (x ≠ e ∧ (x ∈ OutEdges nd ∨ x ∈ InEdges nd)) as [Hne Hx].
    { destruct Hin as [Hin|Hin]; case_decide; split;
        try (intros ->; by auto); eauto using elem_of_remove_first. }
    rewrite lookup_delete_ne by done. auto.
Qed.

Lemma store_inv_delete_edges ids g : store_inv g → store_inv (Graph.delete_edges ids g).
Proof.
  unfold Graph.delete_edges. revert g.
  induction ids as [|i ids IH]; intros g H; cbn; [done|].
  apply IH, store_inv_DeleteEdge, H.
Qed.

Lemma delete_edges_domain ids g m :
  is_Some (nodes (Graph.delete_edges ids g) !! m) ↔ is_Some (nodes g !! m).
Proof.
  unfold Graph.delete_edges. revert g.
  induction ids as [|i ids IH]; intros g; cbn; [done|].
  by rewrite IH, DeleteEdge_domain.
Qed.

Lemma DeleteNode_missing g n : nodes g !! n = None → Graph.DeleteNode n g = (Some (ErrNodeNotFound n), g).
Proof. intros H. unfold Graph.DeleteNode, Graph.GetNode. by rewrite H. Qed.

Lemma store_inv_DeleteNode g n : store_inv g → store_inv (snd (Graph.DeleteNode n g)).
Proof.
  intros Hinv.
  destruct (nodes g !! n) as [nd|] eqn:Hn; [|by rewrite DeleteNode_missing].
  split; [apply graph_inv_DeleteNode, Hinv|].
  pose proof Hinv as (([Hc _] & _) & _).
  unfold Graph.DeleteNode, Graph.GetNode. rewrite Hn. cbn.
  pose proof (store_inv_delete_edges (InEdges nd) _
                (store_inv_delete_edges (OutEdges nd) _ Hinv)) as Hinv'.
  assert (Hgone : ∀ e ed,
            edges (Graph.delete_edges (InEdges nd) (Graph.delete_edges (OutEdges nd) g)) !! e
              = Some ed → Source ed ≠ n ∧ Target ed ≠ n).
  { intros e ed. rewrite !delete_edges_edges. repeat case_decide; try done.
    intros He. destruct (Hc e ed He) as [Ho Hi].
    split; intros <-; [specialize (Ho _ Hn)|specialize (Hi _ Hn)]; done. }
  set (g' := Graph.delete_edges (InEdges nd) (Graph.delete_edges (OutEdges nd) g)) in *.
  destruct Hinv' as (_ & [Hkn Hke] & Hd & Ha).
  unfold keyed, no_dangling, adj_exact. cbn.
  split; [split|split].
  - intros m nd' [_ ?]%lookup_delete_Some. auto.
  - done.
  - intros e ed He. destruct (Hgone e ed He), (Hd e ed He).
    by rewrite !lookup_delete_ne.
  - intros m nd' [_ ?]%lookup_delete_Some. by apply (Ha m).
Qed.

Lemma apply_op_counters op g :
  0 ≤ nextNodeID g < 2 ^ 64 → 0 ≤ nextEdgeID g < 2 ^ 64 →
  nextNodeID g + 1 < 2 ^ 64 → nextEdgeID g + 1 < 2 ^ 64 →
  nextNodeID (snd (apply_op op g)) =
    (if is_add_node op then nextNodeID g + 1 else nextNodeID g) ∧
  nextEdgeID g ≤ nextEdgeID (snd (apply_op op g)) ≤ nextEdgeID g + 1.
Proof.
  intros Hn He Hbn Hbe.
  destruct op as [label props|s t label props|id|id]; cbn [apply_op is_add_node].
  - rewrite AddNode_eq by lia. cbn. lia.
  - unfold Graph.AddEdge.
    destruct (Graph.GetNode s g); cbn; [|lia].
    destruct (Graph.GetNode t g); cbn; [|lia].
    rewrite wrap64_small by lia. lia.
  - unfold Graph.DeleteNode. destruct (Graph.GetNode id g) as [nd|]; cbn; [|lia].
    destruct (delete_edges_counters (InEdges nd) (Graph.delete_edges (OutEdges nd) g))
      as [-> ->].
    destruct (delete_edges_counters (OutEdges nd) g) as [-> ->]. lia.
  - destruct (DeleteEdge_counters id g) as [-> ->]. lia.
Qed.

Lemma store_inv_apply_op op g :
  store_inv g → nextNodeID g + 1 < 2 ^ 64 → nextEdgeID g + 1 < 2 ^ 64 →
  store_inv (snd (apply_op op g)).
Proof.
  intros Hinv Hbn Hbe. destruct op as [label props|s t label props|id|id]; cbn [apply_op].
  - pose proof (store_inv_AddNode g label props Hinv Hbn) as H.
    by destruct (Graph.AddNode label props g).
  - pose proof (store_inv_AddEdge g s t label props Hinv Hbe) as H.
    by destruct (Graph.AddEdge s t label props g).
  - by apply store_inv_DeleteNode.
  - by apply store_inv_DeleteEdge.
Qed.

Lemma store_inv_run_ops ops g :
  store_inv g →
  nextNodeID g + Z.of_nat (length ops) < 2 ^ 64 →
  nextEdgeID g + Z.of_nat (length ops) < 2 ^ 64 →
  store_inv (run_ops ops g) ∧
  nextNodeID (run_ops ops g) = nextNodeID g + Z.of_nat (length (List.filter is_add_node ops)).
Proof.
  unfold run_ops. revert g. induction ops as [|op ops IH]; intros g Hinv Hn He.
  { cbn. split; [done|lia]. }
  cbn [fold_left]. cbn [length] in Hn, He.
  pose proof Hinv as ((_ & _ & _ & Hnn & Hne) & _).
  destruct (apply_op_counters op g) as [Hcn Hce]; [lia..|].
  destruct (IH (snd (apply_op op g))) as [IH1 IH2];
    [apply store_inv_apply_op; [done|lia..]| |lia|].
  { rewrite Hcn. destruct (is_add_node op); lia. }
  split; [done|]. rewrite IH2, Hcn. cbn [List.filter].
  destruct (is_add_node op); cbn [length]; lia.
Qed.

Lemma sample_graph_store_inv : store_inv sample_graph.
Proof.
  unfold sample_graph.
  apply store_inv_AddEdge; [|by vm_compute].
  apply store_inv_AddNode; [|by vm_compute].
  apply store_inv_AddNode; [|by vm_compute].
  apply store_inv_NewGraph.
Qed.

End StoreFacts.

(** X1.  Whatever the sequence of [AddNode], [AddEdge], [DeleteNode] and
    [DeleteEdge] calls, failing ones included, the graph stays consistent as
    long as the ID counters do not wrap: nodes and edges are stored under
    their own IDs, both endpoints of every stored edge are stored nodes,
    every adjacency list names stored edges only, each once, and an edge is
    in the [OutEdges] of its source and the [InEdges] of its target and of
    no other node. *)
Theorem run_ops_store_inv (ops : list GraphOp) (g : Graph) :
  store_inv g →
  nextNodeID g + Z.of_nat (length ops) < 2 ^ 64 →
  nextEdgeID g + Z.of_nat (length ops) < 2 ^ 64 →
  store_inv (run_ops ops g).
Proof. intros. by apply store_inv_run_ops. Qed.

Lemma run_ops_store_inv_witness :
  store_inv
    (run_ops [GAddNode "Person" ∅; GAddNode "Person" ∅; GAddEdge 1 2 "KNOWS" ∅;
              GAddEdge 1 7 "KNOWS" ∅; GDeleteNode 2; GDeleteEdge 1]
       Graph.NewGraph).
Proof.
  apply run_ops_store_inv; [apply store_inv_NewGraph|by vm_compute..].
Defined.

(** X2.  [AddNode] then [GetNode]: in a graph that satisfies the invariant
    and whose node counter does not wrap, [AddNode] succeeds, hands out the
    counter's value as the ID, and the node is retrievable under that ID
    with the label and the properties given and with no edges; every other
    ID resolves as before, the node count grows by one and the edges are
    untouched. *)
Theorem AddNode_then_GetNode (g : Graph) (label : string) (props : Properties) :
  graph_inv g → nextNodeID g + 1 < 2 ^ 64 →
  ∃ node g',
    Graph.AddNode label props g = (Ok node, g') ∧
    nID node = nextNodeID g ∧
    Graph.GetNode (nID node) g' = Ok node ∧
    nLabel node = label ∧
    (∀ key, Node.GetProperty node key = props !! key) ∧
    OutEdges node = [] ∧ InEdges node = [] ∧
    (∀ m, m ≠ nID node → Graph.GetNode m g' = Graph.GetNode m g) ∧
    Graph.NodeCount g' = S (Graph.NodeCount g) ∧
    edges g' = edges g.
Proof.
  intros Hinv Hb. pose proof (graph_inv_fresh_node g Hinv) as Hfresh.
  destruct Hinv as (_ & _ & _ & Hnn & _).
  rewrite AddNode_eq by lia. eexists _, _. split; [reflexivity|]. cbn.
  unfold Graph.GetNode, Graph.NodeCount; cbn.
  rewrite lookup_insert_eq. split_and!; try done.
  - intros m Hm. by rewrite lookup_insert_ne.
  - by rewrite map_size_insert_None.
Qed.

Lemma AddNode_then_GetNode_witness :
  ∃ node g',
    Graph.AddNode "City" {[ "name"%string := VString "Oslo" ]} sample_graph = (Ok node, g') ∧
    nID node = nextNodeID sample_graph ∧
    Graph.GetNode (nID node) g' = Ok node ∧
    nLabel node = "City"%string ∧
    (∀ key, Node.GetProperty node key =
            ({[ "name"%string := VString "Oslo" ]} : Properties) !! key) ∧
    OutEdges node = [] ∧ InEdges node = [] ∧
    (∀ m, m ≠ nID node → Graph.GetNode m g' = Graph.GetNode m sample_graph) ∧
    Graph.NodeCount g' = S (Graph.NodeCount sample_graph) ∧
    edges g' = edges sample_graph.
Proof.
  apply (AddNode_then_GetNode sample_graph); [apply sample_graph_inv|by vm_compute].
Defined.

(** X3.  A call fails exactly when an ID it names is missing, and a call
    that fails leaves the graph as it was, counters included.  [AddNode]
    never fails.  [AddEdge] fails when the source is missing (checked
    first) or the target is, and succeeds when both are stored.
    [DeleteNode] ([DeleteEdge]) fails when the node (edge) is missing and
    succeeds when it is stored. *)
Theorem failed_op_leaves_graph (op : GraphOp) (g : Graph) :
  (∀ g' err, apply_op op g = (Some err, g') → g' = g) ∧
  match op with
  | GAddNode _ _ => fst (apply_op op g) = None
  | GAddEdge s t _ _ =>
    match nodes g !! s, nodes g !! t with
    | None, _ => fst (apply_op op g) = Some (ErrWrap "source node" (ErrNodeNotFound s))
    | Some _, None =>
      fst (apply_op op g) = Some (ErrWrap "target node" (ErrNodeNotFound t))
    | Some _, Some _ => fst (apply_op op g) = None
    end
  | GDeleteNode id =>
    match nodes g !! id with
    | None => fst (apply_op op g) = Some (ErrNodeNotFound id)
    | Some _ => fst (apply_op op g) = None
    end
  | GDeleteEdge id =>
    match edges g !! id with
    | None => fst (apply_op op g) = Some (ErrEdgeNotFound id)
    | Some _ => fst (apply_op op g) = None
    end
  end.
Proof.
  destruct op as [label props|s t label props|id|id]; cbn [apply_op].
  - unfold Graph.AddNode. cbn. done.
  - unfold Graph.AddEdge, Graph.GetNode.
    destruct (nodes g !! s) as [ns|] eqn:Es; [|split; [by intros g' err [= _ <-]|done]].
    destruct (nodes g !! t) as [nt|] eqn:Et; [done|].
    split; [by intros g' err [= _ <-]|done].
  - unfold Graph.DeleteNode, Graph.GetNode.
    destruct (nodes g !! id) eqn:E; [done|]. split; [by intros g' err [= _ <-]|done].
  - unfold Graph.DeleteEdge, Graph.GetEdge.
    destruct (edges g !! id) eqn:E; [done|]. split; [by intros g' err [= _ <-]|done].
Qed.

Lemma failed_op_leaves_graph_witness :
  apply_op (GAddEdge 1 9 "KNOWS" ∅) sample_graph =
    (Some (ErrWrap "target node" (ErrNodeNotFound 9)), sample_graph) ∧
  fst (apply_op (GAddEdge 1 2 "KNOWS" ∅) sample_graph) = None.
Proof.
  split.
  - destruct (failed_op_leaves_graph (GAddEdge 1 9 "KNOWS" ∅) sample_graph) as [H1 H2].
    destruct (nodes sample_graph !! 1) eqn:E1; [|by vm_compute in E1].
    destruct (nodes sample_graph !! 9) eqn:E9; [by vm_compute in E9|].
    destruct (apply_op (GAddEdge 1 9 "KNOWS" ∅) sample_graph) as [o g'] eqn:E.
    cbn [fst] in H2. subst o. by rewrite (H1 g' _ eq_refl).
  - destruct (failed_op_leaves_graph (GAddEdge 1 2 "KNOWS" ∅) sample_graph) as [_ H2].
    destruct (nodes sample_graph !! 1) eqn:E1; [|by vm_compute in E1].
    destruct (nodes sample_graph !! 2) eqn:E2; [|by vm_compute in E2].
    exact H2.
Defined.

Section NeighborFacts.
Implicit Types (g : Graph) (n e : Z).

Lemma neighbor_of_Some pick g e nb :
  Graph.neighbor_of pick g e = Some nb ↔
  ∃ ed, edges g !! e = Some ed ∧ nodes g !! pick ed = Some nb.
Proof.
  unfold Graph.neighbor_of, Graph.GetEdge, Graph.GetNode.
  destruct (edges g !! e) as [ed|]; [|naive_solver].
  destruct (nodes g !! pick ed) as [nd|] eqn:E; naive_solver.
Qed.

Lemma length_omap_total {A B} (f : A → option B) (l : list A) :
  (∀ x, x ∈ l → is_Some (f x)) → length (omap f l) = length l.
Proof.
  induction l as [|x l IH]; intros H; [done|]. cbn.
  destruct (H x) as [y Hy]; [apply list_elem_of_here|]. rewrite Hy. cbn. f_equal.
  apply IH. intros z Hz. apply H. by apply list_elem_of_further.
Qed.
End NeighborFacts.

(** X4.  [GetNeighbors] on a missing node reports not-found.  On a stored
    node of a consistent graph it returns the target nodes of the edges
    whose source is the node, one entry per edge (parallel edges give
    repeated neighbours, a self-loop gives the node itself). *)
Theorem GetNeighbors_spec (g : Graph) (n : Z) :
  store_inv g →
  match nodes g !! n with
  | None => Graph.GetNeighbors n g = Err (ErrNodeNotFound n)
  | Some nd =>
    ∃ l, Graph.GetNeighbors n g = Ok l ∧
      length l = length (OutEdges nd) ∧
      ∀ nb, nb ∈ l ↔
        ∃ e ed, edges g !! e = Some ed ∧ Source ed = n ∧
                nodes g !! Target ed = Some nb
  end.
Proof.
  intros (([Hc Hs] & _) & _ & Hd & Ha).
  unfold Graph.GetNeighbors, Graph.GetNode.
  destruct (nodes g !! n) as [nd|] eqn:Hn; [|done].
  eexists. split; [reflexivity|]. split.
  - apply length_omap_total. intros e He.
    destruct (Ha n nd Hn) as (_ & _ & Hlive).
    destruct (Hlive e (or_introl He)) as [ed Hed].
    destruct (Hd e ed Hed) as [_ [nb Hnb]].
    exists nb. apply neighbor_of_Some. eauto.
  - intros nb. rewrite list_elem_of_omap. split.
    + intros (e & He & (ed & Hed & Hnb)%neighbor_of_Some).
      exists e, ed. split_and!; [done| |done]. by apply (Hs n nd e ed).
    + intros (e & ed & Hed & <- & Hnb). exists e. split.
      * by apply (Hc e ed Hed).
      * apply neighbor_of_Some. eauto.
Qed.

Lemma GetNeighbors_spec_witness :
  ∃ l, Graph.GetNeighbors 1 sample_graph = Ok l ∧
    length l = 1%nat ∧
    ∀ nb, nb ∈ l ↔
      ∃ e ed, edges sample_graph !! e = Some ed ∧ Source ed = 1 ∧
              nodes sample_graph !! Target ed = Some nb.
Proof.
  pose proof (GetNeighbors_spec sample_graph 1 sample_graph_store_inv) as H.
  vm_compute in H. vm_compute. exact H.
Defined.

(** X5.  [GetIncomingNeighbors] on a missing node reports not-found.  On a
    stored node of a consistent graph it returns the source nodes of the
    edges whose target is the node, one entry per edge. *)
Theorem GetIncomingNeighbors_spec (g : Graph) (n : Z) :
  store_inv g →
  match nodes g !! n with
  | None => Graph.GetIncomingNeighbors n g = Err (ErrNodeNotFound n)
  | Some nd =>
    ∃ l, Graph.GetIncomingNeighbors n g = Ok l ∧
      length l = length (InEdges nd) ∧
      ∀ nb, nb ∈ l ↔
        ∃ e ed, edges g !! e = Some ed ∧ Target ed = n ∧
                nodes g !! Source ed = Some nb
  end.
Proof.
  intros (([Hc Hs] & _) & _ & Hd & Ha).
  unfold Graph.GetIncomingNeighbors, Graph.GetNode.
  destruct (nodes g !! n) as [nd|] eqn:Hn; [|done].
  eexists. split; [reflexivity|]. split.
  - apply length_omap_total. intros e He.
    destruct (Ha n nd Hn) as (_ & _ & Hlive).
    destruct (Hlive e (or_intror He)) as [ed Hed].
    destruct (Hd e ed Hed) as [[nb Hnb] _].
    exists nb. apply neighbor_of_Some. eauto.
  - intros nb. rewrite list_elem_of_omap. split.
    + intros (e & He & (ed & Hed & Hnb)%neighbor_of_Some).
      exists e, ed. split_and!; [done| |done]. by apply (Hs n nd e ed).
    + intros (e & ed & Hed & <- & Hnb). exists e. split.
      * by apply (Hc e ed Hed).
      * apply neighbor_of_Some. eauto.
Qed.

Lemma GetIncomingNeighbors_spec_witness :
  ∃ l, Graph.GetIncomingNeighbors 2 sample_graph = Ok l ∧
    length l = 1%nat ∧
    ∀ nb, nb ∈ l ↔
      ∃ e ed, edges sample_graph !! e = Some ed ∧ Target ed = 2 ∧
              nodes sample_graph !! Source ed = Some nb.
Proof.
  pose proof (GetIncomingNeighbors_spec sample_graph 2 sample_graph_store_inv) as H.
  vm_compute in H. vm_compute. exact H.
Defined.



(** X7.  Node IDs are handed out in sequence and never again: after any
    sequence of calls on a new graph, deletions included, the next
    [AddNode] returns the ID one more than the number of [AddNode] calls
    made so far, and no stored node has that ID. *)
Theorem AddNode_ids_sequential (ops : list GraphOp) (label : string)
    (props : Properties) :
  Z.of_nat (length ops) < 2 ^ 64 - 2 →
  ∃ node g',
    Graph.AddNode label props (run_ops ops Graph.NewGraph) = (Ok node, g') ∧
    nID node = 1 + Z.of_nat (length (List.filter is_add_node ops)) ∧
    nodes (run_ops ops Graph.NewGraph) !! nID node = None.
Proof.
  intros Hlen.
  destruct (store_inv_run_ops ops Graph.NewGraph store_inv_NewGraph) as [Hinv Hid];
    [cbn; lia..|].
  cbn [nextNodeID Graph.NewGraph] in Hid.
  pose proof (filter_length is_add_node ops) as Hf.
  destruct Hinv as (Hinv & _). pose proof (graph_inv_fresh_node _ Hinv) as Hfresh.
  destruct Hinv as (_ & _ & _ & Hnn & _).
  rewrite AddNode_eq by lia. eexists _, _. split; [reflexivity|]. cbn [nID].
  by rewrite <-Hid.
Qed.

Lemma AddNode_ids_sequential_witness :
  let ops := [GAddNode "A" ∅; GAddNode "B" ∅; GDeleteNode 2; GDeleteNode 1] in
  ∃ node g',
    Graph.AddNode "C" ∅ (run_ops ops Graph.NewGraph) = (Ok node, g') ∧
    nID node = 1 + Z.of_nat (length (List.filter is_add_node ops)) ∧
    nodes (run_ops ops Graph.NewGraph) !! nID node = None.
Proof.
  intros ops. apply (AddNode_ids_sequential ops "C" ∅). by vm_compute.
Defined.

(** ** The write-ahead log *)

Section AppendFacts.
Implicit Types (w : WAL) (l : list LogEntry).

Lemma Append_ok opType data w :
  props_encodable data = true → closed w = false →
  0 ≤ nextIndex w → nextIndex w + 1 < 2 ^ 64 →
  WAL.Append AppendNoFault opType data w =
  (Ok (nextIndex w),
   {| log := log w ++ [written (nextIndex w) (opType, data)];
      nextIndex := nextIndex w + 1; closed := false |}).
Proof.
  intros He Hc H0 Hb. unfold WAL.Append. rewrite He, Hc. cbn.
  by rewrite wrap64_small by lia.
Qed.

Lemma append_all_spec records w :
  Forall (λ r, props_encodable r.2 = true) records → closed w = false →
  0 ≤ nextIndex w → nextIndex w + Z.of_nat (length records) < 2 ^ 64 →
  ∃ w', append_all records w = Some w' ∧
    log w' = log w ++ imap (λ i, written (nextIndex w + Z.of_nat i)) records ∧
    nextIndex w' = nextIndex w + Z.of_nat (length records) ∧
    closed w' = false.
Proof.
  intros Henc. revert w. induction Henc as [|[opType data] records He Henc IH];
    intros w Hc H0 Hb.
  - exists w. cbn. rewrite app_nil_r. split_and!; [done..|lia|done].
  - cbn [append_all]. cbn [length] in Hb. rewrite Append_ok by (done || lia).
    edestruct IH as (w' & -> & Hl & Hn & Hc'); [..|exists w'; split_and!; try done].
    + done.
    + cbn. lia.
    + cbn. lia.
    + rewrite Hl. cbn [log nextIndex imap]. rewrite <-app_assoc. cbn.
      rewrite Z.add_0_r. do 2 f_equal. apply imap_ext. intros i r _. cbn.
      f_equal. lia.
    + rewrite Hn. cbn. lia.
Qed.

Lemma lastIndex_fold l z :
  (∀ e, e ∈ l → Index e ≤ fold_left (fun lastIndex entry =>
               if Z.ltb lastIndex (Index entry) then Index entry else lastIndex) l z) ∧
  z ≤ fold_left (fun lastIndex entry =>
               if Z.ltb lastIndex (Index entry) then Index entry else lastIndex) l z ∧
  (fold_left (fun lastIndex entry =>
               if Z.ltb lastIndex (Index entry) then Index entry else lastIndex) l z = z ∨
   ∃ e, e ∈ l ∧ fold_left (fun lastIndex entry =>
               if Z.ltb lastIndex (Index entry) then Index entry else lastIndex) l z = Index e).
Proof.
  revert z. induction l as [|x l IH]; intros z; cbn.
  - split_and!; [by intros e ?%elem_of_nil|lia|by left].
  - destruct (IH (if Z.ltb z (Index x) then Index x else z)) as (H1 & H2 & H3).
    destruct (Z.ltb_spec z (Index x)).
    + split_and!.
      * intros e [->|He]%elem_of_cons; [lia|auto].
      * lia.
      * right. destruct H3 as [->|(e & He & ->)].
        -- exists x. split; [apply list_elem_of_here|done].
        -- exists e. split; [by apply list_elem_of_further|done].
    + split_and!.
      * intros e [->|He]%elem_of_cons; [lia|auto].
      * lia.
      * destruct H3 as [->|(e & He & ->)]; [by left|right].
        exists e. split; [by apply list_elem_of_further|done].
Qed.
End AppendFacts.

(** X8.  Records appended to a new log are numbered from 1 in the order of
    the calls: when every record is encodable, the appends succeed, the log
    holds the records in order under the indexes 1, 2, ..., each as JSON
    reads it back ([written]: numbers as doubles, a nil [graph.Properties]
    as nil, a byte that is not part of well-formed UTF-8 as U+FFFD), the
    indexes are contiguous, and [GetCurrentIndex] is the number of
    records. *)
Theorem appends_number_records (records : list (string * gmap string Value)) :
  Forall (λ r, props_encodable r.2 = true) records →
  Z.of_nat (length records) < 2 ^ 64 - 1 →
  ∃ w, append_all records (WAL.NewWAL []) = Some w ∧
    log w = imap (λ i, written (Z.of_nat i + 1)) records ∧
    contiguous (log w) ∧
    WAL.GetCurrentIndex w = Z.of_nat (length records).
Proof.
  intros Henc Hlen.
  assert (Hni : nextIndex (WAL.NewWAL []) = 1) by (by vm_compute).
  destruct (append_all_spec records (WAL.NewWAL []) Henc) as (w & Hw & Hl & Hn & _);
    [done|rewrite Hni; lia..|].
  rewrite Hni in Hl, Hn. cbn [log WAL.NewWAL app] in Hl.
  exists w. split; [done|].
  assert (Hl' : log w = imap (λ i, written (Z.of_nat i + 1)) records).
  { rewrite Hl. apply imap_ext. intros i r _. f_equal. lia. }
  split_and!; [done| |].
  - rewrite Hl'. intros i e1 e2. rewrite !list_lookup_imap.
    destruct (records !! i), (records !! S i); cbn; try done.
    intros [= <-] [= <-]. cbn. lia.
  - unfold WAL.GetCurrentIndex. rewrite Hn. clear -Hlen. rewrite wrap64_small; lia.
Qed.

Lemma appends_number_records_witness :
  let records :=
    [(OpAddNode,
      (<["node_id" := VUint64 1]>
         (<["label" := VString "Person"]>
            (<["properties" := props_value None]> ∅)) : gmap string Value));
     (OpDeleteNode, {[ "node_id"%string := VUint64 1 ]})] in
  ∃ w, append_all records (WAL.NewWAL []) = Some w ∧
    log w = imap (λ i, written (Z.of_nat i + 1)) records ∧
    contiguous (log w) ∧
    WAL.GetCurrentIndex w = Z.of_nat (length records) ∧
    log w !! 0%nat =
      Some {| Index := 1; OpType := OpAddNode;
              Data := <["node_id" := VFloat64 (float64_of_Z 1)]>
                        (<["label" := VString "Person"]>
                           (<["properties" := VNil]> ∅)) |}.
Proof.
  intros records.
  destruct (appends_number_records records) as (w & H1 & H2 & H3 & H4).
  - repeat (constructor; [by vm_compute|]). constructor.
  - by vm_compute.
  - exists w. split_and!; [exact H1|exact H2|exact H3|exact H4|].
    rewrite H2. by vm_compute.
Defined.

(** X9.  A reopened log continues after the largest index in the file:
    [NewWAL] keeps the entries it finds, is open, and sets the next index
    above the index of every entry; it is 1 on an empty file and otherwise
    one more than the index of some entry. *)
Theorem NewWAL_continues_after_largest_index (entries : list LogEntry) :
  (∀ e, e ∈ entries → 0 ≤ Index e < 2 ^ 64 - 1) →
  let w := WAL.NewWAL entries in
  log w = entries ∧ closed w = false ∧
  (∀ e, e ∈ entries → Index e < nextIndex w) ∧
  (entries = [] → nextIndex w = 1) ∧
  (entries ≠ [] → ∃ e, e ∈ entries ∧ nextIndex w = Index e + 1).
Proof.
  intros Hrange. cbn. split; [done|]. split; [done|].
  destruct (lastIndex_fold entries 0) as (H1 & H2 & H3).
  fold (WAL.lastIndex entries) in H1, H2, H3.
  assert (Hb : 0 ≤ WAL.lastIndex entries < 2 ^ 64 - 1).
  { destruct H3 as [->|(e & He & ->)]; [lia|auto]. }
  rewrite wrap64_small by lia. split_and!.
  - intros e He. specialize (H1 e He). lia.
  - by intros ->.
  - intros Hne. destruct H3 as [H3|(e & He & H3)].
    + destruct entries as [|e entries]; [done|]. exists e.
      split; [apply list_elem_of_here|].
      assert (Index e ≤ 0) by (rewrite <-H3; apply H1, list_elem_of_here).
      specialize (Hrange e (list_elem_of_here _ _)). lia.
    + exists e. split; [done|lia].
Qed.

Lemma NewWAL_continues_after_largest_index_witness :
  let w := WAL.NewWAL (log sample_wal) in
  log w = log sample_wal ∧ closed w = false ∧
  (∀ e, e ∈ log sample_wal → Index e < nextIndex w) ∧
  (log sample_wal = [] → nextIndex w = 1) ∧
  (log sample_wal ≠ [] → ∃ e, e ∈ log sample_wal ∧ nextIndex w = Index e + 1).
Proof.
  apply (NewWAL_continues_after_largest_index (log sample_wal)).
  intros e He. cbn in He. 
  repeat (apply elem_of_cons in He as [->|He]; [by vm_compute|]).
  by apply elem_of_nil in He.
Defined.

Section ReplayFacts.
Context {St : Type}.
Implicit Types (handler : LogEntry → St → option error * St) (l : list LogEntry).

Lemma replay_loop_app handler l1 l2 s :
  WAL.replay_loop handler (l1 ++ l2) s =
  match WAL.replay_loop handler l1 s with
  | (None, s1) => WAL.replay_loop handler l2 s1
  | (Some err, s1) => (Some err, s1)
  end.
Proof.
  revert s. induction l1 as [|e l1 IH]; intros s; cbn; [done|].
  destruct (handler e s) as [[err|] s']; [done|apply IH].
Qed.
End ReplayFacts.

(** X10.  [Replay] passes the entries to the handler in the order of the
    log and stops at the first entry the handler rejects: the entries after
    it are not passed on, the state is the one the handler left, and the
    error returned wraps the handler's error. *)
Theorem Replay_stops_at_first_error {St : Type}
    (handler : LogEntry → St → option error * St) (w : WAL)
    (before after : list LogEntry) (entry : LogEntry) (s s1 s2 : St) (err : error) :
  log w = before ++ entry :: after →
  WAL.replay_loop handler before s = (None, s1) →
  handler entry s1 = (Some err, s2) →
  WAL.Replay handler w s = (Some (ErrWrap "handler failed for entry" err), s2).
Proof.
  intros Hlog Hbefore Hentry. unfold WAL.Replay.
  rewrite Hlog, replay_loop_app, Hbefore. cbn. by rewrite Hentry.
Qed.

Lemma Replay_stops_at_first_error_witness :
  let handler := λ (e : LogEntry) (n : Z),
    if Z.eqb (Index e) 2 then (Some (ErrMsg "bad"), n) else (None, n + Index e) in
  WAL.Replay handler sample_wal 0 = (Some (ErrWrap "handler failed for entry" (ErrMsg "bad")), 1).
Proof.
  intros handler.
  apply (Replay_stops_at_first_error handler sample_wal [sample_entry 1] [sample_entry 3]
           (sample_entry 2) 0 1 1 (ErrMsg "bad")); reflexivity.
Defined.

(** X11.  Once the log is closed, every operation that writes fails and
    changes nothing: [Append] returns an error without adding a record or
    advancing the index, [Truncate] returns an error and keeps every entry,
    and a second [Close] returns an error. *)
Theorem closed_WAL_rejects_writes (w : WAL) :
  closed w = true →
  (∀ fault opType data, ∃ err, WAL.Append fault opType data w = (Err err, w)) ∧
  (∀ fault beforeIndex, ∃ err, WAL.Truncate fault beforeIndex w = (Some err, w)) ∧
  (∃ err, WAL.Close w = (Some err, w)) ∧
  (∀ w', WAL.Close w' = (None, w) → closed w' = false ∧ log w' = log w ∧
          nextIndex w' = nextIndex w).
Proof.
  intros Hc. split_and!.
  - intros fault opType data. unfold WAL.Append. rewrite Hc.
    destruct (props_encodable data); cbn; eauto.
  - intros fault I. unfold WAL.Truncate. rewrite Hc. destruct fault; eauto.
  - unfold WAL.Close. rewrite Hc. eauto.
  - intros w'. unfold WAL.Close. destruct (closed w') eqn:E; [done|].
    by intros [= <-].
Qed.

Lemma closed_WAL_rejects_writes_witness :
  let w := snd (WAL.Close sample_wal) in
  (∀ fault opType data, ∃ err, WAL.Append fault opType data w = (Err err, w)) ∧
  (∀ fault beforeIndex, ∃ err, WAL.Truncate fault beforeIndex w = (Some err, w)) ∧
  (∃ err, WAL.Close w = (Some err, w)) ∧
  (∀ w', WAL.Close w' = (None, w) → closed w' = false ∧ log w' = log w ∧
          nextIndex w' = nextIndex w).
Proof.
  intros w. apply (closed_WAL_rejects_writes w). reflexivity.
Defined.

(** ** The durability facade *)

Section FacadeExtraFacts.
Implicit Types (pg : PersistentGraph) (g : Graph).

Lemma DeleteNode_existing g n :
  is_Some (nodes g !! n) →
  fst (Graph.DeleteNode n g) = None ∧ nodes (snd (Graph.DeleteNode n g)) !! n = None.
Proof.
  intros [nd Hn]. unfold Graph.DeleteNode, Graph.GetNode. rewrite Hn. cbn.
  by rewrite lookup_delete_eq.
Qed.

Lemma DeleteEdge_existing g e :
  is_Some (edges g !! e) →
  fst (Graph.DeleteEdge e g) = None ∧ edges (snd (Graph.DeleteEdge e g)) !! e = None.
Proof.
  intros [ed He]. unfold Graph.DeleteEdge, Graph.GetEdge. rewrite He. cbn.
  by rewrite lookup_delete_eq.
Qed.

Lemma sample_engine_store_inv : store_inv (G sample_engine).
Proof.
  assert (E : G sample_engine =
              snd (Graph.AddEdge 1 2 "KNOWS" {[ "since"%string := VInt 2020 ]}
                (snd (Graph.AddNode "Person" {[ "name"%string := VString "Bob" ]}
                   (snd (Graph.AddNode "Person" {[ "name"%string := VString "Alice" ]}
                      Graph.NewGraph))))))
    by (vm_compute; reflexivity).
  rewrite E.
  apply store_inv_AddEdge; [|by vm_compute].
  apply store_inv_AddNode; [|by vm_compute].
  apply store_inv_AddNode; [|by vm_compute].
  apply store_inv_NewGraph.
Qed.
End FacadeExtraFacts.

(** X12.  The deletions of the facade are not undone when logging them
    fails: with logging enabled, if the node (edge) exists and the WAL
    append fails, [DeleteNode] ([DeleteEdge]) returns the logging error, and
    the node (edge) is gone from the in-memory graph all the same. *)
Theorem delete_not_rolled_back_on_log_failure (fault : AppendFault) (id : Z)
    (pg : PersistentGraph) :
  walEnabled pg = true →
  (∀ err, is_Some (nodes (G pg) !! id) →
     fst (WAL.LogDeleteNode fault id (wal pg)) = Some err →
     ∃ pg', PersistentGraph.DeleteNode fault id pg =
              (Some (ErrWrap "failed to log node deletion" err), pg') ∧
            G pg' = snd (Graph.DeleteNode id (G pg)) ∧
            Graph.GetNode id (G pg') = Err (ErrNodeNotFound id)) ∧
  (∀ err, is_Some (edges (G pg) !! id) →
     fst (WAL.LogDeleteEdge fault id (wal pg)) = Some err →
     ∃ pg', PersistentGraph.DeleteEdge fault id pg =
              (Some (ErrWrap "failed to log edge deletion" err), pg') ∧
            G pg' = snd (Graph.DeleteEdge id (G pg)) ∧
            Graph.GetEdge id (G pg') = Err (ErrEdgeNotFound id)).
Proof.
  intros Hw. split.
  - intros err Hn Hlog. destruct (DeleteNode_existing _ _ Hn) as [H1 H2].
    unfold PersistentGraph.DeleteNode.
    destruct (Graph.DeleteNode id (G pg)) as [[e|] g1]; cbn in H1, H2; [done|].
    cbn [PersistentGraph.set_G walEnabled wal]. rewrite Hw.
    destruct (WAL.LogDeleteNode fault id (wal pg)) as [[e|] w]; cbn in Hlog; [|done].
    injection Hlog as ->. eexists. split; [reflexivity|]. cbn. split; [done|].
    unfold Graph.GetNode. by rewrite H2.
  - intros err He Hlog. destruct (DeleteEdge_existing _ _ He) as [H1 H2].
    unfold PersistentGraph.DeleteEdge.
    destruct (Graph.DeleteEdge id (G pg)) as [[e|] g1]; cbn in H1, H2; [done|].
    cbn [PersistentGraph.set_G walEnabled wal]. rewrite Hw.
    destruct (WAL.LogDeleteEdge fault id (wal pg)) as [[e|] w]; cbn in Hlog; [|done].
    injection Hlog as ->. eexists. split; [reflexivity|]. cbn. split; [done|].
    unfold Graph.GetEdge. by rewrite H2.
Qed.

Lemma delete_not_rolled_back_on_log_failure_witness :
  let pg := sample_engine in
  let err := ErrWrap "failed to encode entry" (ErrIO "write") in
  (∃ pg', PersistentGraph.DeleteNode AppendWriteFails 1 pg =
            (Some (ErrWrap "failed to log node deletion" err), pg') ∧
          G pg' = snd (Graph.DeleteNode 1 (G pg)) ∧
          Graph.GetNode 1 (G pg') = Err (ErrNodeNotFound 1)) ∧
  (∃ pg', PersistentGraph.DeleteEdge AppendWriteFails 1 pg =
            (Some (ErrWrap "failed to log edge deletion" err), pg') ∧
          G pg' = snd (Graph.DeleteEdge 1 (G pg)) ∧
          Graph.GetEdge 1 (G pg') = Err (ErrEdgeNotFound 1)).
Proof.
  intros pg err.
  assert (Hw : walEnabled pg = true) by (by vm_compute).
  assert (Hn : is_Some (nodes (G pg) !! 1)) by (vm_compute; eauto).
  assert (He : is_Some (edges (G pg) !! 1)) by (vm_compute; eauto).
  assert (Hln : fst (WAL.LogDeleteNode AppendWriteFails 1 (wal pg)) = Some err)
    by (by vm_compute).
  assert (Hle : fst (WAL.LogDeleteEdge AppendWriteFails 1 (wal pg)) = Some err)
    by (by vm_compute).
  destruct (delete_not_rolled_back_on_log_failure AppendWriteFails 1 pg Hw) as [H1 H2].
  split; [exact (H1 err Hn Hln)|exact (H2 err He Hle)].
Defined.



Section RecoverFacts.
Implicit Types (pg : PersistentGraph) (g : Graph) (w : WAL).

(** Replaying a record touches the graph only. *)
Lemma applyWALEntry_frame entry pg :
  let pg' := snd (PersistentGraph.applyWALEntry entry pg) in
  wal pg' = wal pg ∧ snapshotManager pg' = snapshotManager pg ∧
  walEnabled pg' = walEnabled pg.
Proof.
  unfold PersistentGraph.applyWALEntry.
  repeat (case_match; try done).
Qed.

Lemma replay_frame l pg :
  let pg' := snd (WAL.replay_loop PersistentGraph.applyWALEntry l pg) in
  wal pg' = wal pg ∧ snapshotManager pg' = snapshotManager pg ∧
  walEnabled pg' = walEnabled pg.
Proof.
  revert pg. induction l as [|e l IH]; intros pg; cbn; [done|].
  pose proof (applyWALEntry_frame e pg) as (H1 & H2 & H3).
  destruct (PersistentGraph.applyWALEntry e pg) as [[err|] pg1]; cbn in *; [done|].
  destruct (IH pg1) as (-> & -> & ->). done.
Qed.
End RecoverFacts.

(** X14.  Recovery does not write: when [NewPersistentGraph] succeeds on a
    log and a snapshot, the engine's log is the log it found, entry for
    entry, the snapshot is the one it found, the WAL is open with its next
    index one past the largest index found, and logging is enabled again
    for the calls that follow. *)
Theorem recovery_does_not_log (entries : list LogEntry) (snap : option Snapshot)
    (pg : PersistentGraph) :
  PersistentGraph.NewPersistentGraph entries snap = Ok pg →
  log (wal pg) = entries ∧
  latest (snapshotManager pg) = snap ∧
  closed (wal pg) = false ∧
  nextIndex (wal pg) = wrap64 (WAL.lastIndex entries + 1) ∧
  walEnabled pg = true.
Proof.
  unfold PersistentGraph.NewPersistentGraph, PersistentGraph.Recover, WAL.Replay.
  cbn [SnapshotManager.LoadLatestSnapshot PersistentGraph.set_walEnabled
       snapshotManager wal G walEnabled].
  match goal with
  | |- context [WAL.replay_loop _ ?l ?p] =>
    pose proof (replay_frame l p) as (H1 & H2 & _);
    destruct (WAL.replay_loop PersistentGraph.applyWALEntry l p) as [[err|] pg1]
  end; [done|].
  intros [= <-]. cbn in *. rewrite H1, H2.
  by destruct snap.
Qed.

Lemma recovery_does_not_log_witness :
  let entries := log (wal sample_engine) in
  let pg := default fresh_engine
              (match PersistentGraph.NewPersistentGraph entries None with
               | Ok pg => Some pg | Err _ => None end) in
  log (wal pg) = entries ∧
  latest (snapshotManager pg) = None ∧
  closed (wal pg) = false ∧
  nextIndex (wal pg) = wrap64 (WAL.lastIndex entries + 1) ∧
  walEnabled pg = true.
Proof.
  intros entries pg.
  apply (recovery_does_not_log entries None pg). by vm_compute.
Defined.

Section SnapshotFacts.
Implicit Types (pg : PersistentGraph) (g : Graph) (w : WAL) (sm : SnapshotManager).

Lemma CreateSnapshot_success sfault walIndex ns es sm sm' :
  SnapshotManager.CreateSnapshot sfault walIndex ns es sm = (None, sm') →
  latest sm' =
  Some {| Metadata := {| mIndex := walIndex; mNodeCount := size ns;
                         mEdgeCount := size es |};
          Nodes := json_node <$> (map_to_list ns).*2;
          Edges := json_edge <$> (map_to_list es).*2 |}.
Proof.
  unfold SnapshotManager.CreateSnapshot. rewrite !length_fmap, !length_map_to_list.
  destruct sfault; try done; destruct (negb _); try done; by intros [= <-].
Qed.

Lemma filter_keeps_last I (older : list LogEntry) last :
  (∀ x, x ∈ older → Index x < I) → I ≤ Index last →
  List.filter (fun entry => Z.leb I (Index entry)) (older ++ [last]) = [last].
Proof.
  intros Hold Hlast. induction older as [|x older IH]; cbn.
  - by destruct (Z.leb_spec I (Index last)); [|lia].
  - destruct (Z.leb_spec I (Index x)) as [Hle|_].
    + specialize (Hold x (list_elem_of_here _ _)). lia.
    + apply IH. intros y Hy. apply Hold. by apply list_elem_of_further.
Qed.

Lemma Snapshot_success sfault tfault pg pg' :
  PersistentGraph.Snapshot sfault tfault pg = (None, pg') →
  G pg' = G pg ∧ walEnabled pg' = walEnabled pg ∧
  latest (snapshotManager pg') =
    Some {| Metadata := {| mIndex := WAL.GetCurrentIndex (wal pg);
                           mNodeCount := size (nodes (G pg));
                           mEdgeCount := size (edges (G pg)) |};
            Nodes := json_node <$> (map_to_list (nodes (G pg))).*2;
            Edges := json_edge <$> (map_to_list (edges (G pg))).*2 |} ∧
  log (wal pg') =
    List.filter (fun entry => Z.leb (WAL.GetCurrentIndex (wal pg)) (Index entry))
                (log (wal pg)) ∧
  nextIndex (wal pg') = nextIndex (wal pg) ∧ closed (wal pg') = false.
Proof.
  unfold PersistentGraph.Snapshot.
  destruct (SnapshotManager.CreateSnapshot _ _ _ _ _) as [[err|] sm] eqn:Hc; [done|].
  apply CreateSnapshot_success in Hc.
  cbn [PersistentGraph.set_snapshotManager wal].
  destruct (WAL.Truncate _ _ _) as [[err|] w] eqn:Ht; [done|].
  intros [= <-]. cbn. pose proof (Truncate_success _ _ _ _ Ht) as [Hl Hn].
  split_and!; try done.
  revert Ht. unfold WAL.Truncate.
  destruct tfault; destruct (closed (wal pg)); try done; try by intros [= <-].
  destruct (Nat.ltb _ _); [done|]. by intros [= <-].
Qed.
End SnapshotFacts.

(** X15.  A successful [Snapshot] does not empty the log: it truncates at
    the index of the last record, so that record stays.  When the log ends
    with the record [last], whose index is above the others' and one below
    the next index, then after [Snapshot] the log is exactly [[last]], the
    graph is unchanged, and the latest snapshot carries the index of [last]
    and the numbers of nodes and edges of the graph. *)
Theorem Snapshot_keeps_last_record (sfault : SnapshotFault) (tfault : TruncateFault)
    (pg pg' : PersistentGraph) (older : list LogEntry) (last : LogEntry) :
  PersistentGraph.Snapshot sfault tfault pg = (None, pg') →
  log (wal pg) = older ++ [last] →
  (∀ x, x ∈ older → Index x < Index last) →
  nextIndex (wal pg) = Index last + 1 →
  0 ≤ Index last < 2 ^ 64 - 1 →
  log (wal pg') = [last] ∧ G pg' = G pg ∧
  ∃ snap, latest (snapshotManager pg') = Some snap ∧
    mIndex (Metadata snap) = Index last ∧
    mNodeCount (Metadata snap) = Graph.NodeCount (G pg) ∧
    mEdgeCount (Metadata snap) = Graph.EdgeCount (G pg).
Proof.
  intros Hsnap Hlog Hold Hnext Hrange.
  destruct (Snapshot_success _ _ _ _ Hsnap) as (HG & _ & Hlat & Hl & _).
  assert (Hidx : WAL.GetCurrentIndex (wal pg) = Index last).
  { unfold WAL.GetCurrentIndex. rewrite Hnext, wrap64_small; lia. }
  rewrite Hidx in Hl, Hlat. rewrite Hlog in Hl.
  rewrite filter_keeps_last in Hl by (done || lia).
  split_and!; [done..|]. eexists. split; [exact Hlat|]. done.
Qed.

Lemma Snapshot_keeps_last_record_witness :
  let pg := sample_engine in
  let pg' := snd (PersistentGraph.Snapshot SnapNoFault TruncNoFault pg) in
  let older := take 2 (log (wal pg)) in
  let last := default (sample_entry 0) (log (wal pg) !! 2%nat) in
  log (wal pg') = [last] ∧ G pg' = G pg ∧
  ∃ snap, latest (snapshotManager pg') = Some snap ∧
    mIndex (Metadata snap) = Index last ∧
    mNodeCount (Metadata snap) = Graph.NodeCount (G pg) ∧
    mEdgeCount (Metadata snap) = Graph.EdgeCount (G pg).
Proof.
  intros pg pg' older last.
  apply (Snapshot_keeps_last_record SnapNoFault TruncNoFault pg pg' older last).
  - by vm_compute.
  - by vm_compute.
  - intros x Hx. vm_compute in Hx.
    repeat (apply elem_of_cons in Hx as [->|Hx]; [by vm_compute|]).
    by apply elem_of_nil in Hx.
  - by vm_compute.
  - by vm_compute.
Defined.

Section SnapshotRecoveryFacts.
Implicit Types (pg : PersistentGraph) (g : Graph) (w : WAL).

Lemma Append_success_full fault op data w index w' :
  WAL.Append fault op data w = (Ok index, w') →
  index = nextIndex w ∧
  w' = {| log := log w ++ [written (nextIndex w) (op, data)];
          nextIndex := wrap64 (nextIndex w + 1); closed := false |}.
Proof.
  unfold WAL.Append.
  destruct (negb _); [done|]. destruct (closed w) eqn:E; [done|].
  destruct fault; try done; intros [= <- <-]; cbn; done.
Qed.

Lemma restore_nodes_fold (l : list (Z * Node)) g :
  NoDup l.*1 → (∀ k nd, (k, nd) ∈ l → nID nd = k) →
  nodes (fold_left PersistentGraph.restore_node (json_node <$> l.*2) g) =
    (json_node <$> list_to_map l) ∪ nodes g ∧
  edges (fold_left PersistentGraph.restore_node (json_node <$> l.*2) g) = edges g.
Proof.
  revert g. induction l as [|[k nd] l IH]; intros g Hnd Hk.
  - cbn. by rewrite fmap_empty, (left_id_L ∅ (∪)).
  - cbn [fmap list_fmap snd fold_left]. cbn in Hnd. apply NoDup_cons in Hnd as [Hk' Hnd].
    destruct (IH (PersistentGraph.restore_node g (json_node nd)) Hnd) as [IH1 IH2].
    { intros k' nd' Hin. apply Hk. by apply list_elem_of_further. }
    change (list_fmap _ _ json_node (list_fmap _ _ snd l)) with (json_node <$> l.*2).
    rewrite IH1, IH2. split; [|done].
    cbn [PersistentGraph.restore_node nodes json_node nID].
    rewrite (Hk k nd (list_elem_of_here _ _)).
    cbn [list_to_map foldr fst snd]. rewrite fmap_insert.
    rewrite <-insert_union_r, insert_union_l; [done|].
    rewrite lookup_fmap. by rewrite (not_elem_of_list_to_map_1 _ _ Hk').
Qed.

Lemma restore_edges_fold (l : list (Z * Edge)) g :
  NoDup l.*1 → (∀ k ed, (k, ed) ∈ l → eID ed = k) →
  edges (fold_left PersistentGraph.restore_edge (json_edge <$> l.*2) g) =
    (json_edge <$> list_to_map l) ∪ edges g ∧
  nodes (fold_left PersistentGraph.restore_edge (json_edge <$> l.*2) g) = nodes g.
Proof.
  revert g. induction l as [|[k ed] l IH]; intros g Hnd Hk.
  - cbn. by rewrite fmap_empty, (left_id_L ∅ (∪)).
  - cbn [fmap list_fmap snd fold_left]. cbn in Hnd. apply NoDup_cons in Hnd as [Hk' Hnd].
    destruct (IH (PersistentGraph.restore_edge g (json_edge ed)) Hnd) as [IH1 IH2].
    { intros k' ed' Hin. apply Hk. by apply list_elem_of_further. }
    change (list_fmap _ _ json_edge (list_fmap _ _ snd l)) with (json_edge <$> l.*2).
    rewrite IH1, IH2. split; [|done].
    cbn [PersistentGraph.restore_edge edges json_edge eID].
    rewrite (Hk k ed (list_elem_of_here _ _)).
    cbn [list_to_map foldr fst snd]. rewrite fmap_insert.
    rewrite <-insert_union_r, insert_union_l; [done|].
    rewrite lookup_fmap. by rewrite (not_elem_of_list_to_map_1 _ _ Hk').
Qed.

(** What restoring a snapshot of the graph [g] into a new graph gives. *)
Lemma restore_snapshot g :
  keyed g →
  let g' := fold_left PersistentGraph.restore_edge
              (json_edge <$> (map_to_list (edges g)).*2)
              (fold_left PersistentGraph.restore_node
                 (json_node <$> (map_to_list (nodes g)).*2) Graph.NewGraph) in
  nodes g' = json_node <$> nodes g ∧ edges g' = json_edge <$> edges g.
Proof.
  intros [Hkn Hke]. cbn zeta.
  destruct (restore_edges_fold (map_to_list (edges g))
              (fold_left PersistentGraph.restore_node
                 (json_node <$> (map_to_list (nodes g)).*2) Graph.NewGraph))
    as [He Hn].
  { apply NoDup_fst_map_to_list. }
  { intros k ed Hin%elem_of_map_to_list. auto. }
  destruct (restore_nodes_fold (map_to_list (nodes g)) Graph.NewGraph) as [Hn' He'].
  { apply NoDup_fst_map_to_list. }
  { intros k nd Hin%elem_of_map_to_list. auto. }
  rewrite Hn, Hn', He, He'. rewrite !list_to_map_to_list. cbn.
  by rewrite !(right_id_L ∅ (∪)).
Qed.
End SnapshotRecoveryFacts.

(** X16.  Recovery from a snapshot applies the record that [Snapshot] left
    in the log on top of the snapshot that already contains it.  When the
    last call before a successful [Snapshot] was a successful [AddEdge]
    from [s] to [t], closing the engine and opening it again succeeds, and
    the recovered graph lists the edge twice: the [OutEdges] of [s] are
    those before the restart, which contain the edge, followed by the edge
    once more, and so are the [InEdges] of [t]. *)
Theorem snapshot_recovery_repeats_last_edge (pg0 pg1 pg2 : PersistentGraph)
    (s t : Z) (label : string) (props : option Properties) (edge : Edge) :
  walEnabled pg0 = true →
  store_inv (G pg0) →
  indexes_below (wal pg0) →
  nextNodeID (G pg0) ≤ 2 ^ 53 → nextEdgeID (G pg0) < 2 ^ 53 →
  PersistentGraph.AddEdge AppendNoFault s t label props pg0 = (Ok edge, pg1) →
  PersistentGraph.Snapshot SnapNoFault TruncNoFault pg1 = (None, pg2) →
  ∃ pg3 ns1 ns3 nt1 nt3,
    reopen pg2 = Ok pg3 ∧
    nodes (G pg1) !! s = Some ns1 ∧ nodes (G pg3) !! s = Some ns3 ∧
    nodes (G pg1) !! t = Some nt1 ∧ nodes (G pg3) !! t = Some nt3 ∧
    eID edge ∈ OutEdges ns1 ∧ OutEdges ns3 = OutEdges ns1 ++ [eID edge] ∧
    eID edge ∈ InEdges nt1 ∧ InEdges nt3 = InEdges nt1 ++ [eID edge].
Proof.
  intros Hw (Hinv & Hkey & _) [Hbelow Hnext] Hbn Hbe Hadd Hsnap.
  pose proof Hinv as (_ & Hn & _ & Hnn & Hne).
  (* the call of AddEdge *)
  unfold PersistentGraph.AddEdge in Hadd.
  destruct (nodes (G pg0) !! s) as [ns0|] eqn:Es;
    [|unfold Graph.AddEdge, Graph.GetNode in Hadd; by rewrite Es in Hadd].
  destruct (nodes (G pg0) !! t) as [nt0|] eqn:Et;
    [|unfold Graph.AddEdge, Graph.GetNode in Hadd; by rewrite Es, Et in Hadd].
  rewrite AddEdge_eq in Hadd by (rewrite ?Es, ?Et; eauto; lia).
  cbn [PersistentGraph.set_G walEnabled wal eID G] in Hadd. rewrite Hw in Hadd.
  set (eid := nextEdgeID (G pg0)) in *.
  unfold WAL.LogAddEdge in Hadd.
  destruct (WAL.Append _ _ _ _) as [[index|err] w1] eqn:Happ; cbn in Hadd; [|done].
  apply Append_success_full in Happ as [_ Hw1].
  injection Hadd as <- <-. cbn [eID].
  (* the snapshot *)
  destruct (Snapshot_success _ _ _ _ Hsnap) as (HG & _ & Hlat & Hl & _ & Hcl).
  cbn [PersistentGraph.set_wal PersistentGraph.set_G G wal] in HG, Hlat, Hl.
  assert (Hidx : WAL.GetCurrentIndex w1 = nextIndex (wal pg0)).
  { unfold WAL.GetCurrentIndex. rewrite Hw1. cbn [nextIndex].
    rewrite (wrap64_small (nextIndex (wal pg0) + 1)) by lia.
    rewrite wrap64_small; lia. }
  rewrite Hidx in Hl, Hlat. rewrite Hw1 in Hl. cbn [log] in Hl.
  rewrite filter_keeps_last in Hl; [|intros x Hx; by apply Hbelow|cbn; lia].
  (* the restart *)
  unfold reopen, PersistentGraph.Close, WAL.Close. rewrite Hcl.
  cbn [PersistentGraph.set_wal wal log snapshotManager]. rewrite Hl, Hlat.
  unfold PersistentGraph.NewPersistentGraph, PersistentGraph.Recover, WAL.Replay.
  cbn [SnapshotManager.LoadLatestSnapshot PersistentGraph.set_walEnabled
       PersistentGraph.set_G SnapshotManager.NewSnapshotManager
       snapshotManager wal G walEnabled latest log WAL.NewWAL Nodes Edges].
  set (g1 := {| nodes := alter (Node.AddInEdge eid) t
                           (alter (Node.AddOutEdge eid) s (nodes (G pg0)));
                edges := _; nextNodeID := _; nextEdgeID := _ |}) in *.
  assert (Hkey1 : keyed g1).
  { destruct Hkey as [Hkn Hke]. split; cbn.
    - intros n nd' (nd & Hnd & -> & _)%AddEdge_adjacency. auto.
    - intros e ed [[<- <-]|[? ?]]%lookup_insert_Some; [done|auto]. }
  destruct (restore_snapshot g1 Hkey1) as [Hrn Hre].
  set (gr := fold_left PersistentGraph.restore_edge _ _) in *.
  cbn [WAL.replay_loop]. unfold written. cbn [fst snd].
  destruct (Hn s ns0 Es) as [Hsb _]. destruct (Hn t nt0 Et) as [Htb _].
  rewrite apply_AddEdge_entry by lia.
  cbn [PersistentGraph.set_G PersistentGraph.set_walEnabled G wal snapshotManager].
  (* the adjacency lists *)
  assert (H1 : ∀ m, is_Some (nodes (G pg0) !! m) → ∃ nd1 nd3,
            nodes g1 !! m = Some nd1 ∧
            alter (Node.AddInEdge eid) t (alter (Node.AddOutEdge eid) s (nodes gr)) !! m
              = Some nd3 ∧
            OutEdges nd3 = OutEdges nd1 ++ (if decide (s = m) then [eid] else []) ∧
            InEdges nd3 = InEdges nd1 ++ (if decide (t = m) then [eid] else []) ∧
            (s = m → eid ∈ OutEdges nd1) ∧ (t = m → eid ∈ InEdges nd1)).
  { intros m Hm.
    assert (is_Some (nodes g1 !! m)) as [nd1 Hnd1]
      by (unfold g1; cbn [nodes]; by rewrite !is_Some_alter).
    assert (is_Some (alter (Node.AddInEdge eid) t
                       (alter (Node.AddOutEdge eid) s (nodes gr)) !! m)) as [nd3 Hnd3].
    { rewrite !is_Some_alter, Hrn, lookup_fmap, Hnd1. cbn. eauto. }
    exists nd1, nd3. do 2 (split; [done|]).
    pose proof Hnd3 as (ndr & Hndr & _ & Ho3 & Hi3)%AddEdge_adjacency.
    rewrite Hrn, lookup_fmap, Hnd1 in Hndr. injection Hndr as <-. cbn in Ho3, Hi3.
    pose proof Hnd1 as Hnd1'. unfold g1 in Hnd1'. cbn [nodes] in Hnd1'.
    apply AddEdge_adjacency in Hnd1' as (nd0 & _ & _ & Ho1 & Hi1).
    split_and!; [done|done| |].
    - intros ->. rewrite Ho1, decide_True by done.
      apply elem_of_app. right. apply list_elem_of_here.
    - intros ->. rewrite Hi1, decide_True by done.
      apply elem_of_app. right. apply list_elem_of_here. }
  destruct (H1 s) as (ns1 & ns3 & Hs1 & Hs3 & Hso & _ & Hsin & _); [by rewrite Es|].
  destruct (H1 t) as (nt1 & nt3 & Ht1 & Ht3 & _ & Hti & _ & Htin); [by rewrite Et|].
  rewrite decide_True in Hso by done. rewrite decide_True in Hti by done.
  eexists _, ns1, ns3, nt1, nt3. split; [reflexivity|].
  cbn [G nodes]. split_and!; auto.
Qed.

Lemma snapshot_recovery_repeats_last_edge_witness :
  let pg0 := sample_engine in
  let edge := {| eID := 2; Source := 2; Target := 1; eLabel := "KNOWS";
                 eProperties := ∅ |} in
  let pg1 := snd (PersistentGraph.AddEdge AppendNoFault 2 1 "KNOWS" None pg0) in
  let pg2 := snd (PersistentGraph.Snapshot SnapNoFault TruncNoFault pg1) in
  ∃ pg3 ns1 ns3 nt1 nt3,
    reopen pg2 = Ok pg3 ∧
    nodes (G pg1) !! 2 = Some ns1 ∧ nodes (G pg3) !! 2 = Some ns3 ∧
    nodes (G pg1) !! 1 = Some nt1 ∧ nodes (G pg3) !! 1 = Some nt3 ∧
    eID edge ∈ OutEdges ns1 ∧ OutEdges ns3 = OutEdges ns1 ++ [eID edge] ∧
    eID edge ∈ InEdges nt1 ∧ InEdges nt3 = InEdges nt1 ++ [eID edge].
Proof.
  intros pg0 edge pg1 pg2.
  apply (snapshot_recovery_repeats_last_edge pg0 pg1 pg2 2 1 "KNOWS" None edge).
  - by vm_compute.
  - apply sample_engine_store_inv.
  - split; [|by vm_compute]. intros x Hx. vm_compute in Hx.
    repeat (apply elem_of_cons in Hx as [->|Hx]; [by vm_compute|]).
    by apply elem_of_nil in Hx.
  - by vm_compute.
  - by vm_compute.
  - by vm_compute.
  - by vm_compute.
Defined.

(** ** The lexer *)

Section StringLiteralFacts.
Implicit Types (l : Lexer) (s r u : string) (c q : ascii).

Lemma readString_loop_body q n l :
  q ≠ Ascii.zero → coherent l → (String.length (rest l) < n)%nat →
  let l' := Lexer.readString_loop q n l in
  let lit := (string_body q (tail0 (rest l))).1 in
  coherent l' ∧ input l' = input l ∧
  tail0 (rest l) = (lit ++ rest l')%string ∧
  position l' = (position l + 1 + String.length lit)%nat ∧
  tail0 (rest l') = (string_body q (tail0 (rest l))).2.
Proof.
  intros Hq. revert l. induction n as [|n IH]; intros l Hl Hn; [lia|].
  cbn [Lexer.readString_loop].
  pose proof (readChar_coherent l) as Hl1.
  pose proof (readChar_rest l Hl) as Hr1.
  pose proof (readChar_position l Hl) as Hp1.
  set (l1 := Lexer.readChar l) in *.
  rewrite (proj2 Hl1), (peekChar_rest l1 Hl1), Hr1.
  assert (Hlen : String.length (tail0 (rest l)) = (String.length (rest l) - 1)%nat)
    by apply tail0_length.
  destruct (tail0 (rest l)) as [|c r] eqn:Eu.
  { cbn [head0 tail0 string_body fst snd String.length].
    rewrite (Ascii.eqb_refl Ascii.zero), orb_true_r, Hr1, Hp1, append_nil.
    split_and!; [done..|lia|done]. }
  cbn [head0 tail0 string_body].
  destruct (Ascii.eqb c q || Ascii.eqb c Ascii.zero) eqn:Eterm.
  { cbn [fst snd String.length]. rewrite Hr1, Hp1, append_nil.
    split_and!; [done..|lia|done]. }
  cbn [String.length] in Hlen.
  destruct r as [|c2 r2].
  - (* the last byte of the input *)
    cbn [head0]. replace (Ascii.eqb Ascii.zero q) with false
      by (symmetry; apply Ascii.eqb_neq; congruence).
    rewrite andb_false_r.
    destruct (IH l1 Hl1) as (G1 & G2 & G3 & G4 & G5); [rewrite Hr1; cbn [String.length] in *; lia|].
    rewrite Hr1 in G3, G4, G5. cbn [tail0 string_body fst snd String.length] in G3, G4, G5.
    cbn [fst snd String.length]. rewrite append_nil in G3.
    split_and!; [done..| | |done].
    + by rewrite <-G3.
    + rewrite G4, Hp1. lia.
  - cbn [head0].
    destruct (Ascii.eqb c "\" && Ascii.eqb c2 q) eqn:Eesc.
    + (* an escaped quote *)
      pose proof (readChar_coherent l1) as Hl2.
      pose proof (readChar_rest l1 Hl1) as Hr2. rewrite Hr1 in Hr2. cbn [tail0] in Hr2.
      pose proof (readChar_position l1 Hl1) as Hp2.
      destruct (IH (Lexer.readChar l1) Hl2) as (G1 & G2 & G3 & G4 & G5);
        [rewrite Hr2; cbn [String.length] in *; lia|].
      rewrite Hr2 in G3, G4, G5. cbn [tail0] in G3, G4, G5.
      destruct (string_body q r2) as [a b]. cbn [fst snd String.length] in *.
      split_and!; [done..| | |done].
      * by rewrite G3, !append_cons.
      * rewrite G4, Hp2, Hp1. lia.
    + destruct (IH l1 Hl1) as (G1 & G2 & G3 & G4 & G5); [rewrite Hr1; cbn [String.length] in *; lia|].
      rewrite Hr1 in G3, G4, G5. cbn [tail0] in G3, G4, G5.
      destruct (string_body q (String c2 r2)) as [a b]. cbn [fst snd String.length] in *.
      split_and!; [done..| | |done].
      * by rewrite G3, append_cons.
      * rewrite G4, Hp1. lia.
Qed.

(** [readString] and the [readChar] that follows it in [NextToken]. *)
Lemma readString_spec q l :
  q ≠ Ascii.zero → coherent l →
  let r := Lexer.readString q l in
  (r.1, rest (Lexer.readChar r.2)) = string_body q (tail0 (rest l)).
Proof.
  intros Hq Hl. unfold Lexer.readString. cbn [fst snd].
  destruct (readString_loop_body q (Lexer.fuel l) l Hq Hl (rest_length l))
    as (G1 & G2 & G3 & G4 & G5).
  rewrite readChar_rest, G5, G2, G4 by done.
  rewrite (slice_prefix _ _ _ (rest (Lexer.readString_loop q (Lexer.fuel l) l))).
  - by destruct (string_body q (tail0 (rest l))).
  - rewrite <-G3. unfold rest. by rewrite Nat.add_1_r, sdrop_S.
Qed.

Lemma is_quote_cases q : is_quote q = true → q = "034"%char ∨ q = "'"%char.
Proof.
  unfold is_quote. intros [H|H]%orb_true_iff; apply Ascii.eqb_eq in H; auto.
Qed.

(** [NextToken] at a string literal. *)
Lemma NextToken_string l :
  coherent l →
  is_quote (head0 (span is_space (rest l)).2) = true →
  let s := (span is_space (rest l)).2 in
  let r := Lexer.NextToken l in
  coherent r.2 ∧ input r.2 = input l ∧
  (TokType r.1, (Literal r.1, rest r.2)) =
  (TokenString, string_body (head0 s) (tail0 s)).
Proof.
  intros Hl.
  destruct (read_while_spec is_space (Lexer.fuel l) l eq_refl Hl (rest_length l))
    as (Hl1 & Hi1 & Hr1 & _).
  unfold Lexer.NextToken, Lexer.skipWhitespace. rewrite <-Hr1, <-Hi1.
  clear Hr1 Hi1. generalize dependent (Lexer.read_while is_space (Lexer.fuel l) l).
  clear l Hl. intros l Hl Hq. cbv beta zeta.
  rewrite (proj2 Hl).
  assert (Hz : head0 (rest l) ≠ Ascii.zero)
    by (destruct (is_quote_cases _ Hq) as [-> | ->]; discriminate).
  pose proof (readString_spec (head0 (rest l)) l Hz Hl) as Hs.
  destruct (is_quote_cases _ Hq) as [E|E]; rewrite E in *;
    cbv beta iota delta [Ascii.eqb Bool.eqb orb];
    cbn [fst snd TokType Literal];
    (split_and!; [apply readChar_coherent|apply readString_loop_input|]);
    by rewrite <-Hs.
Qed.
End StringLiteralFacts.

Section TokenFacts.
Implicit Types (l : Lexer) (s r u w : string) (c q : ascii).

Lemma isDigit_not_letter c : isDigit c = true → isLetter c = false.
Proof. by destruct c as [[] [] [] [] [] [] [] []]. Qed.

Lemma isLetter_not_space c : isLetter c = true → is_space c = false.
Proof. by destruct c as [[] [] [] [] [] [] [] []]. Qed.

Lemma isDigit_not_space c : isDigit c = true → is_space c = false.
Proof. by destruct c as [[] [] [] [] [] [] [] []]. Qed.

Lemma isLetter_upper_byte c : isLetter (upper_byte c) = isLetter c.
Proof. by destruct c as [[] [] [] [] [] [] [] []]. Qed.

Lemma isLetter_ident_char c : isLetter c = true → ident_char c = true.
Proof. unfold ident_char. by intros ->. Qed.

(** The token at a letter is the longest run of letters, digits and
    underscores; its type is looked up in the keyword table. *)
Lemma scan_at_letter s :
  isLetter (head0 s) = true →
  scan_at s = Some (lookupKeyword (span ident_char s).1,
                    (span ident_char s).1, (span ident_char s).2).
Proof.
  intros H. unfold scan_at. cbv beta zeta.
  repeat match goal with
  | |- context [Ascii.eqb (head0 s) ?x] =>
    destruct (Ascii.eqb_spec (head0 s) x) as [E|_];
      [rewrite E in H; by vm_compute in H|]
  end.
  cbn [orb]. rewrite H. by destruct (span ident_char s).
Qed.

(** The token at a digit is a number. *)
Lemma scan_at_digit s :
  isDigit (head0 s) = true →
  scan_at s = Some (TokenNumber, (scan_number s).1, (scan_number s).2).
Proof.
  intros H. unfold scan_at. cbv beta zeta.
  repeat match goal with
  | |- context [Ascii.eqb (head0 s) ?x] =>
    destruct (Ascii.eqb_spec (head0 s) x) as [E|_];
      [rewrite E in H; by vm_compute in H|]
  end.
  cbn [orb]. rewrite (isDigit_not_letter _ H), H. by destruct (scan_number s).
Qed.

Lemma scan_letter s :
  isLetter (head0 s) = true →
  scan s = Some (lookupKeyword (span ident_char s).1,
                 (span ident_char s).1, (span ident_char s).2).
Proof.
  intros H. rewrite scan_no_space by (by apply isLetter_not_space).
  by apply scan_at_letter.
Qed.

Lemma scan_digit s :
  isDigit (head0 s) = true →
  scan s = Some (TokenNumber, (scan_number s).1, (scan_number s).2).
Proof.
  intros H. rewrite scan_no_space by (by apply isDigit_not_space).
  by apply scan_at_digit.
Qed.

Lemma head0_append s r : s ≠ EmptyString → head0 (s ++ r) = head0 s.
Proof. by destruct s. Qed.

Lemma all_bytes_head f s : all_bytes f s = true → s ≠ EmptyString → f (head0 s) = true.
Proof. destruct s as [|c s]; [done|]. cbn. by intros [? _]%andb_true_iff. Qed.

(** The first token of the input and the lexer after it. *)
Lemma first_token input0 t lit r :
  scan input0 = Some (t, lit, r) →
  let res := Lexer.NextToken (Lexer.NewLexer input0) in
  type_and_literal res.1 = (t, lit) ∧ rest res.2 = r ∧ coherent res.2.
Proof.
  intros Hs. destruct (NewLexer_spec input0) as [Hl Hr].
  pose proof (NextToken_spec _ Hl) as (H1 & _ & H3). rewrite Hr, Hs in H3.
  by destruct H3.
Qed.

(** The token stream from a lexer state, from what [scan_all] gives. *)
Lemma tokens_of_scan_all input0 ts :
  scan_all (String.length input0 + 1) input0 = Some ts →
  type_and_literal <$> Lexer.tokens input0 = ts.
Proof.
  intros Hs. destruct (NewLexer_spec input0) as [Hl Hr].
  pose proof (tokens_loop_spec (String.length input0 + 1) _ Hl) as H.
  by rewrite Hr, Hs in H.
Qed.
End TokenFacts.

Section StreamFacts.
Implicit Types (l : Lexer) (s r u w : string) (c q : ascii).

Lemma tokens_loop_bounded n l :
  coherent l →
  (length (Lexer.tokens_loop n l) ≤ String.length (rest l))%nat ∧
  Forall (λ tok, TokType tok ≠ TokenEOF) (Lexer.tokens_loop n l).
Proof.
  revert l. induction n as [|n IH]; intros l Hl.
  { cbn. split; [lia|constructor]. }
  rewrite tokens_loop_S. case_decide as Heof.
  { cbn. split; [lia|constructor]. }
  pose proof (NextToken_progress l Hl Heof) as Hlt.
  destruct (IH (Lexer.NextToken l).2) as [IH1 IH2]; [by apply NextToken_spec|].
  split; [cbn [length]; lia|by constructor].
Qed.

Lemma all_bytes_impl (f g : ascii → bool) s :
  (∀ c, f c = true → g c = true) → all_bytes f s = true → all_bytes g s = true.
Proof.
  intros Hfg. induction s as [|c s IH]; cbn; [done|].
  intros [Hc Hs]%andb_true_iff. by rewrite (Hfg c Hc), IH.
Qed.

Lemma ToUpper_letters w : all_bytes isLetter (ToUpper w) = all_bytes isLetter w.
Proof. induction w as [|c w IH]; cbn; [done|]. by rewrite isLetter_upper_byte, IH. Qed.

Lemma upper_case_keywords_letters kw tok :
  (kw, tok) ∈ upper_case_keywords → all_bytes isLetter kw = true ∧ kw ≠ EmptyString.
Proof.
  unfold upper_case_keywords. intros Hin.
  repeat (apply elem_of_cons in Hin as [[= -> ->]|Hin]; [split; [reflexivity|discriminate]|]).
  by apply elem_of_nil in Hin.
Qed.

(** A word followed by a byte that cannot continue it is one token. *)
Lemma scan_word w r :
  w ≠ EmptyString → isLetter (head0 w) = true → all_bytes ident_char w = true →
  ident_char (head0 r) = false →
  scan (w ++ r) = Some (lookupKeyword w, w, r).
Proof.
  intros Hne Hh Hw Hr. rewrite scan_letter by (by rewrite head0_append).
  by rewrite (span_exact ident_char w r Hw Hr eq_refl).
Qed.
End StreamFacts.

(** X17.  Lexing terminates: every token but the end-of-input token
    consumes at least one byte, so the token stream of an input has at most
    as many tokens as the input has bytes, none of them an end-of-input
    token, and calling [NextToken] more often than the input is long never
    yields more tokens. *)
Theorem lexer_terminates (input0 : string) (n : nat) :
  (String.length input0 < n)%nat →
  Lexer.tokens_loop n (Lexer.NewLexer input0) = Lexer.tokens input0 ∧
  (length (Lexer.tokens input0) ≤ String.length input0)%nat ∧
  Forall (λ tok, TokType tok ≠ TokenEOF) (Lexer.tokens input0).
Proof.
  intros Hn. split; [by apply tokens_fuel|].
  destruct (NewLexer_spec input0) as [Hl Hr].
  destruct (tokens_loop_bounded (String.length input0 + 1) _ Hl) as [H1 H2].
  rewrite Hr in H1. done.
Qed.

Lemma lexer_terminates_witness :
  let input0 := "MATCH (a)-[r]->(b) RETURN 'x"%string in
  Lexer.tokens_loop 100 (Lexer.NewLexer input0) = Lexer.tokens input0 ∧
  (length (Lexer.tokens input0) ≤ String.length input0)%nat ∧
  Forall (λ tok, TokType tok ≠ TokenEOF) (Lexer.tokens input0).
Proof.
  intros input0. apply (lexer_terminates input0 100). vm_compute. lia.
Defined.

(** X18.  Words.  A word (a letter followed by letters, digits and
    underscores) that is followed by a byte that cannot continue it is
    lexed as one token whose literal is the word as written.  Its type is
    the keyword's when the upper-cased word is one of MATCH, WHERE, RETURN,
    LIMIT, ORDER, BY, AND, OR, whatever the case of its letters, and it is
    an identifier otherwise. *)
Theorem word_lexing (w r : string) :
  isLetter (head0 w) = true → all_bytes ident_char w = true →
  ident_char (head0 r) = false →
  let res := Lexer.NextToken (Lexer.NewLexer (w ++ r)) in
  Literal res.1 = w ∧ rest res.2 = r ∧
  (∀ kw tok, (kw, tok) ∈ upper_case_keywords → ToUpper w = kw → TokType res.1 = tok) ∧
  ((∀ kw tok, (kw, tok) ∈ upper_case_keywords → ToUpper w ≠ kw) →
   TokType res.1 = TokenIdentifier).
Proof.
  intros Hh Hw Hr.
  assert (Hne : w ≠ EmptyString) by (by destruct w).
  destruct (first_token _ _ _ _ (scan_word w r Hne Hh Hw Hr)) as ([= Ht Hl] & Hrest & _).
  cbn zeta. split_and!; [done..| |].
  - intros kw tok Hin Hup. rewrite Ht. by apply (lookupKeyword_case_insensitive w kw).
  - intros Hno. rewrite Ht. unfold lookupKeyword.
    destruct (keywords !! ToUpper w) as [tok|] eqn:E; [|done].
    apply keywords_lookup in E as [E|[[= E _]|[= E _]]].
    + by destruct (Hno _ _ E).
    + by apply ToUpper_not_true in E.
    + by apply ToUpper_not_false in E.
Qed.

Lemma word_lexing_witness :
  let w := "Return"%string in
  let r := " n"%string in
  let res := Lexer.NextToken (Lexer.NewLexer (w ++ r)) in
  Literal res.1 = w ∧ rest res.2 = r ∧
  (∀ kw tok, (kw, tok) ∈ upper_case_keywords → ToUpper w = kw → TokType res.1 = tok) ∧
  ((∀ kw tok, (kw, tok) ∈ upper_case_keywords → ToUpper w ≠ kw) →
   TokType res.1 = TokenIdentifier).
Proof.
  intros w r. apply (word_lexing w r); by vm_compute.
Defined.

Section NumberFacts.
Implicit Types (s r a b : string).

Lemma scan_all_more n m s ts :
  scan_all n s = Some ts → (length ts < n)%nat → (n ≤ m)%nat → scan_all m s = Some ts.
Proof.
  revert m s ts. induction n as [|n IH]; intros m s ts Hs Hlen Hm; [lia|].
  destruct m as [|m]; [lia|]. rewrite scan_all_S in Hs |- *.
  destruct (scan s) as [[[t lit] r]|]; [|done].
  case_decide; [done|].
  destruct (scan_all n r) as [ts'|] eqn:E; [|done]. injection Hs as <-.
  cbn [length] in Hlen. by rewrite (IH m r ts' E) by lia.
Qed.

Lemma scan_number_plain a r :
  all_bytes isDigit a = true → isDigit (head0 r) = false →
  Ascii.eqb (head0 r) "." && isDigit (head0 (tail0 r)) = false →
  scan_number (a ++ r) = (a, r).
Proof.
  intros Ha Hr Hc. unfold scan_number.
  by rewrite (span_exact isDigit a r Ha Hr eq_refl), Hc.
Qed.

Lemma scan_number_decimal a b r :
  all_bytes isDigit a = true → all_bytes isDigit b = true → b ≠ EmptyString →
  isDigit (head0 r) = false →
  scan_number (a ++ String "." (b ++ r)) = ((a ++ String "." b)%string, r).
Proof.
  intros Ha Hb Hne Hr. unfold scan_number.
  rewrite (span_exact isDigit a (String "." (b ++ r)) Ha eq_refl eq_refl).
  cbn [head0 tail0].
  rewrite head0_append, (all_bytes_head _ _ Hb Hne) by done. cbn.
  by rewrite (span_exact isDigit b r Hb Hr eq_refl).
Qed.

Lemma scan_all_step n s t lit r ts :
  scan s = Some (t, lit, r) → t ≠ TokenEOF → scan_all n r = Some ts →
  scan_all (S n) s = Some ((t, lit) :: ts).
Proof. intros Hs Ht Hr. rewrite scan_all_S, Hs, Hr. by case_decide. Qed.
End NumberFacts.

(** X19.  Numbers.  For non-empty runs of digits [a] and [b]: [a.b] is one
    number token, [a..b] is the number [a], the range token [..] and the
    number [b] (the dot is part of a number only when a digit follows it),
    and [a.] is the number [a] followed by a dot token. *)
Theorem number_lexing (a b : string) :
  a ≠ EmptyString → b ≠ EmptyString →
  all_bytes isDigit a = true → all_bytes isDigit b = true →
  type_and_literal <$> Lexer.tokens (a ++ "." ++ b) =
    [(TokenNumber, (a ++ "." ++ b)%string)] ∧
  type_and_literal <$> Lexer.tokens (a ++ ".." ++ b) =
    [(TokenNumber, a); (TokenDotDot, ".."%string); (TokenNumber, b)] ∧
  type_and_literal <$> Lexer.tokens (a ++ ".") =
    [(TokenNumber, a); (TokenDot, "."%string)].
Proof.
  intros Hane Hbne Ha Hb.
  pose proof (all_bytes_head _ _ Ha Hane) as Hah.
  pose proof (all_bytes_head _ _ Hb Hbne) as Hbh.
  assert (Hsb : scan b = Some (TokenNumber, b, EmptyString)).
  { rewrite scan_digit by done. rewrite <-(append_empty_r b) at 1 2.
    by rewrite scan_number_plain. }
  split_and!; apply tokens_of_scan_all.
  - apply (scan_all_more 2); [|cbn; lia|].
    2:{ rewrite !append_length. destruct a; cbn in *; try done; lia. }
    eapply scan_all_step; [|done|apply scan_all_empty].
    rewrite scan_digit by (by rewrite head0_append).
    change ("." ++ b)%string with (String "." b).
    rewrite <-(append_empty_r b) at 1 2. by rewrite scan_number_decimal.
  - apply (scan_all_more 4); [|cbn; lia|].
    2:{ rewrite !append_length. destruct a, b; cbn in *; try done; lia. }
    eapply scan_all_step; [|done|].
    { rewrite scan_digit by (by rewrite head0_append).
      by rewrite scan_number_plain. }
    eapply scan_all_step; [|done|].
    { change (".." ++ b)%string with (String "." (String "." b)). reflexivity. }
    eapply scan_all_step; [exact Hsb|done|apply scan_all_empty].
  - apply (scan_all_more 3); [|cbn; lia|].
    2:{ rewrite !append_length. destruct a; cbn in *; try done; lia. }
    eapply scan_all_step; [|done|].
    { rewrite scan_digit by (by rewrite head0_append).
      by rewrite scan_number_plain. }
    eapply scan_all_step; [|done|apply scan_all_empty]. reflexivity.
Qed.

Lemma number_lexing_witness :
  let a := "10"%string in
  let b := "25"%string in
  type_and_literal <$> Lexer.tokens (a ++ "." ++ b) =
    [(TokenNumber, (a ++ "." ++ b)%string)] ∧
  type_and_literal <$> Lexer.tokens (a ++ ".." ++ b) =
    [(TokenNumber, a); (TokenDotDot, ".."%string); (TokenNumber, b)] ∧
  type_and_literal <$> Lexer.tokens (a ++ ".") =
    [(TokenNumber, a); (TokenDot, "."%string)].
Proof.
  intros a b. apply (number_lexing a b); done.
Defined.

Section StringTokenFacts.
Implicit Types (l : Lexer) (s r u body : string) (c q : ascii).

Lemma plain_char_spec q c :
  plain_char q c = true →
  Ascii.eqb c q = false ∧ Ascii.eqb c Ascii.zero = false ∧ Ascii.eqb c "\" = false.
Proof.
  unfold plain_char. intros [[H1 H2]%andb_true_iff H3]%andb_true_iff.
  by rewrite !negb_true_iff in *.
Qed.

Lemma string_body_plain q body :
  is_quote q = true → all_bytes (plain_char q) body = true →
  (∀ r, string_body q (body ++ String q r) = (body, r)) ∧
  string_body q body = (body, EmptyString) ∧
  (∀ u, string_body q (body ++ String "\" (String q u)) =
        ((body ++ String "\" (String q (string_body q u).1))%string,
         (string_body q u).2)).
Proof.
  intros Hq. induction body as [|c body IH]; intros Hb.
  - split_and!.
    + intros r. rewrite append_nil. cbn. by rewrite Ascii.eqb_refl.
    + done.
    + intros u. rewrite !append_nil.
      destruct (is_quote_cases q Hq) as [-> | ->]; cbn;
        by destruct (string_body _ u).
  - cbn in Hb. apply andb_true_iff in Hb as [Hc Hb].
    destruct (plain_char_spec q c Hc) as (H1 & H2 & H3).
    destruct (IH Hb) as (IH1 & IH2 & IH3).
    assert (Hstep : ∀ x, x ≠ EmptyString →
              string_body q (String c x) =
              ((String c (string_body q x).1), (string_body q x).2)).
    { intros x Hx. cbn [string_body]. rewrite H1, H2, H3. cbn [orb andb].
      destruct x as [|c2 x2]; [done|]. by destruct (string_body q (String c2 x2)). }
    split_and!.
    + intros r. rewrite append_cons, Hstep by (by destruct body). by rewrite IH1.
    + destruct body as [|c2 body2].
      * cbn. by rewrite H1, H2.
      * rewrite Hstep by done. by rewrite IH2.
    + intros u. rewrite !append_cons, Hstep by (by destruct body). by rewrite IH3.
Qed.

(** The token stream of an input that is one string literal. *)
Lemma string_token_stream input0 lit :
  is_quote (head0 input0) = true →
  string_body (head0 input0) (tail0 input0) = (lit, EmptyString) →
  type_and_literal <$> Lexer.tokens input0 = [(TokenString, lit)].
Proof.
  intros Hq Hbody. destruct (NewLexer_spec input0) as [Hl Hr].
  assert (Hsp : (span is_space input0).2 = input0).
  { rewrite span_none; [done|].
    destruct (is_quote_cases _ Hq) as [-> | ->]; done. }
  pose proof (NextToken_string _ Hl) as Hn. rewrite Hr, Hsp in Hn.
  destruct (Hn Hq) as (Hl2 & _ & Htok). rewrite Hbody in Htok.
  injection Htok as Ht Hlit Hrest.
  unfold Lexer.tokens. replace (String.length input0 + 1)%nat
    with (S (S (String.length input0 - 1)))
    by (destruct input0; [by vm_compute in Hq|cbn; lia]).
  rewrite tokens_loop_S, Ht. rewrite decide_False by done.
  rewrite tokens_loop_S.
  pose proof (NextToken_spec _ Hl2) as (_ & _ & H3). rewrite Hrest in H3.
  change (scan EmptyString) with (Some (TokenEOF, EmptyString, EmptyString)) in H3.
  destruct H3 as [[= Heof _] _]. rewrite Heof, decide_True by done.
  cbn. unfold type_and_literal. by rewrite Ht, Hlit.
Qed.
End StringTokenFacts.

(** X20.  String literals.  Between quotes of the same kind, single or
    double, a text without that quote, without a backslash and without a 0
    byte is lexed as one string token whose literal is the text, without
    the quotes.  A literal that is not closed is accepted in the same way:
    it ends at the end of the input, and no illegal token is produced.  A
    backslash followed by the quote does not end the literal, and both
    bytes stay in the literal: escapes are not decoded. *)
Theorem string_literal_lexing (q : ascii) (body more : string) :
  is_quote q = true →
  all_bytes (plain_char q) body = true → all_bytes (plain_char q) more = true →
  type_and_literal <$> Lexer.tokens (String q (body ++ String q EmptyString)) =
    [(TokenString, body)] ∧
  type_and_literal <$> Lexer.tokens (String q body) = [(TokenString, body)] ∧
  type_and_literal <$>
    Lexer.tokens (String q (body ++ String "\" (String q (more ++ String q EmptyString)))) =
    [(TokenString, (body ++ String "\" (String q more))%string)].
Proof.
  intros Hq Hb Hm.
  destruct (string_body_plain q body Hq Hb) as (H1 & H2 & H3).
  destruct (string_body_plain q more Hq Hm) as (M1 & _ & _).
  split_and!; apply string_token_stream; cbn [head0 tail0]; try done.
  rewrite H3, M1. done.
Qed.

Lemma string_literal_lexing_witness :
  let q := "'"%char in
  let body := "it"%string in
  let more := "s"%string in
  type_and_literal <$> Lexer.tokens (String q (body ++ String q EmptyString)) =
    [(TokenString, body)] ∧
  type_and_literal <$> Lexer.tokens (String q body) = [(TokenString, body)] ∧
  type_and_literal <$>
    Lexer.tokens (String q (body ++ String "\" (String q (more ++ String q EmptyString)))) =
    [(TokenString, (body ++ String "\" (String q more))%string)].
Proof.
  intros q body more. apply (string_literal_lexing q body more); reflexivity.
Defined.

(** ** The parser: the direction of an edge pattern *)

#[local] Opaque Parser.nextToken.

Section EdgeDirectionFacts.
(** What [parseEdgePattern] does after the closing bracket. *)
Lemma edge_closing (p : Parser) (start : TokenType) (variable type : string) direction :
  direction = (if bool_decide (start = TokenLeftArrow) then DirectionIn else DirectionOut) →
  (let '(direction, p) :=
     if Parser.currentTokenIs TokenArrow p then
       ((if bool_decide (direction = DirectionIn)
         then DirectionBoth else DirectionOut), Parser.nextToken p)
     else if Parser.currentTokenIs TokenDash p then
       ((if bool_decide (direction = DirectionOut)
         then DirectionBoth else direction), Parser.nextToken p)
     else if bool_decide (direction = DirectionOut) then (DirectionBoth, p)
     else (direction, p) in
   (Ok {| epVariable := variable; epType := type; epDirection := direction;
          MinHops := None; MaxHops := None |}, p)) =
  (Ok {| epVariable := variable; epType := type;
         epDirection := edge_direction start (TokType (current p));
         MinHops := None; MaxHops := None |},
   advance (if closes_edge (TokType (current p)) then 1 else 0) p).
Proof.
  intros ->. unfold Parser.currentTokenIs, edge_direction, closes_edge.
  destruct (bool_decide (TokType (current p) = TokenArrow)) eqn:Ha.
  - cbn. by destruct (bool_decide (start = TokenLeftArrow)).
  - destruct (bool_decide (TokType (current p) = TokenDash)) eqn:Hd; cbn;
      by destruct (bool_decide (start = TokenLeftArrow)).
Qed.

Lemma advance_add n m p : advance (n + m) p = advance m (advance n p).
Proof. revert p. induction n as [|n IH]; intros p; cbn; [done|]. by rewrite IH. Qed.
End EdgeDirectionFacts.

(** X21.  The direction of an edge pattern.  When the parser's upcoming
    tokens are [-] or [<-], [[], an optional variable, an optional [:] and
    type, and []], [parseEdgePattern] succeeds.  If [->] follows the
    bracket the direction is Out after [-] and Both after [<-]; otherwise
    ([-] follows, or the pattern ends at the bracket) it is Both after [-]
    and In after [<-].  A closing [->] or [-] is consumed, any other token
    is left. *)
Theorem parseEdgePattern_direction
    (p : Parser) (start : TokenType) (hasVariable hasType : bool) :
  let k := length (edge_tokens start hasVariable hasType) in
  start = TokenLeftArrow ∨ start = TokenDash →
  upcoming k p = edge_tokens start hasVariable hasType →
  let closing := TokType (current (advance k p)) in
  ∃ edge,
    Parser.parseEdgePattern p =
      (Ok edge, advance (k + (if closes_edge closing then 1 else 0)) p) ∧
    epDirection edge = edge_direction start closing.
Proof.
  intros k Hstart Hup closing. subst closing. rewrite advance_add.
  assert (Hs : (if Parser.currentTokenIs TokenLeftArrow p
                then Some (DirectionIn, Parser.nextToken p)
                else if Parser.currentTokenIs TokenDash p
                     then Some (DirectionOut, Parser.nextToken p) else None) =
               Some ((if bool_decide (start = TokenLeftArrow)
                      then DirectionIn else DirectionOut), Parser.nextToken p)).
  { assert (H0 : TokType (current p) = start)
      by (destruct hasVariable, hasType; cbn in Hup; by injection Hup).
    unfold Parser.currentTokenIs. rewrite H0. by destruct Hstart as [-> | ->]. }
  unfold Parser.parseEdgePattern. rewrite Hs. cbn match. cbn beta iota.
  clear Hs.
  destruct hasVariable, hasType; cbn in Hup, k; subst k; cbn [advance] in *;
    [injection Hup as H0 H1 H2 H3 H4 H5
    |injection Hup as H0 H1 H2 H3
    |injection Hup as H0 H1 H2 H3 H4
    |injection Hup as H0 H1 H2];
    rewrite (currentTokenIs_eq _ _ H1); cbn [negb].
  - (* [ var : type ] *)
    rewrite (currentTokenIs_eq _ _ H2). cbn beta iota.
    rewrite (currentTokenIs_eq _ _ H3). cbn beta iota.
    rewrite (currentTokenIs_eq _ _ H4). cbn [negb].
    rewrite (currentTokenIs_eq _ _ H5). cbn [negb].
    erewrite edge_closing by done. eauto.
  - (* [ var ] *)
    rewrite (currentTokenIs_eq _ _ H2). cbn beta iota.
    rewrite (currentTokenIs_ne TokenColon) by (rewrite H3; done).
    rewrite (currentTokenIs_eq _ _ H3). cbn [negb].
    erewrite edge_closing by done. eauto.
  - (* [ : type ] *)
    rewrite (currentTokenIs_ne TokenIdentifier) by (rewrite H2; done). cbn beta iota.
    rewrite (currentTokenIs_eq _ _ H2). cbn beta iota.
    rewrite (currentTokenIs_eq _ _ H3). cbn [negb].
    rewrite (currentTokenIs_eq _ _ H4). cbn [negb].
    erewrite edge_closing by done. eauto.
  - (* [ ] *)
    rewrite (currentTokenIs_ne TokenIdentifier) by (rewrite H2; done). cbn beta iota.
    rewrite (currentTokenIs_ne TokenColon) by (rewrite H2; done).
    rewrite (currentTokenIs_eq _ _ H2). cbn [negb].
    erewrite edge_closing by done. eauto.
Qed.

#[local] Transparent Parser.nextToken.

Lemma parseEdgePattern_direction_witness :
  let p := Parser.NewParser "-[r:KNOWS]-(b)" in
  ∃ edge,
    Parser.parseEdgePattern p = (Ok edge, advance 7 p) ∧
    epDirection edge = DirectionBoth.
Proof.
  intros p.
  assert (H1 : upcoming 6 p = edge_tokens TokenDash true true) by (vm_compute; reflexivity).
  exact (parseEdgePattern_direction p TokenDash true true (or_intror eq_refl) H1).
Defined.

(** ** The parser: the error list *)

#[local] Opaque Parser.nextToken.

Section ParseErrorsFacts.
Implicit Types p : Parser.

Ltac split_cases := repeat case_match; simplify_eq; try done.
Ltac close_errs := rewrite ?nextToken_errors in *; congruence.

Lemma parseLiteral_errors : keeps_errors Parser.parseLiteral.
Proof.
  intros p r p' H. unfold Parser.parseLiteral in H. split_cases; close_errs.
Qed.

Lemma parseProperties_loop_errors n props :
  keeps_errors (Parser.parseProperties_loop n props).
Proof.
  revert props. induction n as [|n IH]; intros props p r p' H; cbn in H.
  { by simplify_eq. }
  split_cases;
    repeat match goal with
    | H : Parser.parseLiteral _ = _ |- _ => apply parseLiteral_errors in H
    | H : Parser.parseProperties_loop _ _ _ = _ |- _ => apply IH in H
    end; close_errs.
Qed.

Lemma parseProperties_errors : keeps_errors Parser.parseProperties.
Proof.
  intros p r p' H. unfold Parser.parseProperties in H.
  split_cases;
    repeat match goal with
    | H : Parser.parseProperties_loop _ _ _ = _ |- _ =>
      apply parseProperties_loop_errors in H
    end; close_errs.
Qed.

Lemma parseNodePattern_errors : keeps_errors Parser.parseNodePattern.
Proof.
  intros p r p' H. unfold Parser.parseNodePattern in H.
  split_cases;
    repeat match goal with
    | H : Parser.parseProperties _ = _ |- _ => apply parseProperties_errors in H
    end; close_errs.
Qed.

Lemma parseEdgePattern_errors : keeps_errors Parser.parseEdgePattern.
Proof.
  intros p r p' H. unfold Parser.parseEdgePattern in H. split_cases; close_errs.
Qed.

Lemma parsePattern_loop_errors n pattern :
  keeps_errors (Parser.parsePattern_loop n pattern).
Proof.
  revert pattern. induction n as [|n IH]; intros pattern p r p' H; cbn in H.
  { by simplify_eq. }
  split_cases;
    repeat match goal with
    | H : Parser.parseEdgePattern _ = _ |- _ => apply parseEdgePattern_errors in H
    | H : Parser.parseNodePattern _ = _ |- _ => apply parseNodePattern_errors in H
    | H : Parser.parsePattern_loop _ _ _ = _ |- _ => apply IH in H
    end; close_errs.
Qed.

Lemma parseMatchClause_errors : keeps_errors Parser.parseMatchClause.
Proof.
  intros p r p' H. unfold Parser.parseMatchClause, Parser.parsePattern in H.
  split_cases;
    repeat match goal with
    | H : Parser.parseNodePattern _ = _ |- _ => apply parseNodePattern_errors in H
    | H : Parser.parsePattern_loop _ _ _ = _ |- _ => apply parsePattern_loop_errors in H
    end; close_errs.
Qed.

Lemma parsePrimaryExpression_errors : keeps_errors Parser.parsePrimaryExpression.
Proof.
  intros p r p' H. unfold Parser.parsePrimaryExpression in H.
  split_cases;
    repeat match goal with
    | H : Parser.parseLiteral _ = _ |- _ => apply parseLiteral_errors in H
    end; close_errs.
Qed.

Lemma parseComparisonExpression_errors : keeps_errors Parser.parseComparisonExpression.
Proof.
  intros p r p' H. unfold Parser.parseComparisonExpression in H.
  split_cases;
    repeat match goal with
    | H : Parser.parsePrimaryExpression _ = _ |- _ =>
      apply parsePrimaryExpression_errors in H
    end; close_errs.
Qed.

Lemma binary_loop_errors operand t n lhs :
  keeps_errors operand → keeps_errors (Parser.binary_loop operand t n lhs).
Proof.
  intros Hop. revert lhs. induction n as [|n IH]; intros lhs p r p' H; cbn in H.
  { by simplify_eq. }
  split_cases;
    repeat match goal with
    | H : operand _ = _ |- _ => apply Hop in H
    | H : Parser.binary_loop _ _ _ _ _ = _ |- _ => apply IH in H
    end; close_errs.
Qed.

Lemma parseAndExpression_errors : keeps_errors Parser.parseAndExpression.
Proof.
  intros p r p' H. unfold Parser.parseAndExpression in H.
  split_cases;
    repeat match goal with
    | H : Parser.parseComparisonExpression _ = _ |- _ =>
      apply parseComparisonExpression_errors in H
    | H : Parser.binary_loop _ _ _ _ _ = _ |- _ =>
      apply (binary_loop_errors _ _ _ _ parseComparisonExpression_errors) in H
    end; close_errs.
Qed.

Lemma parseWhereClause_errors : keeps_errors Parser.parseWhereClause.
Proof.
  intros p r p' H.
  unfold Parser.parseWhereClause, Parser.parseExpression, Parser.parseOrExpression in H.
  split_cases;
    repeat match goal with
    | H : Parser.parseAndExpression _ = _ |- _ => apply parseAndExpression_errors in H
    | H : Parser.binary_loop _ _ _ _ _ = _ |- _ =>
      apply (binary_loop_errors _ _ _ _ parseAndExpression_errors) in H
    end; close_errs.
Qed.

Lemma parseReturn_loop_errors n items :
  keeps_errors (Parser.parseReturn_loop n items).
Proof.
  revert items. induction n as [|n IH]; intros items p r p' H; cbn in H.
  { by simplify_eq. }
  unfold Parser.parseReturnExpression in H.
  split_cases;
    repeat match goal with
    | H : Parser.parsePrimaryExpression _ = _ |- _ =>
      apply parsePrimaryExpression_errors in H
    | H : Parser.parseReturn_loop _ _ _ = _ |- _ => apply IH in H
    end; close_errs.
Qed.

Lemma parseReturnClause_errors : keeps_errors Parser.parseReturnClause.
Proof.
  intros p r p' H. unfold Parser.parseReturnClause in H.
  split_cases;
    repeat match goal with
    | H : Parser.parseReturn_loop _ _ _ = _ |- _ => apply parseReturn_loop_errors in H
    end; close_errs.
Qed.

Lemma parseLimitClause_errors : keeps_errors Parser.parseLimitClause.
Proof.
  intros p r p' H. unfold Parser.parseLimitClause in H. split_cases; close_errs.
Qed.

Lemma Parse_errors : keeps_errors Parser.Parse.
Proof.
  intros p r p' H. unfold Parser.Parse in H.
  split_cases;
    repeat match goal with
    | H : Parser.parseMatchClause _ = _ |- _ => apply parseMatchClause_errors in H
    | H : Parser.parseWhereClause _ = _ |- _ => apply parseWhereClause_errors in H
    | H : Parser.parseReturnClause _ = _ |- _ => apply parseReturnClause_errors in H
    | H : Parser.parseLimitClause _ = _ |- _ => apply parseLimitClause_errors in H
    end; close_errs.
Qed.

Lemma NewParser_errors input : errors (Parser.NewParser input) = [].
Proof. unfold Parser.NewParser. by rewrite !nextToken_errors. Qed.
End ParseErrorsFacts.

#[local] Transparent Parser.nextToken.

(** X22.  Input that does not start with a clause keyword.  When the first
    token of the input is none of MATCH, WHERE, RETURN and LIMIT (the input
    is empty, or starts with any other token), [Parse] on a new parser
    returns the empty query without an error and consumes nothing: the
    input is not required to hold a clause, and what is not a clause is not
    looked at. *)
Theorem Parse_without_clause_keyword (input : string) :
  let p := Parser.NewParser input in
  TokType (current p) ∉ [TokenMatch; TokenWhere; TokenReturn; TokenLimit] →
  Parser.Parse p = (Ok NewQuery, p).
Proof.
  intros p H. unfold Parser.Parse.
  rewrite !currentTokenIs_ne by (intros E; apply H; rewrite E; set_solver).
  cbn beta iota. unfold p. rewrite NewParser_errors. by rewrite bool_decide_eq_true_2.
Qed.

Lemma Parse_without_clause_keyword_witness :
  let p := Parser.NewParser "(a)-[r]->(b) RETURN a" in
  Parser.Parse p = (Ok NewQuery, p).
Proof.
  intros p. apply (Parse_without_clause_keyword "(a)-[r]->(b) RETURN a").
  assert (E : TokType (current (Parser.NewParser "(a)-[r]->(b) RETURN a")) = TokenLeftParen)
    by (by vm_compute).
  rewrite E. rewrite !not_elem_of_cons. split_and!; try done. apply not_elem_of_nil.
Defined.

(** X23.  The parser's error list.  No function that [Parse] calls adds to
    the parser's list of errors: after [Parse] the list is as it was
    before, and on a new parser it is empty, whether [Parse] returns a
    query or an error.  The first failing clause is reported through the
    returned error only. *)
Theorem Parse_keeps_error_list :
  (∀ p, errors (Parser.Parse p).2 = errors p) ∧
  (∀ input, errors (Parser.Parse (Parser.NewParser input)).2 = []).
Proof.
  assert (H : ∀ p, errors (Parser.Parse p).2 = errors p).
  { intros p. destruct (Parser.Parse p) as [r p'] eqn:E.
    by apply Parse_errors in E. }
  split; [done|]. intros input. by rewrite H, NewParser_errors.
Qed.

(** ** Breadth-first search *)

Section TraversalFacts.
Implicit Types (g : Graph) (st : bfs_state) (order path : list Z) (pm : gmap Z Z).

Lemma size_list_to_set_le (l : list Z) : (size (list_to_set l : gset Z) ≤ length l)%nat.
Proof.
  induction l as [|x l IH]; cbn; [by rewrite size_empty|].
  rewrite size_union_alt, size_singleton.
  pose proof (subseteq_size (list_to_set l ∖ {[x]}) (list_to_set l : gset Z)) as H.
  specialize (H ltac:(set_solver)). lia.
Qed.

Lemma node_ids_size g : (size (node_ids g) ≤ Graph.NodeCount g)%nat.
Proof.
  unfold node_ids, Graph.NodeCount.
  etrans; [apply size_list_to_set_le|].
  by rewrite !length_fmap, length_map_to_list.
Qed.

Lemma node_ids_stored g k nd : nodes g !! k = Some nd → nID nd ∈ node_ids g.
Proof.
  intros H. unfold node_ids. apply elem_of_list_to_set, list_elem_of_fmap.
  exists nd. split; [done|]. apply list_elem_of_fmap. exists (k, nd).
  split; [done|]. by apply elem_of_map_to_list.
Qed.

Lemma neighbor_stored g u l nb :
  Graph.GetNeighbors u g = Ok l → nb ∈ l → ∃ k, nodes g !! k = Some nb.
Proof.
  unfold Graph.GetNeighbors. destruct (Graph.GetNode u g); [|done].
  intros [= <-] (e & _ & H)%list_elem_of_omap.
  unfold Graph.neighbor_of, Graph.GetEdge, Graph.GetNode in H.
  destruct (edges g !! e) as [ed|]; [|done].
  destruct (nodes g !! Target ed) as [x|] eqn:E; [|done].
  exists (Target ed). congruence.
Qed.

Lemma neighbor_ids_in g u l nb :
  Graph.GetNeighbors u g = Ok l → nb ∈ l → nID nb ∈ neighbor_ids g u.
Proof.
  intros H Hin. unfold neighbor_ids. rewrite H. apply list_elem_of_fmap. eauto.
Qed.

(** A bounded list without duplicates. *)
Lemma NoDup_bounded (l : list Z) (start : Z) g :
  NoDup l → (∀ v, v ∈ l → v = start ∨ v ∈ node_ids g) →
  (length l ≤ S (Graph.NodeCount g))%nat.
Proof.
  intros Hnd Hin.
  rewrite <-(size_list_to_set (C := gset Z) l Hnd).
  etrans; [apply (subseteq_size _ ({[start]} ∪ node_ids g))|].
  - intros v Hv%elem_of_list_to_set. destruct (Hin v Hv); set_solver.
  - rewrite size_union_alt, size_singleton.
    pose proof (subseteq_size (node_ids g ∖ {[start]}) (node_ids g)) as H.
    specialize (H ltac:(set_solver)). pose proof (node_ids_size g). lia.
Qed.

(** The walk along the parents. *)
Lemma parent_chain_frame g pm start v path w u :
  parent_chain g pm start v path → pm !! w = None →
  parent_chain g (<[w := u]> pm) start v path.
Proof.
  intros H Hw. induction H as [|v u' path Hv Hpm Hn _ IH]; [constructor|].
  econstructor; [done| |done|done].
  rewrite lookup_insert_ne; [done|]. intros ->. congruence.
Qed.

Lemma parent_chain_ends g pm start v path :
  parent_chain g pm start v path → head path = Some start ∧ last path = Some v.
Proof.
  induction 1 as [|v u path _ _ _ _ [IH1 IH2]]; [done|]. split.
  - destruct path; [done|]. done.
  - by rewrite last_snoc.
Qed.

Lemma reconstructPath_loop_chain g pm start v path :
  parent_chain g pm start v path →
  ∀ n suffix, (length path ≤ n)%nat →
    Traversal.reconstructPath_loop n pm start (v :: suffix) v = Some (path ++ suffix).
Proof.
  induction 1 as [|v u path Hv Hpm _ _ IH]; intros n suffix Hn.
  - destruct n; [cbn in Hn; lia|]. cbn. by rewrite bool_decide_eq_true_2.
  - rewrite length_app in Hn. cbn in Hn. destruct n; [lia|]. cbn.
    rewrite bool_decide_eq_false_2 by done. rewrite Hpm.
    rewrite IH by lia. by rewrite <-app_assoc.
Qed.

Lemma wrap_int_small z : - 2 ^ 63 ≤ z < 2 ^ 63 → wrap_int z = z.
Proof. intros H. unfold wrap_int. rewrite Z.mod_small; lia. Qed.

Lemma bfs_visit_spec g start st order current dist nb :
  bfs_inv g start st order →
  current ∈ order ++ queue st →
  dist = default 0 (distanceMap st !! current) →
  nID nb ∈ neighbor_ids g current → nID nb ∈ node_ids g →
  let st' := Traversal.bfs_visit current dist st nb in
  bfs_inv g start st' order ∧
  nID nb ∈ order ++ queue st' ∧
  queue st `prefix_of` queue st' ∧
  (∀ v, v ∈ order ++ queue st → distanceMap st' !! v = distanceMap st !! v).
Proof.
  intros (Hnd & Hvis & Hstart & Hids & Hpm & Hsz & Hch) Hcur Hdist Hnb Hid st'.
  unfold st', Traversal.bfs_visit.
  destruct (default false (visited st !! nID nb)) eqn:Hv.
  { split_and!; try done. by apply Hvis. }
  assert (Hnew : nID nb ∉ order ++ queue st).
  { intros H%Hvis. congruence. }
  assert (Hne : nID nb ≠ start) by (intros E; by rewrite E in Hnew).
  assert (Hpmn : parentMap st !! nID nb = None).
  { destruct (parentMap st !! nID nb) eqn:E; [|done].
    destruct (Hpm (nID nb)) as [H _]; [by rewrite E|done]. }
  assert (Hnd' : NoDup ((order ++ queue st) ++ [nID nb])).
  { apply NoDup_app. split_and!; [done| |apply NoDup_singleton].
    intros x Hx ->%list_elem_of_singleton. done. }
  assert (Hids' : ∀ v, v ∈ (order ++ queue st) ++ [nID nb] → v = start ∨ v ∈ node_ids g).
  { intros v [Hv'| ->%list_elem_of_singleton]%elem_of_app; [by apply Hids|by right]. }
  pose proof (NoDup_bounded _ start g Hnd' Hids') as Hlen.
  rewrite length_app in Hlen. cbn [length] in Hlen.
  unfold bfs_inv. cbn [queue visited parentMap distanceMap]. rewrite app_assoc.
  split; [|split_and!].
  - split_and!; [done| | |done| | |].
    + intros v. rewrite elem_of_app, list_elem_of_singleton.
      destruct (decide (v = nID nb)) as [->|Hvn].
      * rewrite lookup_insert_eq. cbn. tauto.
      * rewrite lookup_insert_ne by done. rewrite Hvis. tauto.
    + apply elem_of_app. by left.
    + intros v Hs. rewrite elem_of_app, list_elem_of_singleton.
      destruct (decide (v = nID nb)) as [->|Hvn]; [by split; [right|]|].
      rewrite lookup_insert_ne in Hs by done. destruct (Hpm v Hs). tauto.
    + rewrite map_size_insert_None by done. rewrite length_app. cbn. lia.
    + intros v [Hv'| ->%list_elem_of_singleton]%elem_of_app.
      * destruct (Hch v Hv') as (path & Hp & Hl & Hd). exists path. split_and!.
        -- by apply parent_chain_frame.
        -- rewrite map_size_insert_None by done. lia.
        -- intros Hb. rewrite lookup_insert_ne; [by apply Hd|]. by intros <-.
      * destruct (Hch current Hcur) as (path & Hp & Hl & Hd).
        exists (path ++ [nID nb]). split_and!.
        -- econstructor; [done|by rewrite lookup_insert_eq|done|].
           by apply parent_chain_frame.
        -- rewrite map_size_insert_None by done. rewrite length_app. cbn. lia.
        -- intros Hb. rewrite lookup_insert_eq. f_equal.
           rewrite Hdist, (Hd Hb). cbn [from_option]. unfold id.
           rewrite length_app. cbn [length].
           rewrite wrap_int_small; lia.
  - apply elem_of_app. right. by apply list_elem_of_singleton.
  - by apply prefix_app_r.
  - intros v Hv'. rewrite lookup_insert_ne; [done|]. by intros <-.
Qed.

Lemma prefix_queue order (q q' : list Z) v :
  q `prefix_of` q' → v ∈ order ++ q → v ∈ order ++ q'.
Proof.
  intros [k ->]. rewrite !elem_of_app. tauto.
Qed.

Lemma bfs_visit_fold g start order current dist (l : list Node) :
  ∀ st,
  bfs_inv g start st order →
  current ∈ order ++ queue st →
  dist = default 0 (distanceMap st !! current) →
  (∀ nb, nb ∈ l → nID nb ∈ neighbor_ids g current ∧ nID nb ∈ node_ids g) →
  let st' := fold_left (Traversal.bfs_visit current dist) l st in
  bfs_inv g start st' order ∧
  (∀ nb, nb ∈ l → nID nb ∈ order ++ queue st') ∧
  queue st `prefix_of` queue st' ∧
  (∀ v, v ∈ order ++ queue st → distanceMap st' !! v = distanceMap st !! v).
Proof.
  induction l as [|nb l IH]; intros st Hinv Hcur Hdist Hl; cbn.
  { split_and!; try done. by intros nb ?%elem_of_nil. }
  destruct (Hl nb) as [Hn Hi]; [apply list_elem_of_here|].
  destruct (bfs_visit_spec g start st order current dist nb Hinv Hcur Hdist Hn Hi)
    as (Hinv1 & Hin1 & Hpre1 & Hdist1).
  destruct (IH (Traversal.bfs_visit current dist st nb) Hinv1
              (prefix_queue _ _ _ _ Hpre1 Hcur))
    as (Hinv2 & Hin2 & Hpre2 & Hdist2).
  { by rewrite Hdist1. }
  { intros x Hx. apply Hl. by apply list_elem_of_further. }
  split_and!; [done| | |].
  - intros x [->|Hx]%elem_of_cons; [by apply (prefix_queue _ _ _ _ Hpre2)|by apply Hin2].
  - by etrans.
  - intros v Hv. rewrite Hdist2 by (by apply (prefix_queue _ _ _ _ Hpre1)).
    by apply Hdist1.
Qed.

(** Taking the head of the queue into the order. *)
Lemma bfs_inv_dequeue g start st order current rest :
  queue st = current :: rest →
  bfs_inv g start st order →
  bfs_inv g start
    {| queue := rest; visited := visited st; parentMap := parentMap st;
       distanceMap := distanceMap st |} (order ++ [current]).
Proof.
  intros Hq. unfold bfs_inv. cbn [queue visited parentMap distanceMap].
  rewrite Hq. by rewrite <-(app_assoc order [current] rest).
Qed.

Lemma bfs_loop_spec g start target maxDepth :
  ∀ n st order,
  bfs_inv g start st order → bfs_closed g target maxDepth st order →
  (Graph.NodeCount g + 2 ≤ n + length order)%nat →
  ∃ r st',
    Traversal.bfs_loop n g start target maxDepth st order = Ok r ∧
    bfs_post g start target maxDepth st' r ∧
    order ++ queue st `prefix_of` VisitedOrder r ++ queue st'.
Proof.
  induction n as [|n IH]; intros st order Hinv Hcl Hn.
  { destruct Hinv as (Hnd & _ & _ & Hids & _).
    pose proof (NoDup_bounded _ start g Hnd Hids) as H.
    rewrite length_app in H. cbn in Hn. lia. }
  cbn [Traversal.bfs_loop]. destruct (queue st) as [|current rest] eqn:Hq.
  { eexists _, st. split; [done|]. split; [|by rewrite Hq].
    split; [done|]. cbn. done. }
  pose proof (bfs_inv_dequeue _ _ _ _ _ _ Hq Hinv) as Hinv1.
  set (st1 := {| queue := rest; visited := visited st; parentMap := parentMap st;
                 distanceMap := distanceMap st |}) in *.
  assert (Hcur : current ∈ (order ++ [current]) ++ queue st1).
  { rewrite !elem_of_app, list_elem_of_singleton. tauto. }
  assert (Hmem : ∀ v, v ∈ order ++ queue st → v ∈ (order ++ [current]) ++ queue st1).
  { intros v. rewrite Hq. unfold st1. cbn [queue].
    by rewrite <-(app_assoc order [current] rest). }
  assert (Hfuel : (Graph.NodeCount g + 2 ≤ n + length (order ++ [current]))%nat).
  { rewrite length_app. cbn. lia. }
  assert (Hpre : ∀ r st', (order ++ [current]) ++ queue st1 `prefix_of` VisitedOrder r ++ queue st' →
                 order ++ current :: rest `prefix_of` VisitedOrder r ++ queue st').
  { intros r st'. unfold st1. cbn [queue]. by rewrite <-(app_assoc order [current] rest). }
  fold (depth_limited maxDepth (distanceMap st1) current).
  destruct (depth_limited maxDepth (distanceMap st1) current) eqn:Hlim.
  { (* cut off by the depth limit *)
    destruct (IH st1 (order ++ [current]) Hinv1) as (r & st' & Hr & Hpost & Hp); [|done|].
    - intros u [Hu| ->%list_elem_of_singleton]%elem_of_app; [|by left].
      destruct (Hcl u Hu) as [H|[Ht H]]; [by left|right]. split; [done|].
      intros v Hv. apply Hmem. by apply H.
    - exists r, st'. split_and!; [done|done|by apply Hpre]. }
  case_bool_decide as Ht.
  { (* the target *)
    destruct Hinv1 as (Hnd & Hvis & Hstart & Hids & Hpm & Hsz & Hch).
    destruct (Hch current Hcur) as (path & Hp & Hl & Hd).
    unfold Traversal.reconstructPath.
    rewrite (reconstructPath_loop_chain g _ _ _ _ Hp) by done. rewrite app_nil_r.
    eexists _, st1. split; [done|]. split; [|by apply Hpre]. split; [done|]. cbn.
    exists current. split_and!; try done. by rewrite last_snoc. }
  destruct (Graph.GetNeighbors current g) as [l|err] eqn:Hl.
  - (* the neighbours *)
    destruct (bfs_visit_fold g start (order ++ [current]) current
                (default 0 (distanceMap st !! current)) l st1 Hinv1 Hcur eq_refl)
      as (Hinv2 & Hin2 & Hpre2 & Hdist2).
    { intros nb Hnb. split; [by eapply neighbor_ids_in|].
      destruct (neighbor_stored _ _ _ _ Hl Hnb) as [k Hk]. by eapply node_ids_stored. }
    set (st2 := fold_left _ l st1) in *.
    destruct (IH st2 (order ++ [current]) Hinv2) as (r & st' & Hr & Hpost & Hp); [|done|].
    + intros u Hu.
      assert (Hu1 : u ∈ (order ++ [current]) ++ queue st1) by (apply elem_of_app; by left).
      apply elem_of_app in Hu as [Hu| ->%list_elem_of_singleton].
      * destruct (Hcl u Hu) as [H|[Hnt H]].
        -- left. unfold depth_limited in *. by rewrite Hdist2.
        -- right. split; [done|]. intros v Hv.
           apply (prefix_queue _ _ _ _ Hpre2), Hmem. by apply H.
      * right. split; [done|]. intros v Hv. unfold neighbor_ids in Hv. rewrite Hl in Hv.
        apply list_elem_of_fmap in Hv as (nb & -> & Hnb). by apply Hin2.
    + exists r, st'. split_and!; [done|done|]. apply Hpre. etrans; [|done].
      by apply prefix_app, Hpre2.
  - (* no neighbours *)
    destruct (IH st1 (order ++ [current]) Hinv1) as (r & st' & Hr & Hpost & Hp); [|done|].
    + intros u [Hu| ->%list_elem_of_singleton]%elem_of_app.
      * destruct (Hcl u Hu) as [H|[Hnt H]]; [by left|right]. split; [done|].
        intros v Hv. apply Hmem. by apply H.
      * right. split; [done|]. intros v Hv. unfold neighbor_ids in Hv.
        rewrite Hl in Hv. by apply elem_of_nil in Hv.
    + exists r, st'. split_and!; [done|done|by apply Hpre].
Qed.

Lemma bfs_inv_initial g start :
  bfs_inv g start
    {| queue := [start]; visited := {[ start := true ]};
       parentMap := ∅; distanceMap := {[ start := 0 ]} |} [].
Proof.
  unfold bfs_inv. cbn [queue visited parentMap distanceMap app].
  split_and!.
  - apply NoDup_singleton.
  - intros v. rewrite list_elem_of_singleton.
    destruct (decide (v = start)) as [->|Hv].
    + by rewrite lookup_singleton_eq.
    + rewrite lookup_singleton_ne by done. cbn. split; [done|]. intros ?; done.
  - by apply list_elem_of_singleton.
  - intros v ?%list_elem_of_singleton. by left.
  - intros v [x Hx]. by rewrite lookup_empty in Hx.
  - rewrite map_size_empty. cbn. lia.
  - intros v ->%list_elem_of_singleton. exists [start]. split_and!.
    + constructor.
    + cbn. lia.
    + intros _. by rewrite lookup_singleton_eq.
Qed.

Lemma BFS_spec g start target maxDepth :
  is_Some (nodes g !! start) →
  ∃ r st',
    Traversal.BFS g start target maxDepth = Ok r ∧
    bfs_post g start target maxDepth st' r ∧
    [start] `prefix_of` VisitedOrder r ++ queue st'.
Proof.
  intros [nd Hnd]. unfold Traversal.BFS, Graph.GetNode. rewrite Hnd.
  apply (bfs_loop_spec g start target maxDepth _ _ [] (bfs_inv_initial g start)).
  - intros u Hu. by apply elem_of_nil in Hu.
  - cbn. lia.
Qed.

(** On a consistent graph the neighbours are the targets of the edges. *)
Lemma neighbor_ids_has_edge g u v :
  store_inv g → v ∈ neighbor_ids g u ↔ has_edge g u v.
Proof.
  intros (([Hc Hs] & _) & [Hk _] & Hd & Ha).
  unfold neighbor_ids, Graph.GetNeighbors, Graph.GetNode, has_edge. split.
  - destruct (nodes g !! u) as [nd|] eqn:Hn; [|by intros ?%elem_of_nil].
    intros (nb & -> & (e & He & (ed & Hed & Hnb)%neighbor_of_Some)%list_elem_of_omap)%list_elem_of_fmap.
    exists e, ed. split_and!; [done| |].
    + by apply (Hs u nd e ed).
    + symmetry. by apply (Hk _ _ Hnb).
  - intros (e & ed & Hed & <- & <-).
    destruct (Hd e ed Hed) as [[nd Hn] [nb Hnb]]. rewrite Hn.
    apply list_elem_of_fmap. exists nb. split; [symmetry; by apply (Hk _ _ Hnb)|].
    apply list_elem_of_omap. exists e. split.
    + by apply (Hc e ed Hed).
    + apply neighbor_of_Some. eauto.
Qed.

Lemma is_path_snoc g u path v w :
  is_path g u path v → has_edge g v w → is_path g u (path ++ [w]) w.
Proof.
  revert u. induction path as [|x [|y rest] IH]; intros u; [done| |].
  - intros [-> ->] He. cbn. done.
  - intros (-> & He & Hp) Hw. cbn [app is_path]. split; [done|]. split; [done|].
    by apply IH.
Qed.

Lemma parent_chain_path g pm start v path :
  store_inv g → parent_chain g pm start v path →
  is_path g start path v ∧ reachable g start v.
Proof.
  intros Hg. induction 1 as [|v u path _ _ Hn _ [IH1 IH2]].
  - split; [done|]. apply rtc_refl.
  - apply (neighbor_ids_has_edge _ _ _ Hg) in Hn. split.
    + by eapply is_path_snoc.
    + eapply rtc_r; done.
Qed.

(** Without a depth limit, what is closed under the edges holds all that
    can be reached. *)
Lemma bfs_closed_reachable g target maxDepth st order start v :
  store_inv g → maxDepth ≤ 0 → queue st = [] →
  bfs_closed g target maxDepth st order → start ∈ order →
  reachable g start v → v ∈ order ∧ target ≠ Some v.
Proof.
  intros Hg Hmax Hq Hcl Hstart Hr.
  assert (Hno : ∀ u, depth_limited maxDepth (distanceMap st) u = false).
  { intros u. unfold depth_limited. by rewrite (proj2 (Z.ltb_ge 0 maxDepth)). }
  assert (Hin : v ∈ order).
  { unfold reachable in Hr. revert v Hr.
    apply (rtc_ind_r (λ z, z ∈ order)); [done|]. intros w z Hu Hw IH.
    destruct (Hcl _ IH) as [H|[_ H]]; [by rewrite Hno in H|].
    specialize (H z). rewrite Hq, app_nil_r in H. apply H.
    by apply neighbor_ids_has_edge. }
  split; [done|]. destruct (Hcl _ Hin) as [H|[H _]]; [by rewrite Hno in H|done].
Qed.

(** *** Levels *)

Lemma ascending_snoc l w : ascending l → Forall (λ x, x ≤ w) l → ascending (l ++ [w]).
Proof.
  induction l as [|x l IH]; cbn; [done|]. intros [Hf Ha] Hall.
  apply Forall_cons in Hall as [Hx Hall]. split; [|by apply IH].
  apply Forall_app. split; [done|]. by apply Forall_singleton.
Qed.

Lemma bfs_new_dist g start st order current w :
  bfs_inv g start st order → Z.of_nat (Graph.NodeCount g) < 2 ^ 63 →
  current ∈ order ++ queue st → w ∉ order ++ queue st → w ∈ node_ids g →
  wrap_int (bfs_dist st current + 1) = bfs_dist st current + 1.
Proof.
  intros (Hnd & Hvis & Hstart & Hids & Hpm & Hsz & Hch) Hsize Hcur Hnew Hid.
  assert (Hnd' : NoDup ((order ++ queue st) ++ [w])).
  { apply NoDup_app. split_and!; [done| |apply NoDup_singleton].
    intros x Hx ->%list_elem_of_singleton. done. }
  assert (Hids' : ∀ v, v ∈ (order ++ queue st) ++ [w] → v = start ∨ v ∈ node_ids g).
  { intros v [Hv'| ->%list_elem_of_singleton]%elem_of_app; [by apply Hids|by right]. }
  pose proof (NoDup_bounded _ start g Hnd' Hids') as Hlen.
  rewrite length_app in Hlen. cbn [length] in Hlen.
  destruct (Hch current Hcur) as (path & Hp & Hl & Hd).
  unfold bfs_dist. rewrite (Hd Hsize). cbn [from_option]. unfold id.
  apply wrap_int_small. lia.
Qed.

Lemma bfs_visit_levels g start target maxDepth st order expanded current nb :
  Z.of_nat (Graph.NodeCount g) < 2 ^ 63 →
  bfs_inv g start st order →
  current ∈ order ++ queue st →
  (∀ u, u ∈ expanded → u ∈ order) →
  nID nb ∈ node_ids g →
  let dc := bfs_dist st current in
  bfs_levels_mid g target maxDepth st order expanded dc →
  bfs_levels_mid g target maxDepth (Traversal.bfs_visit current dc st nb) order expanded dc.
Proof.
  intros Hsize Hinv Hcur Hexp Hid dc ((Hasc & Hl3 & Hl4) & Hf & Hg).
  pose proof Hinv as (_ & Hvis & _).
  unfold Traversal.bfs_visit.
  destruct (default false (visited st !! nID nb)) eqn:Hv; [done|].
  assert (Hnew : nID nb ∉ order ++ queue st).
  { intros H%Hvis. congruence. }
  pose proof (bfs_new_dist _ _ _ _ _ _ Hinv Hsize Hcur Hnew Hid) as Hw. fold dc in Hw.
  set (w := nID nb) in *.
  set (st' := {| queue := queue st ++ [w]; visited := <[w := true]> (visited st);
                 parentMap := <[w := current]> (parentMap st);
                 distanceMap := <[w := wrap_int (dc + 1)]> (distanceMap st) |}).
  assert (Hdw : bfs_dist st' w = dc + 1).
  { unfold bfs_dist, st'. cbn [distanceMap]. by rewrite lookup_insert_eq. }
  assert (Hdo : ∀ v, v ∈ order ++ queue st → bfs_dist st' v = bfs_dist st v).
  { intros v Hv'. unfold bfs_dist, st'. cbn [distanceMap].
    rewrite lookup_insert_ne; [done|]. by intros <-. }
  assert (HL : ∀ v, v ∈ order ++ queue st' ↔ v ∈ order ++ queue st ∨ v = w).
  { intros v. unfold st'. cbn [queue].
    rewrite app_assoc, elem_of_app, list_elem_of_singleton. tauto. }
  assert (HQ : ∀ v, v ∈ queue st' ↔ v ∈ queue st ∨ v = w).
  { intros v. unfold st'. cbn [queue]. rewrite elem_of_app, list_elem_of_singleton. tauto. }
  assert (HqL : ∀ v, v ∈ queue st → v ∈ order ++ queue st).
  { intros v Hv'. apply elem_of_app. by right. }
  assert (Hlim : ∀ u, u ∈ order ++ queue st →
            depth_limited maxDepth (distanceMap st') u = depth_limited maxDepth (distanceMap st) u).
  { intros u Hu. unfold depth_limited. specialize (Hdo u Hu).
    unfold bfs_dist in Hdo. by rewrite Hdo. }
  split; [split_and!|split].
  - change (queue st') with (queue st ++ [w]). rewrite fmap_app. cbn [fmap list_fmap].
    rewrite Hdw.
    rewrite (list_fmap_ext (bfs_dist st') (bfs_dist st) (queue st));
      [|intros i v Hv'; apply Hdo, HqL; by eapply list_elem_of_lookup_2].
    apply ascending_snoc; [done|]. apply Forall_fmap, Forall_forall.
    intros v Hv'. cbn. by apply Hf, HqL.
  - intros u v [Hu| ->]%HQ [Hv'| ->]%HL.
    + rewrite !Hdo by auto. by apply Hl3.
    + rewrite Hdw, Hdo by auto. specialize (Hg u Hu). lia.
    + rewrite Hdw, Hdo by auto. specialize (Hf v Hv'). lia.
    + lia.
  - intros u Hu.
    assert (HuL : u ∈ order ++ queue st) by (apply elem_of_app; left; by apply Hexp).
    destruct (Hl4 u Hu) as [H|[Ht H]].
    + left. by rewrite Hlim.
    + right. split; [done|]. intros v Hv'. destruct (H v Hv') as [H1 H2].
      split; [apply HL; by left|]. by rewrite !Hdo.
  - intros v [Hv'| ->]%HL; [rewrite Hdo by done; by apply Hf|lia].
  - intros u [Hu| ->]%HQ; [rewrite Hdo by auto; by apply Hg|lia].
Qed.

Lemma bfs_visit_fold_levels g start target maxDepth order expanded current (l : list Node) :
  Z.of_nat (Graph.NodeCount g) < 2 ^ 63 →
  (∀ u, u ∈ expanded → u ∈ order) →
  (∀ nb, nb ∈ l → nID nb ∈ neighbor_ids g current ∧ nID nb ∈ node_ids g) →
  ∀ st,
  bfs_inv g start st order →
  current ∈ order ++ queue st →
  let dc := bfs_dist st current in
  bfs_levels_mid g target maxDepth st order expanded dc →
  bfs_levels_mid g target maxDepth
    (fold_left (Traversal.bfs_visit current dc) l st) order expanded dc.
Proof.
  intros Hsize Hexp. induction l as [|nb l IH]; intros Hl st Hinv Hcur dc Hmid; [done|].
  cbn [fold_left].
  destruct (Hl nb) as [Hn Hi]; [apply list_elem_of_here|].
  destruct (bfs_visit_spec g start st order current dc nb Hinv Hcur eq_refl Hn Hi)
    as (Hinv1 & Hin1 & Hpre1 & Hdist1).
  pose proof (bfs_visit_levels g start target maxDepth st order expanded current nb
                Hsize Hinv Hcur Hexp Hi Hmid) as Hmid1.
  fold dc in Hmid1.
  assert (Hdc : bfs_dist (Traversal.bfs_visit current dc st nb) current = dc).
  { unfold bfs_dist. by rewrite Hdist1. }
  specialize (IH (λ x Hx, Hl x (list_elem_of_further _ _ _ Hx))
                (Traversal.bfs_visit current dc st nb) Hinv1
                (prefix_queue _ _ _ _ Hpre1 Hcur)).
  cbv zeta in IH. rewrite Hdc in IH. by apply IH.
Qed.

Lemma bfs_levels_dequeue g target maxDepth st order current rest :
  queue st = current :: rest →
  bfs_levels g target maxDepth st order order →
  bfs_levels_mid g target maxDepth
    {| queue := rest; visited := visited st; parentMap := parentMap st;
       distanceMap := distanceMap st |} (order ++ [current]) order (bfs_dist st current).
Proof.
  intros Hq (Hasc & Hl3 & Hl4). rewrite Hq in *. cbn in Hasc. destruct Hasc as [Hall Hasc].
  unfold bfs_levels_mid, bfs_levels, bfs_dist in *.
  cbn [queue visited parentMap distanceMap].
  rewrite <-(app_assoc order [current] rest). cbn [app].
  split_and!; [done| |done| |].
  - intros u v Hu Hv. apply Hl3; [|done]. by apply list_elem_of_further.
  - intros v Hv. apply Hl3; [|done]. apply list_elem_of_here.
  - intros u Hu. rewrite Forall_fmap, Forall_forall in Hall. by apply Hall.
Qed.

(** The end of a round: the ID taken from the queue counts as expanded. *)
Lemma bfs_levels_close g target maxDepth st order current :
  bfs_levels_mid g target maxDepth st (order ++ [current]) order (bfs_dist st current) →
  depth_limited maxDepth (distanceMap st) current = true ∨
  (target ≠ Some current ∧
   ∀ v, v ∈ neighbor_ids g current → v ∈ (order ++ [current]) ++ queue st) →
  bfs_levels g target maxDepth st (order ++ [current]) (order ++ [current]).
Proof.
  intros ((Hasc & Hl3 & Hl4) & Hf & Hg) Hcur. split_and!; [done|done|].
  intros u [Hu| ->%list_elem_of_singleton]%elem_of_app; [by apply Hl4|].
  destruct Hcur as [H|[Ht H]]; [by left|right]. split; [done|].
  intros v Hv. split; [by apply H|]. by apply Hf, H.
Qed.

(** When the target is taken from the queue, no path to it is shorter than
    its distance. *)
Lemma bfs_shortest_at g target maxDepth st order t rest :
  store_inv g →
  queue st = t :: rest →
  bfs_levels g target maxDepth st order order →
  depth_limited maxDepth (distanceMap st) t = false →
  ∀ path u, is_path g u path t → u ∈ order ++ queue st →
    bfs_dist st t ≤ bfs_dist st u + (Z.of_nat (length path) - 1).
Proof.
  intros Hg Hq (Hasc & Hl3 & Hl4) Hlim. rewrite Hq in Hasc. cbn in Hasc.
  destruct Hasc as [Hall _]. rewrite Forall_fmap, Forall_forall in Hall.
  induction path as [|x path IH]; intros u Hp Hu; [done|].
  destruct path as [|y path].
  { destruct Hp as [-> ->]. cbn. lia. }
  destruct Hp as (-> & He & Hp). cbn [length] in *.
  destruct (decide (bfs_dist st t ≤ bfs_dist st u)) as [Hle|Hlt]; [lia|].
  assert (Hxo : u ∈ order).
  { rewrite Hq in Hu. apply elem_of_app in Hu as [Hu|Hu]; [done|].
    apply elem_of_cons in Hu as [->|Hu]; [lia|]. specialize (Hall u Hu). cbn in Hall. lia. }
  destruct (Hl4 u Hxo) as [H|[_ H]].
  - unfold depth_limited, bfs_dist in *.
    apply andb_true_iff in H as [H1 H2]. rewrite H1 in Hlim. cbn in Hlim.
    apply Z.leb_le in H2. apply Z.leb_gt in Hlim. lia.
  - destruct (H y) as [Hy Hdy]; [by apply neighbor_ids_has_edge|].
    specialize (IH y Hp Hy). lia.
Qed.

Lemma bfs_dist_start g start st order :
  Z.of_nat (Graph.NodeCount g) < 2 ^ 63 → bfs_inv g start st order →
  bfs_dist st start = 0.
Proof.
  intros Hsize (_ & _ & Hstart & _ & _ & _ & Hch).
  destruct (Hch start Hstart) as (path & Hp & _ & Hd).
  unfold bfs_dist. rewrite (Hd Hsize). inversion Hp; [done|]. congruence.
Qed.

Lemma bfs_loop_shortest g start target maxDepth :
  store_inv g → Z.of_nat (Graph.NodeCount g) < 2 ^ 63 →
  ∀ n st order r,
  bfs_inv g start st order → bfs_levels g target maxDepth st order order →
  Traversal.bfs_loop n g start target maxDepth st order = Ok r → Found r = true →
  ∀ path t, target = Some t → is_path g start path t →
    Distance r ≤ Z.of_nat (length path) - 1.
Proof.
  intros Hg Hsize. induction n as [|n IH]; intros st order r Hinv Hlev Hr Hf; [done|].
  cbn [Traversal.bfs_loop] in Hr. destruct (queue st) as [|current rest] eqn:Hq.
  { injection Hr as <-. done. }
  pose proof (bfs_inv_dequeue _ _ _ _ _ _ Hq Hinv) as Hinv1.
  pose proof (bfs_levels_dequeue _ _ _ _ _ _ _ Hq Hlev) as Hmid1.
  set (st1 := {| queue := rest; visited := visited st; parentMap := parentMap st;
                 distanceMap := distanceMap st |}) in *.
  assert (Hcur : current ∈ (order ++ [current]) ++ queue st1).
  { rewrite !elem_of_app, list_elem_of_singleton. tauto. }
  change (bfs_dist st current) with (bfs_dist st1 current) in Hmid1.
  fold (depth_limited maxDepth (distanceMap st1) current) in Hr.
  destruct (depth_limited maxDepth (distanceMap st1) current) eqn:Hlim.
  { apply (IH st1 (order ++ [current]) r Hinv1); [|done|done].
    apply bfs_levels_close; [done|by left]. }
  case_bool_decide as Ht.
  { destruct (Traversal.reconstructPath _ _ _); [|done]. injection Hr as <-. cbn.
    intros path t Ht' Hp. rewrite Ht in Ht'. injection Ht' as <-.
    pose proof (bfs_shortest_at g target maxDepth st order current rest Hg Hq Hlev Hlim
                  path start Hp) as H.
    destruct Hinv as (Hi1 & Hi2 & Hstart & Hi3).
    specialize (H Hstart).
    rewrite (bfs_dist_start g start st order Hsize) in H by done.
    unfold bfs_dist in H. cbn [distanceMap]. lia. }
  destruct (Graph.GetNeighbors current g) as [l|err] eqn:Hl.
  - assert (Hnbs : ∀ nb, nb ∈ l → nID nb ∈ neighbor_ids g current ∧ nID nb ∈ node_ids g).
    { intros nb Hnb. split; [by eapply neighbor_ids_in|].
      destruct (neighbor_stored _ _ _ _ Hl Hnb) as [k Hk]. by eapply node_ids_stored. }
    destruct (bfs_visit_fold g start (order ++ [current]) current
                (default 0 (distanceMap st !! current)) l st1 Hinv1 Hcur eq_refl Hnbs)
      as (Hinv2 & Hin2 & Hpre2 & Hdist2).
    pose proof (bfs_visit_fold_levels g start target maxDepth (order ++ [current]) order
                  current l Hsize) as Hmid2.
    specialize (Hmid2 ltac:(intros u Hu; apply elem_of_app; by left) Hnbs st1 Hinv1 Hcur Hmid1).
    change (bfs_dist st1 current) with (default 0 (distanceMap st !! current)) in Hmid2.
    set (st2 := fold_left _ l st1) in *.
    apply (IH st2 (order ++ [current]) r Hinv2); [|done|done].
    apply bfs_levels_close.
    + unfold bfs_dist at 1. rewrite Hdist2 by done. done.
    + right. split; [done|]. intros v Hv. unfold neighbor_ids in Hv. rewrite Hl in Hv.
      apply list_elem_of_fmap in Hv as (nb & -> & Hnb). by apply Hin2.
  - apply (IH st1 (order ++ [current]) r Hinv1); [|done|done].
    apply bfs_levels_close; [done|]. right. split; [done|].
    intros v Hv. unfold neighbor_ids in Hv. rewrite Hl in Hv. by apply elem_of_nil in Hv.
Qed.
End TraversalFacts.

(** X24.  [BFS] returns.  On a start node that is not stored it returns
    the not-found error.  On a stored start node it returns a result, for
    every graph, target and depth limit: the visiting order begins with the
    start and names no node twice; when the target was found it is the last
    node visited, and when it was not, the path is nil and the distance
    0. *)
Theorem BFS_returns (g : Graph) (start : Z) (target : option Z) (maxDepth : Z) :
  match nodes g !! start with
  | None => Traversal.BFS g start target maxDepth = Err (ErrNodeNotFound start)
  | Some _ =>
    ∃ r, Traversal.BFS g start target maxDepth = Ok r ∧
      head (VisitedOrder r) = Some start ∧ NoDup (VisitedOrder r) ∧
      if Found r then ∃ t, target = Some t ∧ last (VisitedOrder r) = Some t
      else Path r = [] ∧ Distance r = 0
  end.
Proof.
  destruct (nodes g !! start) as [nd|] eqn:Hn.
  2: { unfold Traversal.BFS, Graph.GetNode. by rewrite Hn. }
  destruct (BFS_spec g start target maxDepth) as (r & st' & Hr & [Hinv Hpost] & Hpre);
    [by rewrite Hn|].
  exists r. split; [done|].
  destruct Hinv as (Hnd & _). apply NoDup_app in Hnd as (Hnd & _).
  destruct (Found r).
  - destruct Hpost as (t & Ht & Hlast & _).
    split; [|split; [done|by exists t]].
    destruct Hpre as [k Hk]. destruct (VisitedOrder r) as [|x o]; [done|].
    by injection Hk as ->.
  - destruct Hpost as (Hp & Hd & Hq & _). split; [|done].
    rewrite Hq, app_nil_r in Hpre. destruct Hpre as [k ->]. done.
Qed.

(** X25.  The path that [BFS] returns.  On a consistent graph that has
    fewer than 2^63 nodes, when [BFS] finds the target, [Path] leads from
    the start to the target along stored edges, [Distance] is the number of
    its edges, and under a depth limit [maxDepth > 0] the distance is below
    the limit: a target at exactly the limit is visited, not found. *)
Theorem BFS_found_path (g : Graph) (start : Z) (target : option Z) (maxDepth : Z)
    (r : TraversalResult) :
  store_inv g → Z.of_nat (Graph.NodeCount g) < 2 ^ 63 →
  Traversal.BFS g start target maxDepth = Ok r → Found r = true →
  ∃ t, target = Some t ∧ is_path g start (Path r) t ∧
    Distance r = Z.of_nat (length (Path r)) - 1 ∧
    (0 < maxDepth → Distance r < maxDepth).
Proof.
  intros Hg Hsize Hr Hf.
  assert (Hs : is_Some (nodes g !! start)).
  { unfold Traversal.BFS, Graph.GetNode in Hr. by destruct (nodes g !! start). }
  destruct (BFS_spec g start target maxDepth Hs) as (r' & st' & Hr' & [Hinv Hpost] & _).
  rewrite Hr in Hr'. injection Hr' as <-. rewrite Hf in Hpost.
  destruct Hpost as (t & Ht & Hlast & Hp & Hd & Hlim).
  exists t. split; [done|]. split; [by apply (parent_chain_path _ _ _ _ _ Hg Hp)|].
  destruct Hinv as (_ & _ & _ & _ & _ & _ & Hch).
  destruct (Hch t) as (path & Hp' & _ & Hdm).
  { apply elem_of_app. left. by apply last_Some_elem_of. }
  assert (path = Path r) as ->.
  { pose proof (reconstructPath_loop_chain _ _ _ _ _ Hp (length (Path r) + length path) [] ltac:(lia)) as H1.
    pose proof (reconstructPath_loop_chain _ _ _ _ _ Hp' (length (Path r) + length path) [] ltac:(lia)) as H2.
    rewrite H1 in H2. rewrite !app_nil_r in H2. by injection H2. }
  rewrite (Hdm Hsize) in Hd. cbn in Hd. split; [done|].
  intros Hmax. unfold depth_limited in Hlim. rewrite (Hdm Hsize) in Hlim. cbn in Hlim.
  rewrite (proj2 (Z.ltb_lt 0 maxDepth) Hmax) in Hlim. cbn in Hlim.
  apply Z.leb_gt in Hlim. unfold id in *. lia.
Qed.

Lemma BFS_found_path_witness :
  ∃ t, Some 2 = Some t ∧ is_path sample_graph 1 [1; 2] t ∧
    1 = Z.of_nat (length [1; 2]) - 1 ∧ (0 < 0 → 1 < 0).
Proof.
  apply (BFS_found_path sample_graph 1 (Some 2) 0
           {| VisitedOrder := [1; 2]; Path := [1; 2]; Found := true; Distance := 1 |}
           sample_graph_store_inv); by vm_compute.
Defined.

(** X26.  [BFS] without a depth limit ([maxDepth <= 0]) on a consistent
    graph.  The target is found exactly when it can be reached from the
    start along stored edges, in their direction.  When no target is found
    (none was given, or it cannot be reached), the nodes visited are exactly
    those that can be reached from the start. *)
Theorem BFS_unbounded_complete (g : Graph) (start : Z) (target : option Z)
    (maxDepth : Z) (r : TraversalResult) :
  store_inv g → maxDepth ≤ 0 →
  Traversal.BFS g start target maxDepth = Ok r →
  (Found r = true ↔ ∃ t, target = Some t ∧ reachable g start t) ∧
  (Found r = false → ∀ v, v ∈ VisitedOrder r ↔ reachable g start v).
Proof.
  intros Hg Hmax Hr.
  assert (Hs : is_Some (nodes g !! start)).
  { unfold Traversal.BFS, Graph.GetNode in Hr. by destruct (nodes g !! start). }
  destruct (BFS_spec g start target maxDepth Hs) as (r' & st' & Hr' & [Hinv Hpost] & _).
  rewrite Hr in Hr'. injection Hr' as <-.
  assert (Hsound : ∀ v, v ∈ VisitedOrder r → reachable g start v).
  { intros v Hv. destruct Hinv as (_ & _ & _ & _ & _ & _ & Hch).
    destruct (Hch v) as (path & Hp & _); [apply elem_of_app; by left|].
    by apply (parent_chain_path _ _ _ _ _ Hg Hp). }
  destruct (Found r).
  - destruct Hpost as (t & Ht & Hlast & _). split; [|done]. split; [|done].
    intros _. exists t. split; [done|]. by apply Hsound, last_Some_elem_of.
  - destruct Hpost as (_ & _ & Hq & Hcl).
    assert (Hstart : start ∈ VisitedOrder r).
    { destruct Hinv as (_ & _ & H & _). by rewrite Hq, app_nil_r in H. }
    split.
    + split; [done|]. intros (t & Ht & Hreach).
      by destruct (bfs_closed_reachable _ _ _ _ _ _ _ Hg Hmax Hq Hcl Hstart Hreach).
    + intros _ v. split; [by apply Hsound|]. intros Hreach.
      by destruct (bfs_closed_reachable _ _ _ _ _ _ _ Hg Hmax Hq Hcl Hstart Hreach).
Qed.

Lemma BFS_unbounded_complete_witness :
  let r := {| VisitedOrder := [2]; Path := []; Found := false; Distance := 0 |} in
  (Found r = true ↔ ∃ t, Some 1 = Some t ∧ reachable sample_graph 2 t) ∧
  (Found r = false → ∀ v, v ∈ VisitedOrder r ↔ reachable sample_graph 2 v).
Proof.
  intros r.
  apply (BFS_unbounded_complete sample_graph 2 (Some 1) 0 r sample_graph_store_inv);
    by vm_compute.
Defined.

(** X27.  [BFS] finds a shortest path.  On a consistent graph with fewer
    than 2^63 nodes, when [BFS] finds the target, no path from the start to
    the target along stored edges has fewer edges than [Distance], with or
    without a depth limit. *)
Theorem BFS_shortest_path (g : Graph) (start : Z) (target : option Z) (maxDepth : Z)
    (r : TraversalResult) (path : list Z) (t : Z) :
  store_inv g → Z.of_nat (Graph.NodeCount g) < 2 ^ 63 →
  Traversal.BFS g start target maxDepth = Ok r → Found r = true →
  target = Some t → is_path g start path t →
  Distance r ≤ Z.of_nat (length path) - 1.
Proof.
  intros Hg Hsize Hr Hf Ht Hp.
  unfold Traversal.BFS in Hr. destruct (Graph.GetNode start g); [|done].
  eapply (bfs_loop_shortest g start target maxDepth Hg Hsize _ _ _ r
            (bfs_inv_initial g start)); [|exact Hr|exact Hf|exact Ht|exact Hp].
  unfold bfs_levels, bfs_dist. cbn [queue distanceMap app]. split_and!.
  - cbn. split; [apply Forall_nil_2|done].
  - intros u v ->%list_elem_of_singleton ->%list_elem_of_singleton. lia.
  - intros u Hu. by apply elem_of_nil in Hu.
Qed.

Lemma BFS_shortest_path_witness : 1 ≤ Z.of_nat (length [1; 2]) - 1.
Proof.
  apply (BFS_shortest_path sample_graph 1 (Some 2) 0
           {| VisitedOrder := [1; 2]; Path := [1; 2]; Found := true; Distance := 1 |}
           [1; 2] 2 sample_graph_store_inv); try (by vm_compute).
  cbn. split_and!; try done. eexists 1, _. split_and!; by vm_compute.
Defined.

(** ** Depth-first search *)

Section DFSFacts.
Implicit Types (g : Graph) (st : dfs_state) (path : list Z).

Lemma parent_chain_unique g pm start v p1 p2 :
  parent_chain g pm start v p1 → parent_chain g pm start v p2 → p1 = p2.
Proof.
  intros H1 H2.
  pose proof (reconstructPath_loop_chain _ _ _ _ _ H1 (length p1 + length p2) []
                ltac:(lia)) as E1.
  pose proof (reconstructPath_loop_chain _ _ _ _ _ H2 (length p1 + length p2) []
                ltac:(lia)) as E2.
  rewrite E1 in E2. rewrite !app_nil_r in E2. by injection E2.
Qed.

Lemma dfs_inv_bounded g start st :
  dfs_inv g start st → (length (dfs_order st) ≤ S (Graph.NodeCount g))%nat.
Proof. intros (Hnd & _ & _ & Hids & _). by eapply NoDup_bounded. Qed.

(** Entering an unvisited neighbour [w] of [current]. *)
Lemma dfs_enter_child g start st current w :
  dfs_inv g start st → current ∈ dfs_order st →
  default false (dfs_visited st !! w) = false →
  w ∈ neighbor_ids g current → w ∈ node_ids g →
  let st2 := Traversal.dfs_set_parent w current st in
  dfs_inv g start (Traversal.dfs_enter w st2) ∧
  (w ∉ dfs_order st) ∧
  (∀ v path, parent_chain g (dfs_parentMap st) start v path →
             parent_chain g (dfs_parentMap st2) start v path) ∧
  (∀ path, parent_chain g (dfs_parentMap st) start current path →
           parent_chain g (dfs_parentMap st2) start w (path ++ [w]) ∧
           (length path ≤ Graph.NodeCount g)%nat).
Proof.
  intros (Hnd & Hvis & Hstart & Hids & Hpm & Hsz & Hch) Hcur Hv Hnb Hid st2.
  assert (Hnew : w ∉ dfs_order st).
  { intros H%Hvis. congruence. }
  assert (Hne : w ≠ start) by (intros E; by rewrite E in Hnew).
  assert (Hpmn : dfs_parentMap st !! w = None).
  { destruct (dfs_parentMap st !! w) eqn:E; [|done].
    destruct (Hpm w) as [H _]; [by rewrite E|done]. }
  assert (Hnd' : NoDup (dfs_order st ++ [w])).
  { apply NoDup_app. split_and!; [done| |apply NoDup_singleton].
    intros x Hx ->%list_elem_of_singleton. done. }
  assert (Hids' : ∀ v, v ∈ dfs_order st ++ [w] → v = start ∨ v ∈ node_ids g).
  { intros v [Hv'| ->%list_elem_of_singleton]%elem_of_app; [by apply Hids|by right]. }
  pose proof (NoDup_bounded _ start g Hnd' Hids') as Hlen.
  rewrite length_app in Hlen. cbn [length] in Hlen.
  assert (Hframe : ∀ v path, parent_chain g (dfs_parentMap st) start v path →
                     parent_chain g (dfs_parentMap st2) start v path).
  { intros v path Hp. unfold st2. cbn [Traversal.dfs_set_parent dfs_parentMap].
    by apply parent_chain_frame. }
  assert (Hchild : ∀ path, parent_chain g (dfs_parentMap st) start current path →
                     parent_chain g (dfs_parentMap st2) start w (path ++ [w])).
  { intros path Hp. econstructor; [done| |done|by apply Hframe].
    unfold st2. cbn [Traversal.dfs_set_parent dfs_parentMap]. by rewrite lookup_insert_eq. }
  split; [|split_and!; [done|done|]].
  - unfold dfs_inv, st2, Traversal.dfs_enter, Traversal.dfs_set_parent.
    cbn [dfs_order dfs_visited dfs_parentMap].
    split_and!; [done| | |done| | |].
    + intros v. rewrite elem_of_app, list_elem_of_singleton.
      destruct (decide (v = w)) as [->|Hvn].
      * rewrite lookup_insert_eq. cbn. tauto.
      * rewrite lookup_insert_ne by done. rewrite Hvis. tauto.
    + apply elem_of_app. by left.
    + intros v Hs. rewrite elem_of_app, list_elem_of_singleton.
      destruct (decide (v = w)) as [->|Hvn]; [by split; [right|]|].
      rewrite lookup_insert_ne in Hs by done. destruct (Hpm v Hs). tauto.
    + rewrite map_size_insert_None by done. rewrite length_app. cbn. lia.
    + intros v [Hv'| ->%list_elem_of_singleton]%elem_of_app.
      * destruct (Hch v Hv') as (path & Hp & Hl). exists path. split.
        -- by apply Hframe.
        -- rewrite map_size_insert_None by done. lia.
      * destruct (Hch current Hcur) as (path & Hp & Hl). exists (path ++ [w]). split.
        -- by apply Hchild.
        -- rewrite map_size_insert_None by done. rewrite length_app. cbn. lia.
  - intros path Hp. split; [by apply Hchild|].
    destruct (Hch current Hcur) as (path' & Hp' & Hl).
    rewrite (parent_chain_unique _ _ _ _ _ _ Hp Hp'). lia.
Qed.

Lemma dfs_neighbors_spec g start target maxDepth current depth
    (recurse : Z → dfs_state → option (bool * dfs_state)) (fuel : nat) :
  (∀ w st,
     dfs_inv g start (Traversal.dfs_enter w st) →
     (Graph.NodeCount g + 2 ≤ fuel + length (dfs_order (Traversal.dfs_enter w st)))%nat →
     (∀ t, target = Some t → t ∉ dfs_order st) →
     (Z.of_nat (Graph.NodeCount g) < 2 ^ 63 →
      ∃ path, parent_chain g (dfs_parentMap st) start w path ∧
              wrap_int (depth + 1) = Z.of_nat (length path) - 1) →
     ∃ found st', recurse w st = Some (found, st') ∧
       dfs_post g start target maxDepth w (wrap_int (depth + 1))
         (Traversal.dfs_enter w st) st' found) →
  (0 <? maxDepth) && (maxDepth <=? depth) = false →
  ∀ (l : list Node) st,
  dfs_inv g start st → current ∈ dfs_order st →
  (Graph.NodeCount g + 2 ≤ S fuel + length (dfs_order st))%nat →
  (∀ t, target = Some t → t ∉ dfs_order st) →
  (Z.of_nat (Graph.NodeCount g) < 2 ^ 63 →
   ∃ path, parent_chain g (dfs_parentMap st) start current path ∧
           depth = Z.of_nat (length path) - 1) →
  (∀ nb, nb ∈ l → nID nb ∈ neighbor_ids g current ∧ nID nb ∈ node_ids g) →
  ∃ found st',
    Traversal.dfs_neighbors recurse current l st = Some (found, st') ∧
    dfs_inv g start st' ∧
    dfs_order st `prefix_of` dfs_order st' ∧
    (∀ v path, parent_chain g (dfs_parentMap st) start v path →
               parent_chain g (dfs_parentMap st') start v path) ∧
    if found then
      ∃ t path, target = Some t ∧ last (dfs_order st') = Some t ∧
        parent_chain g (dfs_parentMap st') start t path ∧
        (Z.of_nat (Graph.NodeCount g) < 2 ^ 63 → 0 < maxDepth →
         Z.of_nat (length path) - 1 ≤ Z.max depth maxDepth)
    else
      (∀ t, target = Some t → t ∉ dfs_order st') ∧
      (∀ nb, nb ∈ l → nID nb ∈ dfs_order st').
Proof.
  intros Hrec Hlim. induction l as [|nb l IH]; intros st Hinv Hcur Hfuel Htgt Hdepth Hl.
  { exists false, st. cbn. split_and!; try done. by intros nb ?%elem_of_nil. }
  cbn [Traversal.dfs_neighbors].
  destruct (Hl nb) as [Hn Hi]; [apply list_elem_of_here|].
  assert (Hl' : ∀ x, x ∈ l → nID x ∈ neighbor_ids g current ∧ nID x ∈ node_ids g).
  { intros x Hx. apply Hl. by apply list_elem_of_further. }
  destruct (default false (dfs_visited st !! nID nb)) eqn:Hv.
  { (* already visited *)
    destruct (IH st Hinv Hcur Hfuel Htgt Hdepth Hl')
      as (found & st' & Hr & Hinv' & Hpre & Hch & Hpost).
    exists found, st'. split_and!; try done. destruct found; [done|].
    destruct Hpost as [H1 H2]. split; [done|].
    intros x [->|Hx]%elem_of_cons; [|by apply H2].
    destruct Hinv as (_ & Hvis & _). apply Hvis in Hv.
    destruct Hpre as [k ->]. apply elem_of_app. by left. }
  destruct (dfs_enter_child g start st current (nID nb) Hinv Hcur Hv Hn Hi)
    as (Hinv2 & Hnew & Hframe & Hchild).
  set (w := nID nb) in *.
  set (st2 := Traversal.dfs_set_parent w current st) in *.
  destruct (Hrec w st2 Hinv2) as (found1 & st3 & Hr1 & Hpost1).
  { cbn. rewrite length_app. cbn. lia. }
  { done. }
  { intros Hsize. destruct (Hdepth Hsize) as (path & Hp & Hd).
    destruct (Hchild path Hp) as [Hpw Hlen].
    exists (path ++ [w]). split; [done|]. rewrite length_app. cbn [length].
    rewrite wrap_int_small; lia. }
  rewrite Hr1. destruct Hpost1 as (Hinv3 & Hpre3 & Hch3 & Hpost3).
  assert (Hpre13 : dfs_order st `prefix_of` dfs_order st3).
  { etrans; [|done]. cbn. by apply prefix_app_r. }
  destruct found1.
  { (* found below [w] *)
    exists true, st3. split_and!; [done|done|done|by auto|].
    destruct Hpost3 as (t & path & Ht & Hlast & Hp & Hb). exists t, path.
    split_and!; try done. intros Hsize Hmax. specialize (Hb Hsize Hmax).
    destruct (Hdepth Hsize) as (pc & Hpc & Hd).
    destruct (Hchild pc Hpc) as [_ Hlen].
    rewrite wrap_int_small in Hb by lia.
    rewrite (proj2 (Z.ltb_lt 0 maxDepth) Hmax) in Hlim. cbn in Hlim.
    apply Z.leb_gt in Hlim. lia. }
  destruct Hpost3 as [Htgt3 _].
  destruct (IH st3 Hinv3) as (found & st' & Hr & Hinv' & Hpre & Hch & Hpost).
  { destruct Hpre13 as [k ->]. apply elem_of_app. by left. }
  { destruct Hpre13 as [k Hk]. rewrite Hk, length_app. lia. }
  { done. }
  { intros Hsize. destruct (Hdepth Hsize) as (path & Hp & Hd). exists path. auto. }
  { done. }
  exists found, st'. split_and!; [done|done|by etrans|by auto|].
  destruct found; [done|]. destruct Hpost as [H1 H2]. split; [done|].
  intros x [->|Hx]%elem_of_cons; [|by apply H2].
  destruct Hpre as [k ->]. apply elem_of_app. left.
  destruct Hpre3 as [k' ->]. apply elem_of_app. left. cbn.
  apply elem_of_app. right. by apply list_elem_of_singleton.
Qed.

Lemma dfsRecursive_spec g start target maxDepth :
  ∀ n current depth st,
  dfs_inv g start (Traversal.dfs_enter current st) →
  (Graph.NodeCount g + 2 ≤ n + length (dfs_order (Traversal.dfs_enter current st)))%nat →
  (∀ t, target = Some t → t ∉ dfs_order st) →
  (Z.of_nat (Graph.NodeCount g) < 2 ^ 63 →
   ∃ path, parent_chain g (dfs_parentMap st) start current path ∧
           depth = Z.of_nat (length path) - 1) →
  ∃ found st',
    Traversal.dfsRecursive n g current target maxDepth depth st = Some (found, st') ∧
    dfs_post g start target maxDepth current depth (Traversal.dfs_enter current st) st' found.
Proof.
  induction n as [|n IH]; intros current depth st Hinv Hfuel Htgt Hdepth.
  { pose proof (dfs_inv_bounded _ _ _ Hinv). lia. }
  cbn [Traversal.dfsRecursive].
  set (st1 := Traversal.dfs_enter current st) in *.
  assert (Hcur : current ∈ dfs_order st1).
  { cbn. apply elem_of_app. right. by apply list_elem_of_singleton. }
  assert (Hlast : last (dfs_order st1) = Some current) by (cbn; by rewrite last_snoc).
  case_bool_decide as Ht.
  { (* the target *)
    exists true, st1. split; [done|]. split_and!; try done.
    destruct Hinv as (_ & _ & _ & _ & _ & _ & Hch).
    destruct (Hch current Hcur) as (path & Hp & _).
    exists current, path. split_and!; try done.
    intros Hsize _. destruct (Hdepth Hsize) as (path' & Hp' & ->).
    rewrite (parent_chain_unique _ _ _ _ _ _ Hp Hp'). lia. }
  assert (Htgt1 : ∀ t, target = Some t → t ∉ dfs_order st1).
  { intros t Ht' [H| ->%list_elem_of_singleton]%elem_of_app; [by apply (Htgt t)|done]. }
  destruct ((0 <? maxDepth) && (maxDepth <=? depth)) eqn:Hlim.
  { exists false, st1. split; [done|]. split_and!; try done. intros E. congruence. }
  destruct (Graph.GetNeighbors current g) as [l|err] eqn:Hl.
  2: { exists false, st1. split; [done|]. split_and!; try done.
       intros _ v Hv. unfold neighbor_ids in Hv. rewrite Hl in Hv.
       by apply elem_of_nil in Hv. }
  destruct (dfs_neighbors_spec g start target maxDepth current depth
              (λ id st, Traversal.dfsRecursive n g id target maxDepth (wrap_int (depth + 1)) st)
              n) with (l := l) (st := st1)
    as (found & st' & Hr & Hinv' & Hpre & Hch & Hpost); try done.
  - intros w st0 H1 H2 H3 H4. by apply IH.
  - intros nb Hnb. split; [by eapply neighbor_ids_in|].
    destruct (neighbor_stored _ _ _ _ Hl Hnb) as [k Hk]. by eapply node_ids_stored.
  - exists found, st'. split; [done|]. split_and!; try done.
    destruct found; [done|]. destruct Hpost as [H1 H2]. split; [done|].
    intros _ v Hv. unfold neighbor_ids in Hv. rewrite Hl in Hv.
    apply list_elem_of_fmap in Hv as (nb & -> & Hnb). by apply H2.
Qed.

Lemma dfs_inv_initial g start :
  dfs_inv g start
    (Traversal.dfs_enter start
       {| dfs_visited := ∅; dfs_parentMap := ∅; dfs_order := [] |}).
Proof.
  unfold dfs_inv, Traversal.dfs_enter. cbn [dfs_order dfs_visited dfs_parentMap app].
  split_and!.
  - apply NoDup_singleton.
  - intros v. rewrite list_elem_of_singleton.
    destruct (decide (v = start)) as [->|Hv].
    + by rewrite lookup_insert_eq.
    + rewrite lookup_insert_ne by done. rewrite lookup_empty. cbn.
      split; [done|]. intros ?; done.
  - by apply list_elem_of_singleton.
  - intros v ?%list_elem_of_singleton. by left.
  - intros v [x Hx]. by rewrite lookup_empty in Hx.
  - rewrite map_size_empty. cbn. lia.
  - intros v ->%list_elem_of_singleton. exists [start]. split; [constructor|cbn; lia].
Qed.

Lemma DFS_spec g start target maxDepth :
  is_Some (nodes g !! start) →
  ∃ r st',
    Traversal.DFS g start target maxDepth = Ok r ∧
    dfs_post g start target maxDepth start 0
      (Traversal.dfs_enter start {| dfs_visited := ∅; dfs_parentMap := ∅; dfs_order := [] |})
      st' (Found r) ∧
    VisitedOrder r = dfs_order st' ∧
    if Found r then
      ∃ t, target = Some t ∧ parent_chain g (dfs_parentMap st') start t (Path r) ∧
        Distance r = wrap_int (Z.of_nat (length (Path r)) - 1)
    else Path r = [] ∧ Distance r = 0.
Proof.
  intros [nd Hnd]. unfold Traversal.DFS, Graph.GetNode. rewrite Hnd.
  destruct (dfsRecursive_spec g start target maxDepth (Graph.NodeCount g + 2) start 0
              {| dfs_visited := ∅; dfs_parentMap := ∅; dfs_order := [] |}
              (dfs_inv_initial g start))
    as (found & st' & Hr & Hpost).
  { lia. }
  { intros t _ H. by apply elem_of_nil in H. }
  { intros _. exists [start]. split; [constructor|done]. }
  rewrite Hr. destruct found.
  - pose proof Hpost as (Hinv & _ & _ & (t & path & Ht & Hlast & Hp & _)).
    rewrite Ht. destruct Hinv as (_ & _ & _ & _ & _ & _ & Hch).
    destruct (Hch t) as (path' & Hp' & Hl); [by apply last_Some_elem_of|].
    unfold Traversal.reconstructPath.
    rewrite (reconstructPath_loop_chain g _ _ _ _ Hp') by done. rewrite app_nil_r.
    eexists _, st'. split; [done|]. cbn. rewrite <-Ht. split_and!; try done.
    exists t. done.
  - assert (∃ r, match target with
                 | Some _ | None =>
                   Ok {| VisitedOrder := dfs_order st'; Path := []; Found := false;
                         Distance := 0 |}
                 end = Ok r ∧ VisitedOrder r = dfs_order st' ∧ Found r = false ∧
                 Path r = [] ∧ Distance r = 0) as (r & -> & Hv & Hf & Hp & Hd).
    { destruct target; eexists; split; done. }
    exists r, st'. rewrite Hf. done.
Qed.
End DFSFacts.

(** X28.  [DFS] returns.  On a start node that is not stored it returns
    the not-found error.  On a stored start node it returns a result, for
    every graph, target and depth limit: the visiting order begins with the
    start and names no node twice.  The target is found exactly when it is
    visited: when it was found it is the last node visited, and when it
    was not, it is not in the visiting order, the path is nil and the
    distance 0. *)
Theorem DFS_returns (g : Graph) (start : Z) (target : option Z) (maxDepth : Z) :
  match nodes g !! start with
  | None => Traversal.DFS g start target maxDepth = Err (ErrNodeNotFound start)
  | Some _ =>
    ∃ r, Traversal.DFS g start target maxDepth = Ok r ∧
      head (VisitedOrder r) = Some start ∧ NoDup (VisitedOrder r) ∧
      if Found r then ∃ t, target = Some t ∧ last (VisitedOrder r) = Some t
      else Path r = [] ∧ Distance r = 0 ∧ ∀ t, target = Some t → t ∉ VisitedOrder r
  end.
Proof.
  destruct (nodes g !! start) as [nd|] eqn:Hn.
  2: { unfold Traversal.DFS, Graph.GetNode. by rewrite Hn. }
  destruct (DFS_spec g start target maxDepth) as (r & st' & Hr & Hpost & Hv & Hres);
    [by rewrite Hn|].
  exists r. split; [done|]. rewrite Hv.
  destruct Hpost as (Hinv & Hpre & _ & Hpost). split_and!.
  - destruct Hpre as [k ->]. done.
  - by destruct Hinv.
  - destruct (Found r).
    + destruct Hpost as (t & path & Ht & Hlast & _). by exists t.
    + destruct Hres as [-> ->]. destruct Hpost as [H _]. done.
Qed.

(** X29.  The path that [DFS] returns.  On a consistent graph with fewer
    than 2^63 nodes, when [DFS] finds the target, [Path] leads from the
    start to the target along stored edges, [Distance] is the number of its
    edges, and under a depth limit [maxDepth > 0] the distance is at most
    the limit. *)
Theorem DFS_found_path (g : Graph) (start : Z) (target : option Z) (maxDepth : Z)
    (r : TraversalResult) :
  store_inv g → Z.of_nat (Graph.NodeCount g) < 2 ^ 63 →
  Traversal.DFS g start target maxDepth = Ok r → Found r = true →
  ∃ t, target = Some t ∧ is_path g start (Path r) t ∧
    Distance r = Z.of_nat (length (Path r)) - 1 ∧
    (0 < maxDepth → Distance r ≤ maxDepth).
Proof.
  intros Hg Hsize Hr Hf.
  assert (Hs : is_Some (nodes g !! start)).
  { unfold Traversal.DFS, Graph.GetNode in Hr. by destruct (nodes g !! start). }
  destruct (DFS_spec g start target maxDepth Hs) as (r' & st' & Hr' & Hpost & Hv & Hres).
  rewrite Hr in Hr'. injection Hr' as <-. rewrite Hf in Hpost, Hres.
  destruct Hres as (t & Ht & Hp & Hd).
  destruct Hpost as (Hinv & _ & _ & (t' & path & Ht' & Hlast & Hp' & Hb)).
  rewrite Ht in Ht'. injection Ht' as <-.
  rewrite (parent_chain_unique _ _ _ _ _ _ Hp' Hp) in Hb.
  pose proof (dfs_inv_bounded _ _ _ Hinv) as Hlen.
  destruct Hinv as (_ & _ & _ & _ & _ & Hsz & Hch).
  destruct (Hch t) as (path' & Hp'' & Hl); [by apply last_Some_elem_of|].
  rewrite (parent_chain_unique _ _ _ _ _ _ Hp'' Hp) in Hl.
  assert (Hpos : (0 < length (Path r))%nat).
  { destruct (parent_chain_ends _ _ _ _ _ Hp) as [H _]. destruct (Path r); [done|cbn; lia]. }
  rewrite wrap_int_small in Hd by lia.
  exists t. split; [done|]. split; [by apply (parent_chain_path _ _ _ _ _ Hg Hp)|].
  split; [done|]. intros Hmax. specialize (Hb Hsize Hmax). lia.
Qed.

Lemma DFS_found_path_witness :
  ∃ t, Some 2 = Some t ∧ is_path sample_graph 1 [1; 2] t ∧
    1 = Z.of_nat (length [1; 2]) - 1 ∧ (0 < 1 → 1 ≤ 1).
Proof.
  apply (DFS_found_path sample_graph 1 (Some 2) 1
           {| VisitedOrder := [1; 2]; Path := [1; 2]; Found := true; Distance := 1 |}
           sample_graph_store_inv); by vm_compute.
Defined.

(** X30.  The depth limit differs by one between the two searches.  On a
    consistent graph with fewer than 2^63 nodes, for a target that is
    another node than the start and has an edge from the start, and the
    depth limit 1: [BFS] visits the target and reports it as not found,
    [DFS] finds it, at distance 1. *)
Theorem depth_limit_BFS_DFS (g : Graph) (start t : Z) :
  store_inv g → Z.of_nat (Graph.NodeCount g) < 2 ^ 63 →
  has_edge g start t → t ≠ start →
  ∃ rb rd,
    Traversal.BFS g start (Some t) 1 = Ok rb ∧ Found rb = false ∧ t ∈ VisitedOrder rb ∧
    Traversal.DFS g start (Some t) 1 = Ok rd ∧ Found rd = true ∧ Distance rd = 1.
Proof.
  intros Hg Hsize He Hne.
  assert (Hs : is_Some (nodes g !! start)).
  { destruct He as (e & ed & Hed & <- & _).
    destruct Hg as (_ & _ & Hd & _). by destruct (Hd e ed Hed). }
  pose proof (proj2 (neighbor_ids_has_edge g start t Hg) He) as Hnb.
  destruct (BFS_spec g start (Some t) 1 Hs) as (rb & stb & Hrb & [Hinvb Hpostb] & _).
  destruct (DFS_spec g start (Some t) 1 Hs) as (rd & std & Hrd & Hpostd & Hvd & Hresd).
  exists rb, rd.
  assert (Hfb : Found rb = false).
  { destruct (Found rb); [|done]. exfalso.
    destruct Hpostb as (t' & [= <-] & Hlast & Hp & _ & Hlim).
    destruct Hinvb as (_ & _ & _ & _ & _ & _ & Hch).
    destruct (Hch t) as (path & Hp' & _ & Hdm).
    { apply elem_of_app. left. by apply last_Some_elem_of. }
    unfold depth_limited in Hlim. rewrite (Hdm Hsize) in Hlim. cbn in Hlim.
    apply Z.leb_gt in Hlim. unfold id in Hlim.
    destruct (parent_chain_ends _ _ _ _ _ Hp') as [Hh Hl].
    destruct path as [|x [|y path]]; cbn in *; [done| |lia]. congruence. }
  assert (Hfd : Found rd = true).
  { destruct (Found rd); [done|]. exfalso.
    destruct Hpostd as (_ & _ & _ & Hno & Hcl).
    apply (Hno t eq_refl), Hcl; done. }
  split_and!; try done.
  - rewrite Hfb in Hpostb. destruct Hpostb as (_ & _ & Hq & Hcl).
    pose proof Hinvb as (_ & _ & Hstart & _). rewrite Hq, app_nil_r in Hstart.
    destruct (Hcl start Hstart) as [H|[_ H]].
    + unfold depth_limited in H. fold (bfs_dist stb start) in H.
      by rewrite (bfs_dist_start g start stb (VisitedOrder rb) Hsize Hinvb) in H.
    + specialize (H t Hnb). by rewrite Hq, app_nil_r in H.
  - rewrite Hfd in Hpostd, Hresd.
    destruct Hresd as (t' & [= <-] & Hp & Hd).
    destruct Hpostd as (Hinv & _ & _ & (t' & path & [= <-] & Hlast & Hp' & Hb)).
    rewrite (parent_chain_unique _ _ _ _ _ _ Hp' Hp) in Hb.
    specialize (Hb Hsize ltac:(lia)).
    destruct (parent_chain_ends _ _ _ _ _ Hp) as [Hh Hl].
    destruct (Path rd) as [|x [|y path']]; cbn in *; [done|congruence|].
    rewrite wrap_int_small in Hd by lia. lia.
Qed.

Lemma depth_limit_BFS_DFS_witness :
  ∃ rb rd,
    Traversal.BFS sample_graph 1 (Some 2) 1 = Ok rb ∧ Found rb = false ∧
    2 ∈ VisitedOrder rb ∧
    Traversal.DFS sample_graph 1 (Some 2) 1 = Ok rd ∧ Found rd = true ∧ Distance rd = 1.
Proof.
  apply (depth_limit_BFS_DFS sample_graph 1 2 sample_graph_store_inv);
    [by vm_compute| |done].
  eexists 1, _. split_and!; by vm_compute.
Defined.
